(** * FluidGrid: a shallow embedding of the stable-fluids solver

    The embedding follows [cpp/fluidSim/src/FluidGrid.cpp].  The seven
    [calloc]'ed buffers are blocks of a small heap, the pointer members of
    the class are fields holding block names, and every method is a
    state transformer, so that pointer swaps and the aliasing they create
    are visible.

    The source computes on [float] and [double].  The embedding is
    written once over an arithmetic signature [Arith], so that what a
    kernel stores can be stated for every arithmetic, and it is run in
    IEEE-754 binary32/binary64 (from [SpecFloat]), where rounding,
    overflow, infinities and NaN are those of the machine.  [int] values
    are modelled by [Z]; the index expressions of the source stay far below
    2^31 for every grid that [calloc (size * size)] can allocate. *)

From Stdlib Require Import ZArith Lia List Bool FinFun SpecFloat.
Import ListNotations.
Local Open Scope Z_scope.

(** ** Arithmetic signature *)

Record Arith : Type := mkArith {
  F : Type;                         (* float *)
  D : Type;                         (* double *)
  fadd : F -> F -> F;
  fsub : F -> F -> F;
  fmul : F -> F -> F;
  fdiv : F -> F -> F;
  fopp : F -> F;
  ffma : F -> F -> F -> F;          (* a * b + c, rounded once *)
  fltb : F -> F -> bool;            (* a < b *)
  ffloor : F -> F;                  (* _mm256_floor_ps, per lane *)
  f_of_int : Z -> F;                (* (float) i *)
  int_of_f : F -> Z;                (* (int) f, truncation *)
  cvt_int : F -> Z;                 (* _mm256_cvtps_epi32, per lane *)
  f_lit : Z -> Z -> F;              (* the literal m * 2^e *)
  dsub : D -> D -> D;
  dmul : D -> D -> D;
  dltb : D -> D -> bool;            (* a < b on double *)
  d_of_int : Z -> D;                (* (double) i *)
  d_of_f : F -> D;                  (* float promoted to double *)
  f_of_d : D -> F;                  (* (float) d *)
  feq : F -> F -> Prop;             (* numerical equality, == of the source *)
  feqb : F -> F -> bool
}.

(** ** IEEE-754 interpretation *)

Module IEEE.

Definition prec32 : Z := 24.
Definition emax32 : Z := 128.
Definition prec64 : Z := 53.
Definition emax64 : Z := 1024.

Definition of_Z (prec emax : Z) (z : Z) : spec_float :=
  binary_normalize prec emax z 0 false.

Definition lit (prec emax : Z) (m e : Z) : spec_float :=
  binary_normalize prec emax m e false.

(** Change of format; exact when widening, one rounding when narrowing. *)
Definition convert (prec emax : Z) (x : spec_float) : spec_float :=
  match x with
  | S754_finite s m e => binary_round prec emax s m e
  | _ => x
  end.

Definition ltb (x y : spec_float) : bool := SFltb x y.

(** Integer part towards minus infinity of a finite value m * 2^e. *)
Definition floorZ (s : bool) (m : positive) (e : Z) : Z :=
  let v := cond_Zopp s (Zpos m) in
  if 0 <=? e then Z.shiftl v e else Z.shiftr v (- e).

Definition floor (prec emax : Z) (x : spec_float) : spec_float :=
  match x with
  | S754_finite s m e =>
      if 0 <=? e then x
      else match floorZ s m e with
           | Z0 => S754_zero s
           | z => binary_normalize prec emax z 0 false
           end
  | _ => x
  end.

Definition int_min : Z := - 2 ^ 31.

Definition in_int (z : Z) : Z :=
  if (int_min <=? z) && (z <? 2 ^ 31) then z else int_min.

(** [(int) f]: truncation towards zero; values that do not fit (and NaN)
    give the "integer indefinite" value of the x86 conversion. *)
Definition truncate (x : spec_float) : Z :=
  match x with
  | S754_zero _ => 0
  | S754_finite s m e =>
      in_int (cond_Zopp s (if 0 <=? e then Z.shiftl (Zpos m) e
                           else Z.shiftr (Zpos m) (- e)))
  | _ => int_min
  end.

(** [cvtps_epi32]: round to nearest, ties to even. *)
Definition nearest (x : spec_float) : Z :=
  match x with
  | S754_zero _ => 0
  | S754_finite s m e =>
      if 0 <=? e then in_int (cond_Zopp s (Z.shiftl (Zpos m) e))
      else
        let q := Z.shiftr (Zpos m) (- e) in
        let r := Zpos m - Z.shiftl q (- e) in
        let half := Z.shiftl 1 (- e - 1) in
        let up := if r <? half then false
                  else if half <? r then true
                  else Z.odd q in
        in_int (cond_Zopp s (if up then q + 1 else q))
  | _ => int_min
  end.

(** Fused multiply-add: the exact product is added to [z] and the sum is
    rounded once. *)
Definition fma (prec emax : Z) (x y z : spec_float) : spec_float :=
  match x, y with
  | S754_nan, _ | _, S754_nan => S754_nan
  | S754_infinity _, S754_zero _ | S754_zero _, S754_infinity _ => S754_nan
  | S754_infinity sx, S754_infinity sy
  | S754_infinity sx, S754_finite sy _ _
  | S754_finite sx _ _, S754_infinity sy =>
      match z with
      | S754_nan => S754_nan
      | S754_infinity sz =>
          if Bool.eqb (xorb sx sy) sz then z else S754_nan
      | _ => S754_infinity (xorb sx sy)
      end
  | S754_zero sx, S754_zero sy
  | S754_zero sx, S754_finite sy _ _
  | S754_finite sx _ _, S754_zero sy =>
      match z with
      | S754_zero sz =>
          if Bool.eqb (xorb sx sy) sz then z else S754_zero false
      | _ => z
      end
  | S754_finite sx mx ex, S754_finite sy my ey =>
      match z with
      | S754_nan => S754_nan
      | S754_infinity _ => z
      | S754_zero _ => SFmul prec emax x y
      | S754_finite sz mz ez =>
          let ep := ex + ey in
          let e := Z.min ep ez in
          let p := cond_Zopp (xorb sx sy) (Z.shiftl (Zpos (mx * my)) (ep - e)) in
          let a := cond_Zopp sz (Z.shiftl (Zpos mz) (ez - e)) in
          binary_normalize prec emax (p + a) e false
      end
  end.

Definition arith : Arith := {|
  F := spec_float;
  D := spec_float;
  fadd := SFadd prec32 emax32;
  fsub := SFsub prec32 emax32;
  fmul := SFmul prec32 emax32;
  fdiv := SFdiv prec32 emax32;
  fopp := SFopp;
  ffma := fma prec32 emax32;
  fltb := ltb;
  ffloor := floor prec32 emax32;
  f_of_int := of_Z prec32 emax32;
  int_of_f := truncate;
  cvt_int := nearest;
  f_lit := lit prec32 emax32;
  dsub := SFsub prec64 emax64;
  dmul := SFmul prec64 emax64;
  dltb := ltb;
  d_of_int := of_Z prec64 emax64;
  d_of_f := convert prec64 emax64;
  f_of_d := convert prec32 emax32;
  feq := fun a b => SFeqb a b = true;
  feqb := SFeqb
|}.

End IEEE.

(** ** Memory: blocks, pointers, buffers *)

(** One block per [calloc] of the constructor, named after the member the
    constructor stores it in. *)
Inductive block : Type :=
  | BDensity | BPrevDensity
  | BVelocityX | BPrevVelocityX
  | BVelocityY | BPrevVelocityY
  | BTmp.

Definition block_eqb (a b : block) : bool :=
  match a, b with
  | BDensity, BDensity | BPrevDensity, BPrevDensity
  | BVelocityX, BVelocityX | BPrevVelocityX, BPrevVelocityX
  | BVelocityY, BVelocityY | BPrevVelocityY, BPrevVelocityY
  | BTmp, BTmp => true
  | _, _ => false
  end.

Inductive Direction : Type := HORIZONTAL | VERTICAL | NONE.

Definition is_horizontal (d : Direction) : bool :=
  match d with HORIZONTAL => true | _ => false end.

Definition is_vertical (d : Direction) : bool :=
  match d with VERTICAL => true | _ => false end.

(** A counted [for] loop is the fold of its body over its iteration space. *)
Definition for_each {S X : Type} (xs : list X) (body : X -> S -> S) (s : S) : S :=
  fold_left (fun acc x => body x acc) xs s.

(** [for (i = lo; i < hi; i++)] *)
Definition upto (lo hi : Z) : list Z :=
  map (fun k => lo + Z.of_nat k) (seq 0 (Z.to_nat (hi - lo))).

(** [for (x = lo; x < hi; x += 8)] *)
Definition stride8 (lo hi : Z) : list Z :=
  map (fun k => lo + 8 * Z.of_nat k) (seq 0 (Z.to_nat ((hi - lo + 7) / 8))).

(** The value of [x] when the strided loop is left. *)
Definition after_stride8 (lo hi : Z) : Z :=
  lo + 8 * Z.of_nat (length (stride8 lo hi)).

(** The eight lanes of a 256-bit vector of floats. *)
Definition lanes : list Z := [0; 1; 2; 3; 4; 5; 6; 7].

(** ** Construction *)

Inductive ptr : Type := NULL | Ptr (b : block).

Definition is_null (p : ptr) : bool :=
  match p with NULL => true | Ptr _ => false end.

(** The pointer members as the constructor leaves them. *)
Record Members : Type := mkMembers {
  m_size : Z;
  m_density : ptr; m_prevDensity : ptr;
  m_velocityX : ptr; m_prevVelocityX : ptr;
  m_velocityY : ptr; m_prevVelocityY : ptr;
  m_tmp : ptr
}.

Inductive construction : Type :=
  | Thrown                      (* std::runtime_error *)
  | Constructed (g : Members).

(** [calloc] at allocation site [b] returns the block or a null pointer. *)
Definition calloc (succeeds : block -> bool) (b : block) : ptr :=
  if succeeds b then Ptr b else NULL.

(** [FluidGrid::FluidGrid(int size)] *)
Definition FluidGrid_new (succeeds : block -> bool) (size : Z) : construction :=
  let density := calloc succeeds BDensity in
  let prevDensity := calloc succeeds BPrevDensity in
  let velocityX := calloc succeeds BVelocityX in
  let prevVelocityX := calloc succeeds BPrevVelocityX in
  let velocityY := calloc succeeds BVelocityY in
  let prevVelocityY := calloc succeeds BPrevVelocityY in
  let tmp := calloc succeeds BTmp in
  if negb (negb (is_null density) && negb (is_null prevDensity)
           && negb (is_null velocityX) && negb (is_null prevVelocityX)
           && negb (is_null velocityY) && negb (is_null prevVelocityY))
  then Thrown
  else Constructed (mkMembers size density prevDensity velocityX prevVelocityX
                              velocityY prevVelocityY tmp).

(** Modelled from the spec: [ThreadPool::computeOnThreads] is declared in a
    file that is not part of the sources.  The specification gives it as a
    blocking parallel-for that "partitions [0, rangeSize) into workerCount
    contiguous, non-overlapping chunks (remainder distributed across the
    first chunks ...)" with a worker count of 6.  [specPool n] is that list
    of chunks. *)
Definition specPool_from (workers : Z) (n : Z) : list (Z * Z) :=
  let q := n / workers in
  let r := n mod workers in
  map (fun k => let k := Z.of_nat k in
                (k * q + Z.min k r, (k + 1) * q + Z.min (k + 1) r))
      (seq 0 (Z.to_nat workers)).

Definition specPool : Z -> list (Z * Z) := specPool_from 6.

(** ** The solver *)

Section Solver.

Variable A : Arith.

(** The row ranges the worker pool hands out for a range size; one
    invocation of the kernel per chunk.  The kernels of one pass are run
    one chunk after the other: the join at the end of
    [computeOnThreads] makes the pass atomic for its caller. *)
Variable pool : Z -> list (Z * Z).

Infix "+f" := (fadd A) (at level 50, left associativity).
Infix "-f" := (fsub A) (at level 50, left associativity).
Infix "*f" := (fmul A) (at level 40, left associativity).
Infix "/f" := (fdiv A) (at level 40, left associativity).
Notation "'#' z" := (f_of_int A z) (at level 9, z at level 9, format "# z").

(** A buffer maps a cell index to its value.  The cells [0 .. size*size)
    are the allocation; the source also reads rows [-1] and [size] when a
    kernel is given a boundary row, which C++ leaves undefined: the model
    lets such a read see whatever the map holds there, and no theorem
    below constrains those cells. *)
Definition buffer : Type := Z -> F A.
Definition heap : Type := block -> buffer.

Definition upd (h : heap) (p : block) (i : Z) (v : F A) : heap :=
  fun q j => if block_eqb q p && (j =? i) then v else h q j.

Record FluidGrid : Type := mkGrid {
  size : Z;
  density : block; prevDensity : block;
  velocityX : block; prevVelocityX : block;
  velocityY : block; prevVelocityY : block;
  tmp : block;
  mem : heap
}.

Definition set_mem (s : FluidGrid) (h : heap) : FluidGrid :=
  mkGrid (size s) (density s) (prevDensity s) (velocityX s) (prevVelocityX s)
         (velocityY s) (prevVelocityY s) (tmp s) h.

Definition set_tmp (s : FluidGrid) (p : block) : FluidGrid :=
  mkGrid (size s) (density s) (prevDensity s) (velocityX s) (prevVelocityX s)
         (velocityY s) (prevVelocityY s) p (mem s).

(** [std::swap(this->density, this->prevDensity)] and its siblings *)
Definition swap_density (s : FluidGrid) : FluidGrid :=
  mkGrid (size s) (prevDensity s) (density s) (velocityX s) (prevVelocityX s)
         (velocityY s) (prevVelocityY s) (tmp s) (mem s).

Definition swap_velocityX (s : FluidGrid) : FluidGrid :=
  mkGrid (size s) (density s) (prevDensity s) (prevVelocityX s) (velocityX s)
         (velocityY s) (prevVelocityY s) (tmp s) (mem s).

Definition swap_velocityY (s : FluidGrid) : FluidGrid :=
  mkGrid (size s) (density s) (prevDensity s) (velocityX s) (prevVelocityX s)
         (prevVelocityY s) (velocityY s) (tmp s) (mem s).

Definition load (s : FluidGrid) (p : block) (i : Z) : F A := mem s p i.

Definition store (p : block) (i : Z) (v : F A) (s : FluidGrid) : FluidGrid :=
  set_mem s (upd (mem s) p i v).

(** The state after every allocation of the constructor succeeded:
    [calloc] zeroes the buffers. *)
Definition fresh (n : Z) : FluidGrid :=
  mkGrid n BDensity BPrevDensity BVelocityX BPrevVelocityX
         BVelocityY BPrevVelocityY BTmp (fun _ _ => #0).

(** *** Vector registers *)

Definition m256 : Type := Z -> F A.       (* lane |-> float *)
Definition m256i : Type := Z -> Z.      (* lane |-> int *)

Definition set1_ps (c : F A) : m256 := fun _ => c.
Definition loadu_ps (s : FluidGrid) (p : block) (i : Z) : m256 :=
  fun l => load s p (i + l).
Definition storeu_ps (p : block) (i : Z) (v : m256) (s : FluidGrid) : FluidGrid :=
  for_each lanes (fun l acc => store p (i + l) (v l) acc) s.
Definition i32gather_ps (s : FluidGrid) (p : block) (base : Z) (idx : m256i) : m256 :=
  fun l => load s p (base + idx l).
Definition add_ps (a b : m256) : m256 := fun l => a l +f b l.
Definition sub_ps (a b : m256) : m256 := fun l => a l -f b l.
Definition mul_ps (a b : m256) : m256 := fun l => a l *f b l.
Definition fmadd_ps (a b c : m256) : m256 := fun l => ffma A (a l) (b l) (c l).
Definition max_ps (a b : m256) : m256 := fun l => if fltb A (b l) (a l) then a l else b l.
Definition min_ps (a b : m256) : m256 := fun l => if fltb A (a l) (b l) then a l else b l.
Definition floor_ps (a : m256) : m256 := fun l => ffloor A (a l).
Definition cvtps_epi32 (a : m256) : m256i := fun l => cvt_int A (a l).

(** [std::clamp] *)
Definition clamp (v lo hi : F A) : F A :=
  if fltb A v lo then lo else if fltb A hi v then hi else v.

(** [ThreadPool::computeOnThreads(size, work)] *)
Definition computeOnThreads (rangeSize : Z)
           (work : Z -> Z -> FluidGrid -> FluidGrid) (s : FluidGrid) : FluidGrid :=
  for_each (pool rangeSize) (fun c acc => work (fst c) (snd c) acc) s.

(** *** Perturbation *)

Definition addVelocity (x y : Z) (amountX amountY dt : F A) (s : FluidGrid) : FluidGrid :=
  let i := x + y * size s in
  let s := store (velocityX s) i
                 (load s (velocityX s) i +f amountX *f dt *f #(size s)) s in
  store (velocityY s) i
        (load s (velocityY s) i +f amountY *f dt *f #(size s)) s.

Definition addDensity (x y : Z) (amount dt : F A) (s : FluidGrid) : FluidGrid :=
  let i := x + y * size s in
  store (density s) i (load s (density s) i +f amount *f dt *f #(size s)) s.

(** *** Boundary conditions *)

Definition neg_if (c : bool) (v : F A) : F A := if c then fopp A v else v.

Definition setBounds (direction : Direction) (arr : block) (s : FluidGrid) : FluidGrid :=
  let n := size s in
  let h := is_horizontal direction in
  let v := is_vertical direction in
  let s := for_each (upto 1 (n - 1)) (fun i s =>
    let s := store arr (0 + i * n) (neg_if h (load s arr (1 + i * n))) s in
    let s := store arr ((n - 1) + i * n) (neg_if h (load s arr ((n - 2) + i * n))) s in
    let s := store arr (i + 0 * n) (neg_if v (load s arr (i + 1 * n))) s in
    store arr (i + (n - 1) * n) (neg_if v (load s arr (i + (n - 2) * n))) s) s in
  let s := store arr (0 + 0 * n)
    (f_lit A 1 (-1) *f (load s arr (1 + 0 * n) +f load s arr (0 + 1 * n))) s in
  let s := store arr ((n - 1) + 0 * n)
    (f_lit A 1 (-1) *f (load s arr ((n - 2) + 0 * n) +f load s arr ((n - 1) + 1 * n))) s in
  let s := store arr (0 + (n - 1) * n)
    (f_lit A 1 (-1) *f (load s arr (0 + (n - 2) * n) +f load s arr (1 + (n - 1) * n))) s in
  store arr ((n - 1) + (n - 1) * n)
    (f_lit A 1 (-1) *f (load s arr ((n - 2) + (n - 1) * n)
                        +f load s arr ((n - 1) + (n - 2) * n))) s.

(** *** Advection *)

(** The source position of one cell and the four weights, scalar path. *)
Definition advect_scalar_cell (s : FluidGrid) (prevArr velX velY : block)
           (scaling maxClamp : F A) (x y : Z) : F A :=
  let n := size s in
  let prevX := #x -f load s velX (x + y * n) *f scaling in
  let prevY := #y -f load s velY (x + y * n) *f scaling in
  let prevX := clamp prevX (f_lit A 1 (-1)) maxClamp in
  let prevY := clamp prevY (f_lit A 1 (-1)) maxClamp in
  let prevXInt := int_of_f A prevX in
  let prevYInt := int_of_f A prevY in
  let prevXDecimals := prevX -f #prevXInt in
  let prevXRemainingDecimals := f_lit A 1 0 -f prevXDecimals in
  let prevYDecimals := prevY -f #prevYInt in
  let prevYRemainingDecimals := f_lit A 1 0 -f prevYDecimals in
  prevXRemainingDecimals
    *f (prevYRemainingDecimals *f load s prevArr (prevXInt + prevYInt * n)
        +f prevYDecimals *f load s prevArr (prevXInt + (prevYInt + 1) * n))
  +f prevXDecimals
    *f (prevYRemainingDecimals *f load s prevArr ((prevXInt + 1) + prevYInt * n)
        +f prevYDecimals *f load s prevArr ((prevXInt + 1) + (prevYInt + 1) * n)).

(** Eight cells at once, starting at column [x]. *)
Definition advect_vector_cells (s : FluidGrid) (prevArr velX velY : block)
           (scaling maxClamp : F A) (x y : Z) : m256 :=
  let n := size s in
  let _xIncrements : m256 := fun l => f_lit A l 0 in
  let _scaling := set1_ps scaling in
  let _maxClamp := set1_ps maxClamp in
  let _minClamp := set1_ps (f_lit A 1 (-1)) in
  let _one := set1_ps (f_lit A 1 0) in
  let _size : m256i := fun _ => n in
  let _y := set1_ps #y in
  let _x := set1_ps #x in
  let _x := add_ps _x _xIncrements in
  let _prevX := loadu_ps s velX (x + y * n) in
  let _prevY := loadu_ps s velY (x + y * n) in
  let _prevX := mul_ps _prevX _scaling in
  let _prevY := mul_ps _prevY _scaling in
  let _prevX := sub_ps _x _prevX in
  let _prevY := sub_ps _y _prevY in
  let _prevX := max_ps _prevX _minClamp in
  let _prevX := min_ps _prevX _maxClamp in
  let _prevY := max_ps _prevY _minClamp in
  let _prevY := min_ps _prevY _maxClamp in
  let _prevXRound := floor_ps _prevX in
  let _prevYRound := floor_ps _prevY in
  let _prevXInt := cvtps_epi32 _prevXRound in
  let _prevYInt := cvtps_epi32 _prevYRound in
  let _prevXDecimals := sub_ps _prevX _prevXRound in
  let _prevYDecimals := sub_ps _prevY _prevYRound in
  let _prevXRemainingDecimals := sub_ps _one _prevXDecimals in
  let _prevYRemainingDecimals := sub_ps _one _prevYDecimals in
  let _prevIndices : m256i := fun l => _prevYInt l * _size l in
  let _prevIndices : m256i := fun l => _prevIndices l + _prevXInt l in
  let _middle := i32gather_ps s prevArr 0 _prevIndices in
  let _right := i32gather_ps s prevArr 1 _prevIndices in
  let _down := i32gather_ps s prevArr n _prevIndices in
  let _downRight := i32gather_ps s prevArr (n + 1) _prevIndices in
  let _middleScaling := mul_ps _prevXRemainingDecimals _prevYRemainingDecimals in
  let _downScaling := mul_ps _prevXRemainingDecimals _prevYDecimals in
  let _rightScaling := mul_ps _prevXDecimals _prevYRemainingDecimals in
  let _downRightScaling := mul_ps _prevXDecimals _prevYDecimals in
  let _result := mul_ps _middle _middleScaling in
  let _result := fmadd_ps _down _downScaling _result in
  let _result := fmadd_ps _right _rightScaling _result in
  fmadd_ps _downRight _downRightScaling _result.

(** [FluidGrid::advectLoop]; the row range it is handed is not used. *)
Definition advectLoop (startIndex endIndex : Z) (arr prevArr velX velY : block)
           (dt : F A) (s : FluidGrid) : FluidGrid :=
  let n := size s in
  let scaling := dt *f #n in
  let maxClamp := #n -f f_lit A 3 (-1) in
  for_each (upto 1 (n - 1)) (fun y s =>
    let s := for_each (stride8 1 (n - 9)) (fun x s =>
      storeu_ps arr (x + y * n)
                (advect_vector_cells s prevArr velX velY scaling maxClamp x y) s) s in
    for_each (upto (after_stride8 1 (n - 9)) (n - 1)) (fun x s =>
      store arr (x + y * n)
            (advect_scalar_cell s prevArr velX velY scaling maxClamp x y) s) s) s.

(** [FluidGrid::advect] *)
Definition advect (direction : Direction) (arr prevArr velX velY : block)
           (dt : F A) (s : FluidGrid) : FluidGrid :=
  let s := computeOnThreads (size s) (fun startIndex endIndex =>
             advectLoop startIndex endIndex arr prevArr velX velY dt) s in
  setBounds direction arr s.

(** *** Jacobi relaxation *)

Definition linearSolve_scalar_cell (s : FluidGrid) (arr prevArr : block)
           (neighborDiffusion reciprocalScaling : F A) (x y : Z) : F A :=
  let n := size s in
  let neighbors :=
    neighborDiffusion *f (load s arr (x + ((y - 1) * n))
                          +f load s arr (x + ((y + 1) * n))
                          +f load s arr ((x - 1) + (y * n))
                          +f load s arr ((x + 1) + (y * n))) in
  let previous := load s prevArr (x + y * n) in
  (previous +f neighbors) *f reciprocalScaling.

Definition linearSolve_vector_cells (s : FluidGrid) (arr prevArr : block)
           (_neighborDiffusion _reciprocalScaling : m256) (x y : Z) : m256 :=
  let n := size s in
  let _up := loadu_ps s arr (x + (y - 1) * n) in
  let _left := loadu_ps s arr ((x - 1) + y * n) in
  let _right := loadu_ps s arr ((x + 1) + y * n) in
  let _down := loadu_ps s arr (x + (y + 1) * n) in
  let _cell := loadu_ps s prevArr (x + y * n) in
  let _cell := fmadd_ps _up _neighborDiffusion _cell in
  let _cell := fmadd_ps _left _neighborDiffusion _cell in
  let _cell := fmadd_ps _right _neighborDiffusion _cell in
  let _cell := fmadd_ps _down _neighborDiffusion _cell in
  mul_ps _cell _reciprocalScaling.

(** [FluidGrid::linearSolveLoop]; the results go to the member [tmp]. *)
Definition linearSolveLoop (startIndex endIndex : Z) (arr prevArr : block)
           (neighborDiffusion : F A) (_neighborDiffusion : m256)
           (reciprocalScaling : F A) (_reciprocalScaling : m256)
           (s : FluidGrid) : FluidGrid :=
  let n := size s in
  for_each (upto startIndex endIndex) (fun y s =>
    let s := for_each (stride8 1 (n - 9)) (fun x s =>
      storeu_ps (tmp s) (x + y * n)
                (linearSolve_vector_cells s arr prevArr
                   _neighborDiffusion _reciprocalScaling x y) s) s in
    for_each (upto (after_stride8 1 (n - 9)) (n - 1)) (fun x s =>
      store (tmp s) (x + y * n)
            (linearSolve_scalar_cell s arr prevArr
               neighborDiffusion reciprocalScaling x y) s) s) s.

(** One turn of the relaxation loop.  [arr] is the by-value pointer
    parameter of [linearSolve]: [std::swap(tmp, arr)] exchanges it with the
    member [tmp], and the caller's pointer is not affected. *)
Definition linearSolve_iteration (direction : Direction) (prevArr : block)
           (neighborDiffusion reciprocalScaling : F A)
           (st : FluidGrid * block) : FluidGrid * block :=
  let '(s, arr) := st in
  let _reciprocalScaling := set1_ps reciprocalScaling in
  let _neighborDiffusion := set1_ps neighborDiffusion in
  let s := computeOnThreads (size s) (fun startIndex endIndex =>
             linearSolveLoop startIndex endIndex arr prevArr
               neighborDiffusion _neighborDiffusion
               reciprocalScaling _reciprocalScaling) s in
  let '(s, arr) := (set_tmp s arr, tmp s) in
  (setBounds direction arr s, arr).

(** The relaxation loop, with the local [arr] it ends with. *)
Definition linearSolve_loop (direction : Direction) (iterations : Z)
           (arr prevArr : block) (neighborDiffusion scaling : F A)
           (s : FluidGrid) : FluidGrid * block :=
  let reciprocalScaling := f_lit A 1 0 /f scaling in
  Nat.iter (Z.to_nat iterations)
           (linearSolve_iteration direction prevArr neighborDiffusion reciprocalScaling)
           (s, arr).

(** [FluidGrid::linearSolve] *)
Definition linearSolve (direction : Direction) (iterations : Z)
           (arr prevArr : block) (neighborDiffusion scaling : F A)
           (s : FluidGrid) : FluidGrid :=
  fst (linearSolve_loop direction iterations arr prevArr neighborDiffusion scaling s).

(** The two values [diffuse] derives from its rate and time step. *)
Definition diffuse_neighborDiffusion (n : Z) (dt : F A) (diffusion : D A) : F A :=
  f_of_d A (dmul A (dmul A (dmul A diffusion (d_of_f A dt)) (d_of_int A n))
                 (d_of_int A n)).

Definition diffuse_scaling (neighborDiffusion : F A) : F A :=
  #1 +f #4 *f neighborDiffusion.

(** [FluidGrid::diffuse] *)
Definition diffuse (direction : Direction) (iterations : Z) (arr prevArr : block)
           (dt : F A) (diffusion : D A) (s : FluidGrid) : FluidGrid :=
  let neighborDiffusion := diffuse_neighborDiffusion (size s) dt diffusion in
  let scaling := diffuse_scaling neighborDiffusion in
  linearSolve direction iterations arr prevArr neighborDiffusion scaling s.

(** *** Projection *)

Definition heightMap_scalar_cell (s : FluidGrid) (velX velY : block)
           (sizeReciprocal : F A) (x y : Z) : F A :=
  let n := size s in
  f_lit A (-1) (-1)
    *f (load s velX ((x - 1) + y * n) -f load s velX ((x + 1) + y * n)
        +f load s velY (x + (y - 1) * n) -f load s velY (x + (y + 1) * n))
    *f sizeReciprocal.

Definition heightMap_vector_cells (s : FluidGrid) (velX velY : block)
           (_sizeReciprocal _minusHalf : m256) (x y : Z) : m256 :=
  let n := size s in
  let _up := loadu_ps s velY (x + (y - 1) * n) in
  let _down := loadu_ps s velY (x + (y + 1) * n) in
  let _left := loadu_ps s velX ((x - 1) + y * n) in
  let _right := loadu_ps s velX ((x + 1) + y * n) in
  let _x := sub_ps _left _right in
  let _y := sub_ps _up _down in
  let _cell := add_ps _x _y in
  let _cell := mul_ps _cell _minusHalf in
  mul_ps _cell _sizeReciprocal.

(** [FluidGrid::projectHeightMapLoop] *)
Definition projectHeightMapLoop (startIndex endIndex : Z) (velX velY p div : block)
           (s : FluidGrid) : FluidGrid :=
  let n := size s in
  let sizeReciprocal := f_lit A 1 0 /f #n in
  let _sizeReciprocal := set1_ps sizeReciprocal in
  let _minusHalf := set1_ps (f_lit A (-1) (-1)) in
  let _zero := set1_ps (f_lit A 0 0) in
  for_each (upto startIndex endIndex) (fun y s =>
    let s := for_each (stride8 1 (n - 9)) (fun x s =>
      let _cell := heightMap_vector_cells s velX velY _sizeReciprocal _minusHalf x y in
      let s := storeu_ps div (x + y * n) _cell s in
      storeu_ps p (x + y * n) _zero s) s in
    for_each (upto (after_stride8 1 (n - 9)) (n - 1)) (fun x s =>
      let s := store div (x + y * n)
                     (heightMap_scalar_cell s velX velY sizeReciprocal x y) s in
      store p (x + y * n) #0 s) s) s.

(** [FluidGrid::projectMassConservLoop]; it updates the members
    [velocityX] and [velocityY], not the pointers [project] was given. *)
Definition projectMassConservLoop (startIndex endIndex : Z) (p div : block)
           (s : FluidGrid) : FluidGrid :=
  let n := size s in
  let _size := set1_ps #n in
  let _minusHalf := set1_ps (f_lit A (-1) (-1)) in
  for_each (upto startIndex endIndex) (fun y s =>
    let s := for_each (stride8 1 (n - 9)) (fun x s =>
      let _left := loadu_ps s p ((x - 1) + y * n) in
      let _right := loadu_ps s p ((x + 1) + y * n) in
      let _val := sub_ps _left _right in
      let _val := mul_ps _val _size in
      let _oldVal := loadu_ps s (velocityX s) (x + y * n) in
      let _oldVal := fmadd_ps _val _minusHalf _oldVal in
      let s := storeu_ps (velocityX s) (x + y * n) _oldVal s in
      let _up := loadu_ps s p (x + (y - 1) * n) in
      let _down := loadu_ps s p (x + (y + 1) * n) in
      let _val := sub_ps _up _down in
      let _val := mul_ps _val _size in
      let _oldVal := loadu_ps s (velocityY s) (x + y * n) in
      let _oldVal := fmadd_ps _val _minusHalf _oldVal in
      storeu_ps (velocityY s) (x + y * n) _oldVal s) s in
    for_each (upto (after_stride8 1 (n - 9)) (n - 1)) (fun x s =>
      let s := store (velocityX s) (x + y * n)
                 (load s (velocityX s) (x + y * n)
                  -f f_lit A 1 (-1)
                     *f (load s p ((x - 1) + y * n) -f load s p ((x + 1) + y * n))
                     *f #n) s in
      store (velocityY s) (x + y * n)
            (load s (velocityY s) (x + y * n)
             -f f_lit A 1 (-1)
                *f (load s p (x + (y - 1) * n) -f load s p (x + (y + 1) * n))
                *f #n) s) s) s.

(** The first pass of [project]: divergence into [div], zero into [p]. *)
Definition project_heightMap (velX velY p div : block) (s : FluidGrid) : FluidGrid :=
  computeOnThreads (size s) (fun startIndex endIndex =>
    projectHeightMapLoop startIndex endIndex velX velY p div) s.

(** [FluidGrid::project] *)
Definition project (iterations : Z) (velX velY p div : block)
           (s : FluidGrid) : FluidGrid :=
  let s := project_heightMap velX velY p div s in
  let s := setBounds NONE div s in
  let s := setBounds NONE p s in
  let s := linearSolve NONE iterations p div #1 #4 s in
  let s := computeOnThreads (size s) (fun startIndex endIndex =>
             projectMassConservLoop startIndex endIndex p div) s in
  let s := setBounds HORIZONTAL (velocityX s) s in
  setBounds VERTICAL (velocityY s) s.

(** *** Fading *)

Definition fade_factor (n : Z) (dt : F A) (fadeRate : D A) : D A :=
  dsub A (d_of_int A 1) (dmul A (dmul A (d_of_f A dt) fadeRate) (d_of_int A n)).

(** [FluidGrid::fadeDensity] *)
Definition fadeDensity (dt : F A) (fadeRate : D A) (s : FluidGrid) : FluidGrid :=
  let n := size s in
  let scaledFadeRate := fade_factor n dt fadeRate in
  for_each (upto 1 (n - 1)) (fun y s =>
    for_each (upto 1 (n - 1)) (fun x s =>
      store (density s) (x + y * n)
            (load s (density s) (x + y * n) *f f_of_d A scaledFadeRate) s) s) s.

(** *** One frame *)

(** [FluidGrid::step]; the timers and [checkPrint] do not touch the
    buffers and are left out. *)
Definition step (dt : F A) (iterations : Z) (diffusionRate viscosity fadeRate : D A)
           (s : FluidGrid) : FluidGrid :=
  (* Diffuse X velocity *)
  let s := swap_velocityX s in
  let s := diffuse HORIZONTAL iterations (velocityX s) (prevVelocityX s) dt viscosity s in
  (* Diffuse Y velocity *)
  let s := swap_velocityY s in
  let s := diffuse VERTICAL iterations (velocityY s) (prevVelocityY s) dt viscosity s in
  (* Conserve mass of the velocity field *)
  let s := project iterations (velocityX s) (velocityY s)
                   (prevVelocityX s) (prevVelocityY s) s in
  (* Self advection *)
  let s := swap_velocityX s in
  let s := swap_velocityY s in
  let s := advect HORIZONTAL (velocityX s) (prevVelocityX s)
                  (prevVelocityX s) (prevVelocityY s) dt s in
  let s := advect VERTICAL (velocityY s) (prevVelocityY s)
                  (prevVelocityX s) (prevVelocityY s) dt s in
  (* Conserve mass of the velocity field *)
  let s := project iterations (velocityX s) (velocityY s)
                   (prevVelocityX s) (prevVelocityY s) s in
  (* Diffuse density *)
  let s := swap_density s in
  let s := diffuse NONE iterations (density s) (prevDensity s) dt diffusionRate s in
  (* Advect density *)
  let s := swap_density s in
  let s := advect NONE (density s) (prevDensity s) (velocityX s) (velocityY s) dt s in
  (* Fade the density to avoid filling the volume *)
  fadeDensity dt fadeRate s.

(** [FluidGrid::getDensity] *)
Definition getDensity (s : FluidGrid) : buffer := mem s (density s).

End Solver.

Arguments mkGrid {A}.
Arguments size {A}.
Arguments density {A}.
Arguments prevDensity {A}.
Arguments velocityX {A}.
Arguments prevVelocityX {A}.
Arguments velocityY {A}.
Arguments prevVelocityY {A}.
Arguments tmp {A}.
Arguments mem {A}.
Arguments upd {A}.
Arguments set_mem {A}.
Arguments set_tmp {A}.
Arguments swap_density {A}.
Arguments swap_velocityX {A}.
Arguments swap_velocityY {A}.
Arguments load {A}.
Arguments store {A}.
Arguments storeu_ps {A}.
Arguments loadu_ps {A}.
Arguments setBounds {A}.
Arguments addDensity {A}.
Arguments addVelocity {A}.
Arguments advectLoop {A}.
Arguments advect {A}.
Arguments advect_scalar_cell {A}.
Arguments advect_vector_cells {A}.
Arguments linearSolveLoop {A}.
Arguments linearSolve_scalar_cell {A}.
Arguments linearSolve_vector_cells {A}.
Arguments linearSolve_iteration {A}.
Arguments linearSolve_loop {A}.
Arguments linearSolve {A}.
Arguments diffuse {A}.
Arguments heightMap_scalar_cell {A}.
Arguments heightMap_vector_cells {A}.
Arguments projectHeightMapLoop {A}.
Arguments projectMassConservLoop {A}.
Arguments project_heightMap {A}.
Arguments project {A}.
Arguments fadeDensity {A}.
Arguments step {A}.
Arguments computeOnThreads {A}.
Arguments getDensity {A}.

(** * Vocabulary of the statements *)

Section Vocabulary.

Context {A : Arith}.

(** The value of the buffer [p] at column [x] of row [y]. *)
Definition cell_at (s : FluidGrid A) (p : block) (x y : Z) : F A :=
  mem s p (x + y * size s).

(** A cell of the heap: a block and an index into it. *)
Definition cell : Type := (block * Z)%type.

Definition at_cell (p : block) (i : Z) (k : cell) : bool :=
  block_eqb (fst k) p && (snd k =? i).

(** A stencil pass is a long sequence of stores.  [writes_as R val f c]
    states that the transformer [f] stores [val k] at every cell [k] of the
    set [c] and leaves the other cells alone, on states that satisfy [R]. *)
Definition writes_as (R : FluidGrid A -> Prop) (val : cell -> F A)
           (f : FluidGrid A -> FluidGrid A) (c : cell -> bool) : Prop :=
  forall s, R s ->
    R (f s) /\
    forall q j, mem (f s) q j = if c (q, j) then val (q, j) else mem s q j.

(** [maps_as R g f c]: the transformer [f] replaces the value [v] of every
    cell [k] of the set [c] by [g k v], in place, and leaves the other
    cells alone. *)
Definition maps_as (R : FluidGrid A -> Prop) (g : cell -> F A -> F A)
           (f : FluidGrid A -> FluidGrid A) (c : cell -> bool) : Prop :=
  forall s, R s ->
    R (f s) /\
    forall q j, mem (f s) q j = if c (q, j) then g (q, j) (mem s q j) else mem s q j.

(** States with the size and the six field pointers of [s0]. *)
Definition same_fields (s0 s : FluidGrid A) : Prop :=
  size s = size s0 /\
  density s = density s0 /\ prevDensity s = prevDensity s0 /\
  velocityX s = velocityX s0 /\ prevVelocityX s = prevVelocityX s0 /\
  velocityY s = velocityY s0 /\ prevVelocityY s = prevVelocityY s0.

(** States whose blocks outside [ts] hold what they hold in [s0]. *)
Definition same_outside (ts : list block) (s0 s : FluidGrid A) : Prop :=
  forall q, ~ In q ts -> forall j, mem s q j = mem s0 q j.

(** States that differ from [s0] in the contents of the blocks [ts] only. *)
Definition based_on (s0 : FluidGrid A) (ts : list block) (s : FluidGrid A) : Prop :=
  same_fields s0 s /\ tmp s = tmp s0 /\ same_outside ts s0 s.

(** The columns [1 .. n-2] of row [y]. *)
Definition in_row (n y j : Z) : bool := (1 <=? j - y * n) && (j - y * n <=? n - 2).

(** The rows of a chunk and the interior columns, read off a cell index. *)
Definition in_rows (n a b j : Z) : bool :=
  (a <=? j / n) && (j / n <? b) && (1 <=? j mod n) && (j mod n <=? n - 2).

(** A vector iteration at column [x] handles the cells [x .. x+7]; for the
    column [c] of such a cell these give back the iteration and the lane. *)
Definition vec_base (c : Z) : Z := c - (c - 1) mod 8.
Definition vec_lane (c : Z) : Z := (c - 1) mod 8.

Definition at_index (tb : block -> bool) (i : Z) (k : cell) : bool :=
  tb (fst k) && (snd k =? i).

(** The rows some chunk of the pool lists. *)
Definition in_chunks (n : Z) (chunks : list (Z * Z)) (j : Z) : bool :=
  existsb (fun c => in_rows n (fst c) (snd c) j) chunks.

(** The value the relaxation pass stores at cell [j], from the state [s0]
    the pass starts in. *)
Definition linearSolve_cell (s0 : FluidGrid A) (arr prevArr : block)
           (k : F A) (_k : Z -> F A) (r : F A) (_r : Z -> F A) (j : Z) : F A :=
  let n := size s0 in
  let x := j mod n in
  let y := j / n in
  if x <? after_stride8 1 (n - 9)
  then linearSolve_vector_cells s0 arr prevArr _k _r (vec_base x) y (vec_lane x)
  else linearSolve_scalar_cell s0 arr prevArr k r x y.

(** The value the divergence pass stores in [div] at cell [j]. *)
Definition heightMap_cell (s0 : FluidGrid A) (velX velY : block) (j : Z) : F A :=
  let n := size s0 in
  let x := j mod n in
  let y := j / n in
  let sizeReciprocal := fdiv A (f_lit A 1 0) (f_of_int A n) in
  if x <? after_stride8 1 (n - 9)
  then heightMap_vector_cells s0 velX velY (set1_ps A sizeReciprocal)
                              (set1_ps A (f_lit A (-1) (-1)))
                              (vec_base x) y (vec_lane x)
  else heightMap_scalar_cell s0 velX velY sizeReciprocal x y.

(** The zero the divergence pass stores in [p] at cell [j]. *)
Definition heightMap_zero (n : Z) (j : Z) : F A :=
  if j mod n <? after_stride8 1 (n - 9) then f_lit A 0 0 else f_of_int A 0.

(** The value the advection pass stores in [arr] at cell [j]. *)
Definition advect_cell (s0 : FluidGrid A) (prevArr velX velY : block) (dt : F A)
           (j : Z) : F A :=
  let n := size s0 in
  let x := j mod n in
  let y := j / n in
  let scaling := fmul A dt (f_of_int A n) in
  let maxClamp := fsub A (f_of_int A n) (f_lit A 3 (-1)) in
  if x <? after_stride8 1 (n - 9)
  then advect_vector_cells s0 prevArr velX velY scaling maxClamp
                           (vec_base x) y (vec_lane x)
  else advect_scalar_cell s0 prevArr velX velY scaling maxClamp x y.

(** What the [i]-th turn of the loop produced: the contents, when that
    turn ends, of the block it wrote and bounded. *)
Definition iteration_result (pool : Z -> list (Z * Z))
           (d : Direction) (arr prevArr : block)
           (k scaling : F A) (s : FluidGrid A) (i : nat) : buffer A :=
  let st := linearSolve_loop pool d (Z.of_nat i) arr prevArr k scaling s in
  mem (fst st) (snd st).

(** The loop of [diffuse] after [i] of its turns: the state and the local
    pointer [arr]. *)
Definition diffuse_turns (pool : Z -> list (Z * Z)) (d : Direction) (i : nat)
           (arr prevArr : block) (dt : F A) (rate : D A) (s : FluidGrid A)
  : FluidGrid A * block :=
  let k := diffuse_neighborDiffusion A (size s) dt rate in
  linearSolve_loop pool d (Z.of_nat i) arr prevArr k (diffuse_scaling A k) s.

(** The sum of the interior cells of a buffer, row by row. *)
Definition interior_sum (n : Z) (b : buffer A) : F A :=
  fold_left (fun acc y =>
               fold_left (fun acc x => fadd A acc (b (x + y * n)))
                         (upto 1 (n - 1)) acc)
            (upto 1 (n - 1)) (f_of_int A 0).

(** [dt * fadeRate * size], as [fadeDensity] computes it. *)
Definition fade_amount (n : Z) (dt : F A) (fadeRate : D A) : D A :=
  dmul A (dmul A (d_of_f A dt) fadeRate) (d_of_int A n).

(** Fade monotonicity at one state: if [0 < dt * fadeRate * size < 1] then
    the interior sum after [fadeDensity] is not above the one before. *)
Definition fade_monotone_at (s : FluidGrid A) (dt : F A) (fadeRate : D A) : bool :=
  let r := fade_amount (size s) dt fadeRate in
  implb (dltb A (d_of_int A 0) r && dltb A r (d_of_int A 1))
        (negb (fltb A (interior_sum (size s) (mem s (density s)))
                      (interior_sum (size s)
                         (mem (fadeDensity dt fadeRate s) (density s))))).

Definition nonempty {X : Type} (xs : list X) : bool :=
  match xs with [] => false | _ :: _ => true end.

(** Every interior row [1 .. n-2] is in some chunk of the list. *)
Definition covers_interior (n : Z) (chunks : list (Z * Z)) : bool :=
  forallb (fun y => existsb (fun c => (fst c <=? y) && (y <? snd c)) chunks)
          (upto 1 (n - 1)).

(** The seven pointer members name seven different blocks, as after
    construction. *)
Definition distinct_buffers (s : FluidGrid A) : Prop :=
  NoDup [density s; prevDensity s; velocityX s; prevVelocityX s;
         velocityY s; prevVelocityY s; tmp s].

Definition velocity_blocks (s : FluidGrid A) : list block :=
  [velocityX s; prevVelocityX s; velocityY s; prevVelocityY s].

(** [s] came from [s0] by exchanging velocity pointers and by writing into
    velocity blocks and the scratch block only. *)
Definition velocity_frame (s0 s : FluidGrid A) : Prop :=
  size s = size s0 /\ density s = density s0 /\ prevDensity s = prevDensity s0 /\
  tmp s = tmp s0 /\
  incl (velocity_blocks s) (velocity_blocks s0) /\
  same_outside (tmp s0 :: velocity_blocks s0) s0 s.

(** Numerical equality of two buffers on the cells [0 .. n*n). *)
Definition buffer_eqb (n : Z) (b b' : buffer A) : bool :=
  forallb (fun j => feqb A (b j) (b' j)) (upto 0 (n * n)).

(** Zero-dt idempotence at one state: [step] with [dt = 0] and
    [fadeRate = 0] leaves the density and both velocity fields numerically
    unchanged. *)
Definition zero_dt_idempotent_at (pool : Z -> list (Z * Z)) (iterations : Z)
           (diffusionRate viscosity : D A) (s : FluidGrid A) : bool :=
  let s' := step pool (f_of_int A 0) iterations diffusionRate viscosity
                 (d_of_int A 0) s in
  buffer_eqb (size s) (mem s' (density s')) (mem s (density s))
  && buffer_eqb (size s) (mem s' (velocityX s')) (mem s (velocityX s))
  && buffer_eqb (size s) (mem s' (velocityY s')) (mem s (velocityY s)).

(** The end-to-end scenario: a fresh grid of size 10,
    [addDensity(5, 5, 100, 1)], then [step(1, 0, 0, 0, 0)]. *)
Definition scenario (pool : Z -> list (Z * Z)) : FluidGrid A :=
  step pool (f_of_int A 1) 0 (d_of_int A 0) (d_of_int A 0) (d_of_int A 0)
       (addDensity 5 5 (f_of_int A 100) (f_of_int A 1) (fresh A 10)).

Definition is_zero (v : F A) : bool := feqb A v (f_of_int A 0).

Definition velocity_all_zero (s : FluidGrid A) : bool :=
  forallb (fun j => is_zero (mem s (velocityX s) j) && is_zero (mem s (velocityY s) j))
          (upto 0 (size s * size s)).

(** The scenario as the specification expects it to end. *)
Definition scenario_as_claimed (pool : Z -> list (Z * Z)) : bool :=
  let s := scenario pool in
  velocity_all_zero s
  && forallb (fun j => if j =? 5 + 5 * 10
                       then feqb A (mem s (density s) j) (f_of_int A 1000)
                       else is_zero (mem s (density s) j))
             (upto 0 (10 * 10)).

(** The scenario as it ends: the density is zero everywhere. *)
Definition scenario_as_run (pool : Z -> list (Z * Z)) : bool :=
  let s := scenario pool in
  velocity_all_zero s
  && forallb (fun j => is_zero (mem s (density s) j)) (upto 0 (10 * 10)).

End Vocabulary.

(** An allocation outcome: every [calloc] succeeds but the one of [tmp]. *)
Definition only_tmp_fails (b : block) : bool := negb (block_eqb b BTmp).

(** * Vocabulary of the further properties *)

Section FurtherVocabulary.

Context {A : Arith}.

(** [FluidGrid::~FluidGrid]: the blocks handed to [free], in the order of
    the calls. *)
Definition FluidGrid_delete (s : FluidGrid A) : list block :=
  [density s; prevDensity s; velocityX s; prevVelocityX s;
   velocityY s; prevVelocityY s; tmp s].

(** [t] differs from [s0] at most in the contents of the blocks [ts], and
    there at most in the interior columns of the rows [a .. b-1]; the size
    and the pointer members are those of [s0]. *)
Definition rows_only (s0 : FluidGrid A) (ts : list block) (a b : Z)
           (t : FluidGrid A) : Prop :=
  based_on s0 ts t /\
  forall q j, in_rows (size s0) a b j = false -> mem t q j = mem s0 q j.

(** The size and the seven pointer members of the object. *)
Definition members (s : FluidGrid A) : Z * list block :=
  (size s, FluidGrid_delete s).

(** The value the gradient pass stores at the cell [j] of the member
    [velocityX] (for [horizontal]) or [velocityY], from the value [v] the
    cell holds and the field [p] of the state [s0] the pass starts in. *)
Definition massConserv_cell (s0 : FluidGrid A) (p : block) (horizontal : bool)
           (j : Z) (v : F A) : F A :=
  let n := size s0 in
  let x := j mod n in
  let y := j / n in
  let before := if horizontal then load s0 p ((x - 1) + y * n)
                else load s0 p (x + (y - 1) * n) in
  let after := if horizontal then load s0 p ((x + 1) + y * n)
               else load s0 p (x + (y + 1) * n) in
  if x <? after_stride8 1 (n - 9)
  then ffma A (fmul A (fsub A before after) (f_of_int A n)) (f_lit A (-1) (-1)) v
  else fsub A v (fmul A (fmul A (f_lit A 1 (-1)) (fsub A before after))
                        (f_of_int A n)).

End FurtherVocabulary.

(** The columns the two loops of a kernel row visit, in the order of the
    visits: the eight lanes of every iteration of the strided loop, then
    the iterations of the remainder loop. *)
Definition row_columns (n : Z) : list Z :=
  flat_map (fun x => map (fun l => x + l) lanes) (stride8 1 (n - 9))
  ++ upto (after_stride8 1 (n - 9)) (n - 1).
(** * The formulas of the specification

    The specification gives two stencils as formulas.  They are written
    here as they stand, over the same arithmetic as the kernels, to be
    compared with what the kernels store. *)

(** [(previousCell + k (up + down + left + right)) / (1 + 4 k)] *)
Definition relaxation_formula (A : Arith) (previous k up down left right : F A) : F A :=
  fdiv A (fadd A previous (fmul A k (fadd A (fadd A (fadd A up down) left) right)))
         (fadd A (f_of_int A 1) (fmul A (f_of_int A 4) k)).

(** [-0.5 ((velX[left] - velX[right]) + (velY[up] - velY[down])) / N] *)
Definition divergence_formula (A : Arith) (n : Z) (left right up down : F A) : F A :=
  fdiv A (fmul A (f_lit A (-1) (-1)) (fadd A (fsub A left right) (fsub A up down)))
         (f_of_int A n).


(** * Binary floating point: rounding, on integers

    The operations of [SpecFloat] round with [binary_round_aux], which
    shifts a mantissa and inspects the bits shifted out.  The definitions
    below give the value of a float and its rounding as integer
    arithmetic, to state what the operations compute.  A finite value
    m * 2^e is represented by the integer m * 2^(e + K), for a scale K
    large enough for every exponent that occurs. *)

(** Round to nearest, ties to even, of [v / 2^n]. *)
Definition rne (v n : Z) : Z :=
  let q := v / 2 ^ n in
  let r := v mod 2 ^ n in
  if 2 * r <? 2 ^ n then q
  else if 2 ^ n <? 2 * r then q + 1
  else if Z.even q then q else q + 1.

(** Classes of floats. *)
Definition is_nan (x : spec_float) : bool :=
  match x with S754_nan => true | _ => false end.

Definition is_finite (x : spec_float) : bool :=
  match x with S754_zero _ | S754_finite _ _ _ => true | _ => false end.

(** Zero, a positive finite float or plus infinity. *)
Definition nonneg (x : spec_float) : bool :=
  match x with
  | S754_zero _ | S754_finite false _ _ | S754_infinity false => true
  | _ => false
  end.

Section FormatDefinitions.

Variables prec emax K : Z.

(** The value [m * 2^e], scaled by [2^K] so that it is an integer. *)
Definition scaled (m e : Z) : Z := m * 2 ^ (e + K).

(** The exponent of the grid of floats around the scaled value [v]
    (the exponent of its unit in the last place), scaled as well. *)
Definition grid_exp (v : Z) : Z := SpecFloat.fexp prec emax (Z.log2 v + 1 - K) + K.

(** Rounding to nearest, ties to even, in the format. *)
Definition round_scaled (v : Z) : Z := rne v (grid_exp v) * 2 ^ grid_exp v.

(** The scaled value from which on rounding overflows. *)
Definition overflow : Z := 2 ^ (emax + K).

(** The float of sign [s] and of scaled magnitude [w], for [w] on its grid. *)
Definition float_of (s : bool) (w : Z) : spec_float :=
  if w =? 0 then S754_zero s
  else if overflow <=? w then S754_infinity s
  else S754_finite s (Z.to_pos (w / 2 ^ grid_exp w)) (grid_exp w - K).

(** The sign and the rounded magnitude of a non-zero integer value. *)
Definition round_signed (z : Z) : spec_float :=
  if z =? 0 then S754_zero false else float_of (z <? 0) (round_scaled (Z.abs z)).

(** The scaled value of a float; the infinities at the overflow threshold. *)
Definition scaled_value (x : spec_float) : Z :=
  match x with
  | S754_zero _ | S754_nan => 0
  | S754_infinity s => cond_Zopp s overflow
  | S754_finite s m e => cond_Zopp s (scaled (Zpos m) e)
  end.

(** The floats of the format. *)
Definition valid_float (x : spec_float) : Prop := valid_binary prec emax x = true.

(** The scaled value of the sum of two floats that are not negative. *)
Definition add_rounded (u w : Z) : Z :=
  if u + w =? 0 then 0 else Z.min (round_scaled (u + w)) overflow.

(** A finite float of the format, of scaled magnitude at most [B]. *)
Definition within_bound (B : Z) (x : spec_float) : Prop :=
  valid_float x /\ is_finite x = true /\ Z.abs (scaled_value x) <= B.

End FormatDefinitions.

(** ** binary32 and binary64 *)

(** The scale: the products of two binary64 values have exponents from
    2 * (-1074) on. *)
Definition scale : Z := 2200.

Definition binary32 (v : spec_float) : Prop := valid_float IEEE.prec32 IEEE.emax32 v.
Definition binary64 (v : spec_float) : Prop := valid_float IEEE.prec64 IEEE.emax64 v.

(** 1.0f and 1.0 *)
Definition one32 : spec_float := S754_finite false 8388608 (-23).
Definition one64 : spec_float := S754_finite false 4503599627370496 (-52).

(** Two binary32 values that are not negative, the first at most the second. *)
Definition below (a' a : spec_float) : Prop :=
  binary32 a' /\ binary32 a /\ nonneg a' = true /\ nonneg a = true /\
  scaled_value IEEE.emax32 scale a' <= scaled_value IEEE.emax32 scale a.

Definition zero_float (x : spec_float) : bool :=
  match x with S754_zero _ => true | _ => false end.

(** Numerically the same: the same float, or two zeros. *)
Definition same_value (a b : spec_float) : Prop :=
  a = b \/ (zero_float a = true /\ zero_float b = true).

(** A finite binary32 value of magnitude at most 2^100. *)
Definition small32 (v : spec_float) : Prop :=
  within_bound IEEE.prec32 IEEE.emax32 scale (2 ^ (100 + scale)) v.

Definition small32b (v : spec_float) : bool :=
  valid_binary IEEE.prec32 IEEE.emax32 v && is_finite v
  && (Z.abs (scaled_value IEEE.emax32 scale v) <=? 2 ^ (100 + scale)).

(** Every cell of the buffer [q], on the whole grid, is small. *)
Definition all_small (t : FluidGrid IEEE.arith) (q : block) : Prop :=
  forall x y, 0 <= x <= size t - 1 -> 0 <= y <= size t - 1 ->
    small32 (cell_at t q x y).

(** The scaled values and the roundings of the two formats. *)
Abbreviation ord32 := (scaled_value IEEE.emax32 scale).
Abbreviation ord64 := (scaled_value IEEE.emax64 scale).
Abbreviation rnd32 := (round_scaled IEEE.prec32 IEEE.emax32 scale).
Abbreviation rnd64 := (round_scaled IEEE.prec64 IEEE.emax64 scale).
Abbreviation top32 := (overflow IEEE.emax32 scale).
Abbreviation top64 := (overflow IEEE.emax64 scale).

(** * Rounding: what [SpecFloat] computes *)

Lemma digits2_pos_size (m : positive) : digits2_pos m = Pos.size m.
Proof. induction m; simpl; congruence. Qed.

Lemma digits2_log2 (m : positive) : Zpos (digits2_pos m) = Z.log2 (Zpos m) + 1.
Proof.
  rewrite digits2_pos_size. destruct m; simpl; try reflexivity; lia.
Qed.

Lemma iter_pos_nat {X : Type} (f : X -> X) (p : positive) (x : X) :
  iter_pos f p x = Nat.iter (Pos.to_nat p) f x.
Proof.
  revert x. induction p as [p IH|p IH|]; intros x; cbn [iter_pos].
  - rewrite !IH, Pos2Nat.inj_xI.
    replace (S (2 * Pos.to_nat p)) with (Pos.to_nat p + S (Pos.to_nat p))%nat by lia.
    rewrite Nat.iter_add, Nat.iter_succ_r. reflexivity.
  - rewrite !IH, Pos2Nat.inj_xO.
    replace (2 * Pos.to_nat p)%nat with (Pos.to_nat p + Pos.to_nat p)%nat by lia.
    now rewrite Nat.iter_add.
  - reflexivity.
Qed.

Lemma shr_1_spec (m : Z) (r s : bool) :
  0 <= m ->
  shr_1 (Build_shr_record m r s) = Build_shr_record (m / 2) (Z.odd m) (r || s).
Proof.
  intros Hm. destruct m as [|p|p]; try lia.
  - reflexivity.
  - destruct p as [p|p|]; cbn [shr_1].
    + f_equal. rewrite Pos2Z.inj_xI.
      apply (Z.div_unique _ _ _ 1); lia.
    + f_equal. rewrite Pos2Z.inj_xO.
      apply (Z.div_unique _ _ _ 0); lia.
    + reflexivity.
Qed.

Lemma mod_double (M a : Z) :
  0 < a -> M mod (a * 2) = M mod a + a * (if Z.odd (M / a) then 1 else 0).
Proof.
  intros Ha. rewrite <- Zmod_odd.
  pose proof (Z.div_mod M a ltac:(lia)) as D.
  pose proof (Z.mod_pos_bound M a ltac:(lia)) as B.
  pose proof (Z.div_mod (M / a) 2 ltac:(lia)) as D2.
  pose proof (Z.mod_pos_bound (M / a) 2 ltac:(lia)) as B2.
  symmetry. apply (Z.mod_unique_pos _ _ ((M / a) / 2)); nia.
Qed.

Lemma shr_iter_spec (M : Z) (n : nat) :
  0 <= M ->
  Nat.iter (S n) shr_1 (Build_shr_record M false false)
  = Build_shr_record (M / 2 ^ Z.of_nat (S n)) (Z.odd (M / 2 ^ Z.of_nat n))
                     (negb (M mod 2 ^ Z.of_nat n =? 0)).
Proof.
  intros HM. induction n as [|n IH].
  - cbn [Nat.iter]. rewrite shr_1_spec by assumption.
    change (2 ^ Z.of_nat 1) with 2. change (2 ^ Z.of_nat 0) with 1.
    rewrite Z.div_1_r, Z.mod_1_r. reflexivity.
  - rewrite Nat.iter_succ, IH.
    assert (P : 0 < 2 ^ Z.of_nat n) by (apply Z.pow_pos_nonneg; lia).
    assert (E1 : 2 ^ Z.of_nat (S n) = 2 ^ Z.of_nat n * 2).
    { rewrite Nat2Z.inj_succ, Z.pow_succ_r by lia. lia. }
    assert (E2 : 2 ^ Z.of_nat (S (S n)) = 2 ^ Z.of_nat (S n) * 2).
    { rewrite (Nat2Z.inj_succ (S n)), Z.pow_succ_r by lia. lia. }
    rewrite shr_1_spec by (apply Z.div_pos; lia).
    f_equal.
    + rewrite E2. rewrite Z.div_div by lia. reflexivity.
    + rewrite E1, mod_double by lia.
      pose proof (Z.mod_pos_bound M (2 ^ Z.of_nat n) ltac:(lia)) as B.
      destruct (Z.odd (M / 2 ^ Z.of_nat n)); cbn [orb].
      * symmetry. apply negb_true_iff, Z.eqb_neq. lia.
      * f_equal. f_equal. lia.
Qed.

(** Shifting right by [n] and rounding. *)
Lemma shr_round (M e n : Z) :
  0 <= M -> 0 < n ->
  let mrs := fst (shr (Build_shr_record M false false) e n) in
  round_nearest_even (shr_m mrs) (loc_of_shr_record mrs) = rne M n
  /\ snd (shr (Build_shr_record M false false) e n) = e + n.
Proof.
  intros HM Hn. destruct n as [|p|p]; try lia.
  cbn [shr fst snd]. split; [|reflexivity]. rewrite iter_pos_nat.
  destruct (Pos.to_nat p) as [|k] eqn:Ek; [lia|].
  rewrite shr_iter_spec by assumption.
  assert (En : Zpos p = Z.of_nat (S k)) by lia.
  rewrite En. clear Ek En p Hn.
  unfold rne. cbv zeta.
  assert (P : 0 < 2 ^ Z.of_nat k) by (apply Z.pow_pos_nonneg; lia).
  assert (E1 : 2 ^ Z.of_nat (S k) = 2 ^ Z.of_nat k * 2).
  { rewrite Nat2Z.inj_succ, Z.pow_succ_r by lia. lia. }
  rewrite E1, mod_double by lia.
  pose proof (Z.mod_pos_bound M (2 ^ Z.of_nat k) ltac:(lia)) as B.
  set (a := 2 ^ Z.of_nat k) in *. set (R := M mod a) in *.
  cbn [shr_m loc_of_shr_record].
  destruct (Z.odd (M / a)) eqn:O; destruct (R =? 0) eqn:Z0; cbn [negb];
    [apply Z.eqb_eq in Z0|apply Z.eqb_neq in Z0|apply Z.eqb_eq in Z0|apply Z.eqb_neq in Z0];
    cbn [round_nearest_even].
  - replace (2 * (R + a * 1) <? a * 2) with false by (symmetry; apply Z.ltb_ge; lia).
    replace (a * 2 <? 2 * (R + a * 1)) with false by (symmetry; apply Z.ltb_ge; lia).
    reflexivity.
  - replace (2 * (R + a * 1) <? a * 2) with false by (symmetry; apply Z.ltb_ge; lia).
    replace (a * 2 <? 2 * (R + a * 1)) with true by (symmetry; apply Z.ltb_lt; lia).
    reflexivity.
  - replace (2 * (R + a * 0) <? a * 2) with true by (symmetry; apply Z.ltb_lt; lia).
    reflexivity.
  - replace (2 * (R + a * 0) <? a * 2) with true by (symmetry; apply Z.ltb_lt; lia).
    reflexivity.
Qed.

Lemma shr_none (mrs : shr_record) (e n : Z) : n <= 0 -> shr mrs e n = (mrs, e).
Proof. intros Hn. destruct n; try reflexivity. lia. Qed.

Lemma ltb_scale (a b c : Z) : 0 < c -> (a * c <? b * c) = (a <? b).
Proof.
  intros Hc. destruct (a <? b) eqn:E.
  - apply Z.ltb_lt in E. apply Z.ltb_lt. nia.
  - apply Z.ltb_ge in E. apply Z.ltb_ge. nia.
Qed.

Lemma rne_scale (M n j : Z) : 0 <= n -> 0 <= j -> rne (M * 2 ^ j) (n + j) = rne M n.
Proof.
  intros Hn Hj. unfold rne. cbv zeta.
  assert (Pj : 0 < 2 ^ j) by (apply Z.pow_pos_nonneg; lia).
  assert (Pn : 0 < 2 ^ n) by (apply Z.pow_pos_nonneg; lia).
  rewrite Z.pow_add_r by lia.
  rewrite Z.div_mul_cancel_r by lia.
  rewrite Z.mul_mod_distr_r by lia.
  rewrite (Z.mul_assoc 2), !ltb_scale by lia. reflexivity.
Qed.

Lemma rne_exact (M n : Z) : 0 <= n -> rne (M * 2 ^ n) n = M.
Proof.
  intros Hn. unfold rne. cbv zeta.
  assert (Pn : 0 < 2 ^ n) by (apply Z.pow_pos_nonneg; lia).
  rewrite Z.div_mul, Z.mod_mul by lia.
  replace (2 * 0 <? 2 ^ n) with true by (symmetry; apply Z.ltb_lt; lia).
  reflexivity.
Qed.

Lemma rne_bounds (v n : Z) : 0 <= n -> v / 2 ^ n <= rne v n <= v / 2 ^ n + 1.
Proof.
  intros Hn. unfold rne. cbv zeta.
  destruct (_ <? _); [lia|]. destruct (_ <? _); [lia|]. destruct (Z.even _); lia.
Qed.

(** Rounding never crosses a grid point. *)
Lemma rne_le_grid (v n c : Z) : 0 <= n -> v <= c * 2 ^ n -> rne v n <= c.
Proof.
  intros Hn H. unfold rne. cbv zeta.
  assert (Pn : 0 < 2 ^ n) by (apply Z.pow_pos_nonneg; lia).
  pose proof (Z.div_mod v (2 ^ n) ltac:(lia)) as D.
  pose proof (Z.mod_pos_bound v (2 ^ n) ltac:(lia)) as B.
  set (q := v / 2 ^ n) in *. set (r := v mod 2 ^ n) in *.
  assert (Hq : q <= c) by nia.
  assert (Hq' : q < c \/ r = 0) by nia.
  destruct (2 * r <? 2 ^ n) eqn:E1; [lia|]. apply Z.ltb_ge in E1.
  destruct (2 ^ n <? 2 * r) eqn:E2; [lia|].
  destruct (Z.even q); lia.
Qed.

Lemma rne_ge_grid (v n c : Z) : 0 <= n -> c * 2 ^ n <= v -> c <= rne v n.
Proof.
  intros Hn H.
  assert (Pn : 0 < 2 ^ n) by (apply Z.pow_pos_nonneg; lia).
  pose proof (rne_bounds v n Hn) as B.
  assert (c <= v / 2 ^ n) by (apply Z.div_le_lower_bound; lia).
  lia.
Qed.

Lemma rne_mono (v w n : Z) : 0 <= n -> v <= w -> rne v n <= rne w n.
Proof.
  intros Hn H.
  assert (Pn : 0 < 2 ^ n) by (apply Z.pow_pos_nonneg; lia).
  pose proof (Z.div_mod v (2 ^ n) ltac:(lia)) as D.
  pose proof (Z.mod_pos_bound v (2 ^ n) ltac:(lia)) as B.
  pose proof (Z.div_mod w (2 ^ n) ltac:(lia)) as D'.
  pose proof (Z.mod_pos_bound w (2 ^ n) ltac:(lia)) as B'.
  unfold rne. cbv zeta.
  set (q := v / 2 ^ n) in *. set (r := v mod 2 ^ n) in *.
  set (q' := w / 2 ^ n) in *. set (r' := w mod 2 ^ n) in *.
  assert (Hq : q < q' \/ (q = q' /\ r <= r')) by nia.
  destruct (2 * r <? 2 ^ n) eqn:E1; destruct (2 ^ n <? 2 * r) eqn:E2;
  destruct (2 * r' <? 2 ^ n) eqn:E1'; destruct (2 ^ n <? 2 * r') eqn:E2';
  try apply Z.ltb_lt in E1; try apply Z.ltb_ge in E1;
  try apply Z.ltb_lt in E2; try apply Z.ltb_ge in E2;
  try apply Z.ltb_lt in E1'; try apply Z.ltb_ge in E1';
  try apply Z.ltb_lt in E2'; try apply Z.ltb_ge in E2';
  try lia;
  destruct Hq as [Hq|[Hq Hr]]; try (rewrite <- ?Hq; destruct (Z.even q); lia);
  try (destruct (Z.even q); destruct (Z.even q'); lia).
Qed.

Lemma rne_nonneg (v n : Z) : 0 <= n -> 0 <= v -> 0 <= rne v n.
Proof. intros Hn Hv. apply (rne_ge_grid v n 0); lia. Qed.

Section Format.

Variables prec emax K : Z.
Hypothesis Hprec : 0 < prec.
Hypothesis Hemax : prec < emax.

Local Abbreviation emin := (SpecFloat.emin prec emax).
Local Abbreviation fexp := (SpecFloat.fexp prec emax).

Hypothesis HK : 0 <= K + 2 * emin.

Local Abbreviation V := (scaled K).
Local Abbreviation grid := (grid_exp prec emax K).
Local Abbreviation rnd := (round_scaled prec emax K).
Local Abbreviation top := (overflow emax K).
Local Abbreviation mk := (float_of prec emax K).
Local Abbreviation sround := (round_signed prec emax K).
Local Abbreviation ord := (scaled_value emax K).
Local Abbreviation valid := (valid_float prec emax).
Local Abbreviation add_ord := (add_rounded prec emax K).
Local Abbreviation within := (within_bound prec emax K).

Lemma emin_le0 : emin <= 0.
Proof. unfold SpecFloat.emin. lia. Qed.

Lemma fexp_ge_emin (e : Z) : emin <= fexp e.
Proof. unfold SpecFloat.fexp. lia. Qed.

Lemma fexp_mono (a b : Z) : a <= b -> fexp a <= fexp b.
Proof. unfold SpecFloat.fexp. lia. Qed.

Lemma grid_nonneg (v : Z) : 0 <= grid v.
Proof. unfold grid. pose proof (fexp_ge_emin (Z.log2 v + 1 - K)). pose proof emin_le0. lia. Qed.

Lemma pow2_pos (n : Z) : 0 <= n -> 0 < 2 ^ n.
Proof. intros. apply Z.pow_pos_nonneg; lia. Qed.

Lemma V_pos (m e : Z) : 0 < m -> - K <= e -> 0 < V m e.
Proof. intros Hm He. unfold V. pose proof (pow2_pos (e + K) ltac:(lia)). nia. Qed.

Lemma log2_V (m e : Z) : 0 < m -> - K <= e -> Z.log2 (V m e) = Z.log2 m + e + K.
Proof. intros Hm He. unfold V. rewrite Z.log2_mul_pow2 by lia. lia. Qed.

Lemma grid_V (m : positive) (e : Z) :
  - K <= e -> grid (V (Zpos m) e) = fexp (Zpos (digits2_pos m) + e) + K.
Proof.
  intros He. unfold grid. rewrite log2_V by lia. rewrite digits2_log2.
  f_equal. f_equal. lia.
Qed.

Lemma digits_bounds (m : positive) :
  2 ^ (Zpos (digits2_pos m) - 1) <= Zpos m < 2 ^ Zpos (digits2_pos m).
Proof.
  rewrite digits2_log2.
  pose proof (Z.log2_spec (Zpos m) ltac:(lia)) as H.
  replace (Z.log2 (Zpos m) + 1 - 1) with (Z.log2 (Zpos m)) by lia.
  replace (Z.log2 (Zpos m) + 1) with (Z.succ (Z.log2 (Zpos m))) by lia. exact H.
Qed.

Lemma digits_unique (m : positive) (d : Z) :
  2 ^ (d - 1) <= Zpos m < 2 ^ d -> Zpos (digits2_pos m) = d.
Proof.
  intros H. rewrite digits2_log2.
  assert (0 < d).
  { destruct (Z_lt_le_dec 0 d) as [|N]; [assumption|].
    assert (2 ^ d <= 1).
    { destruct (Z.eq_dec d 0) as [->|]; [simpl; lia|]. rewrite Z.pow_neg_r; lia. }
    lia. }
  rewrite (Z.log2_unique (Zpos m) (d - 1)); lia || (replace (Z.succ (d - 1)) with d by lia; lia).
Qed.

(** A canonical mantissa and its exponent are read back from the value. *)
Lemma mk_canonical (s : bool) (m : positive) (e : Z) :
  canonical_mantissa prec emax m e = true ->
  mk s (V (Zpos m) e)
  = if e <=? emax - prec then S754_finite s m e else S754_infinity s.
Proof.
  unfold canonical_mantissa. intros C. apply Z.eqb_eq in C.
  pose proof (fexp_ge_emin (Zpos (digits2_pos m) + e)) as G.
  pose proof emin_le0 as E0.
  assert (He : - K <= e) by lia.
  pose proof (V_pos (Zpos m) e ltac:(lia) He) as P.
  pose proof (digits_bounds m) as B.
  set (d := Zpos (digits2_pos m)) in *.
  assert (Hd : 0 < d) by (unfold d; lia).
  unfold mk. replace (V (Zpos m) e =? 0) with false by (symmetry; apply Z.eqb_neq; lia).
  assert (Dp : d <= prec \/ (emin < e /\ d = prec)).
  { unfold SpecFloat.fexp in C. lia. }
  assert (Dle : d <= prec) by lia.
  destruct (e <=? emax - prec) eqn:L; [apply Z.leb_le in L|apply Z.leb_gt in L].
  - replace (top <=? V (Zpos m) e) with false.
    + rewrite grid_V by lia. fold d. rewrite C.
      replace (e + K - K) with e by lia.
      unfold V. rewrite Z.div_mul by (pose proof (pow2_pos (e + K)); lia).
      reflexivity.
    + symmetry. apply Z.leb_gt. unfold top, V.
      assert (2 ^ d * 2 ^ (e + K) <= 2 ^ (emax + K)).
      { rewrite <- Z.pow_add_r by lia. apply Z.pow_le_mono_r; lia. }
      pose proof (pow2_pos (e + K) ltac:(lia)). nia.
  - replace (top <=? V (Zpos m) e) with true; [reflexivity|].
    symmetry. apply Z.leb_le. unfold top, V.
    assert (Hdp : d = prec) by (unfold SpecFloat.fexp in C; lia).
    assert (2 ^ (emax + K) <= 2 ^ (d - 1) * 2 ^ (e + K)).
    { rewrite <- Z.pow_add_r by lia. apply Z.pow_le_mono_r; lia. }
    pose proof (pow2_pos (e + K) ltac:(lia)). nia.
Qed.

(** The last steps of [binary_round_aux], from a mantissa of at most
    [prec] bits or the carry [2^prec]. *)
Lemma round_tail (sx : bool) (m1 e1 : Z) :
  emin <= e1 -> 0 <= m1 <= 2 ^ prec ->
  (emin < e1 -> 2 ^ (prec - 1) <= m1) ->
  (let '(mrs'', e'') := shr_fexp prec emax m1 e1 loc_Exact in
   match shr_m mrs'' with
   | Z0 => S754_zero sx
   | Zpos m => if e'' <=? emax - prec then S754_finite sx m e'' else S754_infinity sx
   | Zneg _ => S754_nan
   end) = mk sx (V m1 e1).
Proof.
  intros He1 [Hm0 Hm1] Hn.
  pose proof emin_le0 as E0.
  assert (HeK : - K <= e1) by lia.
  destruct m1 as [|p|p]; try lia.
  - unfold shr_fexp. cbn [Zdigits2 shr_record_of_loc].
    rewrite shr_none by (unfold SpecFloat.fexp; lia).
    cbn [shr_m]. reflexivity.
  - pose proof (digits_bounds p) as B.
    set (d1 := Zpos (digits2_pos p)) in *.
    assert (Hd1 : 0 < d1) by (unfold d1; lia).
    destruct (Z.eq_dec (Zpos p) (2 ^ prec)) as [Ec|Nc].
    + (* carry *)
      assert (D1 : d1 = prec + 1).
      { apply digits_unique. replace (prec + 1 - 1) with prec by lia.
        rewrite Ec. split; [lia|]. apply Z.pow_lt_mono_r; lia. }
      unfold shr_fexp. cbn [Zdigits2 shr_record_of_loc]. fold d1.
      replace (fexp (d1 + e1) - e1) with 1 by (unfold SpecFloat.fexp; lia).
      cbn [shr iter_pos]. rewrite shr_1_spec by lia. cbn [shr_m].
      assert (Eh : Zpos p / 2 = 2 ^ (prec - 1)).
      { rewrite Ec. replace prec with (Z.succ (prec - 1)) at 1 by lia.
        rewrite Z.pow_succ_r by lia. rewrite Z.mul_comm, Z.div_mul; lia. }
      rewrite Eh.
      pose proof (pow2_pos (prec - 1) ltac:(lia)) as Pp.
      destruct (2 ^ (prec - 1)) as [|h|h] eqn:Eh2; try lia.
      replace (V (Zpos p) e1) with (V (Zpos h) (e1 + 1)).
      * rewrite mk_canonical; [reflexivity|].
        unfold canonical_mantissa. apply Z.eqb_eq.
        rewrite (digits_unique h prec).
        -- unfold SpecFloat.fexp. lia.
        -- rewrite <- Eh2. split; [lia|]. apply Z.pow_lt_mono_r; lia.
      * unfold V. rewrite Ec, <- Eh2, <- !Z.pow_add_r by lia. f_equal. lia.
    + assert (Hlt : Zpos p < 2 ^ prec) by lia.
      assert (D1 : d1 <= prec).
      { destruct (Z_le_gt_dec d1 prec) as [|G]; [assumption|].
        assert (2 ^ prec <= 2 ^ (d1 - 1)) by (apply Z.pow_le_mono_r; lia). lia. }
      assert (C : fexp (d1 + e1) = e1).
      { destruct (Z.eq_dec e1 emin) as [->|Ne]; [unfold SpecFloat.fexp; lia|].
        specialize (Hn ltac:(lia)).
        assert (prec <= d1).
        { destruct (Z_le_gt_dec prec d1) as [|G]; [assumption|].
          assert (2 ^ d1 <= 2 ^ (prec - 1)) by (apply Z.pow_le_mono_r; lia). lia. }
        unfold SpecFloat.fexp. lia. }
      unfold shr_fexp. cbn [Zdigits2 shr_record_of_loc]. fold d1.
      rewrite shr_none by lia. cbn [shr_m].
      rewrite mk_canonical; [reflexivity|].
      unfold canonical_mantissa. fold d1. now apply Z.eqb_eq.
Qed.

Lemma rnd_V (m : positive) (e : Z) :
  - K <= e -> e <= fexp (Zpos (digits2_pos m) + e) ->
  rnd (V (Zpos m) e)
  = V (rne (Zpos m) (fexp (Zpos (digits2_pos m) + e) - e))
      (fexp (Zpos (digits2_pos m) + e)).
Proof.
  intros He Hf. unfold rnd. rewrite grid_V by assumption.
  set (e1 := fexp (Zpos (digits2_pos m) + e)) in *.
  unfold V at 1. replace (e1 + K) with ((e1 - e) + (e + K)) at 1 by lia.
  rewrite rne_scale by lia. reflexivity.
Qed.

(** [binary_round_aux] on an exact input rounds its value. *)
Lemma binary_round_aux_correct (sx : bool) (mx : positive) (ex : Z) :
  - K <= ex -> ex <= fexp (Zpos (digits2_pos mx) + ex) ->
  binary_round_aux prec emax sx (Zpos mx) ex loc_Exact
  = mk sx (rnd (V (Zpos mx) ex)).
Proof.
  intros He Hf. rewrite rnd_V by assumption.
  pose proof (digits_bounds mx) as B.
  set (d := Zpos (digits2_pos mx)) in *.
  assert (Hd : 0 < d) by (unfold d; lia).
  set (e1 := fexp (d + ex)) in *.
  pose proof (fexp_ge_emin (d + ex)) as G. fold e1 in G.
  assert (Hprec1 : d + ex - prec <= e1) by (unfold e1, SpecFloat.fexp; lia).
  unfold binary_round_aux.
  unfold shr_fexp at 1. cbn [Zdigits2 shr_record_of_loc]. fold d. fold e1.
  destruct (Z.eq_dec e1 ex) as [E|N].
  - (* no shift *)
    rewrite shr_none by lia. cbn [shr_m loc_of_shr_record round_nearest_even].
    replace (e1 - ex) with 0 by lia. unfold rne. cbv zeta.
    rewrite Z.pow_0_r, Z.div_1_r, Z.mod_1_r. cbn [Z.mul Z.ltb Z.compare].
    rewrite E. apply round_tail; try lia.
    + split; [lia|].
      assert (2 ^ d <= 2 ^ prec) by (apply Z.pow_le_mono_r; lia). lia.
    + intros Hlt. assert (Hdp : d = prec) by (unfold e1, SpecFloat.fexp in E; lia).
      rewrite <- Hdp. lia.
  - pose proof (shr_round (Zpos mx) ex (e1 - ex) ltac:(lia) ltac:(lia)) as [R1 R2].
    cbv zeta in R1.
    destruct (shr {| shr_m := Zpos mx; shr_r := false; shr_s := false |} ex (e1 - ex))
      as [mrs' e'] eqn:Es.
    cbn [fst snd] in R1, R2. rewrite R1, R2.
    replace (ex + (e1 - ex)) with e1 by lia.
    set (n := e1 - ex) in *.
    assert (Pn : 0 < 2 ^ n) by (apply pow2_pos; lia).
    pose proof (rne_bounds (Zpos mx) n ltac:(lia)) as Rb.
    apply round_tail; try lia.
    + split.
      * apply rne_nonneg; lia.
      * apply rne_le_grid; [lia|].
        rewrite <- Z.pow_add_r by lia.
        assert (2 ^ d <= 2 ^ (prec + n)) by (apply Z.pow_le_mono_r; lia). lia.
    + intros Hlt. apply rne_ge_grid; [lia|].
      rewrite <- Z.pow_add_r by lia.
      assert (prec - 1 + n = d - 1) by (unfold n, e1, SpecFloat.fexp in *; lia).
      replace (prec - 1 + n) with (d - 1) by lia. lia.
Qed.

Lemma pos_iter_xO (m d : positive) : Zpos (Pos.iter xO m d) = Zpos m * 2 ^ Zpos d.
Proof.
  induction d as [|d IH] using Pos.peano_ind.
  - cbn [Pos.iter]. rewrite Pos2Z.inj_xO. change (2 ^ 1) with 2. lia.
  - rewrite Pos.iter_succ, Pos2Z.inj_xO, IH, Pos2Z.inj_succ, Z.pow_succ_r by lia. lia.
Qed.

Lemma V_shift (m e j : Z) : 0 <= j -> - K <= e -> V (m * 2 ^ j) e = V m (e + j).
Proof.
  intros Hj He. unfold V. replace (e + j + K) with (j + (e + K)) by lia.
  rewrite (Z.pow_add_r 2 j (e + K)) by lia. ring.
Qed.

Lemma digits_shift (m : positive) (j : positive) :
  Zpos (digits2_pos (Pos.iter xO m j)) = Zpos (digits2_pos m) + Zpos j.
Proof.
  apply digits_unique. rewrite pos_iter_xO.
  pose proof (digits_bounds m) as B.
  set (d := Zpos (digits2_pos m)) in *.
  assert (0 < d) by (unfold d; lia).
  replace (d + Zpos j - 1) with ((d - 1) + Zpos j) by lia.
  rewrite !Z.pow_add_r by lia.
  pose proof (pow2_pos (Zpos j) ltac:(lia)). nia.
Qed.

(** [binary_round] rounds the value of its input. *)
Lemma binary_round_correct (sx : bool) (mx : positive) (ex : Z) :
  - K <= ex ->
  binary_round prec emax sx mx ex = mk sx (rnd (V (Zpos mx) ex)).
Proof.
  intros He. unfold binary_round, shl_align.
  pose proof (fexp_ge_emin (Zpos (digits2_pos mx) + ex)) as G.
  pose proof emin_le0 as E0.
  destruct (fexp (Zpos (digits2_pos mx) + ex) - ex) as [|p|p] eqn:E.
  - apply binary_round_aux_correct; lia.
  - apply binary_round_aux_correct; lia.
  - rewrite binary_round_aux_correct.
    + f_equal. f_equal. rewrite pos_iter_xO, V_shift by lia. f_equal. lia.
    + lia.
    + rewrite digits_shift.
      replace (Zpos (digits2_pos mx) + Zpos p + fexp (Zpos (digits2_pos mx) + ex))
        with (Zpos (digits2_pos mx) + ex) by lia.
      lia.
Qed.

Lemma binary_normalize_correct (m e : Z) :
  - K <= e -> binary_normalize prec emax m e false = sround (V m e).
Proof.
  intros He. unfold sround.
  pose proof (pow2_pos (e + K) ltac:(lia)) as P.
  destruct m as [|p|p]; cbn [binary_normalize].
  - reflexivity.
  - rewrite binary_round_correct by assumption.
    assert (0 < V (Zpos p) e) by (apply V_pos; lia).
    replace (V (Zpos p) e =? 0) with false by (symmetry; apply Z.eqb_neq; lia).
    replace (V (Zpos p) e <? 0) with false by (symmetry; apply Z.ltb_ge; lia).
    rewrite Z.abs_eq by lia. reflexivity.
  - rewrite binary_round_correct by assumption.
    assert (0 < V (Zpos p) e) by (apply V_pos; lia).
    assert (Ev : V (Zneg p) e = - V (Zpos p) e) by (unfold V; lia).
    rewrite Ev.
    replace (- V (Zpos p) e =? 0) with false by (symmetry; apply Z.eqb_neq; lia).
    replace (- V (Zpos p) e <? 0) with true by (symmetry; apply Z.ltb_lt; lia).
    rewrite Z.abs_neq by lia. rewrite Z.opp_involutive. reflexivity.
Qed.

(** *** What rounding produces *)

Lemma canonical_cases (m1 e1 : Z) :
  emin <= e1 -> 0 <= m1 <= 2 ^ prec ->
  (emin < e1 -> 2 ^ (prec - 1) <= m1) ->
  m1 = 0 \/
  exists (m : positive) (e : Z),
    canonical_mantissa prec emax m e = true /\ V m1 e1 = V (Zpos m) e.
Proof.
  intros He1 [Hm0 Hm1] Hn.
  pose proof emin_le0 as E0.
  destruct m1 as [|p|p]; [now left| |lia]. right.
  pose proof (digits_bounds p) as B.
  set (d1 := Zpos (digits2_pos p)) in *.
  assert (Hd1 : 0 < d1) by (unfold d1; lia).
  destruct (Z.eq_dec (Zpos p) (2 ^ prec)) as [Ec|Nc].
  - pose proof (pow2_pos (prec - 1) ltac:(lia)) as Pp.
    destruct (2 ^ (prec - 1)) as [|h|h] eqn:Eh2; try lia.
    exists h, (e1 + 1). split.
    + unfold canonical_mantissa. apply Z.eqb_eq.
      rewrite (digits_unique h prec).
      * unfold SpecFloat.fexp. lia.
      * rewrite <- Eh2. split; [lia|]. apply Z.pow_lt_mono_r; lia.
    + unfold V. rewrite Ec, <- Eh2, <- !Z.pow_add_r by lia. f_equal. lia.
  - exists p, e1. split; [|reflexivity].
    assert (Hlt : Zpos p < 2 ^ prec) by lia.
    assert (D1 : d1 <= prec).
    { destruct (Z_le_gt_dec d1 prec) as [|G]; [assumption|].
      assert (2 ^ prec <= 2 ^ (d1 - 1)) by (apply Z.pow_le_mono_r; lia). lia. }
    unfold canonical_mantissa. fold d1. apply Z.eqb_eq.
    destruct (Z.eq_dec e1 emin) as [->|Ne]; [unfold SpecFloat.fexp; lia|].
    specialize (Hn ltac:(lia)).
    assert (prec <= d1).
    { destruct (Z_le_gt_dec prec d1) as [|G]; [assumption|].
      assert (2 ^ d1 <= 2 ^ (prec - 1)) by (apply Z.pow_le_mono_r; lia). lia. }
    unfold SpecFloat.fexp. lia.
Qed.

Lemma grid_bounds (v : Z) :
  0 < v ->
  emin + K <= grid v /\ v < 2 ^ (prec + grid v) /\
  (emin + K < grid v -> 2 ^ (prec - 1 + grid v) <= v).
Proof.
  intros Hv. pose proof (Z.log2_spec v Hv) as L.
  pose proof (Z.log2_nonneg v) as L0.
  pose proof emin_le0 as E0.
  unfold grid, SpecFloat.fexp.
  set (l := Z.log2 v) in *.
  split; [lia|]. split.
  - assert (2 ^ Z.succ l <= 2 ^ (prec + (Z.max (l + 1 - K - prec) emin + K)))
      by (apply Z.pow_le_mono_r; lia). lia.
  - intros H. replace (prec - 1 + (Z.max (l + 1 - K - prec) emin + K)) with l by lia. lia.
Qed.

Lemma rnd_cases (v : Z) :
  0 < v ->
  rnd v = 0 \/
  exists (m : positive) (e : Z),
    canonical_mantissa prec emax m e = true /\ rnd v = V (Zpos m) e.
Proof.
  intros Hv. destruct (grid_bounds v Hv) as (G1 & G2 & G3).
  pose proof emin_le0 as E0.
  set (g := grid v) in *.
  assert (Pg : 0 < 2 ^ g) by (apply pow2_pos; lia).
  destruct (canonical_cases (rne v g) (g - K)) as [Z0|(m & e & C & E)].
  - lia.
  - split; [apply rne_nonneg; lia|].
    apply rne_le_grid; [lia|]. rewrite <- Z.pow_add_r by lia. lia.
  - intros H. apply rne_ge_grid; [lia|]. rewrite <- Z.pow_add_r by lia.
    apply G3. lia.
  - left. unfold rnd. fold g. rewrite Z0. lia.
  - right. exists m, e. split; [exact C|]. rewrite <- E.
    unfold rnd, V. fold g. f_equal. f_equal. lia.
Qed.

(** *** Rounding is monotone and keeps the floats *)

Lemma grid_mono (v w : Z) : 0 < v -> v <= w -> grid v <= grid w.
Proof.
  intros Hv H. unfold grid.
  pose proof (Z.log2_le_mono v w H).
  pose proof (fexp_mono (Z.log2 v + 1 - K) (Z.log2 w + 1 - K) ltac:(lia)). lia.
Qed.

Lemma rnd_mono (v w : Z) : 0 < v -> v <= w -> rnd v <= rnd w.
Proof.
  intros Hv H.
  destruct (grid_bounds v Hv) as (G1 & G2 & G3).
  destruct (grid_bounds w ltac:(lia)) as (G1' & G2' & G3').
  pose proof (grid_mono v w Hv H) as Gm.
  pose proof emin_le0 as E0.
  unfold rnd. set (g := grid v) in *. set (g' := grid w) in *.
  assert (Pg : 0 < 2 ^ g) by (apply pow2_pos; lia).
  assert (Pg' : 0 < 2 ^ g') by (apply pow2_pos; lia).
  destruct (Z.eq_dec g g') as [E|N].
  - rewrite <- E. pose proof (rne_mono v w g ltac:(lia) H). nia.
  - assert (A : rne v g <= 2 ^ prec).
    { apply rne_le_grid; [lia|]. rewrite <- Z.pow_add_r by lia. lia. }
    assert (B : 2 ^ (prec - 1) <= rne w g').
    { apply rne_ge_grid; [lia|]. rewrite <- Z.pow_add_r by lia. apply G3'. lia. }
    assert (C : 2 ^ prec * 2 ^ g <= 2 ^ (prec - 1) * 2 ^ g').
    { rewrite <- !Z.pow_add_r by lia. apply Z.pow_le_mono_r; lia. }
    nia.
Qed.

Lemma canonical_exp (m : positive) (e : Z) :
  canonical_mantissa prec emax m e = true -> emin <= e.
Proof.
  unfold canonical_mantissa. intros C. apply Z.eqb_eq in C.
  pose proof (fexp_ge_emin (Zpos (digits2_pos m) + e)). lia.
Qed.

Lemma rnd_id (m : positive) (e : Z) :
  canonical_mantissa prec emax m e = true -> rnd (V (Zpos m) e) = V (Zpos m) e.
Proof.
  intros C. pose proof (canonical_exp m e C) as He. pose proof emin_le0 as E0.
  unfold canonical_mantissa in C. apply Z.eqb_eq in C.
  rewrite rnd_V by lia. rewrite C.
  replace (e - e) with 0 by lia.
  replace (rne (Zpos m) 0) with (Zpos m); [reflexivity|].
  pose proof (rne_exact (Zpos m) 0 ltac:(lia)) as R.
  rewrite Z.pow_0_r, Z.mul_1_r in R. now rewrite R.
Qed.

Lemma canonical_top (m : positive) (e : Z) :
  canonical_mantissa prec emax m e = true ->
  (e <= emax - prec -> V (Zpos m) e < top) /\
  (emax - prec < e -> top <= V (Zpos m) e).
Proof.
  intros C. pose proof (canonical_exp m e C) as He. pose proof emin_le0 as E0.
  unfold canonical_mantissa in C. apply Z.eqb_eq in C.
  pose proof (digits_bounds m) as B.
  set (d := Zpos (digits2_pos m)) in *.
  assert (Hd : 0 < d) by (unfold d; lia).
  pose proof (pow2_pos (e + K) ltac:(lia)) as P.
  unfold top, V. split; intros L.
  - assert (d <= prec) by (unfold SpecFloat.fexp in C; lia).
    assert (2 ^ d * 2 ^ (e + K) <= 2 ^ (emax + K)).
    { rewrite <- Z.pow_add_r by lia. apply Z.pow_le_mono_r; lia. }
    nia.
  - assert (Hdp : d = prec) by (unfold SpecFloat.fexp in C; lia).
    assert (2 ^ (emax + K) <= 2 ^ (d - 1) * 2 ^ (e + K)).
    { rewrite <- Z.pow_add_r by lia. apply Z.pow_le_mono_r; lia. }
    nia.
Qed.

Lemma top_pos : 0 < top.
Proof. unfold top. apply pow2_pos. pose proof emin_le0. unfold SpecFloat.emin in *. lia. Qed.

Lemma rnd_top : rnd top = top.
Proof.
  pose proof (pow2_pos (prec - 1) ltac:(lia)) as Pp.
  pose proof emin_le0 as E0.
  destruct (2 ^ (prec - 1)) as [|h|h] eqn:Eh; try lia.
  assert (Et : top = V (Zpos h) (emax - prec + 1)).
  { unfold top, V. rewrite <- Eh, <- Z.pow_add_r by (unfold SpecFloat.emin in *; lia).
    f_equal. lia. }
  rewrite Et. apply rnd_id.
  unfold canonical_mantissa. apply Z.eqb_eq.
  rewrite (digits_unique h prec).
  - unfold SpecFloat.fexp, SpecFloat.emin. lia.
  - rewrite <- Eh. split; [lia|]. apply Z.pow_lt_mono_r; lia.
Qed.

Lemma rnd_nonneg (v : Z) : 0 < v -> 0 <= rnd v.
Proof.
  intros Hv. unfold rnd. pose proof (grid_nonneg v).
  pose proof (rne_nonneg v (grid v) ltac:(lia) ltac:(lia)).
  pose proof (pow2_pos (grid v) ltac:(lia)). nia.
Qed.

(** *** Order *)

Lemma valid_finite_inv (s : bool) (m : positive) (e : Z) :
  valid (S754_finite s m e) ->
  canonical_mantissa prec emax m e = true /\ e <= emax - prec /\ emin <= e /\
  0 < V (Zpos m) e < top.
Proof.
  unfold valid, valid_binary, bounded. intros H.
  apply andb_true_iff in H. destruct H as [C L]. apply Z.leb_le in L.
  pose proof (canonical_exp m e C) as He. pose proof emin_le0 as E0.
  repeat split; try assumption.
  - apply V_pos; lia.
  - now apply canonical_top.
Qed.

Lemma mk_valid_finite (s : bool) (m : positive) (e : Z) :
  valid (S754_finite s m e) -> mk s (V (Zpos m) e) = S754_finite s m e.
Proof.
  intros H. destruct (valid_finite_inv s m e H) as (C & L & _).
  rewrite (mk_canonical s m e C).
  now replace (e <=? emax - prec) with true by (symmetry; apply Z.leb_le; lia).
Qed.

Lemma mk_rnd (s : bool) (v : Z) :
  0 < v ->
  valid (mk s (rnd v)) /\ is_nan (mk s (rnd v)) = false /\
  ord (mk s (rnd v)) = cond_Zopp s (Z.min (rnd v) top).
Proof.
  intros Hv. pose proof top_pos as Tp.
  destruct (rnd_cases v Hv) as [Z0|(m & e & C & E)].
  - rewrite Z0. unfold mk. cbn. repeat split. destruct s; cbn; lia.
  - rewrite E, (mk_canonical s m e C).
    destruct (canonical_top m e C) as [T1 T2].
    destruct (e <=? emax - prec) eqn:L; [apply Z.leb_le in L|apply Z.leb_gt in L].
    + repeat split.
      * unfold valid, valid_binary, bounded. rewrite C. now apply Z.leb_le.
      * cbn [ord]. f_equal. specialize (T1 L). lia.
    + repeat split. cbn [ord]. f_equal. specialize (T2 ltac:(lia)). lia.
Qed.

Lemma compare_canonical (m1 m2 : positive) (e1 e2 : Z) :
  canonical_mantissa prec emax m1 e1 = true ->
  canonical_mantissa prec emax m2 e2 = true ->
  match Z.compare e1 e2 with
  | Lt => Lt
  | Gt => Gt
  | Eq => Pos.compare_cont Eq m1 m2
  end = (V (Zpos m1) e1 ?= V (Zpos m2) e2).
Proof.
  intros C1 C2.
  pose proof (canonical_exp _ _ C1) as He1. pose proof (canonical_exp _ _ C2) as He2.
  pose proof emin_le0 as E0.
  unfold canonical_mantissa in C1, C2. apply Z.eqb_eq in C1. apply Z.eqb_eq in C2.
  pose proof (digits_bounds m1) as B1. pose proof (digits_bounds m2) as B2.
  set (d1 := Zpos (digits2_pos m1)) in *. set (d2 := Zpos (digits2_pos m2)) in *.
  assert (Hd1 : 0 < d1) by (unfold d1; lia). assert (Hd2 : 0 < d2) by (unfold d2; lia).
  assert (Lt_case : forall ma mb ea eb da db,
            0 < da -> 0 < db -> - K <= ea -> - K <= eb ->
            2 ^ (da - 1) <= ma < 2 ^ da -> 2 ^ (db - 1) <= mb < 2 ^ db ->
            da + ea < db + eb -> V ma ea < V mb eb).
  { intros ma mb ea eb da db Ha Hb Hea Heb Ba Bb Hlt. unfold V.
    pose proof (pow2_pos (ea + K) ltac:(lia)). pose proof (pow2_pos (eb + K) ltac:(lia)).
    assert (2 ^ da * 2 ^ (ea + K) <= 2 ^ (db - 1) * 2 ^ (eb + K)).
    { rewrite <- !Z.pow_add_r by lia. apply Z.pow_le_mono_r; lia. }
    nia. }
  destruct (Z.compare_spec e1 e2) as [E|L|G].
  - subst e2. rewrite Pos.compare_cont_spec. cbn [Pos.switch_Eq].
    unfold V. pose proof (pow2_pos (e1 + K) ltac:(lia)) as P.
    change (Pos.compare m1 m2) with (Zpos m1 ?= Zpos m2).
    destruct (Z.compare_spec (Zpos m1) (Zpos m2)) as [E|L|G]; symmetry.
    + apply Z.compare_eq_iff. now rewrite E.
    + apply Z.compare_lt_iff. nia.
    + apply Z.compare_gt_iff. nia.
  - symmetry. apply Z.compare_lt_iff.
    apply (Lt_case _ _ _ _ d1 d2); try lia.
    destruct (Z_lt_le_dec (d1 + e1) (d2 + e2)) as [|Ge]; [assumption|].
    pose proof (fexp_mono _ _ Ge). lia.
  - symmetry. apply Z.compare_gt_iff.
    apply (Lt_case _ _ _ _ d2 d1); try lia.
    destruct (Z_lt_le_dec (d2 + e2) (d1 + e1)) as [|Ge]; [assumption|].
    pose proof (fexp_mono _ _ Ge). lia.
Qed.

Lemma SFcompare_ord (a b : spec_float) :
  valid a -> valid b -> is_nan a = false -> is_nan b = false ->
  SFcompare a b = Some (ord a ?= ord b).
Proof.
  intros Va Vb Na Nb. pose proof top_pos as Tp.
  destruct a as [sa|sa| |sa ma ea]; try discriminate;
  destruct b as [sb|sb| |sb mb eb]; try discriminate;
  try (destruct (valid_finite_inv _ _ _ Va) as (Ca & La & Ea & Pa));
  try (destruct (valid_finite_inv _ _ _ Vb) as (Cb & Lb & Eb & Pb));
  cbn [SFcompare ord]; f_equal;
  try (repeat match goal with s : bool |- _ => destruct s end; cbn [cond_Zopp]; symmetry;
       first [apply Z.compare_eq_iff; lia | apply Z.compare_lt_iff; lia
             | apply Z.compare_gt_iff; lia]).
  destruct sa, sb; cbn [cond_Zopp].
  - rewrite Z.compare_opp, (Z.compare_antisym (V (Zpos ma) ea)).
    rewrite <- (compare_canonical _ _ _ _ Ca Cb).
    destruct (ea ?= eb); reflexivity.
  - symmetry. apply Z.compare_lt_iff. lia.
  - symmetry. apply Z.compare_gt_iff. lia.
  - apply (compare_canonical _ _ _ _ Ca Cb).
Qed.

(** *** The operations on finite floats *)

Lemma V_mul (a b e1 e2 : Z) :
  - K <= e1 -> - K <= e2 -> - K <= e1 + e2 ->
  V (a * b) (e1 + e2) * 2 ^ K = V a e1 * V b e2.
Proof.
  intros H1 H2 H3. unfold V.
  assert (0 <= K) by (pose proof emin_le0; lia).
  assert (E : 2 ^ (e1 + e2 + K) * 2 ^ K = 2 ^ (e1 + K) * 2 ^ (e2 + K)).
  { rewrite <- !Z.pow_add_r by lia. f_equal. lia. }
  rewrite <- Z.mul_assoc, E. ring.
Qed.

Lemma SFmul_finite (sx sy : bool) (mx my : positive) (ex ey : Z) :
  valid (S754_finite sx mx ex) -> valid (S754_finite sy my ey) ->
  SFmul prec emax (S754_finite sx mx ex) (S754_finite sy my ey)
  = mk (xorb sx sy) (rnd (V (Zpos (mx * my)) (ex + ey))).
Proof.
  intros Vx Vy.
  destruct (valid_finite_inv _ _ _ Vx) as (Cx & Lx & Ex & Px).
  destruct (valid_finite_inv _ _ _ Vy) as (Cy & Ly & Ey & Py).
  pose proof emin_le0 as E0.
  cbn [SFmul]. apply binary_round_aux_correct; [lia|].
  unfold canonical_mantissa in Cx, Cy. apply Z.eqb_eq in Cx. apply Z.eqb_eq in Cy.
  pose proof (digits_bounds mx) as Bx. pose proof (digits_bounds my) as By.
  pose proof (digits_bounds (mx * my)) as Bxy.
  set (dx := Zpos (digits2_pos mx)) in *. set (dy := Zpos (digits2_pos my)) in *.
  set (dxy := Zpos (digits2_pos (mx * my))) in *.
  assert (Hdx : 0 < dx) by (unfold dx; lia). assert (Hdy : 0 < dy) by (unfold dy; lia).
  assert (Hd : dx + dy - 1 <= dxy).
  { destruct (Z_le_gt_dec (dx + dy - 1) dxy) as [|G]; [assumption|].
    assert (2 ^ dxy <= 2 ^ (dx + dy - 2)) by (apply Z.pow_le_mono_r; unfold dxy; lia).
    assert (2 ^ (dx + dy - 2) = 2 ^ (dx - 1) * 2 ^ (dy - 1)).
    { rewrite <- Z.pow_add_r by lia. f_equal. lia. }
    rewrite Pos2Z.inj_mul in Bxy. nia. }
  unfold SpecFloat.fexp in *. lia.
Qed.

Lemma shl_align_value (mx : positive) (ex ez : Z) :
  - K <= ez -> ez <= ex ->
  V (Zpos (fst (shl_align mx ex ez))) ez = V (Zpos mx) ex.
Proof.
  intros Hz Hx. unfold shl_align.
  destruct (ez - ex) as [|p|p] eqn:E; cbn [fst]; try lia.
  - replace ez with ex by lia. reflexivity.
  - rewrite pos_iter_xO, V_shift by lia. f_equal. lia.
Qed.

Lemma V_add (a b e : Z) : V (a + b) e = V a e + V b e.
Proof. unfold V. ring. Qed.

Lemma V_opp (a e : Z) : V (- a) e = - V a e.
Proof. unfold V. ring. Qed.

Lemma V_cond_Zopp (s : bool) (a e : Z) : V (cond_Zopp s a) e = cond_Zopp s (V a e).
Proof. destruct s; cbn [cond_Zopp]; [apply V_opp|reflexivity]. Qed.

Lemma SFadd_finite (sx sy : bool) (mx my : positive) (ex ey : Z) :
  valid (S754_finite sx mx ex) -> valid (S754_finite sy my ey) ->
  SFadd prec emax (S754_finite sx mx ex) (S754_finite sy my ey)
  = sround (ord (S754_finite sx mx ex) + ord (S754_finite sy my ey)).
Proof.
  intros Vx Vy.
  destruct (valid_finite_inv _ _ _ Vx) as (Cx & Lx & Ex & Px).
  destruct (valid_finite_inv _ _ _ Vy) as (Cy & Ly & Ey & Py).
  pose proof emin_le0 as E0.
  cbn [SFadd ord]. rewrite binary_normalize_correct by lia.
  f_equal. rewrite V_add, !V_cond_Zopp, !shl_align_value by lia. reflexivity.
Qed.

Lemma SFsub_finite (sx sy : bool) (mx my : positive) (ex ey : Z) :
  valid (S754_finite sx mx ex) -> valid (S754_finite sy my ey) ->
  SFsub prec emax (S754_finite sx mx ex) (S754_finite sy my ey)
  = sround (ord (S754_finite sx mx ex) - ord (S754_finite sy my ey)).
Proof.
  intros Vx Vy.
  destruct (valid_finite_inv _ _ _ Vx) as (Cx & Lx & Ex & Px).
  destruct (valid_finite_inv _ _ _ Vy) as (Cy & Ly & Ey & Py).
  pose proof emin_le0 as E0.
  cbn [SFsub ord]. rewrite binary_normalize_correct by lia.
  f_equal. unfold Z.sub. rewrite V_add, V_opp, !V_cond_Zopp, !shl_align_value by lia.
  reflexivity.
Qed.

(** *** The result of rounding, as a float *)

Lemma mk_nonneg (w : Z) : nonneg (mk false w) = true.
Proof. unfold mk. destruct (w =? 0); [reflexivity|]. now destruct (top <=? w). Qed.

Lemma sround_pos (z : Z) :
  0 < z ->
  valid (sround z) /\ is_nan (sround z) = false /\ nonneg (sround z) = true /\
  ord (sround z) = Z.min (rnd z) top.
Proof.
  intros Hz. unfold sround.
  replace (z =? 0) with false by (symmetry; apply Z.eqb_neq; lia).
  replace (z <? 0) with false by (symmetry; apply Z.ltb_ge; lia).
  rewrite Z.abs_eq by lia.
  destruct (mk_rnd false z Hz) as (A & B & C).
  repeat split; try assumption. apply mk_nonneg.
Qed.

Lemma mk_finite (s : bool) (w : Z) :
  0 < w < top -> is_finite (mk s w) = true.
Proof.
  intros H. unfold mk.
  replace (w =? 0) with false by (symmetry; apply Z.eqb_neq; lia).
  now replace (top <=? w) with false by (symmetry; apply Z.leb_gt; lia).
Qed.

Lemma valid_mk_rnd (s : bool) (v : Z) : 0 < v -> valid (mk s (rnd v)).
Proof. intros Hv. apply (mk_rnd s v Hv). Qed.

Lemma SFmul_valid (a b : spec_float) : valid a -> valid b -> valid (SFmul prec emax a b).
Proof.
  intros Va Vb.
  destruct a as [sa|sa| |sa ma ea]; destruct b as [sb|sb| |sb mb eb];
    try reflexivity.
  rewrite SFmul_finite by assumption.
  destruct (valid_finite_inv _ _ _ Va) as (_ & _ & Ea & _).
  destruct (valid_finite_inv _ _ _ Vb) as (_ & _ & Eb & _).
  pose proof emin_le0.
  apply valid_mk_rnd, V_pos; lia.
Qed.

Lemma valid_sround (z : Z) : valid (sround z).
Proof.
  unfold sround. destruct (z =? 0) eqn:E; [reflexivity|].
  apply Z.eqb_neq in E. apply valid_mk_rnd. lia.
Qed.

Lemma SFadd_valid (a b : spec_float) : valid a -> valid b -> valid (SFadd prec emax a b).
Proof.
  intros Va Vb.
  destruct a as [sa|sa| |sa ma ea]; destruct b as [sb|sb| |sb mb eb];
    try reflexivity; try assumption;
    try (destruct sa, sb; reflexivity).
  rewrite SFadd_finite by assumption. apply valid_sround.
Qed.

Lemma SFsub_valid (a b : spec_float) : valid a -> valid b -> valid (SFsub prec emax a b).
Proof.
  intros Va Vb.
  destruct a as [sa|sa| |sa ma ea]; destruct b as [sb|sb| |sb mb eb];
    try reflexivity; try assumption;
    try (destruct sa, sb; reflexivity).
  rewrite SFsub_finite by assumption. apply valid_sround.
Qed.

Lemma SFltb_ord (a b : spec_float) :
  valid a -> valid b -> SFltb a b = true ->
  is_nan a = false /\ is_nan b = false /\ ord a < ord b.
Proof.
  intros Va Vb H. unfold SFltb in H.
  assert (Na : is_nan a = false).
  { destruct a; try reflexivity. discriminate H. }
  assert (Nb : is_nan b = false).
  { destruct b; try reflexivity. destruct a; discriminate H. }
  rewrite (SFcompare_ord a b Va Vb Na Nb) in H.
  repeat split; try assumption.
  destruct (Z.compare_spec (ord a) (ord b)); try discriminate H. assumption.
Qed.

Lemma SFltb_ge (a b : spec_float) :
  valid a -> valid b -> is_nan a = false -> is_nan b = false ->
  ord b <= ord a -> SFltb a b = false.
Proof.
  intros Va Vb Na Nb H. unfold SFltb.
  rewrite (SFcompare_ord a b Va Vb Na Nb).
  destruct (Z.compare_spec (ord a) (ord b)); try reflexivity. lia.
Qed.

Lemma SFltb_lt (a b : spec_float) :
  valid a -> valid b -> is_nan a = false -> is_nan b = false ->
  ord a < ord b -> SFltb a b = true.
Proof.
  intros Va Vb Na Nb H. unfold SFltb.
  rewrite (SFcompare_ord a b Va Vb Na Nb).
  destruct (Z.compare_spec (ord a) (ord b)); try reflexivity; lia.
Qed.

Lemma nonneg_ord (x : spec_float) : nonneg x = true -> 0 <= ord x /\ is_nan x = false.
Proof.
  pose proof top_pos.
  destruct x as [s|s| |s m e]; try discriminate; cbn [ord nonneg is_nan].
  - intros _. split; [lia|reflexivity].
  - destruct s; [discriminate|]. intros _. cbn [cond_Zopp]. split; [lia|reflexivity].
  - destruct s; [discriminate|]. intros _. cbn [cond_Zopp]. split; [|reflexivity].
    unfold V. pose proof (Z.pow_nonneg 2 (e + K) ltac:(lia)). nia.
Qed.

(** The values of the floats are kept by rounding. *)
Lemma rnd_ord (x : spec_float) :
  valid x -> nonneg x = true -> 0 < ord x -> rnd (ord x) = ord x.
Proof.
  intros Vx Nx Px.
  destruct x as [s|s| |s m e]; cbn [ord] in *; try lia.
  - destruct s; [discriminate|]. apply rnd_top.
  - destruct s; [discriminate|]. cbn [cond_Zopp].
    apply rnd_id. apply (valid_finite_inv _ _ _ Vx).
Qed.

Lemma ord_le_top (x : spec_float) : valid x -> ord x <= top.
Proof.
  intros Vx. pose proof top_pos.
  destruct x as [s|s| |s m e]; cbn [ord]; try lia.
  - destruct s; cbn [cond_Zopp]; lia.
  - destruct (valid_finite_inv _ _ _ Vx) as (_ & _ & _ & P).
    destruct s; cbn [cond_Zopp]; lia.
Qed.

Lemma SFadd_nonneg (a b : spec_float) :
  valid a -> valid b -> nonneg a = true -> nonneg b = true ->
  valid (SFadd prec emax a b) /\ nonneg (SFadd prec emax a b) = true /\
  ord (SFadd prec emax a b) = add_ord (ord a) (ord b).
Proof.
  intros Va Vb Na Nb.
  split; [now apply SFadd_valid|].
  pose proof top_pos as Tp.
  destruct (nonneg_ord a Na) as [Pa _]. destruct (nonneg_ord b Nb) as [Pb _].
  pose proof (ord_le_top a Va) as La. pose proof (ord_le_top b Vb) as Lb.
  assert (Hid : forall x, valid x -> nonneg x = true -> 0 < ord x ->
                  forall w, 0 <= w -> w = 0 \/ ord x = top ->
                  add_ord (ord x) w = ord x /\ add_ord w (ord x) = ord x).
  { intros x Vx Nx Px w Hw Hc. unfold add_ord.
    replace (ord x + w =? 0) with false by (symmetry; apply Z.eqb_neq; lia).
    replace (w + ord x =? 0) with false by (symmetry; apply Z.eqb_neq; lia).
    pose proof (ord_le_top x Vx).
    destruct Hc as [->|Et].
    - rewrite Z.add_0_r, Z.add_0_l, (rnd_ord x Vx Nx Px). lia.
    - assert (top <= rnd (ord x + w)).
      { rewrite <- rnd_top. apply rnd_mono; lia. }
      rewrite (Z.add_comm w). lia. }
  destruct a as [sa|sa| |sa ma ea]; try discriminate;
  destruct b as [sb|sb| |sb mb eb]; try discriminate.
  - (* zero, zero *)
    split; [destruct sa, sb; reflexivity|].
    destruct sa, sb; reflexivity.
  - destruct sb; [discriminate|]. split; [reflexivity|].
    change (SFadd prec emax (S754_zero sa) (S754_infinity false)) with (S754_infinity false).
    symmetry. apply (Hid (S754_infinity false)); try assumption; cbn [ord cond_Zopp]; lia.
  - destruct sb; [discriminate|]. split; [reflexivity|].
    change (SFadd prec emax (S754_zero sa) (S754_finite false mb eb))
      with (S754_finite false mb eb).
    destruct (valid_finite_inv _ _ _ Vb) as (_ & _ & _ & P).
    symmetry. apply (Hid (S754_finite false mb eb)); try assumption; cbn [ord cond_Zopp]; lia.
  - destruct sa; [discriminate|]. split; [reflexivity|].
    change (SFadd prec emax (S754_infinity false) (S754_zero sb)) with (S754_infinity false).
    symmetry. apply (Hid (S754_infinity false)); try assumption; cbn [ord cond_Zopp]; lia.
  - destruct sa; [discriminate|]. destruct sb; [discriminate|]. split; [reflexivity|].
    change (SFadd prec emax (S754_infinity false) (S754_infinity false))
      with (S754_infinity false).
    symmetry. apply (Hid (S754_infinity false)); try assumption; cbn [ord cond_Zopp]; lia.
  - destruct sa; [discriminate|]. destruct sb; [discriminate|]. split; [reflexivity|].
    change (SFadd prec emax (S754_infinity false) (S754_finite false mb eb))
      with (S754_infinity false).
    symmetry. apply (Hid (S754_infinity false)); try assumption; cbn [ord cond_Zopp]; lia.
  - destruct sa; [discriminate|]. split; [reflexivity|].
    change (SFadd prec emax (S754_finite false ma ea) (S754_zero sb))
      with (S754_finite false ma ea).
    destruct (valid_finite_inv _ _ _ Va) as (_ & _ & _ & P).
    symmetry. apply (Hid (S754_finite false ma ea)); try assumption; cbn [ord cond_Zopp]; lia.
  - destruct sa; [discriminate|]. destruct sb; [discriminate|]. split; [reflexivity|].
    change (SFadd prec emax (S754_finite false ma ea) (S754_infinity false))
      with (S754_infinity false).
    symmetry. apply (Hid (S754_infinity false)); try assumption; cbn [ord cond_Zopp]; lia.
  - destruct sa; [discriminate|]. destruct sb; [discriminate|].
    rewrite SFadd_finite by assumption.
    destruct (valid_finite_inv _ _ _ Va) as (_ & _ & _ & P1).
    destruct (valid_finite_inv _ _ _ Vb) as (_ & _ & _ & P2).
    cbn [ord cond_Zopp] in *.
    destruct (sround_pos (V (Zpos ma) ea + V (Zpos mb) eb) ltac:(lia)) as (_ & _ & N & O).
    split; [exact N|]. rewrite O. unfold add_ord.
    now replace (V (Zpos ma) ea + V (Zpos mb) eb =? 0) with false
      by (symmetry; apply Z.eqb_neq; lia).
Qed.

Lemma add_ord_mono (u u' w w' : Z) :
  0 <= u' <= u -> 0 <= w' <= w -> add_ord u' w' <= add_ord u w.
Proof.
  intros Hu Hw. unfold add_ord. pose proof top_pos.
  destruct (u' + w' =? 0) eqn:E'; [apply Z.eqb_eq in E'|apply Z.eqb_neq in E'].
  - destruct (u + w =? 0) eqn:E; [lia|]. apply Z.eqb_neq in E.
    pose proof (rnd_nonneg (u + w) ltac:(lia)). lia.
  - replace (u + w =? 0) with false by (symmetry; apply Z.eqb_neq; lia).
    pose proof (rnd_mono (u' + w') (u + w) ltac:(lia) ltac:(lia)). lia.
Qed.

(** Multiplication by a factor in [0, 1] does not raise a float that is
    not negative. *)
Lemma SFmul_shrink (c f : spec_float) :
  valid c -> valid f -> is_finite c = true -> nonneg c = true ->
  nonneg f = true -> ord f <= 2 ^ K ->
  2 ^ K < top ->
  valid (SFmul prec emax c f) /\ nonneg (SFmul prec emax c f) = true /\
  ord (SFmul prec emax c f) <= ord c.
Proof.
  intros Vc Vf Fc Nc Nf Lf Ht.
  split; [now apply SFmul_valid|].
  pose proof top_pos as Tp. pose proof emin_le0 as E0.
  destruct c as [sc|sc| |sc mc ec]; try discriminate;
  destruct f as [sf|sf| |sf mf ef]; try discriminate.
  - split; [reflexivity|]. cbn [SFmul ord]. lia.
  - destruct sf; [discriminate|]. cbn [ord cond_Zopp] in Lf. lia.
  - split; [reflexivity|]. cbn [SFmul ord]. lia.
  - destruct sc; [discriminate|]. split; [reflexivity|]. cbn [SFmul ord cond_Zopp].
    unfold V. pose proof (Z.pow_nonneg 2 (ec + K) ltac:(lia)). nia.
  - destruct sf; [discriminate|]. cbn [ord cond_Zopp] in Lf. lia.
  - destruct sc; [discriminate|]. destruct sf; [discriminate|].
    rewrite SFmul_finite by assumption. cbn [xorb].
    destruct (valid_finite_inv _ _ _ Vc) as (Cc & _ & Ec & Pc).
    destruct (valid_finite_inv _ _ _ Vf) as (_ & _ & Ef & Pf).
    cbn [ord cond_Zopp] in *.
    assert (Pw : 0 < V (Zpos (mc * mf)) (ec + ef)) by (apply V_pos; lia).
    destruct (mk_rnd false _ Pw) as (_ & _ & O).
    split; [apply mk_nonneg|]. rewrite O. cbn [cond_Zopp].
    assert (Hw : V (Zpos (mc * mf)) (ec + ef) <= V (Zpos mc) ec).
    { pose proof (V_mul (Zpos mc) (Zpos mf) ec ef ltac:(lia) ltac:(lia) ltac:(lia)) as M.
      rewrite <- Pos2Z.inj_mul in M.
      assert (0 < 2 ^ K) by (apply pow2_pos; lia). nia. }
    pose proof (rnd_mono _ _ Pw Hw) as Hm. rewrite (rnd_id mc ec Cc) in Hm. lia.
Qed.

Lemma binary_round_valid (s : bool) (m : positive) (e : Z) :
  - K <= e -> valid (binary_round prec emax s m e).
Proof.
  intros He. rewrite binary_round_correct by assumption.
  apply valid_mk_rnd, V_pos; lia.
Qed.

Lemma binary_normalize_valid (m e : Z) :
  - K <= e -> valid (binary_normalize prec emax m e false).
Proof. intros He. rewrite binary_normalize_correct by assumption. apply valid_sround. Qed.

Lemma ord_pos_finite (x : spec_float) :
  valid x -> 0 < ord x < top ->
  exists m e, x = S754_finite false m e.
Proof.
  intros Vx [H0 H1]. pose proof top_pos.
  destruct x as [s|s| |s m e]; cbn [ord] in *; try lia.
  - destruct s; cbn [cond_Zopp] in *; lia.
  - destruct (valid_finite_inv _ _ _ Vx) as (_ & _ & _ & P).
    destruct s; cbn [cond_Zopp] in *; [lia|]. now exists m, e.
Qed.

(** *** Exact results *)

(** Multiplication by a float of value 1. *)
Lemma SFmul_unit_l (u p : spec_float) :
  valid u -> nonneg u = true -> ord u = 2 ^ K -> 2 ^ K < top ->
  valid p -> SFmul prec emax u p = p.
Proof.
  intros Vu Nu Ou Ht Vp. pose proof emin_le0 as E0.
  assert (P1 : 0 < 2 ^ K) by (apply pow2_pos; lia).
  destruct (ord_pos_finite u Vu ltac:(lia)) as (mu & eu & ->).
  destruct p as [s|s| |s m e]; try reflexivity.
  rewrite SFmul_finite by assumption. cbn [xorb ord cond_Zopp] in *.
  destruct (valid_finite_inv _ _ _ Vu) as (_ & _ & Eu & _).
  destruct (valid_finite_inv _ _ _ Vp) as (Cp & _ & Ep & _).
  pose proof (V_mul (Zpos mu) (Zpos m) eu e ltac:(lia) ltac:(lia) ltac:(lia)) as M.
  rewrite <- Pos2Z.inj_mul, Ou in M.
  assert (E : V (Zpos (mu * m)) (eu + e) = V (Zpos m) e) by nia.
  rewrite E, (rnd_id m e Cp). now apply mk_valid_finite.
Qed.

Lemma SFmul_unit_r (u p : spec_float) :
  valid u -> nonneg u = true -> ord u = 2 ^ K -> 2 ^ K < top ->
  valid p -> SFmul prec emax p u = p.
Proof.
  intros Vu Nu Ou Ht Vp. pose proof emin_le0 as E0.
  assert (P1 : 0 < 2 ^ K) by (apply pow2_pos; lia).
  destruct (ord_pos_finite u Vu ltac:(lia)) as (mu & eu & ->).
  destruct p as [s|s| |s m e]; try reflexivity;
    try (cbn [SFmul]; now rewrite xorb_false_r).
  rewrite SFmul_finite by assumption. rewrite xorb_false_r. cbn [ord cond_Zopp] in *.
  destruct (valid_finite_inv _ _ _ Vu) as (_ & _ & Eu & _).
  destruct (valid_finite_inv _ _ _ Vp) as (Cp & _ & Ep & _).
  pose proof (V_mul (Zpos m) (Zpos mu) e eu ltac:(lia) ltac:(lia) ltac:(lia)) as M.
  rewrite <- Pos2Z.inj_mul, Ou in M.
  assert (E : V (Zpos (m * mu)) (e + eu) = V (Zpos m) e) by nia.
  rewrite E, (rnd_id m e Cp). now apply mk_valid_finite.
Qed.

(** Values with at most [prec] significant bits above the smallest
    exponent are floats. *)
Lemma rnd_exact (c j : Z) :
  0 < c < 2 ^ prec -> emin + K <= j -> rnd (c * 2 ^ j) = c * 2 ^ j.
Proof.
  intros Hc Hj. pose proof emin_le0 as E0.
  assert (Pj : 0 < 2 ^ j) by (apply pow2_pos; lia).
  assert (Hw : 0 < c * 2 ^ j) by nia.
  destruct (grid_bounds _ Hw) as (G1 & G2 & G3).
  set (g := grid (c * 2 ^ j)) in *.
  assert (Hg : g <= j).
  { destruct (Z.eq_dec g (emin + K)); [lia|].
    specialize (G3 ltac:(lia)).
    destruct (Z_le_gt_dec g j) as [|G]; [assumption|].
    assert (2 ^ (prec + j) <= 2 ^ (prec - 1 + g)) by (apply Z.pow_le_mono_r; lia).
    rewrite Z.pow_add_r in H by lia. nia. }
  unfold rnd. fold g.
  replace (c * 2 ^ j) with (c * 2 ^ (j - g) * 2 ^ g) at 1.
  - rewrite rne_exact by lia. rewrite <- Z.mul_assoc, <- Z.pow_add_r by lia.
    f_equal. f_equal. lia.
  - rewrite <- Z.mul_assoc, <- Z.pow_add_r by lia. f_equal. f_equal. lia.
Qed.

(** The float of a value on its grid. *)
Lemma mk_exact (s : bool) (w : Z) :
  0 < w < top -> rnd w = w ->
  exists m e, mk s w = S754_finite s m e /\ valid (S754_finite s m e) /\
              V (Zpos m) e = w.
Proof.
  intros Hw Hr.
  destruct (rnd_cases w ltac:(lia)) as [Z0|(m & e & C & E)]; [lia|].
  rewrite Hr in E. exists m, e.
  destruct (canonical_top m e C) as [T1 T2].
  assert (L : e <= emax - prec).
  { destruct (Z_le_gt_dec e (emax - prec)) as [|G]; [assumption|].
    specialize (T2 ltac:(lia)). lia. }
  rewrite E, (mk_canonical s m e C).
  replace (e <=? emax - prec) with true by (symmetry; apply Z.leb_le; lia).
  repeat split. unfold valid, valid_binary, bounded. rewrite C. now apply Z.leb_le.
Qed.

Lemma mk_rnd_within (s : bool) (v B : Z) :
  0 < v <= B -> rnd B = B -> B < top -> within B (mk s (rnd v)).
Proof.
  intros Hv HB Ht.
  destruct (mk_rnd s v ltac:(lia)) as (A & _ & O).
  pose proof (rnd_mono v B ltac:(lia) ltac:(lia)) as M. rewrite HB in M.
  pose proof (rnd_nonneg v ltac:(lia)) as P.
  split; [exact A|]. split.
  - unfold mk. destruct (rnd v =? 0); [reflexivity|].
    now replace (top <=? rnd v) with false by (symmetry; apply Z.leb_gt; lia).
  - rewrite O. destruct s; cbn [cond_Zopp]; lia.
Qed.

Lemma sround_within (z B : Z) :
  Z.abs z <= B -> rnd B = B -> B < top -> within B (sround z).
Proof.
  intros Hz HB Ht. unfold sround.
  destruct (z =? 0) eqn:E; [|apply Z.eqb_neq in E].
  - repeat split. cbn [ord]. lia.
  - apply mk_rnd_within; try assumption. lia.
Qed.

Lemma within_weaken (B B' : Z) (x : spec_float) : within B x -> B <= B' -> within B' x.
Proof. intros (A & F & L) H. repeat split; try assumption. lia. Qed.

Lemma SFadd_within (B1 B2 B : Z) (a b : spec_float) :
  within B1 a -> within B2 b -> B1 + B2 <= B -> rnd B = B -> B < top ->
  within B (SFadd prec emax a b).
Proof.
  intros (Va & Fa & La) (Vb & Fb & Lb) HB HR HT.
  destruct a as [sa|sa| |sa ma ea]; try discriminate;
  destruct b as [sb|sb| |sb mb eb]; try discriminate.
  - repeat split; try (destruct sa, sb; reflexivity).
    destruct sa, sb; cbn [SFadd ord]; lia.
  - repeat split; try assumption. cbn [SFadd]. lia.
  - repeat split; try assumption. cbn [SFadd]. lia.
  - rewrite SFadd_finite by assumption. apply sround_within; try assumption. lia.
Qed.

(** An integer with at most [prec] bits, as a float. *)
Lemma normalize_int (x : Z) :
  0 < x < 2 ^ prec ->
  exists m e,
    binary_normalize prec emax x 0 false = S754_finite false m e /\
    valid (S754_finite false m e) /\
    V (Zpos m) e = V x 0 /\ e <= 0 /\ Zpos m = x * 2 ^ (- e).
Proof.
  intros Hx. pose proof emin_le0 as E0.
  assert (HK0 : 0 <= K) by lia.
  assert (P1 : 0 < 2 ^ K) by (apply pow2_pos; lia).
  rewrite binary_normalize_correct by lia. unfold round_signed.
  assert (Pv : 0 < V x 0) by (apply V_pos; lia).
  replace (V x 0 =? 0) with false by (symmetry; apply Z.eqb_neq; lia).
  replace (V x 0 <? 0) with false by (symmetry; apply Z.ltb_ge; lia).
  rewrite Z.abs_eq by lia.
  assert (Er : rnd (V x 0) = V x 0).
  { unfold scaled. apply rnd_exact; [assumption|]. lia. }
  rewrite Er.
  assert (Ht : V x 0 < top).
  { unfold scaled, overflow. cbn [Z.add].
    assert (2 ^ prec * 2 ^ K <= 2 ^ (emax + K)).
    { rewrite <- Z.pow_add_r by lia. apply Z.pow_le_mono_r; lia. }
    nia. }
  destruct (mk_exact false (V x 0) ltac:(lia) Er) as (m & e & E1 & E2 & E3).
  exists m, e. repeat split; try assumption.
  - destruct (valid_finite_inv _ _ _ E2) as (C & L & Ee & _).
    unfold canonical_mantissa in C. apply Z.eqb_eq in C.
    pose proof (digits_bounds m) as B.
    set (d := Zpos (digits2_pos m)) in *.
    destruct (Z_le_gt_dec e 0) as [|G]; [assumption|exfalso].
    assert (Hd : d = prec) by (unfold SpecFloat.fexp in C; lia).
    unfold scaled in E3. cbn [Z.add] in E3.
    rewrite Z.pow_add_r in E3 by lia.
    assert (Zpos m * 2 ^ e = x) by nia.
    assert (2 <= 2 ^ e).
    { change 2 with (2 ^ 1) at 1. apply Z.pow_le_mono_r; lia. }
    assert (2 ^ prec = 2 ^ (d - 1) * 2).
    { rewrite Hd. replace prec with (Z.succ (prec - 1)) at 1 by lia.
      rewrite Z.pow_succ_r by lia. lia. }
    nia.
  - destruct (valid_finite_inv _ _ _ E2) as (C & L & Ee & _).
    unfold canonical_mantissa in C. apply Z.eqb_eq in C.
    pose proof (digits_bounds m) as B.
    set (d := Zpos (digits2_pos m)) in *.
    assert (He : e <= 0).
    { destruct (Z_le_gt_dec e 0) as [|G]; [assumption|exfalso].
      assert (Hd : d = prec) by (unfold SpecFloat.fexp in C; lia).
      unfold scaled in E3. cbn [Z.add] in E3.
      rewrite Z.pow_add_r in E3 by lia.
      assert (Zpos m * 2 ^ e = x) by nia.
      assert (2 <= 2 ^ e).
      { change 2 with (2 ^ 1) at 1. apply Z.pow_le_mono_r; lia. }
      assert (2 ^ prec = 2 ^ (d - 1) * 2).
      { rewrite Hd. replace prec with (Z.succ (prec - 1)) at 1 by lia.
        rewrite Z.pow_succ_r by lia. lia. }
      nia. }
    unfold scaled in E3. cbn [Z.add] in E3.
    assert (E : 2 ^ K = 2 ^ (- e) * 2 ^ (e + K)).
    { rewrite <- Z.pow_add_r by lia. f_equal. lia. }
    assert (0 < 2 ^ (e + K)) by (apply pow2_pos; lia).
    rewrite E in E3. nia.
Qed.

(** A float minus itself. *)
Lemma SFsub_diag (s : bool) (m : positive) (e : Z) :
  SFsub prec emax (S754_finite s m e) (S754_finite s m e) = S754_zero false.
Proof.
  cbn [SFsub]. rewrite Z.sub_diag. reflexivity.
Qed.

Lemma SFeqb_refl (x : spec_float) : is_nan x = false -> SFeqb x x = true.
Proof.
  destruct x as [s|s| |s m e]; try discriminate; intros _; unfold SFeqb; cbn [SFcompare].
  - reflexivity.
  - destruct s; reflexivity.
  - rewrite Z.compare_refl, Pos.compare_cont_refl. destruct s; reflexivity.
Qed.

(** A product with a finite factor. *)
Lemma SFmul_within (u a : spec_float) (B1 B : Z) :
  valid u -> is_finite u = true -> within B1 a ->
  Z.abs (ord u) * B1 <= 2 ^ K * B -> rnd B = B -> 0 <= B < top ->
  within B (SFmul prec emax u a).
Proof.
  intros Vu Fu (Va & Fa & La) HB HR HT. pose proof emin_le0 as E0.
  assert (P1 : 0 < 2 ^ K) by (apply pow2_pos; lia).
  destruct u as [su|su| |su mu eu]; try discriminate;
  destruct a as [sa|sa| |sa ma ea]; try discriminate;
    try (repeat split; cbn [SFmul scaled_value]; lia).
  rewrite SFmul_finite by assumption.
  destruct (valid_finite_inv _ _ _ Vu) as (_ & _ & Eu & Pu).
  destruct (valid_finite_inv _ _ _ Va) as (_ & _ & Ea & Pa).
  assert (Pw : 0 < V (Zpos (mu * ma)) (eu + ea)) by (apply V_pos; lia).
  apply mk_rnd_within; try assumption; try lia.
  split; [lia|].
  pose proof (V_mul (Zpos mu) (Zpos ma) eu ea ltac:(lia) ltac:(lia) ltac:(lia)) as M.
  rewrite <- Pos2Z.inj_mul in M.
  assert (Au : Z.abs (ord (S754_finite su mu eu)) = V (Zpos mu) eu).
  { cbn [scaled_value]. destruct su; cbn [cond_Zopp]; lia. }
  assert (Aa : Z.abs (ord (S754_finite sa ma ea)) = V (Zpos ma) ea).
  { cbn [scaled_value]. destruct sa; cbn [cond_Zopp]; lia. }
  rewrite Au in HB. rewrite Aa in La. nia.
Qed.

Lemma same_zero_within (B : Z) (s : bool) : 0 <= B -> within B (S754_zero s).
Proof. intros HB. repeat split. cbn [scaled_value]. lia. Qed.

End Format.

(** * binary32 and binary64 *)

Lemma prec32_pos : 0 < IEEE.prec32. Proof. reflexivity. Qed.
Lemma emax32_gt : IEEE.prec32 < IEEE.emax32. Proof. reflexivity. Qed.
Lemma scale32 : 0 <= scale + 2 * emin IEEE.prec32 IEEE.emax32. Proof. vm_compute. discriminate. Qed.
Lemma prec64_pos : 0 < IEEE.prec64. Proof. reflexivity. Qed.
Lemma emax64_gt : IEEE.prec64 < IEEE.emax64. Proof. reflexivity. Qed.
Lemma scale64 : 0 <= scale + 2 * emin IEEE.prec64 IEEE.emax64. Proof. vm_compute. discriminate. Qed.

Lemma ord32_one : ord32 one32 = 2 ^ scale. Proof. vm_compute. reflexivity. Qed.
Lemma ord64_one : ord64 one64 = 2 ^ scale. Proof. vm_compute. reflexivity. Qed.
Lemma one_lt_top32 : 2 ^ scale < top32. Proof. vm_compute. reflexivity. Qed.
Lemma one_lt_top64 : 2 ^ scale < top64. Proof. vm_compute. reflexivity. Qed.
Lemma top32_lt_top64 : top32 < top64. Proof. vm_compute. reflexivity. Qed.

Lemma rnd32_one : rnd32 (2 ^ scale) = 2 ^ scale.
Proof.
  rewrite <- ord32_one.
  apply (rnd_ord IEEE.prec32 IEEE.emax32 scale prec32_pos emax32_gt scale32);
    [reflexivity|reflexivity|]. rewrite ord32_one. apply Z.pow_pos_nonneg; unfold scale; lia.
Qed.

Lemma rnd64_one : rnd64 (2 ^ scale) = 2 ^ scale.
Proof.
  rewrite <- ord64_one.
  apply (rnd_ord IEEE.prec64 IEEE.emax64 scale prec64_pos emax64_gt scale64);
    [reflexivity|reflexivity|]. rewrite ord64_one. apply Z.pow_pos_nonneg; unfold scale; lia.
Qed.

(** Widening keeps a binary32 value; it is a binary64 value. *)
Lemma d_of_f_valid (x : spec_float) : binary32 x -> binary64 (d_of_f IEEE.arith x).
Proof.
  intros Vx. destruct x as [s|s| |s m e]; try reflexivity.
  cbn [d_of_f IEEE.arith IEEE.convert].
  apply (binary_round_valid IEEE.prec64 IEEE.emax64 scale prec64_pos emax64_gt scale64).
  destruct (valid_finite_inv IEEE.prec32 IEEE.emax32 scale prec32_pos emax32_gt scale32
              _ _ _ Vx) as (_ & _ & E & _).
  revert E. vm_compute (emin IEEE.prec32 IEEE.emax32). unfold scale. lia.
Qed.

Lemma d_of_int_valid (n : Z) : binary64 (d_of_int IEEE.arith n).
Proof.
  apply (binary_normalize_valid IEEE.prec64 IEEE.emax64 scale prec64_pos emax64_gt scale64).
  unfold scale. lia.
Qed.

(** Narrowing a factor in [0, 1]. *)
Lemma f_of_d_unit (x : spec_float) :
  binary64 x -> nonneg x = true -> ord64 x <= 2 ^ scale ->
  binary32 (f_of_d IEEE.arith x) /\ nonneg (f_of_d IEEE.arith x) = true /\
  ord32 (f_of_d IEEE.arith x) <= 2 ^ scale.
Proof.
  intros Vx Nx Lx. pose proof one_lt_top64 as T64.
  assert (P1 : 0 < 2 ^ scale) by (apply Z.pow_pos_nonneg; unfold scale; lia).
  destruct x as [s|s| |s m e]; try discriminate.
  - repeat split. cbn [f_of_d IEEE.arith IEEE.convert scaled_value]. lia.
  - destruct s; [discriminate|]. cbn [scaled_value cond_Zopp] in Lx. lia.
  - destruct s; [discriminate|].
    destruct (valid_finite_inv IEEE.prec64 IEEE.emax64 scale prec64_pos emax64_gt scale64
                _ _ _ Vx) as (_ & _ & E & P).
    assert (He : - scale <= e).
    { revert E. vm_compute (emin IEEE.prec64 IEEE.emax64). unfold scale. lia. }
    cbn [f_of_d IEEE.arith IEEE.convert scaled_value cond_Zopp] in *.
    rewrite (binary_round_correct IEEE.prec32 IEEE.emax32 scale prec32_pos emax32_gt scale32)
      by assumption.
    destruct (mk_rnd IEEE.prec32 IEEE.emax32 scale prec32_pos emax32_gt scale32 false
                (scaled scale (Zpos m) e) ltac:(lia)) as (A & _ & O).
    split; [exact A|]. split; [apply mk_nonneg|].
    rewrite O. cbn [cond_Zopp].
    pose proof (rnd_mono IEEE.prec32 IEEE.emax32 scale prec32_pos emax32_gt scale32
                  (scaled scale (Zpos m) e) (2 ^ scale) ltac:(lia) Lx) as M.
    rewrite rnd32_one in M. lia.
Qed.
(** * Loops and index arithmetic *)

Lemma block_eqb_eq (a b : block) : block_eqb a b = true <-> a = b.
Proof. destruct a, b; simpl; split; intro H; try reflexivity; discriminate H. Qed.

Lemma block_eqb_refl (a : block) : block_eqb a a = true.
Proof. now apply block_eqb_eq. Qed.

Lemma block_eqb_neq (a b : block) : a <> b -> block_eqb a b = false.
Proof.
  intro H. destruct (block_eqb a b) eqn:E; [|reflexivity].
  apply block_eqb_eq in E. contradiction.
Qed.

Lemma for_each_nil {S X : Type} (body : X -> S -> S) (s : S) :
  for_each [] body s = s.
Proof. reflexivity. Qed.

Lemma for_each_cons {S X : Type} (x : X) (xs : list X) (body : X -> S -> S) (s : S) :
  for_each (x :: xs) body s = for_each xs body (body x s).
Proof. reflexivity. Qed.

(** A property kept by every turn of a loop is kept by the loop. *)
Lemma for_each_inv {S X : Type} (P : S -> Prop) (body : X -> S -> S) (xs : list X) :
  (forall x s, In x xs -> P s -> P (body x s)) ->
  forall s, P s -> P (for_each xs body s).
Proof.
  induction xs as [|x xs IH]; intros Hb s Hs; [exact Hs|].
  rewrite for_each_cons. apply IH.
  - intros x' s' Hin. apply Hb. now right.
  - apply Hb; [now left|exact Hs].
Qed.

Lemma In_upto (lo hi y : Z) : In y (upto lo hi) <-> lo <= y < hi.
Proof.
  unfold upto. rewrite in_map_iff. split.
  - intros [k [<- Hk]]. apply in_seq in Hk. lia.
  - intros H. exists (Z.to_nat (y - lo)). split; [lia|].
    apply in_seq. lia.
Qed.

Lemma In_stride8 (lo hi x : Z) :
  In x (stride8 lo hi) <-> lo <= x < hi /\ (x - lo) mod 8 = 0.
Proof.
  unfold stride8. rewrite in_map_iff. split.
  - intros [k [<- Hk]]. apply in_seq in Hk.
    assert (Z.of_nat k < (hi - lo + 7) / 8) by lia.
    assert (8 * Z.of_nat k < hi - lo).
    { pose proof (Z.mul_div_le (hi - lo + 7) 8 ltac:(lia)).
      pose proof (Z.mod_pos_bound (hi - lo + 7) 8 ltac:(lia)).
      pose proof (Z.div_mod (hi - lo + 7) 8 ltac:(lia)). lia. }
    split; [lia|].
    replace (lo + 8 * Z.of_nat k - lo) with (Z.of_nat k * 8) by lia.
    apply Z.mod_mul. lia.
  - intros [Hr Hm].
    pose proof (Z.div_mod (x - lo) 8 ltac:(lia)) as Hd. rewrite Hm in Hd.
    exists (Z.to_nat ((x - lo) / 8)). split.
    + rewrite Z2Nat.id; [lia|]. apply Z.div_pos; lia.
    + apply in_seq. split; [lia|]. simpl.
      apply Z2Nat.inj_lt.
      * apply Z.div_pos; lia.
      * apply Z.div_pos; lia.
      * apply Z.div_lt_upper_bound; [lia|].
        pose proof (Z.mul_div_le (hi - lo + 7) 8 ltac:(lia)).
        pose proof (Z.mod_pos_bound (hi - lo + 7) 8 ltac:(lia)).
        pose proof (Z.div_mod (hi - lo + 7) 8 ltac:(lia)). lia.
Qed.

Lemma after_stride8_eq (lo hi : Z) :
  after_stride8 lo hi = lo + 8 * Z.max 0 ((hi - lo + 7) / 8).
Proof.
  unfold after_stride8, stride8. rewrite length_map, length_seq. lia.
Qed.

(** Where the remainder loop takes over: at most seven columns after the
    bound of the strided loop, and on the same residue as its start. *)
Lemma after_stride8_bounds (lo hi : Z) :
  lo <= after_stride8 lo hi /\
  (lo <= hi -> hi <= after_stride8 lo hi < hi + 8) /\
  (hi <= lo -> after_stride8 lo hi = lo) /\
  (after_stride8 lo hi - lo) mod 8 = 0.
Proof.
  rewrite after_stride8_eq.
  pose proof (Z.div_mod (hi - lo + 7) 8 ltac:(lia)) as Hd.
  pose proof (Z.mod_pos_bound (hi - lo + 7) 8 ltac:(lia)) as Hm.
  repeat split; try lia.
  replace (lo + 8 * Z.max 0 ((hi - lo + 7) / 8) - lo)
    with (Z.max 0 ((hi - lo + 7) / 8) * 8) by lia.
  apply Z.mod_mul. lia.
Qed.

(** A cell index determines its column and row. *)
Lemma cell_col (n x y : Z) : 0 <= x < n -> (x + y * n) mod n = x.
Proof.
  intros H. rewrite Z.mod_add by lia. apply Z.mod_small. exact H.
Qed.

Lemma cell_row (n x y : Z) : 0 <= x < n -> (x + y * n) / n = y.
Proof.
  intros H. rewrite Z.div_add by lia. rewrite Z.div_small by exact H. lia.
Qed.

Lemma cell_index_inj (n x y x' y' : Z) :
  0 <= x < n -> 0 <= x' < n -> x + y * n = x' + y' * n -> x = x' /\ y = y'.
Proof.
  intros Hx Hx' H. split.
  - rewrite <- (cell_col n x y Hx), <- (cell_col n x' y' Hx'). now rewrite H.
  - rewrite <- (cell_row n x y Hx), <- (cell_row n x' y' Hx'). now rewrite H.
Qed.

(** * What a pass writes *)

Section Passes.

Context {A : Arith}.

Lemma writes_seq (R : FluidGrid A -> Prop) val f g c1 c2 :
  writes_as R val f c1 -> writes_as R val g c2 ->
  writes_as R val (fun s => g (f s)) (fun k => c1 k || c2 k).
Proof.
  intros Hf Hg s Hs. destruct (Hf s Hs) as [Rf Mf].
  destruct (Hg (f s) Rf) as [Rg Mg]. split; [exact Rg|].
  intros q j. rewrite Mg, Mf.
  destruct (c1 (q, j)), (c2 (q, j)); reflexivity.
Qed.

Lemma writes_for_each {X : Type} (R : FluidGrid A -> Prop) val (body : X -> FluidGrid A -> FluidGrid A)
      (cov : X -> cell -> bool) (xs : list X) :
  (forall x, In x xs -> writes_as R val (body x) (cov x)) ->
  writes_as R val (for_each xs body) (fun k => existsb (fun x => cov x k) xs).
Proof.
  induction xs as [|x xs IH]; intros Hb s Hs.
  - split; [exact Hs|]. reflexivity.
  - rewrite for_each_cons.
    destruct (Hb x (or_introl eq_refl) s Hs) as [Rx Mx].
    destruct (IH (fun x' Hin => Hb x' (or_intror Hin)) (body x s) Rx) as [Rr Mr].
    split; [exact Rr|]. intros q j. rewrite Mr, Mx. simpl.
    destruct (cov x (q, j)), (existsb (fun x0 => cov x0 (q, j)) xs); reflexivity.
Qed.

Lemma writes_ext (R : FluidGrid A -> Prop) val f c c' :
  (forall k, c k = c' k) -> writes_as R val f c -> writes_as R val f c'.
Proof.
  intros E H s Hs. destruct (H s Hs) as [Rf Mf]. split; [exact Rf|].
  intros q j. rewrite Mf, E. reflexivity.
Qed.

Lemma mem_store (p : block) (i : Z) (v : F A) (s : FluidGrid A) (q : block) (j : Z) :
  mem (store p i v s) q j = if at_cell p i (q, j) then v else mem s q j.
Proof. reflexivity. Qed.

Lemma at_cell_true (p : block) (i : Z) (q : block) (j : Z) :
  at_cell p i (q, j) = true <-> q = p /\ j = i.
Proof.
  unfold at_cell. simpl. rewrite andb_true_iff, block_eqb_eq, Z.eqb_eq. tauto.
Qed.

Lemma writes_store (R : FluidGrid A -> Prop) val p i (v : FluidGrid A -> F A) :
  (forall s w, R s -> R (store p i w s)) ->
  (forall s, R s -> v s = val (p, i)) ->
  writes_as R val (fun s => store p i (v s) s) (at_cell p i).
Proof.
  intros HR Hv s Hs. split; [now apply HR|].
  intros q j. rewrite mem_store.
  destruct (at_cell p i (q, j)) eqn:E; [|reflexivity].
  apply at_cell_true in E. destruct E as [-> ->]. now apply Hv.
Qed.

(** A vector store: the eight lanes were computed before the first of
    them is written. *)
Lemma writes_storeu (R : FluidGrid A -> Prop) val p i (v : FluidGrid A -> Z -> F A) :
  (forall s j w, R s -> R (store p j w s)) ->
  (forall s l, R s -> In l lanes -> v s l = val (p, i + l)) ->
  writes_as R val (fun s => storeu_ps p i (v s) s)
            (fun k => existsb (fun l => at_cell p (i + l) k) lanes).
Proof.
  intros HR Hv s Hs. unfold storeu_ps.
  assert (H : writes_as R val
                (for_each lanes (fun l acc => store p (i + l) (v s l) acc))
                (fun k => existsb (fun l => at_cell p (i + l) k) lanes)).
  { apply writes_for_each. intros l Hl.
    apply (writes_store R val p (i + l) (fun _ => v s l)).
    - intros s' w Hs'. now apply HR.
    - intros _ _. now apply Hv. }
  exact (H s Hs).
Qed.

Lemma same_fields_refl (s : FluidGrid A) : same_fields s s.
Proof. unfold same_fields. repeat split; reflexivity. Qed.

Lemma same_fields_trans (s0 s1 s2 : FluidGrid A) :
  same_fields s0 s1 -> same_fields s1 s2 -> same_fields s0 s2.
Proof.
  unfold same_fields. intros (A1 & A2 & A3 & A4 & A5 & A6 & A7)
                             (B1 & B2 & B3 & B4 & B5 & B6 & B7).
  repeat split; congruence.
Qed.

Lemma same_outside_refl ts (s : FluidGrid A) : same_outside ts s s.
Proof. intros q _ j. reflexivity. Qed.

Lemma same_outside_trans ts (s0 s1 s2 : FluidGrid A) :
  same_outside ts s0 s1 -> same_outside ts s1 s2 -> same_outside ts s0 s2.
Proof. intros H1 H2 q Hq j. rewrite (H2 q Hq j). now apply H1. Qed.

Lemma same_outside_weaken ts ts' (s0 s : FluidGrid A) :
  (forall q, In q ts -> In q ts') -> same_outside ts s0 s -> same_outside ts' s0 s.
Proof. intros Hi H q Hq j. apply H. intro Hin. apply Hq. now apply Hi. Qed.

Lemma based_on_refl (s0 : FluidGrid A) ts : based_on s0 ts s0.
Proof.
  split; [apply same_fields_refl|]. split; [reflexivity|apply same_outside_refl].
Qed.

Lemma based_on_trans (s0 s1 s2 : FluidGrid A) ts :
  based_on s0 ts s1 -> based_on s1 ts s2 -> based_on s0 ts s2.
Proof.
  intros (F1 & T1 & O1) (F2 & T2 & O2). split; [|split].
  - eapply same_fields_trans; eassumption.
  - congruence.
  - eapply same_outside_trans; eassumption.
Qed.

Lemma based_on_weaken (s0 : FluidGrid A) ts ts' s :
  (forall q, In q ts -> In q ts') -> based_on s0 ts s -> based_on s0 ts' s.
Proof.
  intros Hi (F1 & T1 & O1). split; [exact F1|]. split; [exact T1|].
  eapply same_outside_weaken; eassumption.
Qed.

Lemma based_on_store (s0 : FluidGrid A) ts p i w s :
  In p ts -> based_on s0 ts s -> based_on s0 ts (store p i w s).
Proof.
  intros Hp (F1 & T1 & O1). split; [exact F1|]. split; [exact T1|].
  intros q Hq j. simpl. unfold upd.
  destruct (block_eqb q p) eqn:E.
  - apply block_eqb_eq in E. subst q. contradiction.
  - simpl. now apply O1.
Qed.

Lemma based_on_storeu (s0 : FluidGrid A) ts p i v s :
  In p ts -> based_on s0 ts s -> based_on s0 ts (storeu_ps p i v s).
Proof.
  intros Hp Hs. unfold storeu_ps. apply for_each_inv; [|exact Hs].
  intros l s' _ Hs'. now apply based_on_store.
Qed.

Lemma based_on_mem (s0 : FluidGrid A) ts s q j :
  based_on s0 ts s -> ~ In q ts -> load s q j = load s0 q j.
Proof. intros (_ & _ & H) Hq. unfold load. now apply H. Qed.

Lemma based_on_size (s0 : FluidGrid A) ts s : based_on s0 ts s -> size s = size s0.
Proof. intros (H & _). apply H. Qed.

Lemma based_on_tmp (s0 : FluidGrid A) ts s : based_on s0 ts s -> tmp s = tmp s0.
Proof. intros (_ & H & _). exact H. Qed.

(** The two loops of a row cover exactly its interior columns. *)
Lemma row_cover (n y j : Z) :
  existsb (fun x => existsb (fun l => j =? x + y * n + l) lanes) (stride8 1 (n - 9))
  || existsb (fun x => j =? x + y * n) (upto (after_stride8 1 (n - 9)) (n - 1))
  = in_row n y j.
Proof.
  apply eq_iff_eq_true. rewrite orb_true_iff, !existsb_exists.
  unfold in_row. rewrite andb_true_iff, Z.leb_le, Z.leb_le.
  pose proof (after_stride8_bounds 1 (n - 9)) as (Ha & Hb & Hc & Hd).
  split.
  - intros [[x [Hx Hl]] | [x [Hx Hj]]].
    + apply In_stride8 in Hx. apply existsb_exists in Hl.
      destruct Hl as [l [Hl Hj]]. apply Z.eqb_eq in Hj.
      assert (0 <= l <= 7) by (simpl in Hl; lia). lia.
    + apply In_upto in Hx. apply Z.eqb_eq in Hj. lia.
  - intros [H1 H2]. set (x := j - y * n) in *.
    destruct (Z_lt_le_dec x (after_stride8 1 (n - 9))) as [Hlt|Hge].
    + left. exists (x - (x - 1) mod 8).
      pose proof (Z.mod_pos_bound (x - 1) 8 ltac:(lia)) as Hm.
      pose proof (Z.div_mod (x - 1) 8 ltac:(lia)) as Hdm.
      assert (Hn : 1 <= n - 9) by lia.
      specialize (Hb Hn).
      split.
      * apply In_stride8. split.
        -- split; [lia|].
           pose proof (Z.div_mod (after_stride8 1 (n - 9) - 1) 8 ltac:(lia)) as Hq.
           rewrite Hd in Hq.
           assert ((x - 1) / 8 < (after_stride8 1 (n - 9) - 1) / 8).
           { apply Z.div_lt_upper_bound; lia. }
           lia.
        -- replace (x - (x - 1) mod 8 - 1) with ((x - 1) / 8 * 8) by lia.
           apply Z.mod_mul. lia.
      * apply existsb_exists. exists ((x - 1) mod 8). split.
        -- assert (Hc8 : 0 <= (x - 1) mod 8 <= 7) by lia.
           revert Hc8. generalize ((x - 1) mod 8). intros l Hl.
           assert (l = 0 \/ l = 1 \/ l = 2 \/ l = 3 \/ l = 4 \/ l = 5 \/ l = 6 \/ l = 7)
             as Hcases by lia.
           simpl. intuition.
        -- apply Z.eqb_eq. unfold x. lia.
    + right. exists x. split; [apply In_upto; lia|].
      apply Z.eqb_eq. unfold x. lia.
Qed.

Lemma rows_cover (n a b j : Z) :
  existsb (fun y => in_row n y j) (upto a b) = in_rows n a b j.
Proof.
  apply eq_iff_eq_true. rewrite existsb_exists. unfold in_row, in_rows.
  rewrite !andb_true_iff, !Z.leb_le, Z.ltb_lt. split.
  - intros [y [Hy H]]. apply In_upto in Hy.
    rewrite andb_true_iff, !Z.leb_le in H.
    assert (Hn : 0 < n) by lia.
    replace j with ((j - y * n) + y * n) by lia.
    rewrite cell_col, cell_row by lia. lia.
  - intros [[[H1 H2] H3] H4].
    assert (Hn : 0 < n).
    { destruct (Z_lt_le_dec 0 n) as [Hp|Hp]; [exact Hp|]. lia. }
    exists (j / n). split; [apply In_upto; lia|].
    rewrite andb_true_iff, !Z.leb_le.
    pose proof (Z.div_mod j n ltac:(lia)). lia.
Qed.

End Passes.

Section Rows.

Context {A : Arith}.

Lemma In_lanes (l : Z) : In l lanes <-> 0 <= l <= 7.
Proof.
  unfold lanes. simpl. split; [intuition lia|].
  intros H.
  assert (l = 0 \/ l = 1 \/ l = 2 \/ l = 3 \/ l = 4 \/ l = 5 \/ l = 6 \/ l = 7)
    as Hc by lia.
  intuition.
Qed.

Lemma stride8_lane (hi x l : Z) :
  In x (stride8 1 hi) -> In l lanes ->
  vec_base (x + l) = x /\ vec_lane (x + l) = l /\
  x + l < after_stride8 1 hi /\ 1 <= x + l <= hi + 6.
Proof.
  intros Hx Hl. apply In_stride8 in Hx. apply In_lanes in Hl.
  destruct Hx as [Hr Hm].
  pose proof (after_stride8_bounds 1 hi) as (Ha & Hb & Hc & Hd).
  assert (Hlane : (x + l - 1) mod 8 = l).
  { replace (x + l - 1) with (l + (x - 1) / 8 * 8).
    - rewrite Z.mod_add by lia. apply Z.mod_small. lia.
    - pose proof (Z.div_mod (x - 1) 8 ltac:(lia)). lia. }
  unfold vec_base, vec_lane. rewrite Hlane.
  repeat split; try lia.
  assert (hi <= after_stride8 1 hi) by (apply Hb; lia).
  pose proof (Z.div_mod (x - 1) 8 ltac:(lia)) as Hx8.
  pose proof (Z.div_mod (after_stride8 1 hi - 1) 8 ltac:(lia)) as Ha8.
  rewrite Hm in Hx8. rewrite Hd in Ha8.
  assert ((x - 1) / 8 < (after_stride8 1 hi - 1) / 8).
  { apply Z.div_lt_upper_bound; lia. }
  lia.
Qed.

Lemma existsb_andb_const' {X : Type} (c : bool) (f : X -> bool) (xs : list X) :
  existsb (fun x => c && f x) xs = c && existsb f xs.
Proof.
  induction xs as [|x xs IH]; simpl.
  - now rewrite andb_false_r.
  - rewrite IH. destruct c; reflexivity.
Qed.

Lemma existsb_pointwise {X : Type} (f g : X -> bool) (xs : list X) :
  (forall x, f x = g x) -> existsb f xs = existsb g xs.
Proof.
  intros H. induction xs as [|x xs IH]; simpl; [reflexivity|].
  now rewrite H, IH.
Qed.

(** A row: the strided loop followed by the remainder loop. *)
Lemma row_writes (R : FluidGrid A -> Prop) (val : cell -> F A)
      (tb : block -> bool) (n y : Z)
      (vbody sbody : Z -> FluidGrid A -> FluidGrid A) :
  (forall x, In x (stride8 1 (n - 9)) ->
     writes_as R val (vbody x)
               (fun k => existsb (fun l => at_index tb (x + y * n + l) k) lanes)) ->
  (forall x, In x (upto (after_stride8 1 (n - 9)) (n - 1)) ->
     writes_as R val (sbody x) (at_index tb (x + y * n))) ->
  writes_as R val
            (fun s => for_each (upto (after_stride8 1 (n - 9)) (n - 1)) sbody
                        (for_each (stride8 1 (n - 9)) vbody s))
            (fun k => tb (fst k) && in_row n y (snd k)).
Proof.
  intros Hv Hs.
  pose proof (writes_seq R val _ _ _ _
                (writes_for_each R val vbody _ _ Hv)
                (writes_for_each R val sbody _ _ Hs)) as H.
  eapply writes_ext; [|exact H].
  intros [q j]. cbv beta. unfold at_index. cbn [fst snd].
  rewrite <- row_cover, andb_orb_distrib_r.
  rewrite <- !existsb_andb_const'. f_equal.
  apply existsb_pointwise. intros x. now rewrite existsb_andb_const'.
Qed.

(** The rows of one chunk. *)
Lemma rows_writes (R : FluidGrid A -> Prop) (val : cell -> F A)
      (tb : block -> bool) (n a b : Z)
      (rbody : Z -> FluidGrid A -> FluidGrid A) :
  (forall y, In y (upto a b) ->
     writes_as R val (rbody y) (fun k => tb (fst k) && in_row n y (snd k))) ->
  writes_as R val (for_each (upto a b) rbody)
            (fun k => tb (fst k) && in_rows n a b (snd k)).
Proof.
  intros H.
  eapply writes_ext; [|exact (writes_for_each R val rbody _ _ H)].
  intros [q j]. cbv beta. cbn [fst snd].
  rewrite existsb_andb_const'. now rewrite rows_cover.
Qed.

Lemma chunks_writes (R : FluidGrid A -> Prop) (val : cell -> F A)
      (tb : block -> bool) (n : Z) (chunks : list (Z * Z))
      (work : Z -> Z -> FluidGrid A -> FluidGrid A) :
  (forall a b, In (a, b) chunks ->
     writes_as R val (work a b) (fun k => tb (fst k) && in_rows n a b (snd k))) ->
  writes_as R val (for_each chunks (fun c acc => work (fst c) (snd c) acc))
            (fun k => tb (fst k) && in_chunks n chunks (snd k)).
Proof.
  intros H.
  eapply writes_ext;
    [|apply (writes_for_each R val (fun c acc => work (fst c) (snd c) acc)
               (fun c k => tb (fst k) && in_rows n (fst c) (snd c) (snd k)))].
  - intros [q j]. cbv beta. cbn [fst snd]. unfold in_chunks.
    now rewrite existsb_andb_const'.
  - intros [a b] Hin. cbn [fst snd]. now apply H.
Qed.

End Rows.

(** * The kernels as pointwise maps *)

Section Kernels.

Context {A : Arith}.

Lemma writes_store_at (R : FluidGrid A -> Prop) val (p : FluidGrid A -> block)
      (p0 : block) (i : Z) (v : FluidGrid A -> F A) :
  (forall s, R s -> p s = p0) ->
  (forall s w, R s -> R (store p0 i w s)) ->
  (forall s, R s -> v s = val (p0, i)) ->
  writes_as R val (fun s => store (p s) i (v s) s)
            (at_index (fun q => block_eqb q p0) i).
Proof.
  intros Hp HR Hv s Hs. rewrite (Hp s Hs).
  exact (writes_store R val p0 i v HR Hv s Hs).
Qed.

Lemma writes_storeu_at (R : FluidGrid A -> Prop) val (p : FluidGrid A -> block)
      (p0 : block) (i : Z) (v : FluidGrid A -> Z -> F A) :
  (forall s, R s -> p s = p0) ->
  (forall s j w, R s -> R (store p0 j w s)) ->
  (forall s l, R s -> In l lanes -> v s l = val (p0, i + l)) ->
  writes_as R val (fun s => storeu_ps (p s) i (v s) s)
            (fun k => existsb (fun l => at_index (fun q => block_eqb q p0) (i + l) k)
                              lanes).
Proof.
  intros Hp HR Hv s Hs. rewrite (Hp s Hs).
  exact (writes_storeu R val p0 i v HR Hv s Hs).
Qed.

(** Rewrites the loads of a state based on [s0] into loads of [s0]. *)
Ltac rebase H :=
  rewrite ?(based_on_size _ _ _ H);
  repeat (rewrite (based_on_mem _ _ _ _ _ H) by (simpl; intuition congruence)).

(** *** linearSolveLoop *)

Lemma linearSolveLoop_writes (s0 : FluidGrid A) (arr prevArr : block)
      (k : F A) (_k : Z -> F A) (r : F A) (_r : Z -> F A) (a b : Z) :
  tmp s0 <> arr -> tmp s0 <> prevArr ->
  writes_as (based_on s0 [tmp s0])
            (fun c => linearSolve_cell s0 arr prevArr k _k r _r (snd c))
            (linearSolveLoop a b arr prevArr k _k r _r)
            (fun c => block_eqb (fst c) (tmp s0) && in_rows (size s0) a b (snd c)).
Proof.
  intros Ha Hp s Hs. unfold linearSolveLoop. cbv zeta.
  rewrite (based_on_size _ _ _ Hs).
  refine (rows_writes (based_on s0 [tmp s0])
            (fun c => linearSolve_cell s0 arr prevArr k _k r _r (snd c))
            (fun q => block_eqb q (tmp s0)) (size s0) a b _ _ s Hs).
  clear s Hs. intros y Hy.
  apply (row_writes _ _ (fun q => block_eqb q (tmp s0))).
  - intros x Hx. apply writes_storeu_at.
    + intros s Hs. now apply based_on_tmp in Hs.
    + intros s j w Hs. apply based_on_store; [now left|exact Hs].
    + intros s l Hs Hl. cbn [snd]. unfold linearSolve_cell. cbv zeta.
      destruct (stride8_lane _ _ _ Hx Hl) as (Hb & Hlane & Hlt & Hr).
      replace (x + y * size s0 + l) with ((x + l) + y * size s0) by lia.
      rewrite cell_col, cell_row by lia.
      rewrite (proj2 (Z.ltb_lt _ _) Hlt), Hb, Hlane.
      unfold linearSolve_vector_cells, mul_ps, fmadd_ps, loadu_ps. cbv zeta.
      rebase Hs. reflexivity.
  - intros x Hx. apply writes_store_at.
    + intros s Hs. now apply based_on_tmp in Hs.
    + intros s w Hs. apply based_on_store; [now left|exact Hs].
    + intros s Hs. cbn [snd]. unfold linearSolve_cell. cbv zeta.
      apply In_upto in Hx.
      pose proof (after_stride8_bounds 1 (size s0 - 9)) as (Hlo & _).
      rewrite cell_col, cell_row by lia.
      rewrite (proj2 (Z.ltb_ge _ _)) by lia.
      unfold linearSolve_scalar_cell. cbv zeta.
      rebase Hs. reflexivity.
Qed.

Lemma existsb_orb {X : Type} (f g : X -> bool) (xs : list X) :
  existsb f xs || existsb g xs = existsb (fun x => f x || g x) xs.
Proof.
  induction xs as [|x xs IH]; simpl; [reflexivity|].
  rewrite <- IH. destruct (f x), (g x), (existsb f xs); reflexivity.
Qed.

Lemma at_cell_pair (p q : block) (i : Z) (k : cell) :
  at_cell p i k || at_cell q i k
  = at_index (fun b => block_eqb b p || block_eqb b q) i k.
Proof.
  unfold at_cell, at_index.
  destruct (block_eqb (fst k) p), (block_eqb (fst k) q), (snd k =? i); reflexivity.
Qed.

(** *** projectHeightMapLoop *)

Lemma projectHeightMapLoop_writes (s0 : FluidGrid A) (velX velY p div : block)
      (a b : Z) :
  p <> div -> div <> velX -> div <> velY -> p <> velX -> p <> velY ->
  writes_as (based_on s0 [div; p])
            (fun c => if block_eqb (fst c) div
                      then heightMap_cell s0 velX velY (snd c)
                      else heightMap_zero (size s0) (snd c))
            (projectHeightMapLoop a b velX velY p div)
            (fun c => (block_eqb (fst c) div || block_eqb (fst c) p)
                      && in_rows (size s0) a b (snd c)).
Proof.
  intros Hpd Hdx Hdy Hpx Hpy s Hs. unfold projectHeightMapLoop. cbv zeta.
  rewrite (based_on_size _ _ _ Hs).
  set (R := based_on s0 [div; p]).
  set (val := fun c : cell => if block_eqb (fst c) div
                              then heightMap_cell s0 velX velY (snd c)
                              else heightMap_zero (size s0) (snd c)).
  set (tb := fun q => block_eqb q div || block_eqb q p).
  assert (HR : forall q s' j w, In q [div; p] -> R s' -> R (store q j w s')).
  { intros q s' j w Hq Hs'. now apply based_on_store. }
  refine (rows_writes R val tb (size s0) a b _ _ s Hs).
  clear s Hs. intros y Hy.
  apply (row_writes R val tb).
  - intros x Hx.
    assert (H1 : writes_as R val
              (fun s => storeu_ps div (x + y * size s0)
                 (heightMap_vector_cells s velX velY
                    (set1_ps A (fdiv A (f_lit A 1 0) (f_of_int A (size s0))))
                    (set1_ps A (f_lit A (-1) (-1))) x y) s)
              (fun k => existsb (fun l => at_cell div (x + y * size s0 + l) k) lanes)).
    { apply (writes_storeu R val div (x + y * size s0)
               (fun s => heightMap_vector_cells s velX velY
                    (set1_ps A (fdiv A (f_lit A 1 0) (f_of_int A (size s0))))
                    (set1_ps A (f_lit A (-1) (-1))) x y)).
      - intros s j w Hs. apply HR; [now left|exact Hs].
      - intros s l Hs Hl.
        unfold val. cbn [fst snd]. rewrite block_eqb_refl.
        unfold heightMap_cell. cbv zeta.
        destruct (stride8_lane _ _ _ Hx Hl) as (Hb & Hlane & Hlt & Hr).
        replace (x + y * size s0 + l) with ((x + l) + y * size s0) by lia.
        rewrite cell_col, cell_row by lia.
        rewrite (proj2 (Z.ltb_lt _ _) Hlt), Hb, Hlane.
        unfold heightMap_vector_cells, mul_ps, add_ps, sub_ps, loadu_ps. cbv zeta.
        rebase Hs. reflexivity. }
    assert (H2 : writes_as R val
              (fun s => storeu_ps p (x + y * size s0) (set1_ps A (f_lit A 0 0)) s)
              (fun k => existsb (fun l => at_cell p (x + y * size s0 + l) k) lanes)).
    { apply (writes_storeu R val p (x + y * size s0)
               (fun _ => set1_ps A (f_lit A 0 0))).
      - intros s j w Hs. apply HR; [right; now left|exact Hs].
      - intros s l Hs Hl.
        unfold val. cbn [fst snd]. rewrite (block_eqb_neq _ _ Hpd).
        unfold heightMap_zero, set1_ps.
        destruct (stride8_lane _ _ _ Hx Hl) as (Hb & Hlane & Hlt & Hr).
        replace (x + y * size s0 + l) with ((x + l) + y * size s0) by lia.
        rewrite cell_col by lia.
        now rewrite (proj2 (Z.ltb_lt _ _) Hlt). }
    pose proof (writes_seq R val _ _ _ _ H1 H2) as H.
    eapply writes_ext; [|exact H].
    intros k. cbv beta. rewrite existsb_orb.
    apply existsb_pointwise. intros l. apply at_cell_pair.
  - intros x Hx. apply In_upto in Hx.
    pose proof (after_stride8_bounds 1 (size s0 - 9)) as (Hlo & _).
    assert (H1 : writes_as R val
              (fun s => store div (x + y * size s0)
                 (heightMap_scalar_cell s velX velY
                    (fdiv A (f_lit A 1 0) (f_of_int A (size s0))) x y) s)
              (at_cell div (x + y * size s0))).
    { apply (writes_store R val div (x + y * size s0)
               (fun s => heightMap_scalar_cell s velX velY
                    (fdiv A (f_lit A 1 0) (f_of_int A (size s0))) x y)).
      - intros s w Hs. apply HR; [now left|exact Hs].
      - intros s Hs.
        unfold val. cbn [fst snd]. rewrite block_eqb_refl.
        unfold heightMap_cell. cbv zeta.
        rewrite cell_col, cell_row by lia.
        rewrite (proj2 (Z.ltb_ge _ _)) by lia.
        unfold heightMap_scalar_cell. cbv zeta.
        rebase Hs. reflexivity. }
    assert (H2 : writes_as R val
              (fun s => store p (x + y * size s0) (f_of_int A 0) s)
              (at_cell p (x + y * size s0))).
    { apply (writes_store R val p (x + y * size s0) (fun _ => f_of_int A 0)).
      - intros s w Hs. apply HR; [right; now left|exact Hs].
      - intros s Hs.
        unfold val. cbn [fst snd]. rewrite (block_eqb_neq _ _ Hpd).
        unfold heightMap_zero. rewrite cell_col by lia.
        now rewrite (proj2 (Z.ltb_ge _ _)) by lia. }
    pose proof (writes_seq R val _ _ _ _ H1 H2) as H.
    eapply writes_ext; [|exact H].
    intros k. cbv beta. apply at_cell_pair.
Qed.

(** *** advectLoop *)

Lemma advectLoop_writes (s0 : FluidGrid A) (arr prevArr velX velY : block)
      (dt : F A) (a b : Z) :
  arr <> prevArr -> arr <> velX -> arr <> velY ->
  writes_as (based_on s0 [arr])
            (fun c => advect_cell s0 prevArr velX velY dt (snd c))
            (advectLoop a b arr prevArr velX velY dt)
            (fun c => block_eqb (fst c) arr
                      && in_rows (size s0) 1 (size s0 - 1) (snd c)).
Proof.
  intros Hp Hx Hy s Hs. unfold advectLoop. cbv zeta.
  rewrite (based_on_size _ _ _ Hs).
  refine (rows_writes (based_on s0 [arr])
            (fun c => advect_cell s0 prevArr velX velY dt (snd c))
            (fun q => block_eqb q arr) (size s0) 1 (size s0 - 1) _ _ s Hs).
  clear s Hs. intros y _.
  apply (row_writes _ _ (fun q => block_eqb q arr)).
  - intros x Hin.
    apply (writes_storeu (based_on s0 [arr])
             (fun c => advect_cell s0 prevArr velX velY dt (snd c)) arr
             (x + y * size s0)
             (fun s => advect_vector_cells s prevArr velX velY
                         (fmul A dt (f_of_int A (size s0)))
                         (fsub A (f_of_int A (size s0)) (f_lit A 3 (-1))) x y)).
    + intros s j w Hs. apply based_on_store; [now left|exact Hs].
    + intros s l Hs Hl. cbn [snd]. unfold advect_cell. cbv zeta.
      destruct (stride8_lane _ _ _ Hin Hl) as (Hb & Hlane & Hlt & Hr).
      replace (x + y * size s0 + l) with ((x + l) + y * size s0) by lia.
      rewrite cell_col, cell_row by lia.
      rewrite (proj2 (Z.ltb_lt _ _) Hlt), Hb, Hlane.
      unfold advect_vector_cells, fmadd_ps, mul_ps, sub_ps, add_ps, min_ps, max_ps,
        floor_ps, cvtps_epi32, i32gather_ps, loadu_ps, set1_ps. cbv zeta.
      rebase Hs. reflexivity.
  - intros x Hin.
    apply (writes_store (based_on s0 [arr])
             (fun c => advect_cell s0 prevArr velX velY dt (snd c)) arr
             (x + y * size s0)
             (fun s => advect_scalar_cell s prevArr velX velY
                         (fmul A dt (f_of_int A (size s0)))
                         (fsub A (f_of_int A (size s0)) (f_lit A 3 (-1))) x y)).
    + intros s w Hs. apply based_on_store; [now left|exact Hs].
    + intros s Hs. cbn [snd]. unfold advect_cell. cbv zeta.
      apply In_upto in Hin.
      pose proof (after_stride8_bounds 1 (size s0 - 9)) as (Hlo & _).
      rewrite cell_col, cell_row by lia.
      rewrite (proj2 (Z.ltb_ge _ _)) by lia.
      unfold advect_scalar_cell. cbv zeta.
      rebase Hs. reflexivity.
Qed.

(** *** Loops that update cells in place *)

Lemma maps_for_each {X : Type} (R : FluidGrid A -> Prop) (g : cell -> F A -> F A)
      (body : X -> FluidGrid A -> FluidGrid A) (cov : X -> cell -> bool)
      (xs : list X) :
  NoDup xs ->
  (forall x x' k, In x xs -> In x' xs ->
                  cov x k = true -> cov x' k = true -> x = x') ->
  (forall x, In x xs -> maps_as R g (body x) (cov x)) ->
  maps_as R g (for_each xs body) (fun k => existsb (fun x => cov x k) xs).
Proof.
  induction xs as [|x xs IH]; intros Hnd Hdis Hb s Hs.
  - split; [exact Hs|]. reflexivity.
  - rewrite for_each_cons. inversion Hnd as [|? ? Hnotin Hnd']; subst.
    destruct (Hb x (or_introl eq_refl) s Hs) as [Rx Mx].
    destruct (IH Hnd'
                (fun a a' k Ha Ha' => Hdis a a' k (or_intror Ha) (or_intror Ha'))
                (fun a Ha => Hb a (or_intror Ha)) (body x s) Rx) as [Rr Mr].
    split; [exact Rr|]. intros q j. rewrite Mr, Mx. cbn [existsb].
    destruct (existsb (fun x0 => cov x0 (q, j)) xs) eqn:Ex.
    + apply existsb_exists in Ex. destruct Ex as [x' [Hin Hc]].
      destruct (cov x (q, j)) eqn:Ec; [|reflexivity].
      exfalso. apply Hnotin.
      rewrite (Hdis x x' (q, j) (or_introl eq_refl) (or_intror Hin) Ec Hc).
      exact Hin.
    + rewrite orb_false_r. reflexivity.
Qed.

Lemma maps_ext (R : FluidGrid A -> Prop) g f c c' :
  (forall k, c k = c' k) -> maps_as R g f c -> maps_as R g f c'.
Proof.
  intros E H s Hs. destruct (H s Hs) as [Rf Mf]. split; [exact Rf|].
  intros q j. rewrite Mf, E. reflexivity.
Qed.

Lemma NoDup_upto (lo hi : Z) : NoDup (upto lo hi).
Proof.
  unfold upto. apply Injective_map_NoDup; [|apply seq_NoDup].
  intros a b H. lia.
Qed.

Lemma scalar_row_cover (n y j : Z) :
  existsb (fun x => j =? x + y * n) (upto 1 (n - 1)) = in_row n y j.
Proof.
  apply eq_iff_eq_true. rewrite existsb_exists. unfold in_row.
  rewrite andb_true_iff, !Z.leb_le. split.
  - intros [x [Hx Hj]]. apply In_upto in Hx. apply Z.eqb_eq in Hj. lia.
  - intros H. exists (j - y * n). split; [apply In_upto; lia|].
    apply Z.eqb_eq. lia.
Qed.

Lemma in_row_unique (n y y' j : Z) :
  in_row n y j = true -> in_row n y' j = true -> y = y'.
Proof.
  unfold in_row. rewrite !andb_true_iff, !Z.leb_le. intros [H1 H2] [H3 H4].
  assert (Hn : 0 < n) by lia.
  assert (E : (j - y * n) + y * n = (j - y' * n) + y' * n) by lia.
  apply cell_index_inj in E; lia.
Qed.

(** *** fadeDensity *)

Lemma fadeDensity_maps (s0 : FluidGrid A) (dt : F A) (fadeRate : D A) :
  maps_as (based_on s0 [density s0])
          (fun _ v => fmul A v (f_of_d A (fade_factor A (size s0) dt fadeRate)))
          (fadeDensity dt fadeRate)
          (fun c => block_eqb (fst c) (density s0)
                    && in_rows (size s0) 1 (size s0 - 1) (snd c)).
Proof.
  intros s Hs.
  set (R := based_on s0 [density s0]).
  set (g := fun (_ : cell) v => fmul A v (f_of_d A (fade_factor A (size s0) dt fadeRate))).
  unfold fadeDensity. cbv zeta. rewrite (based_on_size _ _ _ Hs).
  assert (Hd : forall s', R s' -> density s' = density s0).
  { intros s' (F1 & _). apply F1. }
  assert (Hrow : forall y, maps_as R g
            (for_each (upto 1 (size s0 - 1)) (fun x s' =>
               store (density s') (x + y * size s0)
                     (fmul A (load s' (density s') (x + y * size s0))
                           (f_of_d A (fade_factor A (size s0) dt fadeRate))) s'))
            (fun k => block_eqb (fst k) (density s0) && in_row (size s0) y (snd k))).
  { intros y.
    eapply maps_ext;
      [|apply (maps_for_each R g _
                 (fun x k => at_cell (density s0) (x + y * size s0) k))].
    - intros [q j]. cbv beta. unfold at_cell. cbn [fst snd].
      rewrite existsb_andb_const'. now rewrite scalar_row_cover.
    - apply NoDup_upto.
    - intros x x' [q j] _ _ H1 H2.
      apply at_cell_true in H1. apply at_cell_true in H2. lia.
    - intros x _ s' Hs'. rewrite (Hd s' Hs'). split.
      + apply based_on_store; [now left|exact Hs'].
      + intros q j. rewrite mem_store.
        destruct (at_cell (density s0) (x + y * size s0) (q, j)) eqn:E;
          [|reflexivity].
        apply at_cell_true in E. destruct E as [-> ->]. reflexivity. }
  assert (H : maps_as R g
            (for_each (upto 1 (size s0 - 1)) (fun y s' =>
               for_each (upto 1 (size s0 - 1)) (fun x s'' =>
                 store (density s'') (x + y * size s0)
                       (fmul A (load s'' (density s'') (x + y * size s0))
                             (f_of_d A (fade_factor A (size s0) dt fadeRate))) s'') s'))
            (fun k => block_eqb (fst k) (density s0)
                      && in_rows (size s0) 1 (size s0 - 1) (snd k))).
  { eapply maps_ext;
      [|apply (maps_for_each R g _
                 (fun y k => block_eqb (fst k) (density s0)
                             && in_row (size s0) y (snd k)))].
    - intros [q j]. cbv beta. cbn [fst snd].
      rewrite existsb_andb_const'. now rewrite rows_cover.
    - apply NoDup_upto.
    - intros y y' [q j] _ _ H1 H2. cbn [fst snd] in *.
      apply andb_true_iff in H1. apply andb_true_iff in H2.
      eapply in_row_unique; [apply H1|apply H2].
    - intros y _. apply Hrow. }
  exact (H s Hs).
Qed.

End Kernels.

(** * Frames: which blocks a method can change *)

Section Frames.

Context {A : Arith}.
Variable pool : Z -> list (Z * Z).

Lemma computeOnThreads_inv (P : FluidGrid A -> Prop) (n : Z)
      (work : Z -> Z -> FluidGrid A -> FluidGrid A) (s : FluidGrid A) :
  (forall a b s', P s' -> P (work a b s')) ->
  P s -> P (computeOnThreads pool n work s).
Proof.
  intros Hw Hs. unfold computeOnThreads. apply for_each_inv; [|exact Hs].
  intros c s' _ Hs'. now apply Hw.
Qed.

Lemma setBounds_based (s0 : FluidGrid A) ts d arr (s : FluidGrid A) :
  In arr ts -> based_on s0 ts s -> based_on s0 ts (setBounds d arr s).
Proof.
  intros Hin Hs. unfold setBounds. cbv zeta.
  repeat apply based_on_store; try exact Hin.
  apply (for_each_inv (based_on s0 ts)); [|exact Hs].
  intros i s' _ Hs'. repeat apply based_on_store; assumption.
Qed.

Lemma linearSolveLoop_based (s0 : FluidGrid A) ts a b arr prevArr k _k r _r (s : FluidGrid A) :
  In (tmp s0) ts -> based_on s0 ts s ->
  based_on s0 ts (linearSolveLoop a b arr prevArr k _k r _r s).
Proof.
  intros Hin Hs. unfold linearSolveLoop. cbv zeta.
  apply (for_each_inv (based_on s0 ts)); [|exact Hs].
  intros y s1 _ Hs1.
  apply (for_each_inv (based_on s0 ts)).
  - intros x s2 _ Hs2. rewrite (based_on_tmp _ _ _ Hs2).
    now apply based_on_store.
  - apply (for_each_inv (based_on s0 ts)); [|exact Hs1].
    intros x s2 _ Hs2. rewrite (based_on_tmp _ _ _ Hs2).
    now apply based_on_storeu.
Qed.

Lemma advectLoop_based (s0 : FluidGrid A) ts a b arr prevArr velX velY dt (s : FluidGrid A) :
  In arr ts -> based_on s0 ts s ->
  based_on s0 ts (advectLoop a b arr prevArr velX velY dt s).
Proof.
  intros Hin Hs. unfold advectLoop. cbv zeta.
  apply (for_each_inv (based_on s0 ts)); [|exact Hs].
  intros y s1 _ Hs1.
  apply (for_each_inv (based_on s0 ts)).
  - intros x s2 _ Hs2. now apply based_on_store.
  - apply (for_each_inv (based_on s0 ts)); [|exact Hs1].
    intros x s2 _ Hs2. now apply based_on_storeu.
Qed.

Lemma projectHeightMapLoop_based (s0 : FluidGrid A) ts a b velX velY p div (s : FluidGrid A) :
  In p ts -> In div ts -> based_on s0 ts s ->
  based_on s0 ts (projectHeightMapLoop a b velX velY p div s).
Proof.
  intros Hp Hd Hs. unfold projectHeightMapLoop. cbv zeta.
  apply (for_each_inv (based_on s0 ts)); [|exact Hs].
  intros y s1 _ Hs1.
  apply (for_each_inv (based_on s0 ts)).
  - intros x s2 _ Hs2. repeat apply based_on_store; assumption.
  - apply (for_each_inv (based_on s0 ts)); [|exact Hs1].
    intros x s2 _ Hs2. repeat apply based_on_storeu; assumption.
Qed.

Lemma projectMassConservLoop_based (s0 : FluidGrid A) ts a b p div (s : FluidGrid A) :
  In (velocityX s0) ts -> In (velocityY s0) ts -> based_on s0 ts s ->
  based_on s0 ts (projectMassConservLoop a b p div s).
Proof.
  intros Hx Hy Hs. unfold projectMassConservLoop. cbv zeta.
  assert (Fx : forall s', based_on s0 ts s' -> In (velocityX s') ts).
  { intros s' (F1 & _). destruct F1 as (_ & _ & _ & E & _). now rewrite E. }
  assert (Fy : forall s', based_on s0 ts s' -> In (velocityY s') ts).
  { intros s' (F1 & _). destruct F1 as (_ & _ & _ & _ & _ & E & _). now rewrite E. }
  assert (St : forall s' i w, based_on s0 ts s' ->
                 based_on s0 ts (store (velocityX s') i w s')).
  { intros s' i w Hs'. apply based_on_store; [now apply Fx|exact Hs']. }
  assert (Su : forall s' i v, based_on s0 ts s' ->
                 based_on s0 ts (storeu_ps (velocityX s') i v s')).
  { intros s' i v Hs'. apply based_on_storeu; [now apply Fx|exact Hs']. }
  apply (for_each_inv (based_on s0 ts)); [|exact Hs].
  intros y s1 _ Hs1.
  apply (for_each_inv (based_on s0 ts)).
  - intros x s2 _ Hs2.
    apply based_on_store; [apply Fy|]; now apply St.
  - apply (for_each_inv (based_on s0 ts)); [|exact Hs1].
    intros x s2 _ Hs2.
    apply based_on_storeu; [apply Fy|]; now apply Su.
Qed.

Lemma fadeDensity_based (s0 : FluidGrid A) ts dt fadeRate (s : FluidGrid A) :
  In (density s0) ts -> based_on s0 ts s ->
  based_on s0 ts (fadeDensity dt fadeRate s).
Proof.
  intros Hin Hs. unfold fadeDensity. cbv zeta.
  assert (Fd : forall s', based_on s0 ts s' -> In (density s') ts).
  { intros s' (F1 & _). destruct F1 as (_ & E & _). now rewrite E. }
  apply (for_each_inv (based_on s0 ts)); [|exact Hs].
  intros y s1 _ Hs1.
  apply (for_each_inv (based_on s0 ts)); [|exact Hs1].
  intros x s2 _ Hs2. apply based_on_store; [now apply Fd|exact Hs2].
Qed.

Lemma advect_based (s0 : FluidGrid A) ts d arr prevArr velX velY dt (s : FluidGrid A) :
  In arr ts -> based_on s0 ts s ->
  based_on s0 ts (advect pool d arr prevArr velX velY dt s).
Proof.
  intros Hin Hs. unfold advect. cbv zeta.
  apply setBounds_based; [exact Hin|].
  apply computeOnThreads_inv; [|exact Hs].
  intros a b s' Hs'. now apply advectLoop_based.
Qed.

End Frames.

(** * The relaxation loop and its scratch buffer *)

Section Relaxation.

Context {A : Arith}.
Variable pool : Z -> list (Z * Z).

Lemma same_fields_set_tmp (s : FluidGrid A) (p : block) : same_fields s (set_tmp s p).
Proof. unfold same_fields. simpl. repeat split; reflexivity. Qed.

(** One turn writes into the block that is the scratch buffer when the
    turn starts, and into no other; the local pointer and the member
    [tmp] trade places. *)
Lemma linearSolve_iteration_frame (d : Direction) (prevArr : block) (k r : F A)
      (s : FluidGrid A) (arr : block) :
  let st := linearSolve_iteration pool d prevArr k r (s, arr) in
  same_fields s (fst st) /\ snd st = tmp s /\ tmp (fst st) = arr /\
  same_outside [tmp s] s (fst st).
Proof.
  unfold linearSolve_iteration. cbv zeta.
  set (s1 := computeOnThreads pool (size s) _ s).
  assert (H1 : based_on s [tmp s] s1).
  { apply computeOnThreads_inv; [|apply based_on_refl].
    intros a b s' Hs'. apply linearSolveLoop_based; [now left|exact Hs']. }
  destruct H1 as (F1 & T1 & O1).
  assert (H2 : based_on (set_tmp s1 arr) [tmp s1] (setBounds d (tmp s1) (set_tmp s1 arr))).
  { apply setBounds_based; [now left|apply based_on_refl]. }
  destruct H2 as (F2 & T2 & O2). cbn [fst snd].
  split; [|split; [|split]].
  - eapply same_fields_trans; [exact F1|].
    eapply same_fields_trans; [apply (same_fields_set_tmp s1 arr)|exact F2].
  - exact T1.
  - exact T2.
  - intros q Hq j. rewrite (O2 q); [simpl; now apply O1|now rewrite T1].
Qed.

Lemma linearSolve_loop_succ (d : Direction) (n : nat) (arr prevArr : block)
      (k scaling : F A) (s : FluidGrid A) :
  linearSolve_loop pool d (Z.of_nat (S n)) arr prevArr k scaling s
  = linearSolve_iteration pool d prevArr k (fdiv A (f_lit A 1 0) scaling)
      (linearSolve_loop pool d (Z.of_nat n) arr prevArr k scaling s).
Proof.
  unfold linearSolve_loop. rewrite !Nat2Z.id. reflexivity.
Qed.

(** Where the two pointers are after [n] turns. *)
Lemma linearSolve_loop_pointers (d : Direction) (n : nat) (arr prevArr : block)
      (k scaling : F A) (s : FluidGrid A) :
  let st := linearSolve_loop pool d (Z.of_nat n) arr prevArr k scaling s in
  same_fields s (fst st) /\
  same_outside [tmp s; arr] s (fst st) /\
  (if Nat.even n
   then snd st = arr /\ tmp (fst st) = tmp s
   else snd st = tmp s /\ tmp (fst st) = arr).
Proof.
  induction n as [|n IH].
  - cbn. split; [apply same_fields_refl|]. split; [apply same_outside_refl|].
    split; reflexivity.
  - cbv zeta in *. rewrite linearSolve_loop_succ.
    destruct (linearSolve_loop pool d (Z.of_nat n) arr prevArr k scaling s)
      as [sn an] eqn:En.
    cbn [fst snd] in IH. destruct IH as (Fn & On & Pn).
    pose proof (linearSolve_iteration_frame d prevArr k
                  (fdiv A (f_lit A 1 0) scaling) sn an) as Hit.
    cbv zeta in Hit. destruct Hit as (Fi & Si & Ti & Oi).
    split; [eapply same_fields_trans; eassumption|].
    split.
    + eapply same_outside_trans; [exact On|].
      eapply same_outside_weaken; [|exact Oi].
      intros q [<-|[]].
      destruct (Nat.even n); destruct Pn as [_ ->]; [now left|right; now left].
    + rewrite Nat.even_succ, <- Nat.negb_even.
      destruct (Nat.even n); cbn [negb]; destruct Pn as [Pa Pt];
        rewrite Si, Ti; split; assumption.
Qed.

End Relaxation.


(** * The passes of the solver, cell by cell *)

Section PassLemmas.

Context {A : Arith}.
Variable pool : Z -> list (Z * Z).

Lemma covers_interior_in_chunks (n : Z) (chunks : list (Z * Z)) (x y : Z) :
  covers_interior n chunks = true ->
  1 <= x <= n - 2 -> 1 <= y <= n - 2 ->
  in_chunks n chunks (x + y * n) = true.
Proof.
  unfold covers_interior, in_chunks. intros Hc Hx Hy.
  rewrite forallb_forall in Hc.
  specialize (Hc y ltac:(apply In_upto; lia)).
  apply existsb_exists in Hc. destruct Hc as [c [Hin Hr]].
  apply existsb_exists. exists c. split; [exact Hin|].
  apply andb_true_iff in Hr. destruct Hr as [H1 H2].
  apply Z.leb_le in H1. apply Z.ltb_lt in H2.
  unfold in_rows. rewrite cell_col, cell_row by lia.
  rewrite !andb_true_iff, !Z.leb_le, Z.ltb_lt. lia.
Qed.

Lemma store_other_cell (p : block) (i : Z) (w : F A) (s : FluidGrid A)
      (q : block) (j : Z) :
  i <> j -> mem (store p i w s) q j = mem s q j.
Proof.
  intros H. rewrite mem_store. unfold at_cell. cbn [fst snd].
  destruct (Z.eqb_spec j i); [congruence|]. now rewrite andb_false_r.
Qed.

(** [setBounds] stores into the boundary ring only. *)
Lemma setBounds_interior (d : Direction) (arr : block) (s : FluidGrid A)
      (q : block) (x y : Z) :
  1 <= x <= size s - 2 -> 1 <= y <= size s - 2 ->
  mem (setBounds d arr s) q (x + y * size s) = mem s q (x + y * size s).
Proof.
  intros Hx Hy. unfold setBounds. cbv zeta.
  set (n := size s) in *.
  assert (Hne : forall c r, 0 <= c < n -> (c = 0 \/ c = n - 1 \/ r = 0 \/ r = n - 1) ->
                            c + r * n <> x + y * n).
  { intros c r Hc Hb E. apply cell_index_inj in E; lia. }
  rewrite !store_other_cell by (apply Hne; lia).
  apply (for_each_inv (fun s' => mem s' q (x + y * n) = mem s q (x + y * n)));
    [|reflexivity].
  intros i s' Hi Hs'. apply In_upto in Hi.
  rewrite !store_other_cell by (apply Hne; lia). exact Hs'.
Qed.

(** The relaxation pass of one turn. *)
Lemma linearSolve_pass_writes (s0 : FluidGrid A) (arr prevArr : block)
      (k : F A) (_k : Z -> F A) (r : F A) (_r : Z -> F A) :
  tmp s0 <> arr -> tmp s0 <> prevArr ->
  writes_as (based_on s0 [tmp s0])
            (fun c => linearSolve_cell s0 arr prevArr k _k r _r (snd c))
            (computeOnThreads pool (size s0) (fun a b =>
               linearSolveLoop a b arr prevArr k _k r _r))
            (fun c => block_eqb (fst c) (tmp s0)
                      && in_chunks (size s0) (pool (size s0)) (snd c)).
Proof.
  intros Ha Hp.
  exact (chunks_writes (based_on s0 [tmp s0])
           (fun c => linearSolve_cell s0 arr prevArr k _k r _r (snd c))
           (fun q => block_eqb q (tmp s0)) (size s0) (pool (size s0))
           (fun a b => linearSolveLoop a b arr prevArr k _k r _r)
           (fun a b _ => linearSolveLoop_writes s0 arr prevArr k _k r _r a b Ha Hp)).
Qed.

(** One turn of the loop stores the stencil value in the scratch block. *)
Lemma linearSolve_iteration_cells (d : Direction) (prevArr : block) (k r : F A)
      (s : FluidGrid A) (arr : block) (x y : Z) :
  tmp s <> arr -> tmp s <> prevArr ->
  1 <= x <= size s - 2 -> 1 <= y <= size s - 2 ->
  in_chunks (size s) (pool (size s)) (x + y * size s) = true ->
  mem (fst (linearSolve_iteration pool d prevArr k r (s, arr))) (tmp s)
      (x + y * size s)
  = linearSolve_cell s arr prevArr k (set1_ps A k) r (set1_ps A r) (x + y * size s).
Proof.
  intros Ha Hp Hx Hy Hc. unfold linearSolve_iteration. cbv zeta. cbn [fst].
  destruct (linearSolve_pass_writes s arr prevArr k (set1_ps A k) r (set1_ps A r)
              Ha Hp s (based_on_refl s [tmp s])) as [Hb Hm].
  set (s1 := computeOnThreads pool (size s) _ s) in *.
  rewrite (based_on_tmp _ _ _ Hb).
  assert (Hsz : size (set_tmp s1 arr) = size s) by exact (based_on_size _ _ _ Hb).
  rewrite <- Hsz.
  rewrite setBounds_interior by (rewrite Hsz; assumption).
  rewrite Hsz. change (mem (set_tmp s1 arr)) with (mem s1).
  rewrite Hm. cbn [fst snd]. now rewrite block_eqb_refl, Hc.
Qed.

(** The divergence pass of [project]. *)
Lemma project_heightMap_writes (s0 : FluidGrid A) (velX velY p div : block) :
  p <> div -> div <> velX -> div <> velY -> p <> velX -> p <> velY ->
  writes_as (based_on s0 [div; p])
            (fun c => if block_eqb (fst c) div
                      then heightMap_cell s0 velX velY (snd c)
                      else heightMap_zero (size s0) (snd c))
            (computeOnThreads pool (size s0) (fun a b =>
               projectHeightMapLoop a b velX velY p div))
            (fun c => (block_eqb (fst c) div || block_eqb (fst c) p)
                      && in_chunks (size s0) (pool (size s0)) (snd c)).
Proof.
  intros Hpd Hdx Hdy Hpx Hpy.
  exact (chunks_writes (based_on s0 [div; p])
           (fun c => if block_eqb (fst c) div
                     then heightMap_cell s0 velX velY (snd c)
                     else heightMap_zero (size s0) (snd c))
           (fun q => block_eqb q div || block_eqb q p) (size s0) (pool (size s0))
           (fun a b => projectHeightMapLoop a b velX velY p div)
           (fun a b _ => projectHeightMapLoop_writes s0 velX velY p div a b
                           Hpd Hdx Hdy Hpx Hpy)).
Qed.

Lemma existsb_const {X : Type} (c : bool) (xs : list X) :
  existsb (fun _ => c) xs = c && nonempty xs.
Proof.
  induction xs as [|x xs IH]; simpl.
  - now rewrite andb_false_r.
  - rewrite IH. destruct c, (nonempty xs); reflexivity.
Qed.

(** The advection pass: every chunk runs over all the interior rows. *)
Lemma advect_pass_writes (s0 : FluidGrid A) (arr prevArr velX velY : block)
      (dt : F A) :
  arr <> prevArr -> arr <> velX -> arr <> velY ->
  writes_as (based_on s0 [arr])
            (fun c => advect_cell s0 prevArr velX velY dt (snd c))
            (computeOnThreads pool (size s0) (fun a b =>
               advectLoop a b arr prevArr velX velY dt))
            (fun c => block_eqb (fst c) arr
                      && in_rows (size s0) 1 (size s0 - 1) (snd c)
                      && nonempty (pool (size s0))).
Proof.
  intros Hp Hx Hy.
  pose proof (writes_for_each (based_on s0 [arr])
           (fun c => advect_cell s0 prevArr velX velY dt (snd c))
           (fun c acc => advectLoop (fst c) (snd c) arr prevArr velX velY dt acc)
           (fun _ c => block_eqb (fst c) arr
                       && in_rows (size s0) 1 (size s0 - 1) (snd c))
           (pool (size s0))
           (fun c _ => advectLoop_writes s0 arr prevArr velX velY dt
                         (fst c) (snd c) Hp Hx Hy)) as H.
  eapply writes_ext; [|exact H].
  intros k. cbv beta. apply existsb_const.
Qed.

End PassLemmas.

(** * Frames of the methods that [step] calls *)

Section StepFrames.

Context {A : Arith}.
Variable pool : Z -> list (Z * Z).

Lemma based_on_then (s0 s1 s2 : FluidGrid A) (ts ts' : list block) :
  based_on s0 ts s1 -> based_on s1 ts' s2 -> incl ts' ts -> based_on s0 ts s2.
Proof.
  intros H1 H2 Hi. eapply based_on_trans; [exact H1|].
  eapply based_on_weaken; [|exact H2]. exact Hi.
Qed.

(** An even number of turns leaves [tmp] where it was. *)
Lemma linearSolve_even_based (d : Direction) (n : nat) (arr prevArr : block)
      (k scaling : F A) (s : FluidGrid A) :
  Nat.even n = true ->
  based_on s [tmp s; arr] (linearSolve pool d (Z.of_nat n) arr prevArr k scaling s).
Proof.
  intros Hev. unfold linearSolve.
  pose proof (linearSolve_loop_pointers pool d n arr prevArr k scaling s) as H.
  cbv zeta in H. destruct H as (Fn & On & Pn). rewrite Hev in Pn.
  split; [exact Fn|]. split; [apply Pn|exact On].
Qed.

Lemma diffuse_even_based (d : Direction) (n : nat) (arr prevArr : block)
      (dt : F A) (rate : D A) (s : FluidGrid A) :
  Nat.even n = true ->
  based_on s [tmp s; arr] (diffuse pool d (Z.of_nat n) arr prevArr dt rate s).
Proof. intros Hev. unfold diffuse. cbv zeta. now apply linearSolve_even_based. Qed.

Lemma project_even_based (n : nat) (velX velY p div : block) (s : FluidGrid A) :
  Nat.even n = true ->
  based_on s [p; div; tmp s; velocityX s; velocityY s]
           (project pool (Z.of_nat n) velX velY p div s).
Proof.
  intros Hev. unfold project. cbv zeta.
  set (ts := [p; div; tmp s; velocityX s; velocityY s]).
  set (s1 := project_heightMap pool velX velY p div s).
  assert (H1 : based_on s ts s1).
  { unfold s1, project_heightMap. apply computeOnThreads_inv; [|apply based_on_refl].
    intros a b s' Hs'. apply projectHeightMapLoop_based; [now left|right; now left|exact Hs']. }
  set (s2 := setBounds NONE div s1).
  assert (H2 : based_on s ts s2).
  { apply setBounds_based; [right; now left|exact H1]. }
  set (s3 := setBounds NONE p s2).
  assert (H3 : based_on s ts s3).
  { apply setBounds_based; [now left|exact H2]. }
  set (s4 := linearSolve pool NONE (Z.of_nat n) p div (f_of_int A 1) (f_of_int A 4) s3).
  assert (H4 : based_on s ts s4).
  { eapply based_on_then; [exact H3|apply (linearSolve_even_based _ _ _ _ _ _ _ Hev)|].
    rewrite (based_on_tmp _ _ _ H3).
    intros q [<-|[<-|[]]]; unfold ts; simpl; tauto. }
  assert (Hx : velocityX s4 = velocityX s) by apply H4.
  assert (Hy : velocityY s4 = velocityY s) by apply H4.
  set (s5 := computeOnThreads pool (size s4) _ s4).
  assert (H5 : based_on s ts s5).
  { eapply based_on_then; [exact H4| |apply incl_refl].
    apply computeOnThreads_inv; [|apply based_on_refl].
    intros a b s' Hs'. apply projectMassConservLoop_based; try exact Hs'.
    - rewrite Hx. unfold ts; simpl; tauto.
    - rewrite Hy. unfold ts; simpl; tauto. }
  assert (Hx5 : velocityX s5 = velocityX s) by apply H5.
  set (s6 := setBounds HORIZONTAL (velocityX s5) s5).
  assert (H6 : based_on s ts s6).
  { apply setBounds_based; [rewrite Hx5; unfold ts; simpl; tauto|exact H5]. }
  assert (Hy6 : velocityY s6 = velocityY s) by apply H6.
  apply setBounds_based; [rewrite Hy6; unfold ts; simpl; tauto|exact H6].
Qed.

Lemma velocity_frame_refl (s : FluidGrid A) : velocity_frame s s.
Proof.
  unfold velocity_frame.
  split; [reflexivity|]. split; [reflexivity|]. split; [reflexivity|].
  split; [reflexivity|]. split; [apply incl_refl|apply same_outside_refl].
Qed.

Lemma velocity_frame_swapX (s0 s : FluidGrid A) :
  velocity_frame s0 s -> velocity_frame s0 (swap_velocityX s).
Proof.
  intros (H1 & H2 & H3 & H4 & H5 & H6). unfold velocity_frame.
  split; [exact H1|]. split; [exact H2|]. split; [exact H3|].
  split; [exact H4|]. split; [|exact H6].
  intros q Hq. apply H5. unfold velocity_blocks in *. simpl in *. tauto.
Qed.

Lemma velocity_frame_swapY (s0 s : FluidGrid A) :
  velocity_frame s0 s -> velocity_frame s0 (swap_velocityY s).
Proof.
  intros (H1 & H2 & H3 & H4 & H5 & H6). unfold velocity_frame.
  split; [exact H1|]. split; [exact H2|]. split; [exact H3|].
  split; [exact H4|]. split; [|exact H6].
  intros q Hq. apply H5. unfold velocity_blocks in *. simpl in *. tauto.
Qed.

Lemma velocity_frame_based (s0 s s' : FluidGrid A) (ts : list block) :
  velocity_frame s0 s -> based_on s ts s' ->
  incl ts (tmp s :: velocity_blocks s) ->
  velocity_frame s0 s'.
Proof.
  intros (H1 & H2 & H3 & H4 & H5 & H6) (F & T & O) Hi.
  destruct F as (F1 & F2 & F3 & F4 & F5 & F6 & F7).
  unfold velocity_frame.
  split; [congruence|]. split; [congruence|]. split; [congruence|].
  split; [congruence|]. split.
  - unfold velocity_blocks. rewrite F4, F5, F6, F7. exact H5.
  - intros q Hq j. rewrite O; [now apply H6|].
    intros Hin. apply Hq. apply Hi in Hin. destruct Hin as [<-|Hin].
    + left. now symmetry.
    + right. now apply H5.
Qed.

(** One [let] of a method body at a time: the bound state becomes a
    variable with an equation. *)
Lemma let_intro {S T : Type} (P : T -> Prop) (v : S) (b : S -> T) :
  (forall x, x = v -> P (b x)) -> P (let x := v in b x).
Proof. intros H. exact (H v eq_refl). Qed.

(** The stages of the velocity part of [step] keep [velocity_frame]. *)
Lemma velocity_frame_diffuse (s0 s : FluidGrid A) (d : Direction) (n : nat)
      (arr prevArr : block) (dt : F A) (rate : D A) :
  Nat.even n = true -> In arr (velocity_blocks s) ->
  velocity_frame s0 s ->
  velocity_frame s0 (diffuse pool d (Z.of_nat n) arr prevArr dt rate s).
Proof.
  intros Hev Hin Hf. eapply velocity_frame_based; [exact Hf| |].
  - apply (diffuse_even_based d n arr prevArr dt rate s Hev).
  - intros q [<-|[<-|[]]]; [now left|now right].
Qed.

Lemma velocity_frame_project (s0 s : FluidGrid A) (n : nat)
      (velX velY p div : block) :
  Nat.even n = true ->
  In p (velocity_blocks s) -> In div (velocity_blocks s) ->
  velocity_frame s0 s ->
  velocity_frame s0 (project pool (Z.of_nat n) velX velY p div s).
Proof.
  intros Hev Hp Hd Hf. eapply velocity_frame_based; [exact Hf| |].
  - apply (project_even_based n velX velY p div s Hev).
  - unfold velocity_blocks in *. intros q Hq. simpl in *. intuition (subst; auto).
Qed.

Lemma velocity_frame_advect (s0 s : FluidGrid A) (d : Direction)
      (arr prevArr velX velY : block) (dt : F A) :
  In arr (velocity_blocks s) ->
  velocity_frame s0 s ->
  velocity_frame s0 (advect pool d arr prevArr velX velY dt s).
Proof.
  intros Hin Hf. eapply velocity_frame_based; [exact Hf| |].
  - apply (advect_based pool s [arr] d arr prevArr velX velY dt s
             (or_introl eq_refl) (based_on_refl s [arr])).
  - intros q [<-|[]]. now right.
Qed.

Lemma velocity_blocks_X (s : FluidGrid A) : In (velocityX s) (velocity_blocks s).
Proof. now left. Qed.

Lemma velocity_blocks_pX (s : FluidGrid A) : In (prevVelocityX s) (velocity_blocks s).
Proof. right; now left. Qed.

Lemma velocity_blocks_Y (s : FluidGrid A) : In (velocityY s) (velocity_blocks s).
Proof. right; right; now left. Qed.

Lemma velocity_blocks_pY (s : FluidGrid A) : In (prevVelocityY s) (velocity_blocks s).
Proof. right; right; right; now left. Qed.

End StepFrames.

(** Peels one stage of the velocity part of [step] off the goal [P (let
    ... )], keeping only the fact [velocity_frame _ x] about the state [x]
    the stage binds. *)
Ltac velocity_stage P Hev :=
  lazymatch goal with
  | |- P (let x := ?v in @?b x) => refine (let_intro P v b _)
  end;
  let x := fresh "st" in
  let E := fresh "E" in
  intros x E; cbv beta;
  lazymatch goal with
  | F : velocity_frame ?s0 ?prev |- _ =>
      assert (velocity_frame s0 x)
        by (rewrite E;
            lazymatch goal with
            | |- velocity_frame _ (swap_velocityX _) =>
                exact (velocity_frame_swapX _ _ F)
            | |- velocity_frame _ (swap_velocityY _) =>
                exact (velocity_frame_swapY _ _ F)
            | |- velocity_frame _ (diffuse _ _ _ (velocityX _) _ _ _ _) =>
                exact (velocity_frame_diffuse _ _ _ _ _ _ _ _ _ Hev
                         (velocity_blocks_X _) F)
            | |- velocity_frame _ (diffuse _ _ _ (velocityY _) _ _ _ _) =>
                exact (velocity_frame_diffuse _ _ _ _ _ _ _ _ _ Hev
                         (velocity_blocks_Y _) F)
            | |- velocity_frame _ (project _ _ _ _ _ _ _) =>
                exact (velocity_frame_project _ _ _ _ _ _ _ _ Hev
                         (velocity_blocks_pX _) (velocity_blocks_pY _) F)
            | |- velocity_frame _ (advect _ _ (velocityX _) _ _ _ _ _) =>
                exact (velocity_frame_advect _ _ _ _ _ _ _ _ _
                         (velocity_blocks_X _) F)
            | |- velocity_frame _ (advect _ _ (velocityY _) _ _ _ _ _) =>
                exact (velocity_frame_advect _ _ _ _ _ _ _ _ _
                         (velocity_blocks_Y _) F)
            end);
      clear E F
  end.

(** [step] with an even iteration count: the velocity part leaves a state
    [st] with [velocity_frame s st], and the density part runs on it. *)
Lemma step_stages (A : Arith) (pool : Z -> list (Z * Z)) (dt : F A) (n : nat)
      (diffusionRate viscosity fadeRate : D A) (s : FluidGrid A)
      (P : FluidGrid A -> Prop) :
  Nat.even n = true ->
  (forall st, velocity_frame s st ->
     P (let s1 := swap_density st in
        let s2 := diffuse pool NONE (Z.of_nat n) (density s1) (prevDensity s1)
                          dt diffusionRate s1 in
        let s3 := swap_density s2 in
        let s4 := advect pool NONE (density s3) (prevDensity s3)
                         (velocityX s3) (velocityY s3) dt s3 in
        fadeDensity dt fadeRate s4)) ->
  P (step pool dt (Z.of_nat n) diffusionRate viscosity fadeRate s).
Proof.
  intros Hev HP. cbv beta delta [step].
  pose proof (velocity_frame_refl s) as F0.
  do 10 (velocity_stage P Hev).
  apply HP. assumption.
Qed.

(** * The stencils, path by path *)

Section Stencils.

Context {A : Arith}.
Variable pool : Z -> list (Z * Z).

Lemma vec_base_lane (c : Z) : vec_base c + vec_lane c = c.
Proof. unfold vec_base, vec_lane. lia. Qed.

Lemma diffuse_turns_final (d : Direction) (i : nat)
      (arr prevArr : block) (dt : F A) (rate : D A) (s : FluidGrid A) :
  diffuse pool d (Z.of_nat i) arr prevArr dt rate s
  = fst (diffuse_turns pool d i arr prevArr dt rate s).
Proof. reflexivity. Qed.

Lemma in_rows_interior (n x y : Z) :
  1 <= x <= n - 2 -> 1 <= y <= n - 2 -> in_rows n 1 (n - 1) (x + y * n) = true.
Proof.
  intros Hx Hy. unfold in_rows. rewrite cell_col, cell_row by lia.
  rewrite !andb_true_iff, !Z.leb_le, Z.ltb_lt. lia.
Qed.

Lemma covers_interior_nonempty (n : Z) (chunks : list (Z * Z)) :
  3 <= n -> covers_interior n chunks = true -> nonempty chunks = true.
Proof.
  unfold covers_interior. intros Hn Hc. rewrite forallb_forall in Hc.
  specialize (Hc 1 ltac:(apply In_upto; lia)).
  destruct chunks; [discriminate Hc|reflexivity].
Qed.

(** The relaxation stencil, path by path. *)
Lemma linearSolve_cell_paths (s : FluidGrid A) (arr prevArr : block)
      (k r : F A) (x y : Z) :
  1 <= x <= size s - 2 ->
  linearSolve_cell s arr prevArr k (set1_ps A k) r (set1_ps A r) (x + y * size s)
  = let previous := cell_at s prevArr x y in
    let up := cell_at s arr x (y - 1) in
    let down := cell_at s arr x (y + 1) in
    let left := cell_at s arr (x - 1) y in
    let right := cell_at s arr (x + 1) y in
    if x <? after_stride8 1 (size s - 9)
    then fmul A (ffma A down k (ffma A right k (ffma A left k (ffma A up k previous)))) r
    else fmul A (fadd A previous
                   (fmul A k (fadd A (fadd A (fadd A up down) left) right))) r.
Proof.
  intros Hx. unfold linearSolve_cell, cell_at. cbv zeta.
  rewrite cell_col, cell_row by lia.
  destruct (x <? after_stride8 1 (size s - 9)).
  - unfold linearSolve_vector_cells, mul_ps, fmadd_ps, loadu_ps, set1_ps, load.
    cbv zeta.
    pose proof (vec_base_lane x) as E.
    set (xb := vec_base x) in *. set (l := vec_lane x) in *.
    replace (xb + (y - 1) * size s + l) with (x + (y - 1) * size s) by lia.
    replace (xb - 1 + y * size s + l) with (x - 1 + y * size s) by lia.
    replace (xb + 1 + y * size s + l) with (x + 1 + y * size s) by lia.
    replace (xb + (y + 1) * size s + l) with (x + (y + 1) * size s) by lia.
    replace (xb + y * size s + l) with (x + y * size s) by lia.
    reflexivity.
  - unfold linearSolve_scalar_cell, load. cbv zeta. reflexivity.
Qed.

(** C6, amended: turn [i+1] of the relaxation loop of [diffuse] stores at
    every interior cell of the scratch block, which the turn then exchanges
    with the current pointer, the product of the reciprocal
    r = 1 / (1 + 4 k) and
    - in the columns of the 8-wide loop, the chain of fused multiply-adds
      fma (down, k, fma (right, k, fma (left, k, fma (up, k, previous)))),
    - in the columns of the remainder loop,
      previous + k (((up + down) + left) + right),
    where k = (float) (rate dt N N) is computed in double precision, the
    neighbours are read in the current buffer and [previous] in the
    previous buffer.  This holds in every arithmetic. *)
Theorem diffuse_iteration_writes (d : Direction) (i : nat) (arr prevArr : block)
        (dt : F A) (rate : D A) (s : FluidGrid A) :
  let n := size s in
  let k := diffuse_neighborDiffusion A n dt rate in
  let r := fdiv A (f_lit A 1 0) (diffuse_scaling A k) in
  let before := diffuse_turns pool d i arr prevArr dt rate s in
  let after := diffuse_turns pool d (S i) arr prevArr dt rate s in
  let current := snd before in
  let scratch := tmp (fst before) in
  tmp s <> arr -> tmp s <> prevArr -> arr <> prevArr ->
  covers_interior n (pool n) = true ->
  snd after = scratch /\ tmp (fst after) = current /\
  forall x y, 1 <= x <= n - 2 -> 1 <= y <= n - 2 ->
    let previous := cell_at (fst before) prevArr x y in
    let up := cell_at (fst before) current x (y - 1) in
    let down := cell_at (fst before) current x (y + 1) in
    let left := cell_at (fst before) current (x - 1) y in
    let right := cell_at (fst before) current (x + 1) y in
    cell_at (fst after) scratch x y
    = if x <? after_stride8 1 (n - 9)
      then fmul A (ffma A down k (ffma A right k (ffma A left k (ffma A up k previous)))) r
      else fmul A (fadd A previous
                     (fmul A k (fadd A (fadd A (fadd A up down) left) right))) r.
Proof.
  cbv zeta. intros Hta Htp Hap Hcov.
  unfold diffuse_turns. rewrite linearSolve_loop_succ.
  set (kk := diffuse_neighborDiffusion A (size s) dt rate).
  set (sc := diffuse_scaling A kk).
  pose proof (linearSolve_loop_pointers pool d i arr prevArr kk sc s) as Hp.
  cbv zeta in Hp.
  destruct (linearSolve_loop pool d (Z.of_nat i) arr prevArr kk sc s) as [sb cur].
  cbn [fst snd] in *. destruct Hp as (Fb & _ & Pb).
  assert (Hsz : size sb = size s) by apply Fb.
  assert (Hd : tmp sb <> cur /\ tmp sb <> prevArr).
  { destruct (Nat.even i); destruct Pb as [-> ->]; split; congruence. }
  destruct Hd as [Hd1 Hd2].
  pose proof (linearSolve_iteration_frame pool d prevArr kk
                (fdiv A (f_lit A 1 0) sc) sb cur) as Hf.
  cbv zeta in Hf. destruct Hf as (Fa & Sa & Ta & _).
  split; [exact Sa|]. split; [exact Ta|].
  intros x y Hx Hy.
  assert (Hsa : size (fst (linearSolve_iteration pool d prevArr kk
                  (fdiv A (f_lit A 1 0) sc) (sb, cur))) = size sb)
    by apply Fa.
  unfold cell_at at 1. rewrite Hsa.
  rewrite linearSolve_iteration_cells; try assumption; try lia.
  - rewrite linearSolve_cell_paths by lia. cbv zeta. now rewrite Hsz.
  - rewrite Hsz. apply covers_interior_in_chunks; [exact Hcov|lia|lia].
Qed.

Lemma heightMap_cell_paths (s : FluidGrid A) (velX velY : block) (x y : Z) :
  1 <= x <= size s - 2 ->
  heightMap_cell s velX velY (x + y * size s)
  = let left := cell_at s velX (x - 1) y in
    let right := cell_at s velX (x + 1) y in
    let up := cell_at s velY x (y - 1) in
    let down := cell_at s velY x (y + 1) in
    let sizeReciprocal := fdiv A (f_lit A 1 0) (f_of_int A (size s)) in
    if x <? after_stride8 1 (size s - 9)
    then fmul A (fmul A (fadd A (fsub A left right) (fsub A up down))
                        (f_lit A (-1) (-1))) sizeReciprocal
    else fmul A (fmul A (f_lit A (-1) (-1))
                        (fsub A (fadd A (fsub A left right) up) down)) sizeReciprocal.
Proof.
  intros Hx. unfold heightMap_cell, cell_at. cbv zeta.
  rewrite cell_col, cell_row by lia.
  destruct (x <? after_stride8 1 (size s - 9)).
  - unfold heightMap_vector_cells, mul_ps, add_ps, sub_ps, loadu_ps, set1_ps, load.
    cbv zeta.
    pose proof (vec_base_lane x) as E.
    set (xb := vec_base x) in *. set (l := vec_lane x) in *.
    replace (xb + (y - 1) * size s + l) with (x + (y - 1) * size s) by lia.
    replace (xb - 1 + y * size s + l) with (x - 1 + y * size s) by lia.
    replace (xb + 1 + y * size s + l) with (x + 1 + y * size s) by lia.
    replace (xb + (y + 1) * size s + l) with (x + (y + 1) * size s) by lia.
    reflexivity.
  - unfold heightMap_scalar_cell, load. cbv zeta. reflexivity.
Qed.

(** C7, amended: the divergence pass of [project] stores at every interior
    cell of [div], with sizeReciprocal = 1 / N,
    - in the columns of the 8-wide loop
      (((left - right) + (up - down)) * -0.5) * sizeReciprocal,
    - in the columns of the remainder loop
      (-0.5 * (((left - right) + up) - down)) * sizeReciprocal,
    and a zero at the same cells of [p].  This holds in every arithmetic. *)
Theorem project_heightMap_stores (velX velY p div : block) (s : FluidGrid A) :
  let n := size s in
  let s' := project_heightMap pool velX velY p div s in
  let sizeReciprocal := fdiv A (f_lit A 1 0) (f_of_int A n) in
  p <> div -> div <> velX -> div <> velY -> p <> velX -> p <> velY ->
  covers_interior n (pool n) = true ->
  forall x y, 1 <= x <= n - 2 -> 1 <= y <= n - 2 ->
    let left := cell_at s velX (x - 1) y in
    let right := cell_at s velX (x + 1) y in
    let up := cell_at s velY x (y - 1) in
    let down := cell_at s velY x (y + 1) in
    cell_at s' div x y
    = (if x <? after_stride8 1 (n - 9)
       then fmul A (fmul A (fadd A (fsub A left right) (fsub A up down))
                           (f_lit A (-1) (-1))) sizeReciprocal
       else fmul A (fmul A (f_lit A (-1) (-1))
                           (fsub A (fadd A (fsub A left right) up) down)) sizeReciprocal)
    /\ cell_at s' p x y
       = (if x <? after_stride8 1 (n - 9) then f_lit A 0 0 else f_of_int A 0).
Proof.
  cbv zeta. intros Hpd Hdx Hdy Hpx Hpy Hcov x y Hx Hy.
  destruct (project_heightMap_writes pool s velX velY p div Hpd Hdx Hdy Hpx Hpy
              s (based_on_refl s [div; p])) as [Hb Hm].
  unfold project_heightMap.
  split; unfold cell_at at 1;
    rewrite (based_on_size _ _ _ Hb), Hm; cbn [fst snd];
    rewrite (covers_interior_in_chunks _ _ _ _ Hcov Hx Hy).
  - rewrite !block_eqb_refl. cbn [andb orb]. now apply heightMap_cell_paths.
  - rewrite !block_eqb_refl, (block_eqb_neq _ _ Hpd). cbn [andb orb].
    unfold heightMap_zero. now rewrite cell_col by lia.
Qed.

(** What [fadeDensity] leaves in the density buffer. *)
Lemma fadeDensity_cells (dt : F A) (fadeRate : D A) (s : FluidGrid A)
      (x y : Z) :
  1 <= x <= size s - 2 -> 1 <= y <= size s - 2 ->
  mem (fadeDensity dt fadeRate s) (density s) (x + y * size s)
  = fmul A (mem s (density s) (x + y * size s))
           (f_of_d A (fade_factor A (size s) dt fadeRate)).
Proof.
  intros Hx Hy.
  destruct (fadeDensity_maps s dt fadeRate s (based_on_refl s [density s]))
    as [_ Hm].
  rewrite Hm. cbn [fst snd].
  now rewrite block_eqb_refl, in_rows_interior.
Qed.

(** An interior cell of [arr] after [advect] is the value the kernel
    computed for it from the state [advect] was called in. *)
Lemma advect_interior_cell (d : Direction)
      (arr prevArr velX velY : block) (dt : F A) (s : FluidGrid A) (x y : Z) :
  arr <> prevArr -> arr <> velX -> arr <> velY ->
  nonempty (pool (size s)) = true ->
  1 <= x <= size s - 2 -> 1 <= y <= size s - 2 ->
  cell_at (advect pool d arr prevArr velX velY dt s) arr x y
  = advect_cell s prevArr velX velY dt (x + y * size s).
Proof.
  intros Hp Hvx Hvy Hne Hx Hy.
  destruct (advect_pass_writes pool s arr prevArr velX velY dt Hp Hvx Hvy
              s (based_on_refl s [arr])) as [Hb Hm].
  unfold advect. cbv zeta.
  set (s1 := computeOnThreads pool (size s) _ s) in *.
  assert (Hsz : size s1 = size s) by exact (based_on_size _ _ _ Hb).
  assert (Hsb : size (setBounds d arr s1) = size s).
  { rewrite <- Hsz. apply (setBounds_based s1 [arr] d arr s1 (or_introl eq_refl)
                             (based_on_refl s1 [arr])). }
  unfold cell_at. rewrite Hsb. rewrite <- Hsz at 1.
  rewrite setBounds_interior by (rewrite Hsz; assumption).
  rewrite Hsz, Hm. cbn [fst snd].
  rewrite block_eqb_refl, (in_rows_interior _ _ _ Hx Hy), Hne. reflexivity.
Qed.

End Stencils.

(** * Construction *)

(** The constructor throws when one of the six field buffers is missing. *)
Lemma FluidGrid_new_throws (succeeds : block -> bool) (n : Z) (b : block) :
  b <> BTmp -> succeeds b = false -> FluidGrid_new succeeds n = Thrown.
Proof.
  intros Hb Hf. unfold FluidGrid_new, calloc.
  destruct b; try contradiction; rewrite Hf; cbn [is_null negb andb];
    repeat match goal with
           | |- context [succeeds ?c] => destruct (succeeds c)
           end; reflexivity.
Qed.

(** C4, at the input where it fails: when only the allocation of the
    scratch buffer fails, the constructor does not throw; it returns an
    object whose [tmp] is the null pointer. *)
Theorem FluidGrid_new_ignores_tmp_failure (n : Z) :
  FluidGrid_new only_tmp_fails n
  = Constructed (mkMembers n (Ptr BDensity) (Ptr BPrevDensity)
                           (Ptr BVelocityX) (Ptr BPrevVelocityX)
                           (Ptr BVelocityY) (Ptr BPrevVelocityY) NULL).
Proof. reflexivity. Qed.

(** * Relaxation: zero turns, and the parity of the turn count *)

(** C10: with an iteration count of 0 the relaxation loop does nothing:
    [linearSolve], and [diffuse] which only calls it, return the state
    they were given (same pointers, same contents of every block), and the
    local pointer of the loop is still the solve target. *)
Theorem linearSolve_zero_iterations_noop (A : Arith) (pool : Z -> list (Z * Z))
        (d : Direction) (arr prevArr : block) (k scaling dt : F A) (rate : D A)
        (s : FluidGrid A) :
  linearSolve_loop pool d 0 arr prevArr k scaling s = (s, arr) /\
  linearSolve pool d 0 arr prevArr k scaling s = s /\
  diffuse pool d 0 arr prevArr dt rate s = s.
Proof. repeat split; reflexivity. Qed.

(** C5: after an even number of turns the block passed as the solve
    target holds the result of the last turn and [tmp] is the scratch block
    again; after an odd number of turns the result of the last turn is in
    the scratch block, the block passed as the solve target holds the
    result of the turn before, and the member [tmp] points to that
    block. *)
Theorem linearSolve_result_parity (A : Arith) (pool : Z -> list (Z * Z))
        (d : Direction) (n : nat) (arr prevArr : block) (k scaling : F A)
        (s : FluidGrid A) :
  tmp s <> arr ->
  let s' := linearSolve pool d (Z.of_nat n) arr prevArr k scaling s in
  let result := iteration_result pool d arr prevArr k scaling s in
  (Nat.even n = true ->
     tmp s' = tmp s /\ forall j, mem s' arr j = result n j) /\
  (Nat.odd n = true ->
     tmp s' = arr /\
     (forall j, mem s' (tmp s) j = result n j) /\
     (forall j, mem s' arr j = result (n - 1)%nat j)).
Proof.
  intros Hne. cbv zeta. unfold linearSolve, iteration_result.
  pose proof (linearSolve_loop_pointers pool d n arr prevArr k scaling s) as Hn.
  cbv zeta in Hn. destruct Hn as (_ & _ & Pn).
  split; intros Hpar.
  - rewrite Hpar in Pn. destruct Pn as [Pa Pt]. split; [exact Pt|].
    intros j. now rewrite Pa.
  - destruct n as [|m]; [discriminate Hpar|].
    rewrite Nat.odd_succ in Hpar.
    rewrite Nat.even_succ, <- Nat.negb_even, Hpar in Pn. cbn [negb] in Pn.
    destruct Pn as [Pa Pt]. split; [exact Pt|]. split.
    + intros j. now rewrite Pa.
    + replace (S m - 1)%nat with m by lia.
      pose proof (linearSolve_loop_pointers pool d m arr prevArr k scaling s) as Hm.
      cbv zeta in Hm. destruct Hm as (_ & _ & Pm). rewrite Hpar in Pm.
      destruct Pm as [Qa Qt].
      rewrite linearSolve_loop_succ.
      destruct (linearSolve_loop pool d (Z.of_nat m) arr prevArr k scaling s)
        as [sm am] eqn:Em.
      cbn [fst snd] in *. subst am.
      pose proof (linearSolve_iteration_frame pool d prevArr k
                    (fdiv A (f_lit A 1 0) scaling) sm arr) as Hit.
      cbv zeta in Hit. destruct Hit as (_ & _ & _ & Oi).
      intros j. apply Oi. rewrite Qt. intros [E|[]]. contradiction.
Qed.

Lemma linearSolve_result_parity_witness :
  let s := fresh IEEE.arith 10 in
  let k := f_of_int IEEE.arith 1 in
  let s' := linearSolve specPool NONE 3 BDensity BPrevDensity k k s in
  tmp s' = BDensity /\
  forall j, mem s' BDensity j
            = iteration_result specPool NONE BDensity BPrevDensity k k s 2 j.
Proof.
  cbv zeta.
  destruct (linearSolve_result_parity IEEE.arith specPool NONE 3
              BDensity BPrevDensity (f_of_int IEEE.arith 1) (f_of_int IEEE.arith 1)
              (fresh IEEE.arith 10)) as [_ Hodd].
  - discriminate.
  - destruct (Hodd eq_refl) as (Ht & _ & Ha). split; [exact Ht|exact Ha].
Defined.

(** * Advection and the row range *)

(** The row range of [advectLoop] does not enter its result. *)
Lemma advectLoop_range_irrelevant (A : Arith) (a b a' b' : Z)
      (arr prevArr velX velY : block) (dt : F A) (s : FluidGrid A) :
  advectLoop a b arr prevArr velX velY dt s
  = advectLoop a' b' arr prevArr velX velY dt s.
Proof. reflexivity. Qed.

(** C2, at the input where it fails: on a grid of size 10, [advectLoop]
    called for the row range [1, 2) overwrites the cell (5,5), which is in
    row 5. *)
Theorem advectLoop_writes_outside_range :
  let one := f_of_int IEEE.arith 1 in
  let s := store BPrevDensity (5 + 5 * 10) one (fresh IEEE.arith 10) in
  let s' := advectLoop 1 2 BDensity BPrevDensity BVelocityX BVelocityY one s in
  mem s BDensity (5 + 5 * 10) = f_of_int IEEE.arith 0 /\
  mem s' BDensity (5 + 5 * 10) = one.
Proof. vm_compute. split; reflexivity. Qed.

(** * The end-to-end scenario *)

(** C1 as stated fails: in binary32, with the pool of the specification,
    the scenario does not end with 1000 at cell (5,5). *)
Lemma scenario_counterexample :
  scenario_as_claimed (A:=IEEE.arith) specPool = false.
Proof. vm_compute. reflexivity. Qed.

(** C1, amended: the scenario ends with both velocity fields numerically
    zero and with every density cell, (5,5) included, equal to 0: with no
    relaxation turn [diffuse] copies nothing into the buffer that the
    advection of the density then reads. *)
Theorem scenario_loses_density :
  scenario_as_run (A:=IEEE.arith) specPool = true.
Proof. vm_compute. reflexivity. Qed.

(** After [addDensity] the cell does hold 100 * 1 * 10 = 1000. *)
Lemma scenario_injected_density :
  mem (addDensity (A:=IEEE.arith) 5 5 (f_of_int IEEE.arith 100) (f_of_int IEEE.arith 1)
                  (fresh IEEE.arith 10)) BDensity (5 + 5 * 10)
  = f_of_int IEEE.arith 1000.
Proof. vm_compute. reflexivity. Qed.

(** * Zero time step *)

(** C3 as stated fails: grid of size 10 with X velocity 10 at cell (1,1),
    [step(0, 2, 0, 0, 0)]: the projection passes change the velocity. *)
Lemma zero_dt_counterexample :
  zero_dt_idempotent_at (A:=IEEE.arith) specPool 2
    (d_of_int IEEE.arith 0) (d_of_int IEEE.arith 0)
    (addVelocity (A:=IEEE.arith) 1 1 (f_of_int IEEE.arith 1) (f_of_int IEEE.arith 0)
                 (f_of_int IEEE.arith 1) (fresh IEEE.arith 10)) = false.
Proof. vm_compute. reflexivity. Qed.

(** * The formulas of the specification against the kernels, in binary32 *)

(** C6 as stated fails.  Grid of size 16, rate = 2^-8 and dt = 1, so that
    k = 1; previous = 1 at cell (5,5) and, around it in the current
    buffer, up = 2^100, down = -2^100, left = 1, right = 0.  The formula
    gives (1 + 1 (2^100 - 2^100 + 1 + 0)) / 5 = 0.4.  Column 5 is handled
    by the 8-wide loop, whose chain of fused multiply-adds starts with
    fma (up, k, previous) = 2^100 + 1, which rounds to 2^100: the 1 of
    [previous] and the 1 of [left] are absorbed, and the turn stores 0. *)
Lemma diffuse_formula_counterexample :
  let s := store (A:=IEEE.arith) BPrevDensity (5 + 5 * 16) (f_of_int IEEE.arith 1)
            (store BDensity (5 + 4 * 16) (f_lit IEEE.arith 1 100)
              (store BDensity (5 + 6 * 16) (f_lit IEEE.arith (-1) 100)
                (store BDensity (4 + 5 * 16) (f_of_int IEEE.arith 1)
                  (fresh IEEE.arith 16)))) in
  let dt := f_of_int IEEE.arith 1 in
  let rate := d_of_f IEEE.arith (f_lit IEEE.arith 1 (-8)) in
  let k := diffuse_neighborDiffusion IEEE.arith 16 dt rate in
  let after := diffuse_turns (A:=IEEE.arith) specPool NONE 1
                 BDensity BPrevDensity dt rate s in
  let claimed := relaxation_formula IEEE.arith (cell_at s BPrevDensity 5 5) k
                   (cell_at s BDensity 5 4) (cell_at s BDensity 5 6)
                   (cell_at s BDensity 4 5) (cell_at s BDensity 6 5) in
  k = f_of_int IEEE.arith 1 /\
  claimed = f_lit IEEE.arith 13421773 (-25) /\
  cell_at (fst after) (snd after) 5 5 = f_of_int IEEE.arith 0 /\
  feqb IEEE.arith (cell_at (fst after) (snd after) 5 5) claimed = false.
Proof. vm_compute. repeat split. Qed.

(** C7 as stated fails.  Grid of size 12, where column 9 is handled by the
    remainder loop; around cell (9,5), velX[left] = 1, velX[right] = 0 and
    velY[up] = velY[down] = 2^25.  The formula gives
    -0.5 ((1 - 0) + (2^25 - 2^25)) / 12 = -1/24.  The remainder loop sums
    ((left - right) + up) - down: 1 + 2^25 rounds to 2^25, and it stores
    -0.  (Around cell (5,5), in the 8-wide loop, the same values give
    -1/24.) *)
Lemma divergence_formula_counterexample :
  let s := store (A:=IEEE.arith) BVelocityX (8 + 5 * 12) (f_of_int IEEE.arith 1)
            (store BVelocityX (4 + 5 * 12) (f_of_int IEEE.arith 1)
              (store BVelocityY (9 + 4 * 12) (f_lit IEEE.arith 1 25)
                (store BVelocityY (9 + 6 * 12) (f_lit IEEE.arith 1 25)
                  (store BVelocityY (5 + 4 * 12) (f_lit IEEE.arith 1 25)
                    (store BVelocityY (5 + 6 * 12) (f_lit IEEE.arith 1 25)
                      (fresh IEEE.arith 12)))))) in
  let s' := project_heightMap specPool BVelocityX BVelocityY
                              BPrevVelocityX BPrevVelocityY s in
  let claimed := divergence_formula IEEE.arith 12
                   (cell_at s BVelocityX 8 5) (cell_at s BVelocityX 10 5)
                   (cell_at s BVelocityY 9 4) (cell_at s BVelocityY 9 6) in
  claimed = f_lit IEEE.arith (-11184811) (-28) /\
  cell_at s' BPrevVelocityY 9 5 = fopp IEEE.arith (f_of_int IEEE.arith 0) /\
  feqb IEEE.arith (cell_at s' BPrevVelocityY 9 5) claimed = false /\
  feqb IEEE.arith (cell_at s' BPrevVelocityY 5 5) claimed = true.
Proof. vm_compute. repeat split. Qed.

(** * Fading in binary32 *)

(** The fade factor is in [0, 1] when the fade amount is in (0, 1). *)
Lemma fade_factor_unit (n : Z) (dt rate : spec_float) :
  binary32 dt -> binary64 rate ->
  dltb IEEE.arith (d_of_int IEEE.arith 0) (fade_amount (A:=IEEE.arith) n dt rate) = true ->
  dltb IEEE.arith (fade_amount (A:=IEEE.arith) n dt rate) (d_of_int IEEE.arith 1) = true ->
  let f := f_of_d IEEE.arith (fade_factor IEEE.arith n dt rate) in
  binary32 f /\ nonneg f = true /\ ord32 f <= 2 ^ scale.
Proof.
  intros Vdt Vrate H0 H1. cbv zeta.
  unfold fade_factor.
  change (dmul IEEE.arith (dmul IEEE.arith (d_of_f IEEE.arith dt) rate) (d_of_int IEEE.arith n))
    with (fade_amount (A:=IEEE.arith) n dt rate).
  assert (Vr : binary64 (fade_amount (A:=IEEE.arith) n dt rate)).
  { unfold fade_amount.
    apply (SFmul_valid IEEE.prec64 IEEE.emax64 scale prec64_pos emax64_gt scale64).
    - apply (SFmul_valid IEEE.prec64 IEEE.emax64 scale prec64_pos emax64_gt scale64).
      + now apply d_of_f_valid.
      + exact Vrate.
    - apply d_of_int_valid. }
  set (r := fade_amount (A:=IEEE.arith) n dt rate) in *.
  destruct (SFltb_ord IEEE.prec64 IEEE.emax64 scale prec64_pos emax64_gt scale64
              (d_of_int IEEE.arith 0) r ltac:(reflexivity) Vr H0) as (_ & _ & L0).
  destruct (SFltb_ord IEEE.prec64 IEEE.emax64 scale prec64_pos emax64_gt scale64
              r (d_of_int IEEE.arith 1) Vr ltac:(reflexivity) H1) as (_ & _ & L1).
  change (d_of_int IEEE.arith 0) with (S754_zero false) in *.
  change (d_of_int IEEE.arith 1) with one64 in *.
  rewrite ord64_one in L1. cbn [scaled_value] in L0.
  pose proof one_lt_top64 as T64.
  destruct (ord_pos_finite IEEE.prec64 IEEE.emax64 scale prec64_pos emax64_gt scale64
              r Vr ltac:(lia)) as (m & e & Er).
  apply f_of_d_unit.
  - apply (SFsub_valid IEEE.prec64 IEEE.emax64 scale prec64_pos emax64_gt scale64);
      [reflexivity|exact Vr].
  - rewrite Er. unfold one64. cbn [dsub IEEE.arith].
    rewrite (SFsub_finite IEEE.prec64 IEEE.emax64 scale prec64_pos emax64_gt scale64)
      by (try reflexivity; rewrite <- Er; exact Vr).
    rewrite <- Er. fold one64. rewrite ord64_one.
    apply (sround_pos IEEE.prec64 IEEE.emax64 scale prec64_pos emax64_gt scale64). lia.
  - rewrite Er. unfold one64. cbn [dsub IEEE.arith].
    rewrite (SFsub_finite IEEE.prec64 IEEE.emax64 scale prec64_pos emax64_gt scale64)
      by (try reflexivity; rewrite <- Er; exact Vr).
    rewrite <- Er. fold one64. rewrite ord64_one.
    destruct (sround_pos IEEE.prec64 IEEE.emax64 scale prec64_pos emax64_gt scale64
                (2 ^ scale - ord64 r) ltac:(lia)) as (_ & _ & _ & O).
    rewrite O.
    pose proof (rnd_mono IEEE.prec64 IEEE.emax64 scale prec64_pos emax64_gt scale64
                  (2 ^ scale - ord64 r) (2 ^ scale) ltac:(lia) ltac:(lia)) as M.
    rewrite rnd64_one in M. lia.
Qed.

Lemma below_add (a' a c' c : spec_float) :
  below a' a -> below c' c ->
  below (fadd IEEE.arith a' c') (fadd IEEE.arith a c).
Proof.
  intros (V1 & V2 & N1 & N2 & L) (V3 & V4 & N3 & N4 & L').
  destruct (SFadd_nonneg IEEE.prec32 IEEE.emax32 scale prec32_pos emax32_gt scale32
              a' c' V1 V3 N1 N3) as (A1 & A2 & A3).
  destruct (SFadd_nonneg IEEE.prec32 IEEE.emax32 scale prec32_pos emax32_gt scale32
              a c V2 V4 N2 N4) as (B1 & B2 & B3).
  repeat split; try assumption.
  cbn [fadd IEEE.arith]. rewrite A3, B3.
  destruct (nonneg_ord IEEE.prec32 IEEE.emax32 scale prec32_pos emax32_gt scale32 a' N1) as [P1 _].
  destruct (nonneg_ord IEEE.prec32 IEEE.emax32 scale prec32_pos emax32_gt scale32 c' N3) as [P3 _].
  apply (add_ord_mono IEEE.prec32 IEEE.emax32 scale prec32_pos emax32_gt scale32); lia.
Qed.

Lemma below_interior_sum (n : Z) (b' b : Z -> spec_float) :
  (forall x y, 1 <= x <= n - 2 -> 1 <= y <= n - 2 ->
     below (b' (x + y * n)) (b (x + y * n))) ->
  below (interior_sum (A:=IEEE.arith) n b') (interior_sum (A:=IEEE.arith) n b).
Proof.
  intros H. unfold interior_sum.
  assert (Row : forall y xs acc' acc,
            1 <= y <= n - 2 -> (forall x, In x xs -> 1 <= x <= n - 2) ->
            below acc' acc ->
            below (fold_left (fun a x => fadd IEEE.arith a (b' (x + y * n))) xs acc')
                  (fold_left (fun a x => fadd IEEE.arith a (b (x + y * n))) xs acc)).
  { intros y xs. induction xs as [|x xs IH]; intros acc' acc Hy Hx Ha; [exact Ha|].
    cbn [fold_left]. apply IH; [assumption| |].
    - intros x' Hin. apply Hx. now right.
    - apply below_add; [exact Ha|]. apply H; [apply Hx; now left|assumption]. }
  assert (Rows : forall ys acc' acc,
            (forall y, In y ys -> 1 <= y <= n - 2) -> below acc' acc ->
            below (fold_left (fun a y =>
                     fold_left (fun a' x => fadd IEEE.arith a' (b' (x + y * n)))
                               (upto 1 (n - 1)) a) ys acc')
                  (fold_left (fun a y =>
                     fold_left (fun a' x => fadd IEEE.arith a' (b (x + y * n)))
                               (upto 1 (n - 1)) a) ys acc)).
  { induction ys as [|y ys IH]; intros acc' acc Hy Ha; [exact Ha|].
    cbn [fold_left]. apply IH.
    - intros y' Hin. apply Hy. now right.
    - apply Row; [apply Hy; now left| |exact Ha].
      intros x Hx. apply In_upto in Hx. lia. }
  apply Rows.
  - intros y Hy. apply In_upto in Hy. lia.
  - repeat split. cbn [f_of_int IEEE.arith IEEE.of_Z binary_normalize scaled_value]. lia.
Qed.

(** C9, amended: whenever 0 < dt fadeRate size < 1 (as [fadeDensity]
    computes the product, in double precision) and every interior density
    cell is a finite float that is not negative, the sum of the interior
    density cells after [fadeDensity] is not above the sum before it, the
    sums taken row by row in binary32.  [dt] is any binary32 value and
    [rate] any binary64 value. *)
Theorem fade_monotone_nonnegative (dt rate : spec_float) (s : FluidGrid IEEE.arith) :
  binary32 dt -> binary64 rate ->
  (forall x y, 1 <= x <= size s - 2 -> 1 <= y <= size s - 2 ->
     binary32 (cell_at s (density s) x y) /\
     is_finite (cell_at s (density s) x y) = true /\
     nonneg (cell_at s (density s) x y) = true) ->
  fade_monotone_at (A:=IEEE.arith) s dt rate = true.
Proof.
  intros Vdt Vrate Hc. unfold fade_monotone_at. cbv zeta.
  destruct (dltb IEEE.arith (d_of_int IEEE.arith 0)
                 (fade_amount (A:=IEEE.arith) (size s) dt rate)) eqn:E0; [|reflexivity].
  destruct (dltb IEEE.arith (fade_amount (A:=IEEE.arith) (size s) dt rate)
                 (d_of_int IEEE.arith 1)) eqn:E1; [|reflexivity].
  cbn [andb implb]. apply negb_true_iff.
  destruct (fade_factor_unit (size s) dt rate Vdt Vrate E0 E1) as (Vf & Nf & Lf).
  assert (B : below (interior_sum (A:=IEEE.arith) (size s)
                       (mem (fadeDensity (A:=IEEE.arith) dt rate s) (density s)))
                    (interior_sum (A:=IEEE.arith) (size s) (mem s (density s)))).
  { apply below_interior_sum. intros x y Hx Hy.
    rewrite fadeDensity_cells by assumption.
    destruct (Hc x y Hx Hy) as (Vc & Fc & Nc). unfold cell_at in Vc, Fc, Nc.
    destruct (SFmul_shrink IEEE.prec32 IEEE.emax32 scale prec32_pos emax32_gt scale32
                _ _ Vc Vf Fc Nc Nf Lf one_lt_top32) as (A1 & A2 & A3).
    repeat split; assumption. }
  destruct B as (V1 & V2 & N1 & N2 & L).
  apply (SFltb_ge IEEE.prec32 IEEE.emax32 scale prec32_pos emax32_gt scale32);
    try assumption.
  - apply (nonneg_ord IEEE.prec32 IEEE.emax32 scale prec32_pos emax32_gt scale32 _ N2).
  - apply (nonneg_ord IEEE.prec32 IEEE.emax32 scale prec32_pos emax32_gt scale32 _ N1).
Qed.

(** C9 as stated fails: with a negative density the fade raises the sum.
    Grid of size 4, density -1 at cell (1,1), dt = 1, fadeRate = 1/8, so
    that dt fadeRate size = 1/2: the interior sum goes from -1 to -1/2. *)
Lemma fade_monotone_counterexample :
  fade_monotone_at (A:=IEEE.arith)
    (store BDensity (1 + 1 * 4) (f_of_int IEEE.arith (-1)) (fresh IEEE.arith 4))
    (f_of_int IEEE.arith 1) (d_of_f IEEE.arith (f_lit IEEE.arith 1 (-3))) = false.
Proof. vm_compute. reflexivity. Qed.

(** * Advection in binary32 *)

(** ** Integers as binary32 values *)

Lemma of_int_pos (x : Z) :
  0 < x < 2 ^ 24 ->
  exists m e,
    f_of_int IEEE.arith x = S754_finite false m e /\
    binary32 (S754_finite false m e) /\
    ord32 (S754_finite false m e) = x * 2 ^ scale /\
    e <= 0 /\ Zpos m = x * 2 ^ (- e).
Proof.
  intros Hx.
  destruct (normalize_int IEEE.prec32 IEEE.emax32 scale prec32_pos emax32_gt scale32 x Hx)
    as (m & e & E1 & E2 & E3 & E4 & E5).
  exists m, e. repeat split; assumption.
Qed.

(** [(int)], [cvtps_epi32] and [floor] on the float of an integer. *)
Lemma of_int_ops (x : Z) :
  0 < x < 2 ^ 24 ->
  int_of_f IEEE.arith (f_of_int IEEE.arith x) = x /\
  cvt_int IEEE.arith (f_of_int IEEE.arith x) = x /\
  ffloor IEEE.arith (f_of_int IEEE.arith x) = f_of_int IEEE.arith x.
Proof.
  intros Hx.
  destruct (of_int_pos x Hx) as (m & e & F1 & _ & _ & He & Hm).
  assert (Hin : IEEE.in_int x = x).
  { unfold IEEE.in_int, IEEE.int_min.
    assert (2 ^ 24 < 2 ^ 31) by (apply Z.pow_lt_mono_r; lia).
    replace (- 2 ^ 31 <=? x) with true by (symmetry; apply Z.leb_le; lia).
    now replace (x <? 2 ^ 31) with true by (symmetry; apply Z.ltb_lt; lia). }
  assert (P : 0 < 2 ^ (- e)) by (apply Z.pow_pos_nonneg; lia).
  destruct (Z.eq_dec e 0) as [E0|Ne].
  - subst e. change (2 ^ (- 0)) with 1 in Hm. rewrite Z.mul_1_r in Hm.
    rewrite F1.
    cbn [int_of_f cvt_int ffloor IEEE.arith IEEE.truncate IEEE.nearest IEEE.floor
         Z.leb Z.compare cond_Zopp].
    rewrite Z.shiftl_0_r, Hm, Hin. repeat split.
  - assert (E : (0 <=? e) = false) by (apply Z.leb_gt; lia).
    assert (Sh : Z.shiftr (Zpos m) (- e) = x).
    { rewrite Z.shiftr_div_pow2 by lia. rewrite Hm. apply Z.div_mul. lia. }
    split; [|split].
    + rewrite F1. cbn [int_of_f IEEE.arith IEEE.truncate]. rewrite E. cbn [cond_Zopp].
      now rewrite Sh.
    + rewrite F1. cbn [cvt_int IEEE.arith IEEE.nearest]. rewrite E. cbv zeta.
      rewrite Sh. rewrite !Z.shiftl_mul_pow2 by lia.
      replace (Zpos m - x * 2 ^ (- e)) with 0 by lia. rewrite Z.mul_1_l.
      assert (0 < 2 ^ (- e - 1)) by (apply Z.pow_pos_nonneg; lia).
      replace (0 <? 2 ^ (- e - 1)) with true by (symmetry; apply Z.ltb_lt; lia).
      cbn [cond_Zopp]. exact Hin.
    + rewrite F1 at 1. cbn [ffloor IEEE.arith IEEE.floor]. rewrite E.
      unfold IEEE.floorZ. rewrite E. cbv zeta. cbn [cond_Zopp]. rewrite Sh.
      destruct x; try lia. reflexivity.
Qed.

(** ** Zeros *)

Lemma same_value_refl (a : spec_float) : same_value a a.
Proof. now left. Qed.

Lemma same_value_trans (a b c : spec_float) :
  same_value a b -> same_value b c -> same_value a c.
Proof.
  intros [->|[Za Zb]] [->|[Zb' Zc]]; try (now left); right; now split.
Qed.

Lemma same_value_feq (a b : spec_float) :
  is_nan b = false -> same_value a b -> feqb IEEE.arith a b = true.
Proof.
  intros Nb [->|[Za Zb]].
  - now apply SFeqb_refl.
  - destruct a; try discriminate. destruct b; try discriminate. reflexivity.
Qed.

Lemma same_value_finite (a b : spec_float) :
  same_value a b -> is_finite b = true -> is_finite a = true.
Proof.
  intros [->|[Za _]] Fb; [exact Fb|]. destruct a; try discriminate. reflexivity.
Qed.

Lemma same_value_valid (a b : spec_float) :
  same_value a b -> binary32 b -> binary32 a.
Proof.
  intros [->|[Za _]] Vb; [exact Vb|]. destruct a; try discriminate. reflexivity.
Qed.

Lemma is_zero_float (v : spec_float) :
  is_zero (A:=IEEE.arith) v = true -> zero_float v = true.
Proof.
  unfold is_zero. cbn [feqb f_of_int IEEE.arith IEEE.of_Z binary_normalize].
  destruct v as [s|s| |s m e]; try reflexivity; unfold SFeqb; cbn [SFcompare].
  - destruct s; discriminate.
  - discriminate.
  - destruct s; discriminate.
Qed.

Lemma mul_zero_r (a z : spec_float) :
  is_finite a = true -> zero_float z = true ->
  zero_float (fmul IEEE.arith a z) = true.
Proof.
  destruct a; try discriminate; destruct z; try discriminate; reflexivity.
Qed.

Lemma mul_zero_l (a z : spec_float) :
  is_finite a = true -> zero_float z = true ->
  zero_float (fmul IEEE.arith z a) = true.
Proof.
  destruct a; try discriminate; destruct z; try discriminate; reflexivity.
Qed.

Lemma add_zero_r (a z : spec_float) :
  zero_float z = true -> same_value (fadd IEEE.arith a z) a.
Proof.
  destruct z as [sz| | |]; try discriminate. intros _.
  destruct a as [s|s| |s m e]; try (left; reflexivity).
  right. split; [|reflexivity]. destruct s, sz; reflexivity.
Qed.

Lemma sub_zero_r (s : bool) (m : positive) (e : Z) (z : spec_float) :
  zero_float z = true -> fsub IEEE.arith (S754_finite s m e) z = S754_finite s m e.
Proof. destruct z; try discriminate. reflexivity. Qed.

Lemma fma_zero (x k z : spec_float) :
  is_finite x = true -> zero_float k = true ->
  same_value (ffma IEEE.arith x k z) z.
Proof.
  destruct k as [sk| | |]; try discriminate. intros Fx _.
  destruct x as [sx|sx| |sx mx ex]; try discriminate;
    cbn [ffma IEEE.arith IEEE.fma];
    (destruct z as [sz|sz| |sz mz ez]; try (left; reflexivity);
     right; split; [|reflexivity]; destruct (Bool.eqb _ _); reflexivity).
Qed.

Lemma mul_one_l (p : spec_float) : binary32 p -> fmul IEEE.arith one32 p = p.
Proof.
  intros Vp.
  apply (SFmul_unit_l IEEE.prec32 IEEE.emax32 scale prec32_pos emax32_gt scale32);
    first [assumption|apply ord32_one|apply one_lt_top32|reflexivity].
Qed.

Lemma mul_one_r (p : spec_float) : binary32 p -> fmul IEEE.arith p one32 = p.
Proof.
  intros Vp.
  apply (SFmul_unit_r IEEE.prec32 IEEE.emax32 scale prec32_pos emax32_gt scale32);
    first [assumption|apply ord32_one|apply one_lt_top32|reflexivity].
Qed.

(** ** Interpolation with weights 1 and 0 *)

Lemma bilinear_still_scalar (p00 p01 p10 p11 : spec_float) :
  binary32 p00 -> binary32 p10 ->
  is_finite p01 = true -> is_finite p10 = true -> is_finite p11 = true ->
  same_value
    (fadd IEEE.arith
       (fmul IEEE.arith one32
          (fadd IEEE.arith (fmul IEEE.arith one32 p00)
                           (fmul IEEE.arith (S754_zero false) p01)))
       (fmul IEEE.arith (S754_zero false)
          (fadd IEEE.arith (fmul IEEE.arith one32 p10)
                           (fmul IEEE.arith (S754_zero false) p11))))
    p00.
Proof.
  intros V00 V10 F01 F10 F11.
  rewrite (mul_one_l p00 V00), (mul_one_l p10 V10).
  pose proof (mul_zero_l p01 (S754_zero false) F01 eq_refl) as Z1.
  pose proof (mul_zero_l p11 (S754_zero false) F11 eq_refl) as Z2.
  pose proof (add_zero_r p00 _ Z1) as S1.
  pose proof (add_zero_r p10 _ Z2) as S2.
  rewrite mul_one_l by (apply (same_value_valid _ _ S1 V00)).
  pose proof (mul_zero_l _ (S754_zero false) (same_value_finite _ _ S2 F10) eq_refl) as Z3.
  eapply same_value_trans; [apply add_zero_r; exact Z3|exact S1].
Qed.

Lemma bilinear_still_vector (p00 p01 p10 p11 : spec_float) :
  binary32 p00 ->
  is_finite p01 = true -> is_finite p10 = true -> is_finite p11 = true ->
  same_value
    (ffma IEEE.arith p11 (fmul IEEE.arith (S754_zero false) (S754_zero false))
       (ffma IEEE.arith p10 (fmul IEEE.arith (S754_zero false) one32)
          (ffma IEEE.arith p01 (fmul IEEE.arith one32 (S754_zero false))
             (fmul IEEE.arith p00 (fmul IEEE.arith one32 one32)))))
    p00.
Proof.
  intros V00 F01 F10 F11.
  change (fmul IEEE.arith one32 one32) with one32.
  rewrite (mul_one_r p00 V00).
  eapply same_value_trans; [apply fma_zero; [exact F11|reflexivity]|].
  eapply same_value_trans; [apply fma_zero; [exact F10|reflexivity]|].
  apply fma_zero; [exact F01|reflexivity].
Qed.

(** ** Coordinates *)

Lemma pow2_scale : 2 ^ scale = 2 * 2 ^ (scale - 1).
Proof. vm_compute. reflexivity. Qed.

Lemma ord32_half : ord32 (f_lit IEEE.arith 1 (-1)) = 2 ^ (scale - 1).
Proof. vm_compute. reflexivity. Qed.

Lemma ord32_three_halves : ord32 (f_lit IEEE.arith 3 (-1)) = 3 * 2 ^ (scale - 1).
Proof. vm_compute. reflexivity. Qed.

(** [maxClamp = size - 1.5f] *)
Lemma maxClamp_ord (n : Z) :
  2 <= n <= 2 ^ 23 ->
  let c := fsub IEEE.arith (f_of_int IEEE.arith n) (f_lit IEEE.arith 3 (-1)) in
  binary32 c /\ is_nan c = false /\ ord32 c = (2 * n - 3) * 2 ^ (scale - 1).
Proof.
  intros Hn. cbv zeta.
  assert (H24 : 2 ^ 24 = 2 * 2 ^ 23) by reflexivity.
  destruct (of_int_pos n ltac:(lia)) as (m & e & F1 & F2 & F3 & _).
  rewrite F1.
  change (f_lit IEEE.arith 3 (-1)) with (S754_finite false 12582912 (-23)).
  cbn [fsub IEEE.arith].
  rewrite (SFsub_finite IEEE.prec32 IEEE.emax32 scale prec32_pos emax32_gt scale32)
    by (try assumption; reflexivity).
  rewrite F3.
  change (ord32 (S754_finite false 12582912 (-23))) with (ord32 (f_lit IEEE.arith 3 (-1))).
  rewrite ord32_three_halves, pow2_scale.
  replace (n * (2 * 2 ^ (scale - 1)) - 3 * 2 ^ (scale - 1))
    with ((2 * n - 3) * 2 ^ (scale - 1)) by ring.
  assert (P : 0 < 2 ^ (scale - 1)) by (apply Z.pow_pos_nonneg; unfold scale; lia).
  destruct (sround_pos IEEE.prec32 IEEE.emax32 scale prec32_pos emax32_gt scale32
              ((2 * n - 3) * 2 ^ (scale - 1)) ltac:(nia)) as (A & B & _ & O).
  split; [exact A|]. split; [exact B|]. rewrite O.
  rewrite (rnd_exact IEEE.prec32 IEEE.emax32 scale prec32_pos emax32_gt scale32).
  - assert (T : 2 ^ 24 * 2 ^ (scale - 1) <= top32) by (vm_compute; discriminate).
    change (2 ^ IEEE.prec32) with (2 ^ 24) in *. nia.
  - change (2 ^ IEEE.prec32) with (2 ^ 24). lia.
  - vm_compute. discriminate.
Qed.

(** The clamp leaves the float of an interior coordinate alone. *)
Lemma interior_coordinate (n c : Z) :
  n <= 2 ^ 23 -> 1 <= c <= n - 2 ->
  let v := f_of_int IEEE.arith c in
  let lo := f_lit IEEE.arith 1 (-1) in
  let hi := fsub IEEE.arith (f_of_int IEEE.arith n) (f_lit IEEE.arith 3 (-1)) in
  fltb IEEE.arith v lo = false /\ fltb IEEE.arith hi v = false /\
  fltb IEEE.arith lo v = true /\ fltb IEEE.arith v hi = true.
Proof.
  intros Hn Hc. cbv zeta.
  assert (H24 : 2 ^ 24 = 2 * 2 ^ 23) by reflexivity.
  destruct (maxClamp_ord n ltac:(lia)) as (Vh & Nh & Oh). cbv zeta in Vh, Nh, Oh.
  destruct (of_int_pos c ltac:(lia)) as (m & e & F1 & F2 & F3 & _).
  rewrite F1.
  set (hi := fsub IEEE.arith (f_of_int IEEE.arith n) (f_lit IEEE.arith 3 (-1))) in *.
  assert (P : 0 < 2 ^ (scale - 1)) by (apply Z.pow_pos_nonneg; unfold scale; lia).
  pose proof pow2_scale as E2. pose proof ord32_half as Ohalf.
  cbn [fltb IEEE.arith]. unfold IEEE.ltb.
  repeat split.
  - apply (SFltb_ge IEEE.prec32 IEEE.emax32 scale prec32_pos emax32_gt scale32);
      try reflexivity; try assumption.
    rewrite F3, Ohalf, E2. nia.
  - apply (SFltb_ge IEEE.prec32 IEEE.emax32 scale prec32_pos emax32_gt scale32);
      try reflexivity; try assumption.
    rewrite F3, Oh, E2. nia.
  - apply (SFltb_lt IEEE.prec32 IEEE.emax32 scale prec32_pos emax32_gt scale32);
      try reflexivity; try assumption.
    rewrite F3, Ohalf, E2. nia.
  - apply (SFltb_lt IEEE.prec32 IEEE.emax32 scale prec32_pos emax32_gt scale32);
      try reflexivity; try assumption.
    rewrite F3, Oh, E2. nia.
Qed.

(** The column of a lane: the float of the first column plus the lane. *)
Lemma lane_coordinate (xb l : Z) :
  1 <= xb -> 0 <= l -> xb + l < 2 ^ 24 ->
  fadd IEEE.arith (f_of_int IEEE.arith xb) (f_lit IEEE.arith l 0)
  = f_of_int IEEE.arith (xb + l).
Proof.
  intros Hx Hl Hs.
  destruct (of_int_pos xb ltac:(lia)) as (m & e & F1 & F2 & F3 & _).
  destruct (Z.eq_dec l 0) as [->|Nl].
  - rewrite Z.add_0_r, F1. reflexivity.
  - destruct (of_int_pos l ltac:(lia)) as (m' & e' & G1 & G2 & G3 & _).
    change (f_lit IEEE.arith l 0) with (f_of_int IEEE.arith l).
    rewrite F1, G1. cbn [fadd IEEE.arith].
    rewrite (SFadd_finite IEEE.prec32 IEEE.emax32 scale prec32_pos emax32_gt scale32)
      by assumption.
    rewrite F3, G3.
    cbn [f_of_int IEEE.arith]. unfold IEEE.of_Z.
    rewrite (binary_normalize_correct IEEE.prec32 IEEE.emax32 scale
               prec32_pos emax32_gt scale32) by (unfold scale; lia).
    f_equal. unfold scaled. rewrite Z.add_0_l. ring.
Qed.

(** ** Advection of a cell that is not displaced *)

Lemma coordinate_still (n c : Z) (z : spec_float) :
  n <= 2 ^ 23 -> 1 <= c <= n - 2 -> zero_float z = true ->
  let v := f_of_int IEEE.arith c in
  let lo := f_lit IEEE.arith 1 (-1) in
  let hi := fsub IEEE.arith (f_of_int IEEE.arith n) (f_lit IEEE.arith 3 (-1)) in
  fsub IEEE.arith v z = v /\
  clamp IEEE.arith v lo hi = v /\
  (if fltb IEEE.arith lo v then v else lo) = v /\
  (if fltb IEEE.arith v hi then v else hi) = v /\
  int_of_f IEEE.arith v = c /\ cvt_int IEEE.arith v = c /\
  ffloor IEEE.arith v = v /\
  fsub IEEE.arith v v = S754_zero false.
Proof.
  intros Hn Hc Hz. cbv zeta.
  assert (H24 : 2 ^ 24 = 2 * 2 ^ 23) by reflexivity.
  destruct (interior_coordinate n c Hn Hc) as (C1 & C2 & C3 & C4). cbv zeta in C1, C2, C3, C4.
  destruct (of_int_ops c ltac:(lia)) as (O1 & O2 & O3).
  destruct (of_int_pos c ltac:(lia)) as (m & e & F1 & _).
  unfold clamp. rewrite C1, C2, C3, C4, O1, O2, O3.
  repeat split.
  - rewrite F1. now apply sub_zero_r.
  - rewrite F1. apply SFsub_diag.
Qed.

Lemma vec_base_ge (x : Z) : 1 <= x -> 1 <= vec_base x /\ 0 <= vec_lane x.
Proof.
  intros Hx. unfold vec_base, vec_lane.
  pose proof (Z.mod_pos_bound (x - 1) 8 ltac:(lia)).
  pose proof (Z.mod_le (x - 1) 8 ltac:(lia) ltac:(lia)). lia.
Qed.

Lemma advect_cell_still (s : FluidGrid IEEE.arith) (prevArr velX velY : block)
      (dt : spec_float) (x y : Z) :
  size s <= 2 ^ 23 ->
  1 <= x <= size s - 2 -> 1 <= y <= size s - 2 ->
  zero_float (fmul IEEE.arith (cell_at s velX x y)
                (fmul IEEE.arith dt (f_of_int IEEE.arith (size s)))) = true ->
  zero_float (fmul IEEE.arith (cell_at s velY x y)
                (fmul IEEE.arith dt (f_of_int IEEE.arith (size s)))) = true ->
  binary32 (cell_at s prevArr x y) -> binary32 (cell_at s prevArr (x + 1) y) ->
  is_finite (cell_at s prevArr x (y + 1)) = true ->
  is_finite (cell_at s prevArr (x + 1) y) = true ->
  is_finite (cell_at s prevArr (x + 1) (y + 1)) = true ->
  same_value (advect_cell s prevArr velX velY dt (x + y * size s))
             (cell_at s prevArr x y).
Proof.
  intros Hn Hx Hy Zx Zy V00 V10 F01 F10 F11.
  unfold advect_cell, cell_at in *. cbv zeta.
  rewrite cell_col, cell_row by lia.
  set (n := size s) in *.
  set (zx := fmul IEEE.arith (mem s velX (x + y * n))
                  (fmul IEEE.arith dt (f_of_int IEEE.arith n))) in *.
  set (zy := fmul IEEE.arith (mem s velY (x + y * n))
                  (fmul IEEE.arith dt (f_of_int IEEE.arith n))) in *.
  destruct (coordinate_still n x zx Hn Hx Zx) as (X1 & X2 & X3 & X4 & X5 & X6 & X7 & X8).
  destruct (coordinate_still n y zy Hn Hy Zy) as (Y1 & Y2 & Y3 & Y4 & Y5 & Y6 & Y7 & Y8).
  cbv zeta in X1, X2, X3, X4, X5, X6, X7, X8, Y1, Y2, Y3, Y4, Y5, Y6, Y7, Y8.
  destruct (x <? after_stride8 1 (n - 9)).
  - unfold advect_vector_cells, fmadd_ps, mul_ps, sub_ps, add_ps, min_ps, max_ps,
      floor_ps, cvtps_epi32, i32gather_ps, loadu_ps, set1_ps, load. cbv zeta.
    fold n.
    pose proof (vec_base_lane x) as E.
    destruct (vec_base_ge x ltac:(lia)) as [B1 B2].
    set (xb := vec_base x) in *. set (l := vec_lane x) in *.
    assert (H24 : 2 ^ 24 = 2 * 2 ^ 23) by reflexivity.
    assert (H23 : 0 < 2 ^ 23) by reflexivity.
    rewrite (lane_coordinate xb l B1 B2) by lia. rewrite E.
    replace (xb + y * n + l) with (x + y * n) by lia.
    fold zx. fold zy.
    rewrite X1, Y1, X3, Y3, X4, Y4, X7, Y7, X6, Y6, X8, Y8.
    change (fsub IEEE.arith (f_lit IEEE.arith 1 0) (S754_zero false)) with one32.
    replace (0 + (y * n + x)) with (x + y * n) by lia.
    replace (1 + (y * n + x)) with (x + 1 + y * n) by lia.
    replace (n + (y * n + x)) with (x + (y + 1) * n) by lia.
    replace (n + 1 + (y * n + x)) with (x + 1 + (y + 1) * n) by lia.
    now apply bilinear_still_vector.
  - unfold advect_scalar_cell, load. cbv zeta. fold n. fold zx. fold zy.
    rewrite X1, Y1, X2, Y2, X5, Y5, X8, Y8.
    change (fsub IEEE.arith (f_lit IEEE.arith 1 0) (S754_zero false)) with one32.
    now apply bilinear_still_scalar.
Qed.

Section Advection32.

Variable pool : Z -> list (Z * Z).

(** Advection where the transport field does not displace the interior
    cells. *)
Lemma advect_undisplaced (d : Direction) (arr prevArr velX velY : block)
      (dt : spec_float) (s : FluidGrid IEEE.arith) :
  let n := size s in
  arr <> prevArr -> arr <> velX -> arr <> velY ->
  nonempty (pool n) = true ->
  n <= 2 ^ 23 ->
  (forall x y, 1 <= x <= n - 2 -> 1 <= y <= n - 2 ->
     zero_float (fmul IEEE.arith (cell_at s velX x y)
                   (fmul IEEE.arith dt (f_of_int IEEE.arith n))) = true /\
     zero_float (fmul IEEE.arith (cell_at s velY x y)
                   (fmul IEEE.arith dt (f_of_int IEEE.arith n))) = true) ->
  (forall x y, 1 <= x <= n - 1 -> 1 <= y <= n - 1 ->
     binary32 (cell_at s prevArr x y) /\ is_finite (cell_at s prevArr x y) = true) ->
  forall x y, 1 <= x <= n - 2 -> 1 <= y <= n - 2 ->
    same_value (cell_at (advect (A:=IEEE.arith) pool d arr prevArr velX velY dt s) arr x y)
               (cell_at s prevArr x y).
Proof.
  cbv zeta. intros Hp Hvx Hvy Hne Hn Hz Hf x y Hx Hy.
  rewrite (advect_interior_cell (A:=IEEE.arith) pool d arr prevArr velX velY dt s x y)
    by assumption.
  destruct (Hz x y Hx Hy) as [Zx Zy].
  apply advect_cell_still; try assumption;
    try (apply Hf; lia).
Qed.

(** C8, amended: when the transport field is zero at every interior cell,
    dt * size is finite, the grid has at most 2^23 columns and every cell
    of the previous field is a finite float, [advect] stores at every
    interior cell of [arr] a value numerically equal to the previous
    field's value at that cell (the same float, or a zero for a zero). *)
Theorem advect_zero_velocity_identity (d : Direction)
        (arr prevArr velX velY : block) (dt : spec_float) (s : FluidGrid IEEE.arith) :
  let n := size s in
  arr <> prevArr -> arr <> velX -> arr <> velY ->
  nonempty (pool n) = true ->
  n <= 2 ^ 23 ->
  is_finite (fmul IEEE.arith dt (f_of_int IEEE.arith n)) = true ->
  (forall x y, 1 <= x <= n - 2 -> 1 <= y <= n - 2 ->
     is_zero (cell_at s velX x y) = true /\ is_zero (cell_at s velY x y) = true) ->
  (forall x y, 1 <= x <= n - 1 -> 1 <= y <= n - 1 ->
     binary32 (cell_at s prevArr x y) /\ is_finite (cell_at s prevArr x y) = true) ->
  forall x y, 1 <= x <= n - 2 -> 1 <= y <= n - 2 ->
    feqb IEEE.arith
         (cell_at (advect (A:=IEEE.arith) pool d arr prevArr velX velY dt s) arr x y)
         (cell_at s prevArr x y) = true.
Proof.
  cbv zeta. intros Hp Hvx Hvy Hne Hn Hdt Hz Hf x y Hx Hy.
  apply same_value_feq.
  - destruct (Hf x y ltac:(lia) ltac:(lia)) as [_ F].
    destruct (cell_at s prevArr x y); try discriminate; reflexivity.
  - apply advect_undisplaced; try assumption.
    intros x' y' Hx' Hy'. destruct (Hz x' y' Hx' Hy') as [Zx Zy].
    split; apply mul_zero_l; try assumption; now apply is_zero_float.
Qed.

End Advection32.

(** C8 as stated fails for a previous field that is not finite.  Grid of
    size 10, zero velocity; addDensity (5, 5, 100, 1) puts 1000 into cell
    (5,5) and addDensity (6, 5, 2^127, 1) overflows to +inf in cell (6,5).
    The interpolation at cell (5,5) multiplies its right neighbour by the
    weight 0, and 0 * inf is NaN: the cell holds NaN instead of 1000. *)
Lemma advect_zero_velocity_counterexample :
  let s := addDensity (A:=IEEE.arith) 6 5 (f_lit IEEE.arith 1 127) (f_of_int IEEE.arith 1)
             (addDensity (A:=IEEE.arith) 5 5 (f_of_int IEEE.arith 100) (f_of_int IEEE.arith 1)
                (fresh IEEE.arith 10)) in
  let s' := advect (A:=IEEE.arith) specPool NONE BPrevDensity BDensity
                   BVelocityX BVelocityY (f_of_int IEEE.arith 1) s in
  velocity_all_zero s = true /\
  cell_at s BDensity 5 5 = f_of_int IEEE.arith 1000 /\
  cell_at s BDensity 6 5 = S754_infinity false /\
  cell_at s' BPrevDensity 5 5 = S754_nan /\
  feqb IEEE.arith (cell_at s' BPrevDensity 5 5) (cell_at s BDensity 5 5) = false.
Proof. vm_compute. repeat split. Qed.

(** * Boundary conditions *)

Section Boundaries.

Context {A : Arith}.

Lemma mem_store_same (p : block) (i : Z) (w : F A) (s : FluidGrid A) :
  mem (store p i w s) p i = w.
Proof.
  rewrite mem_store. unfold at_cell. cbn [fst snd].
  now rewrite block_eqb_refl, Z.eqb_refl.
Qed.

(** A property that one turn of a loop establishes, and that every turn
    keeps once it holds, holds after the loop. *)
Lemma for_each_establish {S X : Type} (I Q : S -> Prop) (body : X -> S -> S)
      (xs : list X) (x0 : X) :
  In x0 xs ->
  (forall x s, In x xs -> I s -> I (body x s)) ->
  (forall x s, In x xs -> I s -> Q s -> Q (body x s)) ->
  (forall s, I s -> Q (body x0 s)) ->
  forall s, I s -> Q (for_each xs body s).
Proof.
  induction xs as [|x xs IH]; intros Hin HI HQ H0 s Hs; [contradiction|].
  rewrite for_each_cons. destruct Hin as [->|Hin].
  - assert (G : I (for_each xs body (body x0 s)) /\ Q (for_each xs body (body x0 s))).
    { apply (for_each_inv (fun t => I t /\ Q t)).
      - intros x s' Hx [Hi Hq]. split.
        + apply HI; [now right|exact Hi].
        + apply HQ; [now right|exact Hi|exact Hq].
      - split; [apply HI; [now left|exact Hs]|now apply H0]. }
    apply G.
  - apply IH; try assumption.
    + intros x' s' Hx'. apply HI. now right.
    + intros x' s' Hx'. apply HQ. now right.
    + apply HI; [now left|exact Hs].
Qed.

Lemma cell_neq (n c r c' r' : Z) :
  0 <= c < n -> 0 <= c' < n -> c <> c' \/ r <> r' -> c + r * n <> c' + r' * n.
Proof. intros Hc Hc' Hd E. apply cell_index_inj in E; lia. Qed.

(** Reads a cell through the stores made after it was last written. *)
Ltac read_through_stores :=
  repeat match goal with
  | |- context [mem (store ?p ?i ?w ?t) ?q ?j] =>
      first [ rewrite (store_other_cell p i w t q j) by (apply cell_neq; lia)
            | rewrite (mem_store_same p i w t) ]
  end.

Lemma setBounds_size (d : Direction) (arr : block) (s : FluidGrid A) :
  size (setBounds d arr s) = size s.
Proof.
  exact (based_on_size _ _ _ (setBounds_based s [arr] d arr s (or_introl eq_refl)
                                 (based_on_refl s [arr]))).
Qed.

(** The edge loop of [setBounds], cell by cell: every edge cell is computed
    from the interior neighbour, which the loop does not write. *)
Lemma setBounds_edge_loop (h v : bool) (arr : block) (s : FluidGrid A) (i : Z) :
  let n := size s in
  let E := for_each (upto 1 (n - 1)) (fun i s =>
    let s := store arr (0 + i * n) (neg_if A h (load s arr (1 + i * n))) s in
    let s := store arr ((n - 1) + i * n) (neg_if A h (load s arr ((n - 2) + i * n))) s in
    let s := store arr (i + 0 * n) (neg_if A v (load s arr (i + 1 * n))) s in
    store arr (i + (n - 1) * n) (neg_if A v (load s arr (i + (n - 2) * n))) s) s in
  1 <= i <= n - 2 ->
  mem E arr (0 + i * n) = neg_if A h (mem s arr (1 + i * n)) /\
  mem E arr ((n - 1) + i * n) = neg_if A h (mem s arr ((n - 2) + i * n)) /\
  mem E arr (i + 0 * n) = neg_if A v (mem s arr (i + 1 * n)) /\
  mem E arr (i + (n - 1) * n) = neg_if A v (mem s arr (i + (n - 2) * n)).
Proof.
  cbv zeta. intros Hi. set (n := size s) in *.
  set (I := fun t : FluidGrid A =>
              forall x y, 1 <= x <= n - 2 -> 1 <= y <= n - 2 ->
                          mem t arr (x + y * n) = mem s arr (x + y * n)).
  match goal with
  | |- mem (for_each _ ?b _) _ _ = _ /\ _ => set (body := b)
  end.
  assert (HI : forall i' t, In i' (upto 1 (n - 1)) -> I t -> I (body i' t)).
  { intros i' t Hi' Ht x y Hx Hy. apply In_upto in Hi'. unfold body.
    read_through_stores. now apply Ht. }
  assert (H0 : I s) by (intros x y _ _; reflexivity).
  assert (Hin : In i (upto 1 (n - 1))) by (apply In_upto; lia).
  repeat split.
  all: match goal with
       | |- mem _ _ ?j = ?r =>
           refine (for_each_establish I (fun t => mem t arr j = r) body _ i
                     Hin HI _ _ s H0)
       end.
  all: try (intros i' t Hi' Ht Hq; apply In_upto in Hi';
            destruct (Z.eq_dec i' i) as [->|Hne];
            [clear Hq|unfold body; read_through_stores; exact Hq]).
  all: try (intros t Ht).
  all: unfold body, load; read_through_stores; rewrite Ht by lia; reflexivity.
Qed.

(** The edge cells after [setBounds], from the interior it started with. *)
Lemma setBounds_edge_cells (d : Direction) (arr : block) (s : FluidGrid A) (i : Z) :
  let n := size s in
  let s' := setBounds d arr s in
  1 <= i <= n - 2 ->
  mem s' arr (0 + i * n) = neg_if A (is_horizontal d) (mem s arr (1 + i * n)) /\
  mem s' arr ((n - 1) + i * n)
  = neg_if A (is_horizontal d) (mem s arr ((n - 2) + i * n)) /\
  mem s' arr (i + 0 * n) = neg_if A (is_vertical d) (mem s arr (i + 1 * n)) /\
  mem s' arr (i + (n - 1) * n)
  = neg_if A (is_vertical d) (mem s arr (i + (n - 2) * n)).
Proof.
  cbv zeta. intros Hi.
  pose proof (setBounds_edge_loop (is_horizontal d) (is_vertical d) arr s i) as H.
  cbv zeta in H. specialize (H Hi). destruct H as (H1 & H2 & H3 & H4).
  unfold setBounds. cbv zeta.
  repeat split; read_through_stores; assumption.
Qed.

(** The corner cells after [setBounds], from the edge cells beside them. *)
Lemma setBounds_corner_cells (d : Direction) (arr : block) (s : FluidGrid A) :
  let n := size s in
  let s' := setBounds d arr s in
  let half := f_lit A 1 (-1) in
  3 <= n ->
  mem s' arr (0 + 0 * n)
  = fmul A half (fadd A (mem s' arr (1 + 0 * n)) (mem s' arr (0 + 1 * n))) /\
  mem s' arr ((n - 1) + 0 * n)
  = fmul A half (fadd A (mem s' arr ((n - 2) + 0 * n))
                        (mem s' arr ((n - 1) + 1 * n))) /\
  mem s' arr (0 + (n - 1) * n)
  = fmul A half (fadd A (mem s' arr (0 + (n - 2) * n))
                        (mem s' arr (1 + (n - 1) * n))) /\
  mem s' arr ((n - 1) + (n - 1) * n)
  = fmul A half (fadd A (mem s' arr ((n - 2) + (n - 1) * n))
                        (mem s' arr ((n - 1) + (n - 2) * n))).
Proof.
  cbv zeta. intros Hn. unfold setBounds. cbv zeta. unfold load.
  set (E := for_each _ _ s).
  repeat split; read_through_stores; reflexivity.
Qed.

(** X1: after [setBounds direction arr], every cell of the left and right
    edge holds the value of its interior neighbour in the same row, negated
    when the direction is HORIZONTAL, and every cell of the top and bottom
    edge holds the value of its interior neighbour in the same column,
    negated when the direction is VERTICAL. *)
Theorem setBounds_mirrors_edges (d : Direction) (arr : block) (s : FluidGrid A)
        (i : Z) :
  let n := size s in
  let s' := setBounds d arr s in
  1 <= i <= n - 2 ->
  cell_at s' arr 0 i = neg_if A (is_horizontal d) (cell_at s' arr 1 i) /\
  cell_at s' arr (n - 1) i = neg_if A (is_horizontal d) (cell_at s' arr (n - 2) i) /\
  cell_at s' arr i 0 = neg_if A (is_vertical d) (cell_at s' arr i 1) /\
  cell_at s' arr i (n - 1) = neg_if A (is_vertical d) (cell_at s' arr i (n - 2)).
Proof.
  cbv zeta. intros Hi. unfold cell_at. rewrite setBounds_size.
  destruct (setBounds_edge_cells d arr s i Hi) as (H1 & H2 & H3 & H4).
  rewrite (setBounds_interior d arr s arr 1 i),
          (setBounds_interior d arr s arr (size s - 2) i),
          (setBounds_interior d arr s arr i 1),
          (setBounds_interior d arr s arr i (size s - 2)) by lia.
  repeat split; assumption.
Qed.

(** X2: on a grid of size at least 3, [setBounds] leaves in every corner
    half the sum of the two edge cells next to it. *)
Theorem setBounds_averages_corners (d : Direction) (arr : block) (s : FluidGrid A) :
  let n := size s in
  let s' := setBounds d arr s in
  let half := f_lit A 1 (-1) in
  3 <= n ->
  cell_at s' arr 0 0
  = fmul A half (fadd A (cell_at s' arr 1 0) (cell_at s' arr 0 1)) /\
  cell_at s' arr (n - 1) 0
  = fmul A half (fadd A (cell_at s' arr (n - 2) 0) (cell_at s' arr (n - 1) 1)) /\
  cell_at s' arr 0 (n - 1)
  = fmul A half (fadd A (cell_at s' arr 0 (n - 2)) (cell_at s' arr 1 (n - 1))) /\
  cell_at s' arr (n - 1) (n - 1)
  = fmul A half (fadd A (cell_at s' arr (n - 2) (n - 1))
                        (cell_at s' arr (n - 1) (n - 2))).
Proof.
  cbv zeta. intros Hn. unfold cell_at. rewrite setBounds_size.
  exact (setBounds_corner_cells d arr s Hn).
Qed.

(** Applying [setBounds] to its own result: the edges. *)
Lemma setBounds_twice_edges (d : Direction) (arr : block) (s : FluidGrid A) (i : Z) :
  let n := size s in
  let s1 := setBounds d arr s in
  let s2 := setBounds d arr s1 in
  1 <= i <= n - 2 ->
  mem s2 arr (0 + i * n) = mem s1 arr (0 + i * n) /\
  mem s2 arr ((n - 1) + i * n) = mem s1 arr ((n - 1) + i * n) /\
  mem s2 arr (i + 0 * n) = mem s1 arr (i + 0 * n) /\
  mem s2 arr (i + (n - 1) * n) = mem s1 arr (i + (n - 1) * n).
Proof.
  cbv zeta. intros Hi.
  destruct (setBounds_edge_cells d arr s i Hi) as (H1 & H2 & H3 & H4).
  pose proof (setBounds_edge_cells d arr (setBounds d arr s) i) as H.
  cbv zeta in H. rewrite setBounds_size in H.
  destruct (H Hi) as (G1 & G2 & G3 & G4).
  rewrite (setBounds_interior d arr s arr 1 i) in G1 by lia.
  rewrite (setBounds_interior d arr s arr (size s - 2) i) in G2 by lia.
  rewrite (setBounds_interior d arr s arr i 1) in G3 by lia.
  rewrite (setBounds_interior d arr s arr i (size s - 2)) in G4 by lia.
  repeat split; congruence.
Qed.

(** X3: [setBounds] is idempotent on the grid: on a grid of size at least
    3, a second application with the same direction leaves every cell of
    the buffer as the first one left it. *)
Theorem setBounds_idempotent (d : Direction) (arr : block) (s : FluidGrid A)
        (x y : Z) :
  let n := size s in
  let s1 := setBounds d arr s in
  3 <= n -> 0 <= x <= n - 1 -> 0 <= y <= n - 1 ->
  cell_at (setBounds d arr s1) arr x y = cell_at s1 arr x y.
Proof.
  cbv zeta. intros Hn Hx Hy. unfold cell_at. rewrite !setBounds_size.
  set (n := size s) in *.
  pose proof (setBounds_corner_cells d arr (setBounds d arr s)) as C2.
  pose proof (setBounds_corner_cells d arr s) as C1.
  cbv zeta in C1, C2. rewrite setBounds_size in C2. fold n in C1, C2.
  specialize (C1 Hn). specialize (C2 Hn).
  destruct C1 as (A1 & A2 & A3 & A4). destruct C2 as (B1 & B2 & B3 & B4).
  assert (E : forall i, 1 <= i <= n - 2 ->
            mem (setBounds d arr (setBounds d arr s)) arr (0 + i * n)
            = mem (setBounds d arr s) arr (0 + i * n) /\
            mem (setBounds d arr (setBounds d arr s)) arr ((n - 1) + i * n)
            = mem (setBounds d arr s) arr ((n - 1) + i * n) /\
            mem (setBounds d arr (setBounds d arr s)) arr (i + 0 * n)
            = mem (setBounds d arr s) arr (i + 0 * n) /\
            mem (setBounds d arr (setBounds d arr s)) arr (i + (n - 1) * n)
            = mem (setBounds d arr s) arr (i + (n - 1) * n)).
  { intros i Hi. exact (setBounds_twice_edges d arr s i Hi). }
  destruct (E 1 ltac:(lia)) as (E1 & E2 & E3 & E4).
  destruct (E (n - 2) ltac:(lia)) as (F1 & F2 & F3 & F4).
  assert (Cx : x = 0 \/ x = n - 1 \/ 1 <= x <= n - 2) by lia.
  assert (Cy : y = 0 \/ y = n - 1 \/ 1 <= y <= n - 2) by lia.
  destruct Cx as [->|[->|Cx]]; destruct Cy as [->|[->|Cy]].
  - rewrite B1, A1. now rewrite E3, E1.
  - rewrite B3, A3. now rewrite F1, E4.
  - apply (E y Cy).
  - rewrite B2, A2. now rewrite F3, E2.
  - rewrite B4, A4. now rewrite F4, F2.
  - apply (E y Cy).
  - apply (E x Cx).
  - apply (E x Cx).
  - pose proof (setBounds_interior d arr (setBounds d arr s) arr x y) as H.
    rewrite setBounds_size in H. exact (H Cx Cy).
Qed.

(** X4: [setBounds] writes into the boundary ring of [arr] and nowhere
    else: the size, the pointer members and the other blocks are kept, and
    so is every interior cell of [arr]. *)
Theorem setBounds_frame (d : Direction) (arr : block) (s : FluidGrid A) :
  let s' := setBounds d arr s in
  based_on s [arr] s' /\
  forall x y, 1 <= x <= size s - 2 -> 1 <= y <= size s - 2 ->
    cell_at s' arr x y = cell_at s arr x y.
Proof.
  cbv zeta. split.
  - apply setBounds_based; [now left|apply based_on_refl].
  - intros x y Hx Hy. unfold cell_at. rewrite setBounds_size.
    now apply setBounds_interior.
Qed.

End Boundaries.

(** * The columns of a kernel row *)

Lemma upto_app (lo mid hi : Z) :
  lo <= mid <= hi -> upto lo mid ++ upto mid hi = upto lo hi.
Proof.
  intros H. unfold upto.
  replace (Z.to_nat (hi - lo)) with (Z.to_nat (mid - lo) + Z.to_nat (hi - mid))%nat by lia.
  rewrite seq_app, map_app. f_equal. cbn [Nat.add].
  assert (G : forall b o,
            map (fun k => mid + Z.of_nat k) (seq o b)
            = map (fun k => lo + Z.of_nat k) (seq (o + Z.to_nat (mid - lo)) b)).
  { induction b as [|b IH]; intros o; [reflexivity|].
    cbn [seq map]. f_equal; [lia|]. exact (IH (S o)). }
  exact (G _ 0%nat).
Qed.

Lemma upto_empty (lo hi : Z) : hi <= lo -> upto lo hi = [].
Proof. intros H. unfold upto. now replace (Z.to_nat (hi - lo)) with 0%nat by lia. Qed.

(** The strided loop with its eight lanes visits the columns from [lo] up
    to where the remainder loop takes over. *)
Lemma stride8_columns (lo hi : Z) :
  flat_map (fun x => map (fun l => x + l) lanes) (stride8 lo hi)
  = upto lo (after_stride8 lo hi).
Proof.
  unfold after_stride8, stride8. rewrite length_map, length_seq.
  induction (Z.to_nat ((hi - lo + 7) / 8)) as [|m IH].
  - cbn. rewrite upto_empty by lia. reflexivity.
  - rewrite seq_S, map_app, flat_map_app, IH. cbn [map flat_map Nat.add app lanes].
    rewrite <- (upto_app lo (lo + 8 * Z.of_nat m) (lo + 8 * Z.of_nat (S m))) by lia.
    f_equal. unfold upto.
    replace (Z.to_nat (lo + 8 * Z.of_nat (S m) - (lo + 8 * Z.of_nat m))) with 8%nat by lia.
    cbn [seq map]. repeat (f_equal; try lia).
Qed.

(** X5: in every kernel the strided loop, eight lanes at a time, and the
    remainder loop after it visit the columns 1, 2, ..., size - 2 of a row,
    each of them once and in this order, for every grid size. *)
Theorem row_loops_visit_interior_once (n : Z) : row_columns n = upto 1 (n - 1).
Proof.
  unfold row_columns. rewrite stride8_columns.
  pose proof (after_stride8_bounds 1 (n - 9)) as (Ha & Hb & Hc & _).
  destruct (Z_lt_le_dec (n - 9) 1) as [Hs|Hs].
  - rewrite Hc by lia. rewrite (upto_empty 1 1) by lia. reflexivity.
  - apply upto_app. lia.
Qed.

(** * The rows a kernel writes *)

Section KernelFrames.

Context {A : Arith}.

Lemma in_rows_cell (n a b x y : Z) :
  a <= y < b -> 1 <= x <= n - 2 -> in_rows n a b (x + y * n) = true.
Proof.
  intros Hy Hx. unfold in_rows. rewrite cell_col, cell_row by lia.
  rewrite !andb_true_iff, !Z.leb_le, Z.ltb_lt. lia.
Qed.

Lemma rows_only_refl (s0 : FluidGrid A) (ts : list block) (a b : Z) :
  rows_only s0 ts a b s0.
Proof. split; [apply based_on_refl|reflexivity]. Qed.

Lemma rows_only_store (s0 : FluidGrid A) (ts : list block) (a b : Z)
      (p : block) (x y : Z) (w : F A) (t : FluidGrid A) :
  In p ts -> a <= y < b -> 1 <= x <= size s0 - 2 ->
  rows_only s0 ts a b t -> rows_only s0 ts a b (store p (x + y * size s0) w t).
Proof.
  intros Hp Hy Hx [Hb Hm]. split; [now apply based_on_store|].
  intros q j Hj. rewrite store_other_cell; [now apply Hm|].
  intros E. subst j. rewrite in_rows_cell in Hj by assumption. discriminate.
Qed.

Lemma rows_only_storeu (s0 : FluidGrid A) (ts : list block) (a b : Z)
      (p : block) (x y : Z) (v : Z -> F A) (t : FluidGrid A) :
  In p ts -> a <= y < b -> In x (stride8 1 (size s0 - 9)) ->
  rows_only s0 ts a b t -> rows_only s0 ts a b (storeu_ps p (x + y * size s0) v t).
Proof.
  intros Hp Hy Hx Ht. unfold storeu_ps.
  apply (for_each_inv (rows_only s0 ts a b)); [|exact Ht].
  intros l t' Hl Ht'.
  destruct (stride8_lane _ _ _ Hx Hl) as (_ & _ & _ & Hr).
  replace (x + y * size s0 + l) with ((x + l) + y * size s0) by lia.
  apply rows_only_store; try assumption. lia.
Qed.

(** A kernel: for every row of the range, the strided loop and then the
    remainder loop. *)
Lemma rows_only_kernel (s0 : FluidGrid A) (ts : list block) (a b : Z)
      (vbody sbody : Z -> Z -> FluidGrid A -> FluidGrid A) :
  (forall y x t, a <= y < b -> In x (stride8 1 (size s0 - 9)) ->
     rows_only s0 ts a b t -> rows_only s0 ts a b (vbody y x t)) ->
  (forall y x t, a <= y < b -> 1 <= x <= size s0 - 2 ->
     rows_only s0 ts a b t -> rows_only s0 ts a b (sbody y x t)) ->
  rows_only s0 ts a b
    (for_each (upto a b) (fun y s =>
       let s := for_each (stride8 1 (size s0 - 9)) (vbody y) s in
       for_each (upto (after_stride8 1 (size s0 - 9)) (size s0 - 1)) (sbody y) s)
       s0).
Proof.
  intros Hv Hs.
  apply (for_each_inv (rows_only s0 ts a b)); [|apply rows_only_refl].
  intros y t Hy Ht. apply In_upto in Hy. cbv zeta.
  apply (for_each_inv (rows_only s0 ts a b)).
  - intros x t' Hx Ht'. apply In_upto in Hx.
    pose proof (after_stride8_bounds 1 (size s0 - 9)) as (Hlo & _).
    apply Hs; [exact Hy|lia|exact Ht'].
  - apply (for_each_inv (rows_only s0 ts a b)); [|exact Ht].
    intros x t' Hx Ht'. now apply Hv.
Qed.

Lemma rows_only_members (s0 : FluidGrid A) (ts : list block) (a b : Z)
      (t : FluidGrid A) :
  rows_only s0 ts a b t ->
  tmp t = tmp s0 /\ velocityX t = velocityX s0 /\ velocityY t = velocityY s0.
Proof.
  intros [(F1 & T1 & _) _]. destruct F1 as (_ & _ & _ & X & _ & Y & _).
  repeat split; assumption.
Qed.

(** X6: [linearSolveLoop] on the row range [startIndex, endIndex) writes
    into the scratch block only, and there only into the interior columns
    of the rows of its range. *)
Theorem linearSolveLoop_writes_its_rows (startIndex endIndex : Z)
        (arr prevArr : block) (k : F A) (_k : Z -> F A) (r : F A) (_r : Z -> F A)
        (s : FluidGrid A) :
  rows_only s [tmp s] startIndex endIndex
            (linearSolveLoop startIndex endIndex arr prevArr k _k r _r s).
Proof.
  unfold linearSolveLoop. cbv zeta.
  apply (rows_only_kernel s [tmp s] startIndex endIndex
           (fun y x t => storeu_ps (tmp t) (x + y * size s)
                           (linearSolve_vector_cells t arr prevArr _k _r x y) t)
           (fun y x t => store (tmp t) (x + y * size s)
                           (linearSolve_scalar_cell t arr prevArr k r x y) t)).
  - intros y x t Hy Hx Ht. destruct (rows_only_members _ _ _ _ _ Ht) as (-> & _).
    apply rows_only_storeu; try assumption. now left.
  - intros y x t Hy Hx Ht. destruct (rows_only_members _ _ _ _ _ Ht) as (-> & _).
    apply rows_only_store; try assumption. now left.
Qed.

(** X7: [projectHeightMapLoop] on the row range [startIndex, endIndex)
    writes into [div] and [p] only, and there only into the interior
    columns of the rows of its range. *)
Theorem projectHeightMapLoop_writes_its_rows (startIndex endIndex : Z)
        (velX velY p div : block) (s : FluidGrid A) :
  rows_only s [div; p] startIndex endIndex
            (projectHeightMapLoop startIndex endIndex velX velY p div s).
Proof.
  unfold projectHeightMapLoop. cbv zeta.
  apply (rows_only_kernel s [div; p] startIndex endIndex
           (fun y x t =>
              storeu_ps p (x + y * size s) (set1_ps A (f_lit A 0 0))
                (storeu_ps div (x + y * size s)
                   (heightMap_vector_cells t velX velY
                      (set1_ps A (fdiv A (f_lit A 1 0) (f_of_int A (size s))))
                      (set1_ps A (f_lit A (-1) (-1))) x y) t))
           (fun y x t =>
              store p (x + y * size s) (f_of_int A 0)
                (store div (x + y * size s)
                   (heightMap_scalar_cell t velX velY
                      (fdiv A (f_lit A 1 0) (f_of_int A (size s))) x y) t))).
  - intros y x t Hy Hx Ht.
    apply rows_only_storeu; try assumption; [right; now left|].
    apply rows_only_storeu; try assumption. now left.
  - intros y x t Hy Hx Ht.
    apply rows_only_store; try assumption; [right; now left|].
    apply rows_only_store; try assumption. now left.
Qed.

(** X8: [projectMassConservLoop] on the row range [startIndex, endIndex)
    writes into the blocks of the members [velocityX] and [velocityY]
    only, whatever pointers it is given, and there only into the interior
    columns of the rows of its range. *)
Theorem projectMassConservLoop_writes_its_rows (startIndex endIndex : Z)
        (p div : block) (s : FluidGrid A) :
  rows_only s [velocityX s; velocityY s] startIndex endIndex
            (projectMassConservLoop startIndex endIndex p div s).
Proof.
  unfold projectMassConservLoop. cbv zeta.
  set (R := rows_only s [velocityX s; velocityY s] startIndex endIndex).
  assert (Sx : forall y x w t, startIndex <= y < endIndex -> 1 <= x <= size s - 2 ->
                 R t -> R (store (velocityX t) (x + y * size s) w t)).
  { intros y x w t Hy Hx Ht. destruct (rows_only_members _ _ _ _ _ Ht) as (_ & -> & _).
    apply rows_only_store; try assumption. now left. }
  assert (Sy : forall y x w t, startIndex <= y < endIndex -> 1 <= x <= size s - 2 ->
                 R t -> R (store (velocityY t) (x + y * size s) w t)).
  { intros y x w t Hy Hx Ht. destruct (rows_only_members _ _ _ _ _ Ht) as (_ & _ & ->).
    apply rows_only_store; try assumption. right; now left. }
  assert (Ux : forall y x v t, startIndex <= y < endIndex ->
                 In x (stride8 1 (size s - 9)) ->
                 R t -> R (storeu_ps (velocityX t) (x + y * size s) v t)).
  { intros y x v t Hy Hx Ht. destruct (rows_only_members _ _ _ _ _ Ht) as (_ & -> & _).
    apply rows_only_storeu; try assumption. now left. }
  assert (Uy : forall y x v t, startIndex <= y < endIndex ->
                 In x (stride8 1 (size s - 9)) ->
                 R t -> R (storeu_ps (velocityY t) (x + y * size s) v t)).
  { intros y x v t Hy Hx Ht. destruct (rows_only_members _ _ _ _ _ Ht) as (_ & _ & ->).
    apply rows_only_storeu; try assumption. right; now left. }
  apply (for_each_inv R); [|apply rows_only_refl].
  intros y t Hy Ht. apply In_upto in Hy.
  apply (for_each_inv R).
  - intros x t' Hx Ht'. apply In_upto in Hx.
    pose proof (after_stride8_bounds 1 (size s - 9)) as (Hlo & _).
    apply Sy; [exact Hy|lia|]. apply Sx; [exact Hy|lia|exact Ht'].
  - apply (for_each_inv R); [|exact Ht].
    intros x t' Hx Ht'. apply Uy; try assumption. now apply Ux.
Qed.

End KernelFrames.

(** * Kernels that update cells in place *)

Section InPlace.

Context {A : Arith}.

Lemma maps_seq (R : FluidGrid A -> Prop) (g : cell -> F A -> F A) f f' c1 c2 :
  (forall k, c1 k = true -> c2 k = true -> False) ->
  maps_as R g f c1 -> maps_as R g f' c2 ->
  maps_as R g (fun s => f' (f s)) (fun k => c1 k || c2 k).
Proof.
  intros Hd Hf Hg s Hs. destruct (Hf s Hs) as [Rf Mf].
  destruct (Hg (f s) Rf) as [Rg Mg]. split; [exact Rg|].
  intros q j. rewrite Mg, Mf.
  destruct (c1 (q, j)) eqn:E1, (c2 (q, j)) eqn:E2; try reflexivity.
  exfalso. exact (Hd _ E1 E2).
Qed.

Lemma maps_store_at (R : FluidGrid A -> Prop) (g : cell -> F A -> F A)
      (p : FluidGrid A -> block) (p0 : block) (i : Z) (v : FluidGrid A -> F A) :
  (forall s, R s -> p s = p0) ->
  (forall s w, R s -> R (store p0 i w s)) ->
  (forall s, R s -> v s = g (p0, i) (mem s p0 i)) ->
  maps_as R g (fun s => store (p s) i (v s) s) (at_cell p0 i).
Proof.
  intros Hp HR Hv s Hs. rewrite (Hp s Hs). split; [now apply HR|].
  intros q j. rewrite mem_store.
  destruct (at_cell p0 i (q, j)) eqn:E; [|reflexivity].
  apply at_cell_true in E. destruct E as [-> ->]. now apply Hv.
Qed.

Lemma mem_lane_stores (p : block) (i : Z) (w : Z -> F A) (X : F A) (q : block) (j : Z)
      (ls : list Z) (s : FluidGrid A) :
  (forall l, In l ls -> at_cell p (i + l) (q, j) = true -> w l = X) ->
  mem (for_each ls (fun l acc => store p (i + l) (w l) acc) s) q j
  = if existsb (fun l => at_cell p (i + l) (q, j)) ls then X else mem s q j.
Proof.
  revert s. induction ls as [|l ls IH]; intros s Hw; [reflexivity|].
  rewrite for_each_cons, IH by (intros l' Hl'; apply Hw; now right).
  rewrite mem_store. cbn [existsb].
  destruct (at_cell p (i + l) (q, j)) eqn:E.
  - rewrite (Hw l (or_introl eq_refl) E). cbn [orb].
    now destruct (existsb _ ls).
  - reflexivity.
Qed.

Lemma maps_storeu_at (R : FluidGrid A -> Prop) (g : cell -> F A -> F A)
      (p : FluidGrid A -> block) (p0 : block) (i : Z) (v : FluidGrid A -> Z -> F A) :
  (forall s, R s -> p s = p0) ->
  (forall s j w, R s -> R (store p0 j w s)) ->
  (forall s l, R s -> In l lanes -> v s l = g (p0, i + l) (mem s p0 (i + l))) ->
  maps_as R g (fun s => storeu_ps (p s) i (v s) s)
          (fun k => existsb (fun l => at_cell p0 (i + l) k) lanes).
Proof.
  intros Hp HR Hv s Hs. rewrite (Hp s Hs). split.
  - unfold storeu_ps. apply (for_each_inv R); [|exact Hs].
    intros l t _ Ht. now apply HR.
  - intros q j. unfold storeu_ps.
    apply (mem_lane_stores p0 i (v s) (g (q, j) (mem s q j)) q j lanes s).
    intros l Hl E. apply at_cell_true in E. destruct E as [-> ->].
    now apply Hv.
Qed.

Lemma NoDup_stride8 (lo hi : Z) : NoDup (stride8 lo hi).
Proof.
  unfold stride8. apply Injective_map_NoDup; [|apply seq_NoDup].
  intros a b H. lia.
Qed.

Lemma at_index_true (tb : block -> bool) (i : Z) (k : cell) :
  at_index tb i k = true -> snd k = i.
Proof.
  unfold at_index. rewrite andb_true_iff, Z.eqb_eq. tauto.
Qed.

(** A row of a kernel that updates cells in place. *)
Lemma row_maps (R : FluidGrid A -> Prop) (g : cell -> F A -> F A)
      (tb : block -> bool) (n y : Z)
      (vbody sbody : Z -> FluidGrid A -> FluidGrid A) :
  (forall x, In x (stride8 1 (n - 9)) ->
     maps_as R g (vbody x)
             (fun k => existsb (fun l => at_index tb (x + y * n + l) k) lanes)) ->
  (forall x, In x (upto (after_stride8 1 (n - 9)) (n - 1)) ->
     maps_as R g (sbody x) (at_index tb (x + y * n))) ->
  maps_as R g
          (fun s => for_each (upto (after_stride8 1 (n - 9)) (n - 1)) sbody
                      (for_each (stride8 1 (n - 9)) vbody s))
          (fun k => tb (fst k) && in_row n y (snd k)).
Proof.
  intros Hv Hs.
  assert (Lv : forall x k, In x (stride8 1 (n - 9)) ->
             existsb (fun l => at_index tb (x + y * n + l) k) lanes = true ->
             vec_base (snd k - y * n) = x /\ snd k - y * n < after_stride8 1 (n - 9)).
  { intros x k Hx E. apply existsb_exists in E. destruct E as [l [Hl E]].
    apply at_index_true in E.
    destruct (stride8_lane _ _ _ Hx Hl) as (Hb & _ & Hlt & _).
    replace (snd k - y * n) with (x + l) by lia. split; assumption. }
  pose proof (maps_for_each R g vbody
                (fun x k => existsb (fun l => at_index tb (x + y * n + l) k) lanes)
                (stride8 1 (n - 9)) (NoDup_stride8 _ _)) as H1.
  pose proof (maps_for_each R g sbody (fun x k => at_index tb (x + y * n) k)
                (upto (after_stride8 1 (n - 9)) (n - 1)) (NoDup_upto _ _)) as H2.
  assert (G1 := H1 ltac:(intros x x' k Hx Hx' E E';
                           destruct (Lv x k Hx E) as [<- _];
                           destruct (Lv x' k Hx' E') as [<- _]; reflexivity) Hv).
  assert (G2 := H2 ltac:(intros x x' k Hx Hx' E E';
                           apply at_index_true in E; apply at_index_true in E'; lia) Hs).
  clear H1 H2.
  eapply maps_ext; cycle 1.
  - refine (maps_seq R g _ _ _ _ _ G1 G2). intros k E1 E2.
    apply existsb_exists in E1. destruct E1 as [x [Hx E1]].
    apply existsb_exists in E2. destruct E2 as [x' [Hx' E2]].
    destruct (Lv x k Hx E1) as [_ Hlt].
    apply at_index_true in E2. apply In_upto in Hx'. lia.
  - intros [q j]. cbv beta. unfold at_index. cbn [fst snd].
    rewrite <- row_cover, andb_orb_distrib_r.
    rewrite <- !existsb_andb_const'. f_equal.
    apply existsb_pointwise. intros x. now rewrite existsb_andb_const'.
Qed.

(** The rows of one chunk, updated in place. *)
Lemma rows_maps (R : FluidGrid A -> Prop) (g : cell -> F A -> F A)
      (tb : block -> bool) (n a b : Z)
      (rbody : Z -> FluidGrid A -> FluidGrid A) :
  (forall y, In y (upto a b) ->
     maps_as R g (rbody y) (fun k => tb (fst k) && in_row n y (snd k))) ->
  maps_as R g (for_each (upto a b) rbody)
          (fun k => tb (fst k) && in_rows n a b (snd k)).
Proof.
  intros H.
  eapply maps_ext;
    [|apply (maps_for_each R g rbody
               (fun y k => tb (fst k) && in_row n y (snd k)) (upto a b)
               (NoDup_upto _ _))].
  - intros [q j]. cbv beta. cbn [fst snd].
    rewrite existsb_andb_const'. now rewrite rows_cover.
  - intros y y' [q j] _ _ H1 H2. cbn [fst snd] in *.
    apply andb_true_iff in H1. apply andb_true_iff in H2.
    eapply in_row_unique; [apply H1|apply H2].
  - exact H.
Qed.

Lemma projectMassConservLoop_maps (s0 : FluidGrid A) (p div : block) (a b : Z) :
  p <> velocityX s0 -> p <> velocityY s0 -> velocityX s0 <> velocityY s0 ->
  maps_as (based_on s0 [velocityX s0; velocityY s0])
          (fun k v => massConserv_cell s0 p (block_eqb (fst k) (velocityX s0)) (snd k) v)
          (projectMassConservLoop a b p div)
          (fun k => (block_eqb (fst k) (velocityX s0) || block_eqb (fst k) (velocityY s0))
                    && in_rows (size s0) a b (snd k)).
Proof.
  intros Hpx Hpy Hxy s Hs. unfold projectMassConservLoop. cbv zeta.
  rewrite (based_on_size _ _ _ Hs).
  set (vx := velocityX s0) in *. set (vy := velocityY s0) in *.
  set (R := based_on s0 [vx; vy]).
  set (g := fun (k : cell) (v : F A) =>
              massConserv_cell s0 p (block_eqb (fst k) vx) (snd k) v).
  set (tb := fun q => block_eqb q vx || block_eqb q vy).
  assert (HR : forall q t j w, In q [vx; vy] -> R t -> R (store q j w t)).
  { intros q t j w Hq Ht. now apply based_on_store. }
  assert (Fx : forall t, R t -> velocityX t = vx).
  { intros t (F1 & _). destruct F1 as (_ & _ & _ & E & _). exact E. }
  assert (Fy : forall t, R t -> velocityY t = vy).
  { intros t (F1 & _). destruct F1 as (_ & _ & _ & _ & _ & E & _). exact E. }
  assert (Dxy : forall i i' k, at_cell vx i k = true -> at_cell vy i' k = true -> False).
  { intros i i' [q j] E1 E2. apply at_cell_true in E1. apply at_cell_true in E2.
    destruct E1 as [E1 _]. destruct E2 as [E2 _]. congruence. }
  refine (rows_maps R g tb (size s0) a b _ _ s Hs).
  clear s Hs. intros y Hy.
  apply (row_maps R g tb).
  - intros x Hx.
    assert (H1 : maps_as R g
              (fun s => storeu_ps (velocityX s) (x + y * size s0)
                 (fmadd_ps A
                    (mul_ps A (sub_ps A (loadu_ps s p ((x - 1) + y * size s0))
                                        (loadu_ps s p ((x + 1) + y * size s0)))
                              (set1_ps A (f_of_int A (size s0))))
                    (set1_ps A (f_lit A (-1) (-1)))
                    (loadu_ps s (velocityX s) (x + y * size s0))) s)
              (fun k => existsb (fun l => at_cell vx (x + y * size s0 + l) k) lanes)).
    { apply maps_storeu_at.
      - exact Fx.
      - intros s j w Hs. apply HR; [now left|exact Hs].
      - intros s l Hs Hl. unfold g. cbn [fst snd]. rewrite block_eqb_refl.
        unfold massConserv_cell. cbv zeta.
        destruct (stride8_lane _ _ _ Hx Hl) as (Hb & Hlane & Hlt & Hr).
        replace (x + y * size s0 + l) with ((x + l) + y * size s0) by lia.
        rewrite cell_col, cell_row by lia.
        rewrite (proj2 (Z.ltb_lt _ _) Hlt).
        unfold fmadd_ps, mul_ps, sub_ps, loadu_ps, set1_ps. rewrite (Fx s Hs).
        rewrite !(based_on_mem s0 _ s p _ Hs) by (simpl; intuition congruence). unfold load.
        replace (x - 1 + y * size s0 + l) with (x + l - 1 + y * size s0) by lia.
        replace (x + 1 + y * size s0 + l) with (x + l + 1 + y * size s0) by lia.
        replace (x + y * size s0 + l) with (x + l + y * size s0) by lia.
        reflexivity. }
    assert (H2 : maps_as R g
              (fun s => storeu_ps (velocityY s) (x + y * size s0)
                 (fmadd_ps A
                    (mul_ps A (sub_ps A (loadu_ps s p (x + (y - 1) * size s0))
                                        (loadu_ps s p (x + (y + 1) * size s0)))
                              (set1_ps A (f_of_int A (size s0))))
                    (set1_ps A (f_lit A (-1) (-1)))
                    (loadu_ps s (velocityY s) (x + y * size s0))) s)
              (fun k => existsb (fun l => at_cell vy (x + y * size s0 + l) k) lanes)).
    { apply maps_storeu_at.
      - exact Fy.
      - intros s j w Hs. apply HR; [right; now left|exact Hs].
      - intros s l Hs Hl. unfold g. cbn [fst snd].
        rewrite (block_eqb_neq vy vx) by congruence.
        unfold massConserv_cell. cbv zeta.
        destruct (stride8_lane _ _ _ Hx Hl) as (Hb & Hlane & Hlt & Hr).
        replace (x + y * size s0 + l) with ((x + l) + y * size s0) by lia.
        rewrite cell_col, cell_row by lia.
        rewrite (proj2 (Z.ltb_lt _ _) Hlt).
        unfold fmadd_ps, mul_ps, sub_ps, loadu_ps, set1_ps. rewrite (Fy s Hs).
        rewrite !(based_on_mem s0 _ s p _ Hs) by (simpl; intuition congruence). unfold load.
        replace (x + (y - 1) * size s0 + l) with (x + l + (y - 1) * size s0) by lia.
        replace (x + (y + 1) * size s0 + l) with (x + l + (y + 1) * size s0) by lia.
        replace (x + y * size s0 + l) with (x + l + y * size s0) by lia.
        reflexivity. }
    eapply maps_ext; cycle 1.
    + refine (maps_seq R g _ _ _ _ _ H1 H2). intros k E1 E2.
      apply existsb_exists in E1. destruct E1 as [l [_ E1]].
      apply existsb_exists in E2. destruct E2 as [l' [_ E2]].
      exact (Dxy _ _ _ E1 E2).
    + intros k. cbv beta. rewrite existsb_orb.
      apply existsb_pointwise. intros l. apply at_cell_pair.
  - intros x Hx. apply In_upto in Hx.
    pose proof (after_stride8_bounds 1 (size s0 - 9)) as (Hlo & _).
    assert (H1 : maps_as R g
              (fun s => store (velocityX s) (x + y * size s0)
                 (fsub A (load s (velocityX s) (x + y * size s0))
                    (fmul A (fmul A (f_lit A 1 (-1))
                               (fsub A (load s p ((x - 1) + y * size s0))
                                       (load s p ((x + 1) + y * size s0))))
                            (f_of_int A (size s0)))) s)
              (at_cell vx (x + y * size s0))).
    { apply maps_store_at.
      - exact Fx.
      - intros s w Hs. apply HR; [now left|exact Hs].
      - intros s Hs. unfold g. cbn [fst snd]. rewrite block_eqb_refl.
        unfold massConserv_cell. cbv zeta.
        rewrite cell_col, cell_row by lia.
        rewrite (proj2 (Z.ltb_ge _ _)) by lia.
        rewrite (Fx s Hs). rewrite !(based_on_mem s0 _ s p _ Hs) by (simpl; intuition congruence). reflexivity. }
    assert (H2 : maps_as R g
              (fun s => store (velocityY s) (x + y * size s0)
                 (fsub A (load s (velocityY s) (x + y * size s0))
                    (fmul A (fmul A (f_lit A 1 (-1))
                               (fsub A (load s p (x + (y - 1) * size s0))
                                       (load s p (x + (y + 1) * size s0))))
                            (f_of_int A (size s0)))) s)
              (at_cell vy (x + y * size s0))).
    { apply maps_store_at.
      - exact Fy.
      - intros s w Hs. apply HR; [right; now left|exact Hs].
      - intros s Hs. unfold g. cbn [fst snd].
        rewrite (block_eqb_neq vy vx) by congruence.
        unfold massConserv_cell. cbv zeta.
        rewrite cell_col, cell_row by lia.
        rewrite (proj2 (Z.ltb_ge _ _)) by lia.
        rewrite (Fy s Hs). rewrite !(based_on_mem s0 _ s p _ Hs) by (simpl; intuition congruence). reflexivity. }
    eapply maps_ext; cycle 1.
    + refine (maps_seq R g _ _ _ _ _ H1 H2). intros k E1 E2.
      exact (Dxy _ _ _ E1 E2).
    + intros k. cbv beta. apply at_cell_pair.
Qed.

(** X9: one invocation of [projectMassConservLoop] replaces, at every
    interior cell of the rows of its range, the value v of the member
    velocity fields by
    - fma ((before - after) * N, -0.5, v) in the columns of the 8-wide loop,
    - v - (0.5 * (before - after)) * N in the columns of the remainder loop,
    where before and after are the cells of [p] to the left and to the
    right for [velocityX], above and below for [velocityY].  This holds
    in every arithmetic. *)
Theorem projectMassConservLoop_subtracts_gradient (startIndex endIndex : Z)
        (p div : block) (s : FluidGrid A) (x y : Z) :
  let n := size s in
  let s' := projectMassConservLoop startIndex endIndex p div s in
  let gradient_step (before after v : F A) :=
    if x <? after_stride8 1 (n - 9)
    then ffma A (fmul A (fsub A before after) (f_of_int A n)) (f_lit A (-1) (-1)) v
    else fsub A v (fmul A (fmul A (f_lit A 1 (-1)) (fsub A before after))
                          (f_of_int A n)) in
  p <> velocityX s -> p <> velocityY s -> velocityX s <> velocityY s ->
  startIndex <= y < endIndex -> 1 <= x <= n - 2 ->
  cell_at s' (velocityX s) x y
  = gradient_step (cell_at s p (x - 1) y) (cell_at s p (x + 1) y)
                  (cell_at s (velocityX s) x y) /\
  cell_at s' (velocityY s) x y
  = gradient_step (cell_at s p x (y - 1)) (cell_at s p x (y + 1))
                  (cell_at s (velocityY s) x y).
Proof.
  cbv zeta. intros Hpx Hpy Hxy Hy Hx.
  destruct (projectMassConservLoop_maps s p div startIndex endIndex Hpx Hpy Hxy
              s (based_on_refl s _)) as [Hb Hm].
  pose proof (in_rows_cell (size s) startIndex endIndex x y Hy Hx) as Hin.
  split; unfold cell_at at 1; rewrite (based_on_size _ _ _ Hb), Hm; cbn [fst snd];
    rewrite Hin.
  - rewrite block_eqb_refl. cbn [orb andb].
    unfold massConserv_cell, cell_at, load. cbv zeta.
    rewrite cell_col, cell_row by lia. reflexivity.
  - rewrite block_eqb_refl, (block_eqb_neq (velocityY s) (velocityX s)) by congruence.
    cbn [orb andb].
    unfold massConserv_cell, cell_at, load. cbv zeta.
    rewrite cell_col, cell_row by lia. reflexivity.
Qed.

End InPlace.

(** * The pointer members across the methods *)

Section Pointers.

Context {A : Arith}.
Variable pool : Z -> list (Z * Z).

Lemma members_inv (s : FluidGrid A) (n : Z) (a1 a2 a3 a4 a5 a6 a7 : block) :
  members s = (n, [a1; a2; a3; a4; a5; a6; a7]) ->
  size s = n /\ density s = a1 /\ prevDensity s = a2 /\
  velocityX s = a3 /\ prevVelocityX s = a4 /\
  velocityY s = a5 /\ prevVelocityY s = a6 /\ tmp s = a7.
Proof.
  unfold members, FluidGrid_delete. intros H. inversion H. repeat split.
Qed.

Lemma members_same (s s' : FluidGrid A) :
  same_fields s s' -> tmp s' = tmp s -> members s' = members s.
Proof.
  intros (F1 & F2 & F3 & F4 & F5 & F6 & F7) T.
  unfold members, FluidGrid_delete. congruence.
Qed.

Lemma members_based (s s' : FluidGrid A) (ts : list block) :
  based_on s ts s' -> members s' = members s.
Proof. intros (F & T & _). now apply members_same. Qed.

Lemma linearSolve_loop_Z (d : Direction) (iterations : Z) (arr prevArr : block)
      (k scaling : F A) (s : FluidGrid A) :
  linearSolve_loop pool d iterations arr prevArr k scaling s
  = linearSolve_loop pool d (Z.of_nat (Z.to_nat iterations)) arr prevArr k scaling s.
Proof. unfold linearSolve_loop. now rewrite Nat2Z.id. Qed.

(** [linearSolve] for any iteration count. *)
Lemma linearSolve_pointers (d : Direction) (iterations : Z) (arr prevArr : block)
      (k scaling : F A) (s : FluidGrid A) :
  let s' := linearSolve pool d iterations arr prevArr k scaling s in
  same_fields s s' /\ same_outside [tmp s; arr] s s' /\
  tmp s' = if Nat.even (Z.to_nat iterations) then tmp s else arr.
Proof.
  cbv zeta. unfold linearSolve. rewrite linearSolve_loop_Z.
  pose proof (linearSolve_loop_pointers pool d (Z.to_nat iterations) arr prevArr
                k scaling s) as H.
  cbv zeta in H. destruct H as (Fn & On & Pn).
  split; [exact Fn|]. split; [exact On|].
  destruct (Nat.even (Z.to_nat iterations)); apply Pn.
Qed.

Lemma same_outside_then (s0 s1 s2 : FluidGrid A) (ts ts' : list block) :
  same_outside ts s0 s1 -> same_outside ts' s1 s2 -> incl ts' ts ->
  same_outside ts s0 s2.
Proof.
  intros H1 H2 Hi. eapply same_outside_trans; [exact H1|].
  eapply same_outside_weaken; [|exact H2]. exact Hi.
Qed.

(** [project] for any iteration count. *)
Lemma project_pointers (iterations : Z) (velX velY p div : block)
      (s : FluidGrid A) :
  let s' := project pool iterations velX velY p div s in
  same_fields s s' /\
  same_outside [p; div; tmp s; velocityX s; velocityY s] s s' /\
  tmp s' = if Nat.even (Z.to_nat iterations) then tmp s else p.
Proof.
  cbv zeta. unfold project. cbv zeta.
  set (ts := [p; div; tmp s; velocityX s; velocityY s]).
  set (s1 := project_heightMap pool velX velY p div s).
  assert (H1 : based_on s ts s1).
  { unfold s1, project_heightMap. apply computeOnThreads_inv; [|apply based_on_refl].
    intros a b s' Hs'.
    apply projectHeightMapLoop_based; [now left|right; now left|exact Hs']. }
  set (s2 := setBounds NONE div s1).
  assert (H2 : based_on s ts s2).
  { apply setBounds_based; [right; now left|exact H1]. }
  set (s3 := setBounds NONE p s2).
  assert (H3 : based_on s ts s3).
  { apply setBounds_based; [now left|exact H2]. }
  destruct H3 as (F3 & T3 & O3).
  set (s4 := linearSolve pool NONE iterations p div (f_of_int A 1) (f_of_int A 4) s3).
  destruct (linearSolve_pointers NONE iterations p div (f_of_int A 1) (f_of_int A 4) s3)
    as (F4 & O4 & T4).
  fold s4 in F4, O4, T4. rewrite T3 in O4, T4.
  assert (G4 : same_fields s s4) by (eapply same_fields_trans; eassumption).
  assert (P4 : same_outside ts s s4).
  { eapply same_outside_then; [exact O3|exact O4|].
    intros q [<-|[<-|[]]]; unfold ts; simpl; tauto. }
  assert (Hx : velocityX s4 = velocityX s) by apply G4.
  assert (Hy : velocityY s4 = velocityY s) by apply G4.
  set (s5 := computeOnThreads pool (size s4) _ s4).
  assert (H5 : based_on s4 [velocityX s; velocityY s] s5).
  { apply computeOnThreads_inv; [|apply based_on_refl].
    intros a b s' Hs'. apply projectMassConservLoop_based; try exact Hs'.
    - rewrite Hx. now left.
    - rewrite Hy. right; now left. }
  assert (Hx5 : velocityX s5 = velocityX s).
  { destruct H5 as (F5 & _). rewrite <- Hx. apply F5. }
  set (s6 := setBounds HORIZONTAL (velocityX s5) s5).
  assert (H6 : based_on s4 [velocityX s; velocityY s] s6).
  { apply setBounds_based; [rewrite Hx5; now left|exact H5]. }
  assert (Hy6 : velocityY s6 = velocityY s).
  { destruct H6 as (F6 & _). rewrite <- Hy. apply F6. }
  assert (H7 : based_on s4 [velocityX s; velocityY s]
                        (setBounds VERTICAL (velocityY s6) s6)).
  { apply setBounds_based; [rewrite Hy6; right; now left|exact H6]. }
  destruct H7 as (F7 & T7 & O7).
  split; [eapply same_fields_trans; eassumption|]. split.
  - eapply same_outside_then; [exact P4|exact O7|].
    intros q [<-|[<-|[]]]; unfold ts; simpl; tauto.
  - now rewrite T7.
Qed.

Lemma members_swap_density (s : FluidGrid A) :
  members (swap_density s)
  = (size s, [prevDensity s; density s; velocityX s; prevVelocityX s;
              velocityY s; prevVelocityY s; tmp s]).
Proof. reflexivity. Qed.

Lemma members_swap_velocityX (s : FluidGrid A) :
  members (swap_velocityX s)
  = (size s, [density s; prevDensity s; prevVelocityX s; velocityX s;
              velocityY s; prevVelocityY s; tmp s]).
Proof. reflexivity. Qed.

Lemma members_swap_velocityY (s : FluidGrid A) :
  members (swap_velocityY s)
  = (size s, [density s; prevDensity s; velocityX s; prevVelocityX s;
              prevVelocityY s; velocityY s; tmp s]).
Proof. reflexivity. Qed.

Lemma members_with_tmp (s s' : FluidGrid A) (t : block) :
  same_fields s s' -> tmp s' = t ->
  members s'
  = (size s, [density s; prevDensity s; velocityX s; prevVelocityX s;
              velocityY s; prevVelocityY s; t]).
Proof.
  intros (F1 & F2 & F3 & F4 & F5 & F6 & F7) T.
  unfold members, FluidGrid_delete. congruence.
Qed.

Lemma members_diffuse (d : Direction) (iterations : Z) (arr prevArr : block)
      (dt : F A) (rate : D A) (s : FluidGrid A) :
  members (diffuse pool d iterations arr prevArr dt rate s)
  = (size s, [density s; prevDensity s; velocityX s; prevVelocityX s;
              velocityY s; prevVelocityY s;
              if Nat.even (Z.to_nat iterations) then tmp s else arr]).
Proof.
  unfold diffuse. cbv zeta.
  destruct (linearSolve_pointers d iterations arr prevArr
              (diffuse_neighborDiffusion A (size s) dt rate)
              (diffuse_scaling A (diffuse_neighborDiffusion A (size s) dt rate)) s)
    as (Fs & _ & Ts).
  now apply members_with_tmp.
Qed.

Lemma members_project (iterations : Z) (velX velY p div : block) (s : FluidGrid A) :
  members (project pool iterations velX velY p div s)
  = (size s, [density s; prevDensity s; velocityX s; prevVelocityX s;
              velocityY s; prevVelocityY s;
              if Nat.even (Z.to_nat iterations) then tmp s else p]).
Proof.
  destruct (project_pointers iterations velX velY p div s) as (Fs & _ & Ts).
  now apply members_with_tmp.
Qed.

Lemma members_advect (d : Direction) (arr prevArr velX velY : block) (dt : F A)
      (s : FluidGrid A) :
  members (advect pool d arr prevArr velX velY dt s)
  = (size s, [density s; prevDensity s; velocityX s; prevVelocityX s;
              velocityY s; prevVelocityY s; tmp s]).
Proof.
  apply (members_based s _ [arr]).
  apply advect_based; [now left|apply based_on_refl].
Qed.

Lemma members_fadeDensity (dt : F A) (fadeRate : D A) (s : FluidGrid A) :
  members (fadeDensity dt fadeRate s)
  = (size s, [density s; prevDensity s; velocityX s; prevVelocityX s;
              velocityY s; prevVelocityY s; tmp s]).
Proof.
  apply (members_based s _ [density s]).
  apply fadeDensity_based; [now left|apply based_on_refl].
Qed.

End Pointers.

(** Peels one stage of [step] off the goal [P (let ... )], keeping the
    members of the state the stage binds. *)
Ltac members_of_stage pool Hpar :=
  lazymatch goal with
  | |- members (swap_density _) = _ => rewrite members_swap_density
  | |- members (swap_velocityX _) = _ => rewrite members_swap_velocityX
  | |- members (swap_velocityY _) = _ => rewrite members_swap_velocityY
  | |- members (diffuse _ _ _ _ _ _ _ _) = _ =>
      rewrite (members_diffuse pool), ?Hpar
  | |- members (project _ _ _ _ _ _ _) = _ =>
      rewrite (members_project pool), ?Hpar
  | |- members (advect _ _ _ _ _ _ _ _) = _ => rewrite (members_advect pool)
  | |- members (fadeDensity _ _ _) = _ => rewrite members_fadeDensity
  end.

Ltac members_rewrite M :=
  let M1 := fresh in let M2 := fresh in let M3 := fresh in let M4 := fresh in
  let M5 := fresh in let M6 := fresh in let M7 := fresh in let M8 := fresh in
  destruct M as (M1 & M2 & M3 & M4 & M5 & M6 & M7 & M8);
  cbv iota;
  rewrite ?M1, ?M2, ?M3, ?M4, ?M5, ?M6, ?M7, ?M8.

Ltac members_stage P pool Hpar :=
  lazymatch goal with
  | |- P (let x := ?v in @?b x) => refine (let_intro P v b _)
  end;
  let x := fresh "st" in
  let E := fresh "E" in
  intros x E; cbv beta;
  lazymatch goal with
  | M : size ?prev = _ /\ _ |- _ =>
      let M' := fresh "M" in
      eassert (M' : members x = _)
        by (rewrite E; members_of_stage pool Hpar; members_rewrite M; reflexivity);
      apply members_inv in M'; clear E M
  end.

(** The members after [step]; [ev] is the parity of the iteration count. *)
Lemma step_members (A : Arith) (pool : Z -> list (Z * Z)) (dt : F A)
      (iterations : Z) (diffusionRate viscosity fadeRate : D A) (s : FluidGrid A) :
  members (step pool dt iterations diffusionRate viscosity fadeRate s)
  = (size s, [density s; prevDensity s; velocityX s; prevVelocityX s;
              velocityY s; prevVelocityY s;
              if Nat.even (Z.to_nat iterations) then tmp s else prevDensity s]).
Proof.
  set (P := fun s' : FluidGrid A =>
              members s'
              = (size s, [density s; prevDensity s; velocityX s; prevVelocityX s;
                          velocityY s; prevVelocityY s;
                          if Nat.even (Z.to_nat iterations) then tmp s
                          else prevDensity s])).
  change (P (step pool dt iterations diffusionRate viscosity fadeRate s)).
  cbv beta delta [step].
  pose proof (members_inv s _ _ _ _ _ _ _ _ eq_refl) as M0.
  destruct (Nat.even (Z.to_nat iterations)) eqn:Hpar.
  - do 14 (members_stage P pool Hpar).
    unfold P. members_of_stage pool Hpar.
    lazymatch goal with M : size _ = _ /\ _ |- _ => members_rewrite M end.
    reflexivity.
  - do 14 (members_stage P pool Hpar).
    unfold P. members_of_stage pool Hpar.
    lazymatch goal with M : size _ = _ /\ _ |- _ => members_rewrite M end.
    reflexivity.
Qed.

Section Frames.

Context {A : Arith}.
Variable pool : Z -> list (Z * Z).

(** X10: for every iteration count, [linearSolve] keeps the size and the
    six field pointers, and every block other than the scratch block and
    the solve target keeps its contents; the right-hand side [prevArr] is
    never written unless it is one of the two. *)
Theorem linearSolve_frame (d : Direction) (iterations : Z) (arr prevArr : block)
        (k scaling : F A) (s : FluidGrid A) :
  let s' := linearSolve pool d iterations arr prevArr k scaling s in
  same_fields s s' /\
  forall q, q <> tmp s -> q <> arr -> forall j, mem s' q j = mem s q j.
Proof.
  cbv zeta.
  destruct (linearSolve_pointers pool d iterations arr prevArr k scaling s)
    as (Fs & Os & _).
  split; [exact Fs|]. intros q Hq1 Hq2 j. apply Os.
  intros [E|[E|[]]]; congruence.
Qed.

(** X11: for every iteration count, [project] keeps the size and the six
    field pointers and writes into no block other than [p], [div], the
    scratch block and the blocks of the members [velocityX] and
    [velocityY]; the scratch pointer ends on [p] when the iteration count
    is odd. *)
Theorem project_frame (iterations : Z) (velX velY p div : block) (s : FluidGrid A) :
  let s' := project pool iterations velX velY p div s in
  same_fields s s' /\
  (forall q, ~ In q [p; div; tmp s; velocityX s; velocityY s] ->
             forall j, mem s' q j = mem s q j) /\
  tmp s' = if Nat.even (Z.to_nat iterations) then tmp s else p.
Proof. exact (project_pointers pool iterations velX velY p div s). Qed.

(** X12: [step] returns with the size and the six field pointers it was
    called with, for every iteration count, so that [getDensity] returns
    the same buffer before and after the call.  The scratch pointer is
    kept when the iteration count is even; when it is odd, [tmp] ends on
    the block of [prevDensity]. *)
Theorem step_keeps_pointers (dt : F A) (iterations : Z)
        (diffusionRate viscosity fadeRate : D A) (s : FluidGrid A) :
  let s' := step pool dt iterations diffusionRate viscosity fadeRate s in
  same_fields s s' /\
  getDensity s' = mem s' (density s) /\
  tmp s' = if Nat.even (Z.to_nat iterations) then tmp s else prevDensity s.
Proof.
  cbv zeta.
  pose proof (step_members A pool dt iterations diffusionRate viscosity fadeRate s) as H.
  apply members_inv in H.
  destruct H as (H0 & H1 & H2 & H3 & H4 & H5 & H6 & H7).
  split; [|split; [unfold getDensity; now rewrite H1|exact H7]].
  unfold same_fields.
  split; [exact H0|]. split; [exact H1|]. split; [exact H2|].
  split; [exact H3|]. split; [exact H4|]. split; [exact H5|exact H6].
Qed.

(** X13: after a [step] with an odd iteration count the destructor hands
    the block of [prevDensity] to [free] twice; and when the seven buffers
    were distinct before the call, the block that was the scratch buffer is
    not handed to [free] at all. *)
Theorem step_odd_double_free (dt : F A) (iterations : Z)
        (diffusionRate viscosity fadeRate : D A) (s : FluidGrid A) :
  Nat.odd (Z.to_nat iterations) = true ->
  let s' := step pool dt iterations diffusionRate viscosity fadeRate s in
  FluidGrid_delete s'
  = [density s; prevDensity s; velocityX s; prevVelocityX s;
     velocityY s; prevVelocityY s; prevDensity s] /\
  ~ NoDup (FluidGrid_delete s') /\
  (distinct_buffers s -> ~ In (tmp s) (FluidGrid_delete s')).
Proof.
  intros Hodd. cbv zeta.
  pose proof (step_members A pool dt iterations diffusionRate viscosity fadeRate s) as H.
  rewrite <- Nat.negb_odd, Hodd in H. cbn [negb] in H.
  apply members_inv in H.
  destruct H as (_ & H1 & H2 & H3 & H4 & H5 & H6 & H7).
  unfold FluidGrid_delete. rewrite H1, H2, H3, H4, H5, H6, H7.
  clear H1 H2 H3 H4 H5 H6 H7.
  split; [reflexivity|]. split.
  - intros Hnd. inversion Hnd as [|? ? _ Hnd1]. inversion Hnd1 as [|? ? Hn _].
    apply Hn. right; right; right; right; now left.
  - unfold distinct_buffers. intros Hnd Hin.
    apply (NoDup_remove_2 [density s; prevDensity s; velocityX s; prevVelocityX s;
                           velocityY s; prevVelocityY s] [] (tmp s) Hnd).
    rewrite app_nil_r.
    destruct Hin as [E|[E|[E|[E|[E|[E|[E|[]]]]]]]]; rewrite <- E.
    + now left.
    + right; now left.
    + right; right; now left.
    + right; right; right; now left.
    + right; right; right; right; now left.
    + right; right; right; right; right; now left.
    + right; now left.
Qed.

(** X14: [advect] writes into [arr] only, keeping the pointer members and
    every other block, and it leaves [arr] with its boundary condition:
    every edge cell holds the value of its interior neighbour, negated on
    the left and right edge for HORIZONTAL and on the top and bottom edge
    for VERTICAL. *)
Theorem advect_frame_and_bounds (d : Direction) (arr prevArr velX velY : block)
        (dt : F A) (s : FluidGrid A) :
  let n := size s in
  let s' := advect pool d arr prevArr velX velY dt s in
  based_on s [arr] s' /\
  forall i, 1 <= i <= n - 2 ->
    cell_at s' arr 0 i = neg_if A (is_horizontal d) (cell_at s' arr 1 i) /\
    cell_at s' arr (n - 1) i = neg_if A (is_horizontal d) (cell_at s' arr (n - 2) i) /\
    cell_at s' arr i 0 = neg_if A (is_vertical d) (cell_at s' arr i 1) /\
    cell_at s' arr i (n - 1) = neg_if A (is_vertical d) (cell_at s' arr i (n - 2)).
Proof.
  cbv zeta. split.
  - apply advect_based; [now left|apply based_on_refl].
  - intros i Hi. unfold advect. cbv zeta.
    set (s1 := computeOnThreads pool (size s) _ s).
    assert (Hsz : size s1 = size s).
    { apply (based_on_size s [arr]). apply computeOnThreads_inv; [|apply based_on_refl].
      intros a b t Ht. now apply advectLoop_based; [left|]. }
    unfold cell_at. rewrite setBounds_size, Hsz.
    destruct (setBounds_edge_cells d arr s1 i) as (H1 & H2 & H3 & H4);
      [rewrite Hsz; exact Hi|].
    rewrite Hsz in H1, H2, H3, H4.
    pose proof (setBounds_interior d arr s1 arr) as HI. rewrite Hsz in HI.
    rewrite (HI 1 i), (HI (size s - 2) i), (HI i 1), (HI i (size s - 2)) by lia.
    repeat split; assumption.
Qed.

(** X15: after every turn of the relaxation loop the buffer that holds
    the result of the turn satisfies the boundary condition of the
    direction [linearSolve] was called with. *)
Theorem linearSolve_result_bounded (d : Direction) (turns : nat)
        (arr prevArr : block) (k scaling : F A) (s : FluidGrid A) (i : Z) :
  let n := size s in
  let result := iteration_result pool d arr prevArr k scaling s (S turns) in
  1 <= i <= n - 2 ->
  result (0 + i * n) = neg_if A (is_horizontal d) (result (1 + i * n)) /\
  result ((n - 1) + i * n) = neg_if A (is_horizontal d) (result ((n - 2) + i * n)) /\
  result (i + 0 * n) = neg_if A (is_vertical d) (result (i + 1 * n)) /\
  result (i + (n - 1) * n) = neg_if A (is_vertical d) (result (i + (n - 2) * n)).
Proof.
  cbv zeta. intros Hi. unfold iteration_result. cbv zeta.
  rewrite linearSolve_loop_succ.
  pose proof (linearSolve_loop_pointers pool d turns arr prevArr k scaling s) as Hp.
  cbv zeta in Hp.
  destruct (linearSolve_loop pool d (Z.of_nat turns) arr prevArr k scaling s)
    as [sn an].
  cbn [fst snd] in Hp. destruct Hp as (Fn & _ & _).
  assert (Hsz : size sn = size s) by apply Fn.
  unfold linearSolve_iteration. cbv zeta. cbn [fst snd].
  set (s1 := computeOnThreads pool (size sn) _ sn).
  assert (Hs1 : size s1 = size s).
  { rewrite <- Hsz. apply (based_on_size sn [tmp sn]).
    apply computeOnThreads_inv; [|apply based_on_refl].
    intros a b t Ht. now apply linearSolveLoop_based; [left|]. }
  set (s2 := set_tmp s1 an).
  assert (Hs2 : size s2 = size s) by exact Hs1.
  destruct (setBounds_edge_cells d (tmp s1) s2 i) as (H1 & H2 & H3 & H4);
    [rewrite Hs2; exact Hi|].
  rewrite Hs2 in H1, H2, H3, H4.
  pose proof (setBounds_interior d (tmp s1) s2 (tmp s1)) as HI. rewrite Hs2 in HI.
  rewrite (HI 1 i), (HI (size s - 2) i), (HI i 1), (HI i (size s - 2)) by lia.
  repeat split; assumption.
Qed.

(** X16: with an odd iteration count, a second [diffuse] destroys what the
    first one was asked to compute into: the first call leaves the scratch
    pointer on its own solve target, and the second call stores the result
    of its last turn in that buffer. *)
Theorem diffuse_odd_overwrites_previous_target (d1 d2 : Direction) (n : nat)
        (a1 p1 a2 p2 : block) (dt : F A) (r1 r2 : D A) (s : FluidGrid A) :
  Nat.odd n = true ->
  let s1 := diffuse pool d1 (Z.of_nat n) a1 p1 dt r1 s in
  let s2 := diffuse pool d2 (Z.of_nat n) a2 p2 dt r2 s1 in
  let k := diffuse_neighborDiffusion A (size s1) dt r2 in
  tmp s1 = a1 /\ tmp s2 = a2 /\
  forall j, mem s2 a1 j
            = iteration_result pool d2 a2 p2 k (diffuse_scaling A k) s1 n j.
Proof.
  intros Hodd. cbv zeta.
  assert (Hev : Nat.even n = false) by (rewrite <- Nat.negb_odd, Hodd; reflexivity).
  assert (T1 : tmp (diffuse pool d1 (Z.of_nat n) a1 p1 dt r1 s) = a1).
  { unfold diffuse. cbv zeta.
    destruct (linearSolve_pointers pool d1 (Z.of_nat n) a1 p1
                (diffuse_neighborDiffusion A (size s) dt r1)
                (diffuse_scaling A (diffuse_neighborDiffusion A (size s) dt r1)) s)
      as (_ & _ & T).
    rewrite Nat2Z.id, Hev in T. exact T. }
  split; [exact T1|].
  set (s1 := diffuse pool d1 (Z.of_nat n) a1 p1 dt r1 s) in *.
  unfold iteration_result, diffuse, linearSolve. cbv zeta.
  pose proof (linearSolve_loop_pointers pool d2 n a2 p2
                (diffuse_neighborDiffusion A (size s1) dt r2)
                (diffuse_scaling A (diffuse_neighborDiffusion A (size s1) dt r2)) s1)
    as H.
  cbv zeta in H. rewrite Hev, T1 in H. destruct H as (_ & _ & Hs & Ht).
  split; [exact Ht|]. intros j. now rewrite Hs.
Qed.

End Frames.

(** * Advection, cell by cell *)

Section Advection.

Context {A : Arith}.
Variable pool : Z -> list (Z * Z).

(** X17: when [arr] is none of the buffers it reads, [advect] leaves in
    every interior cell of [arr] the value its kernel computes for that
    cell from the state [advect] was called in -- a lane of the 8-wide
    loop or a turn of the remainder loop, with scaling = dt * N and
    maxClamp = N - 1.5 -- whatever chunks the pool hands out: every chunk
    recomputes every row, and no store changes what a later cell is
    computed from.  This holds in every arithmetic. *)
Theorem advect_cells_from_entry_state (d : Direction)
        (arr prevArr velX velY : block) (dt : F A) (s : FluidGrid A) (x y : Z) :
  let n := size s in
  let scaling := fmul A dt (f_of_int A n) in
  let maxClamp := fsub A (f_of_int A n) (f_lit A 3 (-1)) in
  arr <> prevArr -> arr <> velX -> arr <> velY ->
  nonempty (pool n) = true ->
  1 <= x <= n - 2 -> 1 <= y <= n - 2 ->
  cell_at (advect pool d arr prevArr velX velY dt s) arr x y
  = if x <? after_stride8 1 (n - 9)
    then advect_vector_cells s prevArr velX velY scaling maxClamp
                             (vec_base x) y (vec_lane x)
    else advect_scalar_cell s prevArr velX velY scaling maxClamp x y.
Proof.
  cbv zeta. intros Hp Hvx Hvy Hne Hx Hy.
  rewrite (advect_interior_cell pool d arr prevArr velX velY dt s x y) by assumption.
  unfold advect_cell. cbv zeta. now rewrite cell_col, cell_row by lia.
Qed.

End Advection.

(** * Fading, construction and perturbation *)

Section Misc.

Context {A : Arith}.

(** X19: [fadeDensity] multiplies every interior cell of the density
    buffer by [(float)(1 - dt * fadeRate * size)] and changes nothing else:
    the boundary ring of the density buffer, every other block and the
    pointer members are kept. *)
Theorem fadeDensity_scales_interior (dt : F A) (fadeRate : D A) (s : FluidGrid A) :
  let n := size s in
  let s' := fadeDensity dt fadeRate s in
  based_on s [density s] s' /\
  (forall x y, 1 <= x <= n - 2 -> 1 <= y <= n - 2 ->
     cell_at s' (density s) x y
     = fmul A (cell_at s (density s) x y) (f_of_d A (fade_factor A n dt fadeRate))) /\
  (forall j, in_rows n 1 (n - 1) j = false ->
     mem s' (density s) j = mem s (density s) j).
Proof.
  cbv zeta.
  destruct (fadeDensity_maps s dt fadeRate s (based_on_refl s [density s]))
    as [Hb Hm].
  split; [exact Hb|]. split.
  - intros x y Hx Hy. unfold cell_at. rewrite (based_on_size _ _ _ Hb), Hm.
    cbn [fst snd]. now rewrite block_eqb_refl, in_rows_interior.
  - intros j Hj. rewrite Hm. cbn [fst snd]. rewrite Hj.
    now rewrite andb_false_r.
Qed.

(** X20: [addDensity] and [addVelocity] do not check the column: a column
    index that is [size] too large addresses the same cell as the column
    one row further down. *)
Theorem perturbation_column_unchecked (x y : Z) (amount amountX amountY dt : F A)
        (s : FluidGrid A) :
  addDensity (x + size s) y amount dt s = addDensity x (y + 1) amount dt s /\
  addVelocity (x + size s) y amountX amountY dt s
  = addVelocity x (y + 1) amountX amountY dt s.
Proof.
  unfold addDensity, addVelocity. cbv zeta.
  replace (x + size s + y * size s) with (x + (y + 1) * size s) by lia.
  split; reflexivity.
Qed.

End Misc.

(** X21: the constructor throws exactly when one of the six field buffers
    could not be allocated; neither the size nor the outcome of the
    allocation of the scratch buffer plays a part. *)
Theorem FluidGrid_new_throws_iff (succeeds : block -> bool) (n : Z) :
  FluidGrid_new succeeds n = Thrown
  <-> exists b, b <> BTmp /\ succeeds b = false.
Proof.
  split.
  - unfold FluidGrid_new, calloc.
    destruct (succeeds BDensity) eqn:E1;
      [|intros _; exists BDensity; split; [discriminate|exact E1]].
    destruct (succeeds BPrevDensity) eqn:E2;
      [|intros _; exists BPrevDensity; split; [discriminate|exact E2]].
    destruct (succeeds BVelocityX) eqn:E3;
      [|intros _; exists BVelocityX; split; [discriminate|exact E3]].
    destruct (succeeds BPrevVelocityX) eqn:E4;
      [|intros _; exists BPrevVelocityX; split; [discriminate|exact E4]].
    destruct (succeeds BVelocityY) eqn:E5;
      [|intros _; exists BVelocityY; split; [discriminate|exact E5]].
    destruct (succeeds BPrevVelocityY) eqn:E6;
      [|intros _; exists BPrevVelocityY; split; [discriminate|exact E6]].
    cbn [is_null negb andb]. discriminate.
  - intros [b [Hb Hf]]. exact (FluidGrid_new_throws succeeds n b Hb Hf).
Qed.

(** * The relaxation pass and its chunks *)

Lemma in_chunks_same (n : Z) (c1 c2 : list (Z * Z)) (j : Z) :
  (forall c, In c c1 <-> In c c2) -> in_chunks n c1 j = in_chunks n c2 j.
Proof.
  intros H. unfold in_chunks. apply eq_iff_eq_true. rewrite !existsb_exists.
  split; intros [c [Hc Hr]]; exists c; (split; [now apply H|exact Hr]).
Qed.

(** X22: the relaxation pass does not depend on the schedule: when the
    scratch block is neither the solve target nor the right-hand side, two
    pools that hand out the same chunks, in any order and any number of
    times, leave every cell of every block the same. *)
Theorem linearSolve_pass_schedule_irrelevant (A : Arith)
        (pool1 pool2 : Z -> list (Z * Z)) (arr prevArr : block)
        (k : F A) (_k : Z -> F A) (r : F A) (_r : Z -> F A) (s : FluidGrid A) :
  let work := fun startIndex endIndex =>
                linearSolveLoop startIndex endIndex arr prevArr k _k r _r in
  tmp s <> arr -> tmp s <> prevArr ->
  (forall c, In c (pool1 (size s)) <-> In c (pool2 (size s))) ->
  forall q j, mem (computeOnThreads pool1 (size s) work s) q j
              = mem (computeOnThreads pool2 (size s) work s) q j.
Proof.
  cbv zeta. intros Ha Hp Hsame q j.
  destruct (linearSolve_pass_writes pool1 s arr prevArr k _k r _r Ha Hp
              s (based_on_refl s [tmp s])) as [_ M1].
  destruct (linearSolve_pass_writes pool2 s arr prevArr k _k r _r Ha Hp
              s (based_on_refl s [tmp s])) as [_ M2].
  rewrite M1, M2. cbn [fst snd].
  now rewrite (in_chunks_same (size s) _ _ j Hsame).
Qed.

(** * A step with a zero time step, in binary32 *)

(** ** Bounds *)

Lemma bound_steps :
  0 <= 2 ^ (100 + scale) /\
  2 ^ (100 + scale) + 2 ^ (100 + scale) <= 2 ^ (101 + scale) /\
  2 ^ (101 + scale) + 2 ^ (100 + scale) <= 2 ^ (102 + scale) /\
  2 ^ (102 + scale) + 2 ^ (100 + scale) <= 2 ^ (103 + scale) /\
  2 ^ (103 + scale) < top32 /\
  2 ^ (scale - 1) * 2 ^ (101 + scale) <= 2 ^ scale * 2 ^ (100 + scale).
Proof. vm_compute. intuition discriminate. Qed.

Lemma rnd32_pow2 (j : Z) : scale - 149 <= j -> rnd32 (2 ^ j) = 2 ^ j.
Proof.
  intros Hj.
  pose proof (rnd_exact IEEE.prec32 IEEE.emax32 scale prec32_pos emax32_gt scale32 1 j) as R.
  rewrite !Z.mul_1_l in R. apply R.
  - split; [lia|]. reflexivity.
  - revert Hj. vm_compute (emin IEEE.prec32 IEEE.emax32). lia.
Qed.

Lemma small32_valid (v : spec_float) : small32 v -> binary32 v.
Proof. intros H. apply H. Qed.

Lemma small32_finite (v : spec_float) : small32 v -> is_finite v = true.
Proof. intros H. apply H. Qed.

Lemma same_value_small (a b : spec_float) : same_value a b -> small32 b -> small32 a.
Proof.
  intros [->|[Za _]] Hb; [exact Hb|].
  destruct a; try discriminate.
  apply (same_zero_within IEEE.prec32 IEEE.emax32 scale). apply bound_steps.
Qed.

(** The sum of four neighbours, as the remainder loop adds them up. *)
Lemma neighbours_finite (a b c d : spec_float) :
  small32 a -> small32 b -> small32 c -> small32 d ->
  is_finite (fadd IEEE.arith (fadd IEEE.arith (fadd IEEE.arith a b) c) d) = true.
Proof.
  intros Ha Hb Hc Hd.
  destruct bound_steps as (B0 & B1 & B2 & B3 & B4 & _).
  assert (T1 : 2 ^ (101 + scale) < top32) by lia.
  assert (T2 : 2 ^ (102 + scale) < top32) by lia.
  pose proof (SFadd_within IEEE.prec32 IEEE.emax32 scale prec32_pos emax32_gt scale32
                _ _ _ a b Ha Hb B1 (rnd32_pow2 (101 + scale) ltac:(unfold scale; lia)) T1) as H1.
  pose proof (SFadd_within IEEE.prec32 IEEE.emax32 scale prec32_pos emax32_gt scale32
                _ _ _ _ c H1 Hc B2 (rnd32_pow2 (102 + scale) ltac:(unfold scale; lia)) T2) as H2.
  pose proof (SFadd_within IEEE.prec32 IEEE.emax32 scale prec32_pos emax32_gt scale32
                _ _ _ _ d H2 Hd B3 (rnd32_pow2 (103 + scale) ltac:(unfold scale; lia)) B4) as H3.
  apply H3.
Qed.

(** A corner: half the sum of two edge cells. *)
Lemma corner_small (a b : spec_float) :
  small32 a -> small32 b ->
  small32 (fmul IEEE.arith (f_lit IEEE.arith 1 (-1)) (fadd IEEE.arith a b)).
Proof.
  intros Ha Hb.
  destruct bound_steps as (B0 & B1 & B2 & B3 & B4 & B5).
  assert (T1 : 2 ^ (101 + scale) < top32) by lia.
  pose proof (SFadd_within IEEE.prec32 IEEE.emax32 scale prec32_pos emax32_gt scale32
                _ _ _ a b Ha Hb B1 (rnd32_pow2 (101 + scale) ltac:(unfold scale; lia)) T1) as H1.
  refine (SFmul_within IEEE.prec32 IEEE.emax32 scale prec32_pos emax32_gt scale32
            (f_lit IEEE.arith 1 (-1)) _ (2 ^ (101 + scale)) (2 ^ (100 + scale))
            _ _ H1 _ _ _).
  - reflexivity.
  - reflexivity.
  - rewrite ord32_half. rewrite Z.abs_eq by (apply Z.pow_nonneg; lia). exact B5.
  - apply rnd32_pow2. unfold scale. lia.
  - lia.
Qed.

(** ** A relaxation turn without diffusion *)

Lemma relaxation_cell_k0 (s : FluidGrid IEEE.arith) (arr prevArr : block)
      (k : spec_float) (x y : Z) :
  1 <= x <= size s - 2 ->
  zero_float k = true ->
  binary32 (cell_at s prevArr x y) ->
  small32 (cell_at s arr x (y - 1)) -> small32 (cell_at s arr x (y + 1)) ->
  small32 (cell_at s arr (x - 1) y) -> small32 (cell_at s arr (x + 1) y) ->
  same_value (linearSolve_cell s arr prevArr k (set1_ps IEEE.arith k)
                               one32 (set1_ps IEEE.arith one32) (x + y * size s))
             (cell_at s prevArr x y).
Proof.
  intros Hx Zk Vp Hu Hd Hl Hr.
  rewrite (linearSolve_cell_paths (A:=IEEE.arith)) by assumption. cbv zeta.
  destruct (x <? after_stride8 1 (size s - 9)).
  - assert (C : same_value
                  (ffma IEEE.arith (cell_at s arr x (y + 1)) k
                     (ffma IEEE.arith (cell_at s arr (x + 1) y) k
                        (ffma IEEE.arith (cell_at s arr (x - 1) y) k
                           (ffma IEEE.arith (cell_at s arr x (y - 1)) k
                              (cell_at s prevArr x y)))))
                  (cell_at s prevArr x y)).
    { eapply same_value_trans; [apply fma_zero; [now apply small32_finite|exact Zk]|].
      eapply same_value_trans; [apply fma_zero; [now apply small32_finite|exact Zk]|].
      eapply same_value_trans; [apply fma_zero; [now apply small32_finite|exact Zk]|].
      apply fma_zero; [now apply small32_finite|exact Zk]. }
    rewrite mul_one_r by (apply (same_value_valid _ _ C Vp)). exact C.
  - pose proof (neighbours_finite _ _ _ _ Hu Hd Hl Hr) as Fs.
    pose proof (mul_zero_l _ k Fs Zk) as Zs.
    pose proof (add_zero_r (cell_at s prevArr x y) _ Zs) as C.
    rewrite mul_one_r by (apply (same_value_valid _ _ C Vp)). exact C.
Qed.

(** ** The parameters of a step with dt = 0 *)

Lemma d_of_int_finite (n : Z) :
  0 < n < 2 ^ 53 -> is_finite (d_of_int IEEE.arith n) = true.
Proof.
  intros Hn.
  destruct (normalize_int IEEE.prec64 IEEE.emax64 scale prec64_pos emax64_gt scale64 n Hn)
    as (m & e & E1 & _).
  cbn [d_of_int IEEE.arith]. unfold IEEE.of_Z. now rewrite E1.
Qed.

Lemma f_of_int_finite (n : Z) :
  0 < n < 2 ^ 24 -> is_finite (f_of_int IEEE.arith n) = true.
Proof.
  intros Hn. destruct (of_int_pos n Hn) as (m & e & E1 & _). now rewrite E1.
Qed.

Lemma dmul_zero_l (a z : spec_float) :
  is_finite a = true -> zero_float z = true ->
  zero_float (dmul IEEE.arith z a) = true.
Proof.
  destruct a; try discriminate; destruct z; try discriminate; reflexivity.
Qed.

Lemma dmul_zero_r (a z : spec_float) :
  is_finite a = true -> zero_float z = true ->
  zero_float (dmul IEEE.arith a z) = true.
Proof.
  destruct a; try discriminate; destruct z; try discriminate; reflexivity.
Qed.

Lemma zero_float_finite (z : spec_float) : zero_float z = true -> is_finite z = true.
Proof. destruct z; try discriminate; reflexivity. Qed.

(** k = (float) (rate * 0 * N * N) is a zero. *)
Lemma diffuse_k_zero (n : Z) (rate : spec_float) :
  0 < n < 2 ^ 53 -> is_finite rate = true ->
  zero_float (diffuse_neighborDiffusion IEEE.arith n (f_of_int IEEE.arith 0) rate) = true.
Proof.
  intros Hn Hr. unfold diffuse_neighborDiffusion.
  pose proof (d_of_int_finite n Hn) as Fn.
  assert (Z1 : zero_float (dmul IEEE.arith rate (d_of_f IEEE.arith (f_of_int IEEE.arith 0)))
               = true) by (apply dmul_zero_r; [exact Hr|reflexivity]).
  pose proof (dmul_zero_l _ _ Fn Z1) as Z2.
  pose proof (dmul_zero_l _ _ Fn Z2) as Z3.
  revert Z3. generalize (dmul IEEE.arith
    (dmul IEEE.arith (dmul IEEE.arith rate (d_of_f IEEE.arith (f_of_int IEEE.arith 0)))
          (d_of_int IEEE.arith n)) (d_of_int IEEE.arith n)).
  intros a Za. destruct a; try discriminate. reflexivity.
Qed.

(** With a zero k the scaling 1 + 4 k is 1, and so is its reciprocal. *)
Lemma diffuse_reciprocal_one (k : spec_float) :
  zero_float k = true ->
  fdiv IEEE.arith (f_lit IEEE.arith 1 0) (diffuse_scaling IEEE.arith k) = one32.
Proof. destruct k as [[|]| | |]; try discriminate; intros _; reflexivity. Qed.

(** The fade factor of dt = 0 and fadeRate = 0 is 1. *)
Lemma fade_factor_one (n : Z) :
  0 < n < 2 ^ 53 ->
  f_of_d IEEE.arith
    (fade_factor IEEE.arith n (f_of_int IEEE.arith 0) (d_of_int IEEE.arith 0)) = one32.
Proof.
  intros Hn. unfold fade_factor.
  pose proof (d_of_int_finite n Hn) as Fn.
  assert (Z1 : zero_float (dmul IEEE.arith
                 (dmul IEEE.arith (d_of_f IEEE.arith (f_of_int IEEE.arith 0))
                       (d_of_int IEEE.arith 0)) (d_of_int IEEE.arith n)) = true)
    by (apply dmul_zero_l; [exact Fn|reflexivity]).
  revert Z1. generalize (dmul IEEE.arith
    (dmul IEEE.arith (d_of_f IEEE.arith (f_of_int IEEE.arith 0)) (d_of_int IEEE.arith 0))
    (d_of_int IEEE.arith n)).
  intros a Za. destruct a; try discriminate. reflexivity.
Qed.

(** dt * N is a zero for dt = 0. *)
Lemma advect_scaling_zero (n : Z) :
  0 < n < 2 ^ 24 ->
  zero_float (fmul IEEE.arith (f_of_int IEEE.arith 0) (f_of_int IEEE.arith n)) = true.
Proof. intros Hn. apply mul_zero_l; [now apply f_of_int_finite|reflexivity]. Qed.

Section ZeroDt.

Variable pool : Z -> list (Z * Z).

(** A buffer bounded without a direction whose interior is small is small
    on the whole grid. *)
Lemma setBounds_NONE_small (q : block) (t : FluidGrid IEEE.arith) :
  3 <= size t ->
  (forall x y, 1 <= x <= size t - 2 -> 1 <= y <= size t - 2 ->
     small32 (mem (setBounds NONE q t) q (x + y * size t))) ->
  all_small (setBounds NONE q t) q.
Proof.
  intros Hn Hi. unfold all_small, cell_at. rewrite setBounds_size.
  set (n := size t) in *. set (u := setBounds NONE q t) in *.
  assert (Edge : forall i, 1 <= i <= n - 2 ->
            small32 (mem u q (0 + i * n)) /\ small32 (mem u q ((n - 1) + i * n)) /\
            small32 (mem u q (i + 0 * n)) /\ small32 (mem u q (i + (n - 1) * n))).
  { intros i Hi'.
    destruct (setBounds_edge_cells NONE q t i Hi') as (H1 & H2 & H3 & H4).
    cbn [is_horizontal is_vertical neg_if] in H1, H2, H3, H4.
    fold n in H1, H2, H3, H4. fold u in H1, H2, H3, H4.
    pose proof (setBounds_interior NONE q t q) as HI. fold n in HI. fold u in HI.
    rewrite H1, H2, H3, H4.
    rewrite <- (HI 1 i), <- (HI (n - 2) i), <- (HI i 1), <- (HI i (n - 2)) by lia.
    repeat split; apply Hi; lia. }
  destruct (setBounds_corner_cells NONE q t Hn) as (C1 & C2 & C3 & C4).
  fold n in C1, C2, C3, C4. fold u in C1, C2, C3, C4.
  intros x y Hx Hy.
  destruct (Z.eq_dec x 0) as [->|Nx0]; [|destruct (Z.eq_dec x (n - 1)) as [->|Nx1]];
    (destruct (Z.eq_dec y 0) as [->|Ny0]; [|destruct (Z.eq_dec y (n - 1)) as [->|Ny1]]).
  - rewrite C1. apply corner_small; [apply (Edge 1)|apply (Edge 1)]; lia.
  - rewrite C3. apply corner_small; [apply (Edge (n - 2))|apply (Edge 1)]; lia.
  - apply (Edge y); lia.
  - rewrite C2. apply corner_small; [apply (Edge (n - 2))|apply (Edge 1)]; lia.
  - rewrite C4. apply corner_small; [apply (Edge (n - 2))|apply (Edge (n - 2))]; lia.
  - apply (Edge y); lia.
  - apply (Edge x); lia.
  - apply (Edge x); lia.
  - apply Hi; lia.
Qed.

(** One turn with k = 0 and a reciprocal of 1: the interior of the
    previous buffer, and a buffer that is small again. *)
Lemma relaxation_turn_k0 (prevArr : block) (k : spec_float)
      (s : FluidGrid IEEE.arith) (arr : block) :
  zero_float k = true ->
  tmp s <> arr -> tmp s <> prevArr ->
  covers_interior (size s) (pool (size s)) = true -> 3 <= size s ->
  all_small s arr -> all_small s prevArr ->
  let st := linearSolve_iteration (A:=IEEE.arith) pool NONE prevArr k one32 (s, arr) in
  all_small (fst st) (tmp s) /\
  forall x y, 1 <= x <= size s - 2 -> 1 <= y <= size s - 2 ->
    same_value (cell_at (fst st) (tmp s) x y) (cell_at s prevArr x y).
Proof.
  intros Zk Hta Htp Hcov Hn Sa Sp. cbv zeta.
  pose proof (linearSolve_iteration_frame (A:=IEEE.arith) pool NONE prevArr k one32 s arr)
    as Hf.
  cbv zeta in Hf. destruct Hf as (Fa & _ & _ & _).
  assert (Hsz : size (fst (linearSolve_iteration (A:=IEEE.arith) pool NONE prevArr k one32
                             (s, arr))) = size s) by apply Fa.
  assert (Int : forall x y, 1 <= x <= size s - 2 -> 1 <= y <= size s - 2 ->
            same_value (mem (fst (linearSolve_iteration (A:=IEEE.arith) pool NONE prevArr
                                    k one32 (s, arr))) (tmp s) (x + y * size s))
                       (cell_at s prevArr x y)).
  { intros x y Hx Hy.
    rewrite linearSolve_iteration_cells; try assumption.
    - apply relaxation_cell_k0; try assumption.
      + apply small32_valid, Sp; lia.
      + apply Sa; lia.
      + apply Sa; lia.
      + apply Sa; lia.
      + apply Sa; lia.
    - now apply covers_interior_in_chunks. }
  split.
  - revert Int Hsz. unfold linearSolve_iteration. cbv zeta. cbn [fst].
    set (s1 := computeOnThreads pool (size s) _ s).
    assert (H1 : based_on s [tmp s] s1).
    { apply computeOnThreads_inv; [|apply based_on_refl].
      intros a b t Ht. now apply linearSolveLoop_based; [left|]. }
    rewrite (based_on_tmp _ _ _ H1).
    intros Int Hsz.
    assert (Hs2 : size (set_tmp s1 arr) = size s) by exact (based_on_size _ _ _ H1).
    apply setBounds_NONE_small; [rewrite Hs2; exact Hn|].
    rewrite Hs2. intros x y Hx Hy.
    apply (same_value_small _ _ (Int x y Hx Hy)). apply Sp; lia.
  - intros x y Hx Hy. unfold cell_at at 1. rewrite Hsz. now apply Int.
Qed.

(** The relaxation loop with k = 0. *)
Lemma relaxation_k0 (i : nat) (arr prevArr : block) (k sc : spec_float)
      (s : FluidGrid IEEE.arith) :
  zero_float k = true ->
  fdiv IEEE.arith (f_lit IEEE.arith 1 0) sc = one32 ->
  tmp s <> arr -> tmp s <> prevArr -> arr <> prevArr ->
  covers_interior (size s) (pool (size s)) = true -> 3 <= size s ->
  all_small s arr -> all_small s prevArr ->
  let st := linearSolve_loop (A:=IEEE.arith) pool NONE (Z.of_nat i) arr prevArr k sc s in
  all_small (fst st) (snd st) /\
  ((1 <= i)%nat ->
   forall x y, 1 <= x <= size s - 2 -> 1 <= y <= size s - 2 ->
     same_value (cell_at (fst st) (snd st) x y) (cell_at s prevArr x y)).
Proof.
  intros Zk Hr Hta Htp Hap Hcov Hn Sa Sp. cbv zeta.
  induction i as [|i IH].
  - split; [exact Sa|lia].
  - rewrite linearSolve_loop_succ, Hr.
    pose proof (linearSolve_loop_pointers (A:=IEEE.arith) pool NONE i arr prevArr k sc s)
      as Hp.
    cbv zeta in Hp.
    destruct (linearSolve_loop (A:=IEEE.arith) pool NONE (Z.of_nat i) arr prevArr k sc s)
      as [sb cur].
    cbn [fst snd] in Hp, IH. destruct Hp as (Fb & Ob & Pb). destruct IH as [Sb _].
    assert (Hsz : size sb = size s) by apply Fb.
    assert (Hd : tmp sb <> cur /\ tmp sb <> prevArr).
    { destruct (Nat.even i); destruct Pb as [-> ->]; split; congruence. }
    destruct Hd as [Hd1 Hd2].
    assert (Ep : forall j, mem sb prevArr j = mem s prevArr j).
    { intros j. apply Ob. simpl. intros [E|[E|[]]]; congruence. }
    assert (Spb : all_small sb prevArr).
    { intros x y Hx Hy. unfold cell_at. rewrite Ep, Hsz. apply Sp; lia. }
    destruct (relaxation_turn_k0 prevArr k sb cur Zk Hd1 Hd2
                ltac:(rewrite Hsz; exact Hcov) ltac:(lia) Sb Spb) as [T1 T2].
    pose proof (linearSolve_iteration_frame (A:=IEEE.arith) pool NONE prevArr k one32 sb cur)
      as Hf.
    cbv zeta in Hf. destruct Hf as (_ & Sa' & _ & _).
    rewrite Sa'. split; [exact T1|].
    intros _ x y Hx Hy.
    eapply same_value_trans; [apply T2; rewrite Hsz; assumption|].
    unfold cell_at. rewrite Ep, Hsz. apply same_value_refl.
Qed.

(** The density part of [step] with a zero time step, after a velocity
    part that left the density buffers alone. *)
Lemma density_stages_zero_dt (n : nat) (diffusionRate : spec_float)
      (s st : FluidGrid IEEE.arith) :
  Nat.even n = true -> (2 <= n)%nat ->
  distinct_buffers s ->
  covers_interior (size s) (pool (size s)) = true ->
  3 <= size s <= 2 ^ 23 ->
  is_finite diffusionRate = true ->
  all_small s (density s) -> all_small s (prevDensity s) ->
  velocity_frame s st ->
  let s1 := swap_density st in
  let s2 := diffuse (A:=IEEE.arith) pool NONE (Z.of_nat n) (density s1) (prevDensity s1)
                    (f_of_int IEEE.arith 0) diffusionRate s1 in
  let s3 := swap_density s2 in
  let s4 := advect (A:=IEEE.arith) pool NONE (density s3) (prevDensity s3)
                   (velocityX s3) (velocityY s3) (f_of_int IEEE.arith 0) s3 in
  let s' := fadeDensity (A:=IEEE.arith) (f_of_int IEEE.arith 0) (d_of_int IEEE.arith 0) s4 in
  (forall x y, 1 <= x <= size s - 2 -> 1 <= y <= size s - 2 ->
     is_finite (cell_at s' (velocityX s') x y) = true /\
     is_finite (cell_at s' (velocityY s') x y) = true) ->
  density s' = density s /\
  forall x y, 1 <= x <= size s - 2 -> 1 <= y <= size s - 2 ->
    feqb IEEE.arith (cell_at s' (density s) x y) (cell_at s (density s) x y) = true.
Proof.
  intros Hev Hn Hnd Hcov Hsize Hrate SP SQ (V1 & V2 & V3 & V4 & V5 & V6).
  assert (H23 : 0 < 2 ^ 23) by reflexivity.
  assert (H24 : 2 ^ 24 = 2 * 2 ^ 23) by reflexivity.
  assert (H53 : 2 ^ 24 < 2 ^ 53) by reflexivity.
  unfold distinct_buffers in Hnd.
  assert (Dist : density s <> prevDensity s /\ tmp s <> density s /\
                 tmp s <> prevDensity s /\
                 ~ In (density s) (tmp s :: velocity_blocks s) /\
                 ~ In (prevDensity s) (tmp s :: velocity_blocks s) /\
                 ~ In (density s) (velocity_blocks s)).
  { unfold velocity_blocks.
    repeat match goal with
           | H : NoDup (_ :: _) |- _ => inversion H; clear H; subst
           end.
    simpl in *. intuition congruence. }
  destruct Dist as (D1 & D2 & D3 & D4 & D4' & D5).
  intros s1.
  assert (A1 : size s1 = size s) by exact V1.
  assert (A2 : density s1 = prevDensity s) by exact V3.
  assert (A3 : prevDensity s1 = density s) by exact V2.
  assert (A4 : tmp s1 = tmp s) by exact V4.
  assert (A5 : velocityX s1 = velocityX st) by reflexivity.
  assert (A6 : velocityY s1 = velocityY st) by reflexivity.
  assert (A7 : forall q j, mem s1 q j = mem st q j) by reflexivity.
  clearbody s1. rewrite A2, A3. intros s2.
  (* diffusion of the density *)
  assert (SP1 : all_small s1 (density s)).
  { intros x y Hx Hy. unfold cell_at. rewrite A7, (V6 (density s) D4), A1.
    apply SP; lia. }
  assert (SQ1 : all_small s1 (prevDensity s)).
  { intros x y Hx Hy. unfold cell_at. rewrite A7, (V6 (prevDensity s) D4'), A1.
    apply SQ; lia. }
  assert (B2 : based_on s1 [tmp s1; prevDensity s] s2)
    by apply (diffuse_even_based (A:=IEEE.arith) pool NONE n (prevDensity s) (density s)
                (f_of_int IEEE.arith 0) diffusionRate s1 Hev).
  assert (R2 : all_small s2 (prevDensity s) /\
               forall x y, 1 <= x <= size s - 2 -> 1 <= y <= size s - 2 ->
                 same_value (cell_at s2 (prevDensity s) x y) (cell_at s (density s) x y)).
  { subst s2. unfold diffuse. cbv zeta. unfold linearSolve.
    set (kk := diffuse_neighborDiffusion IEEE.arith (size s1) (f_of_int IEEE.arith 0)
                 diffusionRate).
    assert (Hk : zero_float kk = true).
    { apply diffuse_k_zero; [rewrite A1; lia|exact Hrate]. }
    pose proof (diffuse_reciprocal_one kk Hk) as Hr.
    pose proof (linearSolve_loop_pointers (A:=IEEE.arith) pool NONE n
                  (prevDensity s) (density s) kk
                  (diffuse_scaling IEEE.arith kk) s1) as Hp.
    cbv zeta in Hp. destruct Hp as (_ & _ & Pn). rewrite Hev in Pn.
    destruct Pn as [Pa _].
    pose proof (relaxation_k0 n (prevDensity s) (density s)
                  kk (diffuse_scaling IEEE.arith kk) s1 Hk Hr
                  ltac:(congruence) ltac:(congruence) ltac:(congruence)
                  ltac:(rewrite A1; exact Hcov) ltac:(lia) SQ1 SP1) as Hrel.
    cbv zeta in Hrel. rewrite Pa in Hrel. destruct Hrel as [Ra Rb].
    split; [exact Ra|].
    intros x y Hx Hy.
    eapply same_value_trans; [apply Rb; [lia|rewrite A1; assumption..]|].
    unfold cell_at. rewrite A7, (V6 (density s) D4), A1. apply same_value_refl. }
  destruct R2 as [S2 R2].
  destruct B2 as (F2 & T2 & O2).
  destruct F2 as (G1 & G2 & G3 & G4 & _ & G6 & _).
  clearbody s2. intros s3.
  assert (C1 : size s3 = size s) by (exact (eq_trans G1 A1)).
  assert (C2 : density s3 = density s) by (exact (eq_trans G3 A3)).
  assert (C3 : prevDensity s3 = prevDensity s) by (exact (eq_trans G2 A2)).
  assert (C4 : velocityX s3 = velocityX st) by (exact (eq_trans G4 A5)).
  assert (C5 : velocityY s3 = velocityY st) by (exact (eq_trans G6 A6)).
  assert (C6 : forall q j, mem s3 q j = mem s2 q j) by reflexivity.
  clearbody s3. rewrite C2, C3, C4, C5. intros s4.
  (* advection of the density *)
  assert (Hvx : In (velocityX st) (velocity_blocks s)).
  { apply V5. now left. }
  assert (Hvy : In (velocityY st) (velocity_blocks s)).
  { apply V5. right; right; now left. }
  assert (B4 : based_on s3 [density s] s4)
    by apply (advect_based (A:=IEEE.arith) pool s3 [density s] NONE (density s)
                (prevDensity s) (velocityX st) (velocityY st) (f_of_int IEEE.arith 0) s3
                (or_introl eq_refl) (based_on_refl s3 [density s])).
  assert (R4 : (forall x y, 1 <= x <= size s - 2 -> 1 <= y <= size s - 2 ->
                  is_finite (cell_at s3 (velocityX st) x y) = true /\
                  is_finite (cell_at s3 (velocityY st) x y) = true) ->
               forall x y, 1 <= x <= size s - 2 -> 1 <= y <= size s - 2 ->
                 same_value (cell_at s4 (density s) x y)
                            (cell_at s3 (prevDensity s) x y)).
  { intros Hfin x y Hx Hy. subst s4.
    apply advect_undisplaced.
    - exact D1.
    - intros E. apply D5. now rewrite E.
    - intros E. apply D5. now rewrite E.
    - rewrite C1. apply (covers_interior_nonempty (size s)); [lia|exact Hcov].
    - rewrite C1. lia.
    - rewrite C1. intros x' y' Hx' Hy'.
      destruct (Hfin x' y' Hx' Hy') as [Fx Fy].
      split; apply mul_zero_r; try assumption; apply advect_scaling_zero; lia.
    - rewrite C1. intros x' y' Hx' Hy'.
      assert (Sm : small32 (cell_at s3 (prevDensity s) x' y')).
      { unfold cell_at. rewrite C6, C1, <- A1, <- G1.
        apply S2; rewrite G1, A1; lia. }
      split; [now apply small32_valid|now apply small32_finite].
    - now rewrite C1.
    - now rewrite C1. }
  destruct B4 as (F4 & _ & O4). destruct F4 as (K1 & K2 & _ & K4 & _ & K6 & _).
  clearbody s4. intros s'.
  assert (E1 : size s4 = size s) by (exact (eq_trans K1 C1)).
  assert (E2 : density s4 = density s) by (exact (eq_trans K2 C2)).
  (* fading *)
  pose proof (fadeDensity_based (A:=IEEE.arith) s4 [density s4]
                (f_of_int IEEE.arith 0) (d_of_int IEEE.arith 0) s4
                (or_introl eq_refl) (based_on_refl s4 [density s4])) as B5.
  destruct B5 as (F5 & _ & O5). destruct F5 as (L1 & L2 & _ & L4 & _ & L6 & _).
  fold s' in L1, L2, L4, L6, O5.
  assert (Cells : forall x y, 1 <= x <= size s - 2 -> 1 <= y <= size s - 2 ->
            cell_at s' (density s) x y
            = fmul IEEE.arith (cell_at s4 (density s) x y) one32).
  { intros x y Hx Hy. unfold cell_at. rewrite L1, E1. unfold s'.
    rewrite <- E2 at 1. rewrite <- E1 at 1.
    rewrite fadeDensity_cells by (rewrite E1; assumption).
    rewrite E1, E2, fade_factor_one by lia. reflexivity. }
  clearbody s'. intros Hv.
  split; [exact (eq_trans L2 E2)|].
  intros x y Hx Hy.
  assert (Hfin : forall x y, 1 <= x <= size s - 2 -> 1 <= y <= size s - 2 ->
            is_finite (cell_at s3 (velocityX st) x y) = true /\
            is_finite (cell_at s3 (velocityY st) x y) = true).
  { intros x' y' Hx' Hy'. destruct (Hv x' y' Hx' Hy') as [Fx Fy].
    rewrite L4, K4, C4 in Fx. rewrite L6, K6, C5 in Fy.
    unfold cell_at in *. rewrite L1, E1 in Fx, Fy. rewrite C1.
    assert (Nx : ~ In (velocityX st) [density s4]).
    { rewrite E2. simpl. intros [E|[]]. apply D5. now rewrite E. }
    assert (Ny : ~ In (velocityY st) [density s4]).
    { rewrite E2. simpl. intros [E|[]]. apply D5. now rewrite E. }
    rewrite (O5 _ Nx) in Fx. rewrite (O5 _ Ny) in Fy.
    rewrite E2 in Nx, Ny.
    rewrite (O4 _ Nx) in Fx. rewrite (O4 _ Ny) in Fy.
    split; assumption. }
  pose proof (R4 Hfin x y Hx Hy) as Q4. pose proof (R2 x y Hx Hy) as Q2.
  assert (Q : same_value (cell_at s4 (density s) x y) (cell_at s (density s) x y)).
  { eapply same_value_trans; [exact Q4|].
    unfold cell_at in Q2 |- *. rewrite G1, A1 in Q2. rewrite C1, C6. exact Q2. }
  assert (Sm : small32 (cell_at s (density s) x y)) by (apply SP; lia).
  rewrite Cells by assumption.
  rewrite mul_one_r by (apply (same_value_valid _ _ Q), small32_valid, Sm).
  apply same_value_feq; [|exact Q].
  pose proof (small32_finite _ Sm) as Fi.
  destruct (cell_at s (density s) x y); try discriminate; reflexivity.
Qed.

(** C3, amended: for a grid of 3 to 2^23 columns whose seven buffers are
    distinct, an even iteration count of at least 2, a finite diffusion
    rate, any viscosity and fadeRate 0, [step] with dt = 0 keeps the
    density pointer and leaves every interior density cell numerically
    unchanged (the same float, or a zero for a zero), provided every cell
    of the two density buffers is a finite float of magnitude at most
    2^100 and the velocity the step ends with is finite at the interior
    cells.  (The boundary ring of the density is set again by [setBounds],
    and the velocity is changed by the projections.) *)
Theorem step_zero_dt_keeps_density (n : nat) (diffusionRate viscosity : spec_float)
        (s : FluidGrid IEEE.arith) :
  Nat.even n = true -> (2 <= n)%nat ->
  distinct_buffers s ->
  covers_interior (size s) (pool (size s)) = true ->
  3 <= size s <= 2 ^ 23 ->
  is_finite diffusionRate = true ->
  all_small s (density s) -> all_small s (prevDensity s) ->
  let s' := step (A:=IEEE.arith) pool (f_of_int IEEE.arith 0) (Z.of_nat n)
                 diffusionRate viscosity (d_of_int IEEE.arith 0) s in
  (forall x y, 1 <= x <= size s - 2 -> 1 <= y <= size s - 2 ->
     is_finite (cell_at s' (velocityX s') x y) = true /\
     is_finite (cell_at s' (velocityY s') x y) = true) ->
  density s' = density s /\
  forall x y, 1 <= x <= size s - 2 -> 1 <= y <= size s - 2 ->
    feqb IEEE.arith (cell_at s' (density s) x y) (cell_at s (density s) x y) = true.
Proof.
  intros Hev Hn Hnd Hcov Hsize Hrate SP SQ. cbv zeta.
  apply (step_stages IEEE.arith pool (f_of_int IEEE.arith 0) n diffusionRate viscosity
           (d_of_int IEEE.arith 0) s
           (fun s' =>
              (forall x y, 1 <= x <= size s - 2 -> 1 <= y <= size s - 2 ->
                 is_finite (cell_at s' (velocityX s') x y) = true /\
                 is_finite (cell_at s' (velocityY s') x y) = true) ->
              density s' = density s /\
              forall x y, 1 <= x <= size s - 2 -> 1 <= y <= size s - 2 ->
                feqb IEEE.arith (cell_at s' (density s) x y)
                     (cell_at s (density s) x y) = true) Hev).
  intros st Hst.
  exact (density_stages_zero_dt n diffusionRate s st Hev Hn Hnd Hcov Hsize Hrate SP SQ Hst).
Qed.

End ZeroDt.

(** ** Checks of a concrete grid *)

Lemma small32b_small (v : spec_float) : small32b v = true -> small32 v.
Proof.
  unfold small32b. rewrite !andb_true_iff, Z.leb_le. intros [[H1 H2] H3].
  repeat split; assumption.
Qed.

(** A property of the interior cells, checked cell by cell. *)
Lemma interior_check (n : Z) (P : Z -> Z -> bool) :
  forallb (fun y => forallb (fun x => P x y) (upto 1 (n - 1))) (upto 1 (n - 1)) = true ->
  forall x y, 1 <= x <= n - 2 -> 1 <= y <= n - 2 -> P x y = true.
Proof.
  intros H x y Hx Hy. rewrite forallb_forall in H.
  specialize (H y ltac:(apply In_upto; lia)). rewrite forallb_forall in H.
  apply H. apply In_upto. lia.
Qed.

Lemma grid_check (n : Z) (P : Z -> Z -> bool) :
  forallb (fun y => forallb (fun x => P x y) (upto 0 n)) (upto 0 n) = true ->
  forall x y, 0 <= x <= n - 1 -> 0 <= y <= n - 1 -> P x y = true.
Proof.
  intros H x y Hx Hy. rewrite forallb_forall in H.
  specialize (H y ltac:(apply In_upto; lia)). rewrite forallb_forall in H.
  apply H. apply In_upto. lia.
Qed.

(** * The projection without relaxation, in binary32 *)

(** The gradient of a pressure that is +0 on both sides leaves a velocity
    as it is, whatever it holds, in both loops. *)
Lemma gradient_step_zero (n : Z) (v : spec_float) :
  0 < n < 2 ^ 24 ->
  let z := S754_zero false in
  ffma IEEE.arith (fmul IEEE.arith (fsub IEEE.arith z z) (f_of_int IEEE.arith n))
       (f_lit IEEE.arith (-1) (-1)) v = v /\
  fsub IEEE.arith v (fmul IEEE.arith (fmul IEEE.arith (f_lit IEEE.arith 1 (-1))
                                                      (fsub IEEE.arith z z))
                          (f_of_int IEEE.arith n)) = v.
Proof.
  intros Hn. cbv zeta.
  destruct (of_int_pos n Hn) as (m & e & E & _). rewrite E.
  split; destruct v as [[|]|[|]| |[|] mv ev]; reflexivity.
Qed.

(** Without a direction, [setBounds] extends an interior of +0 to the
    whole grid. *)
Lemma setBounds_NONE_zero (q : block) (t : FluidGrid IEEE.arith) :
  3 <= size t ->
  (forall x y, 1 <= x <= size t - 2 -> 1 <= y <= size t - 2 ->
     mem t q (x + y * size t) = S754_zero false) ->
  forall x y, 0 <= x <= size t - 1 -> 0 <= y <= size t - 1 ->
    mem (setBounds NONE q t) q (x + y * size t) = S754_zero false.
Proof.
  intros Hn Hi.
  set (n := size t) in *. set (u := setBounds NONE q t) in *.
  assert (Edge : forall i, 1 <= i <= n - 2 ->
            mem u q (0 + i * n) = S754_zero false /\
            mem u q ((n - 1) + i * n) = S754_zero false /\
            mem u q (i + 0 * n) = S754_zero false /\
            mem u q (i + (n - 1) * n) = S754_zero false).
  { intros i Hi'.
    destruct (setBounds_edge_cells NONE q t i Hi') as (H1 & H2 & H3 & H4).
    cbn [is_horizontal is_vertical neg_if] in H1, H2, H3, H4.
    fold n in H1, H2, H3, H4. fold u in H1, H2, H3, H4.
    rewrite H1, H2, H3, H4. repeat split; apply Hi; lia. }
  destruct (setBounds_corner_cells NONE q t Hn) as (C1 & C2 & C3 & C4).
  fold n in C1, C2, C3, C4. fold u in C1, C2, C3, C4.
  destruct (Edge 1 ltac:(lia)) as (E1 & E2 & E3 & E4).
  destruct (Edge (n - 2) ltac:(lia)) as (F1 & F2 & F3 & F4).
  intros x y Hx Hy.
  destruct (Z.eq_dec x 0) as [->|Nx0]; [|destruct (Z.eq_dec x (n - 1)) as [->|Nx1]];
    (destruct (Z.eq_dec y 0) as [->|Ny0]; [|destruct (Z.eq_dec y (n - 1)) as [->|Ny1]]).
  - rewrite C1, E3, E1. reflexivity.
  - rewrite C3, F1, E4. reflexivity.
  - apply (Edge y); lia.
  - rewrite C2, F3, E2. reflexivity.
  - rewrite C4, F4, F2. reflexivity.
  - apply (Edge y); lia.
  - apply (Edge x); lia.
  - apply (Edge x); lia.
  - unfold u, n. rewrite (setBounds_interior NONE q t q x y) by (fold n; lia).
    apply Hi; lia.
Qed.

Section Projection32.

Variable pool : Z -> list (Z * Z).

(** The gradient pass where the field [p] is +0 on the grid: the interior
    of the velocity fields keeps its values, however often a row is handed
    out. *)
Lemma massConserv_pass_zero_pressure (p div : block) (s : FluidGrid IEEE.arith) :
  let n := size s in
  let s' := computeOnThreads pool n (fun startIndex endIndex =>
              projectMassConservLoop (A:=IEEE.arith) startIndex endIndex p div) s in
  p <> velocityX s -> p <> velocityY s -> velocityX s <> velocityY s ->
  3 <= n < 2 ^ 24 ->
  (forall x y, 0 <= x <= n - 1 -> 0 <= y <= n - 1 ->
     cell_at s p x y = S754_zero false) ->
  based_on s [velocityX s; velocityY s] s' /\
  forall x y, 1 <= x <= n - 2 -> 1 <= y <= n - 2 ->
    mem s' (velocityX s) (x + y * n) = mem s (velocityX s) (x + y * n) /\
    mem s' (velocityY s) (x + y * n) = mem s (velocityY s) (x + y * n).
Proof.
  cbv zeta. intros Hpx Hpy Hxy Hn Hz.
  set (vx := velocityX s) in *. set (vy := velocityY s) in *.
  apply (computeOnThreads_inv pool
           (fun t => based_on s [vx; vy] t /\
                     forall x y, 1 <= x <= size s - 2 -> 1 <= y <= size s - 2 ->
                       mem t vx (x + y * size s) = mem s vx (x + y * size s) /\
                       mem t vy (x + y * size s) = mem s vy (x + y * size s))).
  - intros a b t [Bt It].
    assert (Ex : velocityX t = vx) by (destruct Bt as (F & _); apply F).
    assert (Ey : velocityY t = vy) by (destruct Bt as (F & _); apply F).
    assert (Hsz : size t = size s) by exact (based_on_size _ _ _ Bt).
    destruct (projectMassConservLoop_maps t p div a b
                ltac:(rewrite Ex; exact Hpx) ltac:(rewrite Ey; exact Hpy)
                ltac:(rewrite Ex, Ey; exact Hxy) t (based_on_refl t _)) as [Bk Mk].
    rewrite ?Ex, ?Ey in Bk. rewrite ?Ex, ?Ey, ?Hsz in Mk.
    split; [eapply based_on_trans; eassumption|].
    assert (Pz : forall x y, 0 <= x <= size s - 1 -> 0 <= y <= size s - 1 ->
                   mem t p (x + y * size s) = S754_zero false).
    { intros x y Hx Hy.
      destruct Bt as (_ & _ & Ot). rewrite (Ot p).
      - now apply Hz.
      - simpl. intros [E|[E|[]]]; congruence. }
    intros x y Hx Hy. destruct (It x y Hx Hy) as [Ix Iy].
    rewrite !Mk. cbn [fst snd].
    rewrite block_eqb_refl, (block_eqb_neq vy vx) by congruence.
    rewrite block_eqb_refl. cbn [orb].
    destruct (in_rows (size s) a b (x + y * size s)); cbn [andb orb].
    + unfold massConserv_cell, load. cbv zeta. rewrite Hsz.
      rewrite cell_col, cell_row by lia.
      rewrite (Pz (x - 1) y), (Pz (x + 1) y), (Pz x (y - 1)), (Pz x (y + 1)) by lia.
      destruct (gradient_step_zero (size s) (mem t vx (x + y * size s)) ltac:(lia))
        as [Gv Gs].
      destruct (gradient_step_zero (size s) (mem t vy (x + y * size s)) ltac:(lia))
        as [Gv' Gs'].
      destruct (x <? after_stride8 1 (size s - 9)).
      * rewrite Gv, Gv'. split; assumption.
      * rewrite Gs, Gs'. split; assumption.
    + split; assumption.
  - split; [apply based_on_refl|]. intros x y _ _. split; reflexivity.
Qed.

(** X25: in binary32, [project] with an iteration count of 0 leaves every
    interior cell of both velocity fields as it is, whatever it holds: the
    pressure whose gradient it subtracts is +0 on the whole grid, and only
    the boundary conditions are applied again.  The grid has 3 to 2^24 - 1
    columns, [p] and [div] are not velocity buffers, and the pool hands
    out every interior row. *)
Theorem project_zero_iterations_keeps_interior (p div : block)
        (s : FluidGrid IEEE.arith) (x y : Z) :
  let n := size s in
  let s' := project (A:=IEEE.arith) pool 0 (velocityX s) (velocityY s) p div s in
  p <> div -> p <> velocityX s -> p <> velocityY s ->
  div <> velocityX s -> div <> velocityY s -> velocityX s <> velocityY s ->
  covers_interior n (pool n) = true -> 3 <= n < 2 ^ 24 ->
  1 <= x <= n - 2 -> 1 <= y <= n - 2 ->
  cell_at s' (velocityX s) x y = cell_at s (velocityX s) x y /\
  cell_at s' (velocityY s) x y = cell_at s (velocityY s) x y.
Proof.
  cbv zeta. intros Hpd Hpx Hpy Hdx Hdy Hxy Hcov Hn Hx Hy.
  set (vx := velocityX s) in *. set (vy := velocityY s) in *.
  destruct (project_heightMap_writes pool s vx vy p div Hpd Hdx Hdy Hpx Hpy
              s (based_on_refl s [div; p])) as [B1 M1].
  unfold project. cbv zeta. unfold project_heightMap.
  set (s1 := computeOnThreads pool (size s) _ s) in *.
  set (s2 := setBounds NONE div s1).
  assert (B2 : based_on s1 [div] s2).
  { apply setBounds_based; [now left|apply based_on_refl]. }
  set (s3 := setBounds NONE p s2).
  assert (B3 : based_on s2 [p] s3).
  { apply setBounds_based; [now left|apply based_on_refl]. }
  assert (Hs1 : size s1 = size s) by exact (based_on_size _ _ _ B1).
  assert (Hs2 : size s2 = size s) by (rewrite <- Hs1; exact (based_on_size _ _ _ B2)).
  assert (Hs3 : size s3 = size s) by (rewrite <- Hs2; exact (based_on_size _ _ _ B3)).
  change (linearSolve pool NONE 0 p div (f_of_int IEEE.arith 1)
                      (f_of_int IEEE.arith 4) s3) with s3.
  assert (B : based_on s [div; p] s3).
  { eapply based_on_trans; [exact B1|].
    eapply based_on_trans.
    - eapply based_on_weaken; [|exact B2]. intros q [<-|[]]. now left.
    - eapply based_on_weaken; [|exact B3]. intros q [<-|[]]. right; now left. }
  assert (Ex : velocityX s3 = vx) by (destruct B as (F & _); apply F).
  assert (Ey : velocityY s3 = vy) by (destruct B as (F & _); apply F).
  assert (Pz : forall cx cy, 0 <= cx <= size s3 - 1 -> 0 <= cy <= size s3 - 1 ->
                 cell_at s3 p cx cy = S754_zero false).
  { intros cx cy Hcx Hcy. unfold cell_at. rewrite Hs3 in *. rewrite <- Hs2.
    apply setBounds_NONE_zero; rewrite ?Hs2; try assumption; try lia.
    intros x' y' Hx' Hy'.
    destruct B2 as (_ & _ & O2). rewrite (O2 p) by (simpl; intros [E|[]]; congruence).
    rewrite M1. cbn [fst snd].
    rewrite (block_eqb_neq p div Hpd), block_eqb_refl.
    rewrite (covers_interior_in_chunks (size s) _ x' y' Hcov Hx' Hy').
    cbn [orb andb]. unfold heightMap_zero.
    destruct (_ <? _); reflexivity. }
  destruct (massConserv_pass_zero_pressure p div s3
              ltac:(rewrite Ex; exact Hpx) ltac:(rewrite Ey; exact Hpy)
              ltac:(rewrite Ex, Ey; exact Hxy) ltac:(rewrite Hs3; exact Hn) Pz)
    as [B5 I5].
  set (s5 := computeOnThreads pool (size s3) _ s3) in *.
  rewrite Ex, Ey, Hs3 in *.
  assert (Hs5 : size s5 = size s) by (rewrite <- Hs3; exact (based_on_size _ _ _ B5)).
  assert (Ex5 : velocityX s5 = vx) by (rewrite <- Ex; destruct B5 as (F & _); apply F).
  rewrite Ex5.
  set (s6 := setBounds HORIZONTAL vx s5).
  assert (Hs6 : size s6 = size s) by (unfold s6; now rewrite setBounds_size).
  assert (Ey6 : velocityY s6 = vy).
  { rewrite <- Ey. unfold s6.
    transitivity (velocityY s5).
    - apply (setBounds_based s5 [vx] HORIZONTAL vx s5 (or_introl eq_refl)
               (based_on_refl s5 [vx])).
    - destruct B5 as (F & _). apply F. }
  rewrite Ey6.
  destruct (I5 x y Hx Hy) as [Ix Iy].
  destruct B as (_ & _ & O).
  unfold cell_at. rewrite setBounds_size, Hs6.
  split.
  - rewrite <- Hs6 at 1. rewrite setBounds_interior by (rewrite Hs6; assumption).
    rewrite Hs6. unfold s6. rewrite <- Hs5 at 1.
    rewrite setBounds_interior by (rewrite Hs5; assumption).
    rewrite Hs5, Ix. rewrite (O vx); [reflexivity|].
    simpl. intros [E|[E|[]]]; congruence.
  - rewrite <- Hs6 at 1. rewrite setBounds_interior by (rewrite Hs6; assumption).
    rewrite Hs6. unfold s6. rewrite <- Hs5 at 1.
    rewrite setBounds_interior by (rewrite Hs5; assumption).
    rewrite Hs5, Iy. rewrite (O vy); [reflexivity|].
    simpl. intros [E|[E|[]]]; congruence.
Qed.

End Projection32.

(** * The theorems at concrete grids *)

Lemma diffuse_iteration_writes_witness :
  let s := store (A:=IEEE.arith) BPrevDensity (5 + 5 * 16) (f_of_int IEEE.arith 1)
            (store BDensity (5 + 4 * 16) (f_lit IEEE.arith 1 100)
              (store BDensity (5 + 6 * 16) (f_lit IEEE.arith (-1) 100)
                (store BDensity (4 + 5 * 16) (f_of_int IEEE.arith 1)
                  (store BDensity (13 + 4 * 16) (f_of_int IEEE.arith 3)
                    (fresh IEEE.arith 16))))) in
  let dt := f_of_int IEEE.arith 1 in
  let rate := d_of_f IEEE.arith (f_lit IEEE.arith 1 (-8)) in
  let k := diffuse_neighborDiffusion IEEE.arith 16 dt rate in
  let r := fdiv IEEE.arith (f_lit IEEE.arith 1 0) (diffuse_scaling IEEE.arith k) in
  let before := diffuse_turns (A:=IEEE.arith) specPool NONE 0
                  BDensity BPrevDensity dt rate s in
  let after := diffuse_turns (A:=IEEE.arith) specPool NONE 1
                  BDensity BPrevDensity dt rate s in
  covers_interior 16 (specPool 16) = true /\
  cell_at (fst after) BTmp 5 5
  = fmul IEEE.arith
      (ffma IEEE.arith (cell_at (fst before) BDensity 5 6) k
         (ffma IEEE.arith (cell_at (fst before) BDensity 6 5) k
            (ffma IEEE.arith (cell_at (fst before) BDensity 4 5) k
               (ffma IEEE.arith (cell_at (fst before) BDensity 5 4) k
                  (cell_at (fst before) BPrevDensity 5 5))))) r /\
  cell_at (fst after) BTmp 13 5
  = fmul IEEE.arith
      (fadd IEEE.arith (cell_at (fst before) BPrevDensity 13 5)
         (fmul IEEE.arith k
            (fadd IEEE.arith
               (fadd IEEE.arith
                  (fadd IEEE.arith (cell_at (fst before) BDensity 13 4)
                                   (cell_at (fst before) BDensity 13 6))
                  (cell_at (fst before) BDensity 12 5))
               (cell_at (fst before) BDensity 14 5)))) r.
Proof.
  cbv zeta. split; [reflexivity|].
  destruct (diffuse_iteration_writes (A:=IEEE.arith) specPool NONE 0 BDensity BPrevDensity
              (f_of_int IEEE.arith 1) (d_of_f IEEE.arith (f_lit IEEE.arith 1 (-8)))
              (store (A:=IEEE.arith) BPrevDensity (5 + 5 * 16) (f_of_int IEEE.arith 1)
                (store BDensity (5 + 4 * 16) (f_lit IEEE.arith 1 100)
                  (store BDensity (5 + 6 * 16) (f_lit IEEE.arith (-1) 100)
                    (store BDensity (4 + 5 * 16) (f_of_int IEEE.arith 1)
                      (store BDensity (13 + 4 * 16) (f_of_int IEEE.arith 3)
                        (fresh IEEE.arith 16))))))
              ltac:(discriminate) ltac:(discriminate) ltac:(discriminate)
              ltac:(reflexivity)) as (_ & _ & H).
  split.
  - exact (H 5 5 ltac:(simpl; lia) ltac:(simpl; lia)).
  - exact (H 13 5 ltac:(simpl; lia) ltac:(simpl; lia)).
Defined.

Lemma project_heightMap_stores_witness :
  let s := store (A:=IEEE.arith) BVelocityX (8 + 5 * 12) (f_of_int IEEE.arith 1)
            (store BVelocityX (4 + 5 * 12) (f_of_int IEEE.arith 1)
              (store BVelocityY (9 + 4 * 12) (f_lit IEEE.arith 1 25)
                (store BVelocityY (9 + 6 * 12) (f_lit IEEE.arith 1 25)
                  (store BVelocityY (5 + 4 * 12) (f_lit IEEE.arith 1 25)
                    (store BVelocityY (5 + 6 * 12) (f_lit IEEE.arith 1 25)
                      (fresh IEEE.arith 12)))))) in
  let s' := project_heightMap specPool BVelocityX BVelocityY
                              BPrevVelocityX BPrevVelocityY s in
  let sizeReciprocal := fdiv IEEE.arith (f_lit IEEE.arith 1 0) (f_of_int IEEE.arith 12) in
  covers_interior 12 (specPool 12) = true /\
  (cell_at s' BPrevVelocityY 9 5
   = fmul IEEE.arith
       (fmul IEEE.arith (f_lit IEEE.arith (-1) (-1))
          (fsub IEEE.arith
             (fadd IEEE.arith
                (fsub IEEE.arith (cell_at s BVelocityX 8 5) (cell_at s BVelocityX 10 5))
                (cell_at s BVelocityY 9 4))
             (cell_at s BVelocityY 9 6))) sizeReciprocal
   /\ cell_at s' BPrevVelocityX 9 5 = f_of_int IEEE.arith 0).
Proof.
  cbv zeta. split; [reflexivity|].
  exact (project_heightMap_stores (A:=IEEE.arith) specPool BVelocityX BVelocityY
           BPrevVelocityX BPrevVelocityY
           (store (A:=IEEE.arith) BVelocityX (8 + 5 * 12) (f_of_int IEEE.arith 1)
             (store BVelocityX (4 + 5 * 12) (f_of_int IEEE.arith 1)
               (store BVelocityY (9 + 4 * 12) (f_lit IEEE.arith 1 25)
                 (store BVelocityY (9 + 6 * 12) (f_lit IEEE.arith 1 25)
                   (store BVelocityY (5 + 4 * 12) (f_lit IEEE.arith 1 25)
                     (store BVelocityY (5 + 6 * 12) (f_lit IEEE.arith 1 25)
                       (fresh IEEE.arith 12)))))))
           ltac:(discriminate) ltac:(discriminate) ltac:(discriminate)
           ltac:(discriminate) ltac:(discriminate) ltac:(reflexivity)
           9 5 ltac:(simpl; lia) ltac:(simpl; lia)).
Defined.

Lemma advect_zero_velocity_identity_witness :
  let s := store (A:=IEEE.arith) BPrevDensity (6 + 5 * 12) (f_lit IEEE.arith 7 (-1))
             (store (A:=IEEE.arith) BPrevDensity (5 + 5 * 12) (f_of_int IEEE.arith 7)
                (fresh IEEE.arith 12)) in
  let dt := f_lit IEEE.arith 1 (-2) in
  nonempty (specPool 12) = true /\
  feqb IEEE.arith
       (cell_at (advect (A:=IEEE.arith) specPool NONE BDensity BPrevDensity
                        BVelocityX BVelocityY dt s) BDensity 5 5)
       (cell_at s BPrevDensity 5 5) = true.
Proof.
  cbv zeta. split; [reflexivity|].
  apply (advect_zero_velocity_identity specPool NONE BDensity BPrevDensity
           BVelocityX BVelocityY (f_lit IEEE.arith 1 (-2))
           (store (A:=IEEE.arith) BPrevDensity (6 + 5 * 12) (f_lit IEEE.arith 7 (-1))
              (store (A:=IEEE.arith) BPrevDensity (5 + 5 * 12) (f_of_int IEEE.arith 7)
                 (fresh IEEE.arith 12)))).
  - discriminate.
  - discriminate.
  - discriminate.
  - reflexivity.
  - vm_compute. discriminate.
  - reflexivity.
  - intros x y _ _. split; reflexivity.
  - intros x y _ _. unfold cell_at, store, upd. cbn [mem set_mem size tmp density fresh block_eqb andb].
    destruct (x + y * 12 =? 6 + 5 * 12); [split; reflexivity|].
    destruct (x + y * 12 =? 5 + 5 * 12); split; reflexivity.
  - simpl; lia.
  - simpl; lia.
Defined.

Lemma fade_monotone_nonnegative_witness :
  let s := store (A:=IEEE.arith) BDensity (2 + 2 * 6) (f_of_int IEEE.arith 7)
             (store BDensity (3 + 2 * 6) (f_lit IEEE.arith 7 (-1))
                (store BDensity (4 + 4 * 6) (f_lit IEEE.arith 1 (-30))
                   (fresh IEEE.arith 6))) in
  let dt := f_of_int IEEE.arith 1 in
  let rate := d_of_f IEEE.arith (f_lit IEEE.arith 1 (-4)) in
  let r := fade_amount (A:=IEEE.arith) (size s) dt rate in
  dltb IEEE.arith (d_of_int IEEE.arith 0) r = true /\
  dltb IEEE.arith r (d_of_int IEEE.arith 1) = true /\
  fade_monotone_at (A:=IEEE.arith) s dt rate = true.
Proof.
  cbv zeta. split; [reflexivity|]. split; [reflexivity|].
  apply fade_monotone_nonnegative.
  - reflexivity.
  - reflexivity.
  - intros x y Hx Hy.
    pose proof (interior_check 6
      (fun x y =>
         let v := cell_at (store (A:=IEEE.arith) BDensity (2 + 2 * 6) (f_of_int IEEE.arith 7)
                    (store BDensity (3 + 2 * 6) (f_lit IEEE.arith 7 (-1))
                       (store BDensity (4 + 4 * 6) (f_lit IEEE.arith 1 (-30))
                          (fresh IEEE.arith 6)))) BDensity x y in
         valid_binary IEEE.prec32 IEEE.emax32 v && is_finite v && nonneg v)
      eq_refl x y Hx Hy) as H.
    cbv zeta in H. apply andb_true_iff in H. destruct H as [H H3].
    apply andb_true_iff in H. destruct H as [H1 H2].
    split; [exact H1|]. split; [exact H2|exact H3].
Defined.

Lemma step_zero_dt_keeps_density_witness :
  let s := store (A:=IEEE.arith) BPrevDensity (3 + 3 * 10) (f_lit IEEE.arith 5 (-1))
    (addVelocity (A:=IEEE.arith) 5 5 (f_of_int IEEE.arith 3) (f_of_int IEEE.arith (-2))
       (f_lit IEEE.arith 1 (-2))
       (addDensity (A:=IEEE.arith) 5 5 (f_of_int IEEE.arith 100) (f_of_int IEEE.arith 1)
          (addDensity (A:=IEEE.arith) 8 8 (f_lit IEEE.arith 3 (-4)) (f_of_int IEEE.arith 1)
             (fresh IEEE.arith 10)))) in
  let s' := step (A:=IEEE.arith) specPool (f_of_int IEEE.arith 0) 2
              (d_of_f IEEE.arith (f_lit IEEE.arith 1 (-1)))
              (d_of_f IEEE.arith (f_lit IEEE.arith 1 (-10))) (d_of_int IEEE.arith 0) s in
  distinct_buffers s /\
  covers_interior (size s) (specPool (size s)) = true /\
  density s' = density s /\
  feqb IEEE.arith (cell_at s' (density s) 5 5) (cell_at s (density s) 5 5) = true /\
  feqb IEEE.arith (cell_at s' (density s) 8 8) (cell_at s (density s) 8 8) = true.
Proof.
  cbv zeta.
  set (s := store (A:=IEEE.arith) BPrevDensity (3 + 3 * 10) (f_lit IEEE.arith 5 (-1)) _).
  assert (Hd : distinct_buffers s).
  { unfold distinct_buffers. simpl.
    repeat (constructor; [simpl; intuition discriminate|]). constructor. }
  assert (Hv : let s' := step (A:=IEEE.arith) specPool (f_of_int IEEE.arith 0) 2
                           (d_of_f IEEE.arith (f_lit IEEE.arith 1 (-1)))
                           (d_of_f IEEE.arith (f_lit IEEE.arith 1 (-10)))
                           (d_of_int IEEE.arith 0) s in
               forallb (fun y => forallb (fun x =>
                          is_finite (cell_at s' (velocityX s') x y)
                          && is_finite (cell_at s' (velocityY s') x y))
                        (upto 1 (10 - 1))) (upto 1 (10 - 1)) = true)
    by (vm_compute; reflexivity).
  cbv zeta in Hv.
  split; [exact Hd|]. split; [reflexivity|].
  destruct (step_zero_dt_keeps_density specPool 2
              (d_of_f IEEE.arith (f_lit IEEE.arith 1 (-1)))
              (d_of_f IEEE.arith (f_lit IEEE.arith 1 (-10))) s
              eq_refl (le_n 2) Hd eq_refl) as [Hp Hc].
  - vm_compute. split; discriminate.
  - reflexivity.
  - intros x y Hx Hy. apply small32b_small.
    refine (grid_check 10 (fun x y => small32b (cell_at s (density s) x y)) _ x y Hx Hy).
    vm_compute. reflexivity.
  - intros x y Hx Hy. apply small32b_small.
    refine (grid_check 10 (fun x y => small32b (cell_at s (prevDensity s) x y))
                       _ x y Hx Hy).
    vm_compute. reflexivity.
  - intros x y Hx Hy. apply andb_true_iff.
    exact (interior_check 10 _ Hv x y Hx Hy).
  - split; [exact Hp|]. split; apply Hc; simpl; lia.
Defined.

(** * The further theorems at concrete inputs *)

Lemma setBounds_mirrors_edges_witness :
  let s := store (A:=IEEE.arith) BVelocityX (1 + 3 * 10) (f_of_int IEEE.arith 7)
                 (fresh IEEE.arith 10) in
  let s' := setBounds HORIZONTAL BVelocityX s in
  cell_at s' BVelocityX 0 3 = neg_if IEEE.arith true (cell_at s' BVelocityX 1 3) /\
  cell_at s' BVelocityX (size s - 1) 3
  = neg_if IEEE.arith true (cell_at s' BVelocityX (size s - 2) 3) /\
  cell_at s' BVelocityX 3 0 = neg_if IEEE.arith false (cell_at s' BVelocityX 3 1) /\
  cell_at s' BVelocityX 3 (size s - 1)
  = neg_if IEEE.arith false (cell_at s' BVelocityX 3 (size s - 2)).
Proof.
  cbv zeta.
  apply (setBounds_mirrors_edges (A:=IEEE.arith) HORIZONTAL BVelocityX
           (store (A:=IEEE.arith) BVelocityX (1 + 3 * 10) (f_of_int IEEE.arith 7)
                  (fresh IEEE.arith 10)) 3).
  simpl; lia.
Defined.

Lemma setBounds_averages_corners_witness :
  let s := store (A:=IEEE.arith) BDensity (1 + 1 * 10) (f_of_int IEEE.arith 7)
                 (fresh IEEE.arith 10) in
  let s' := setBounds NONE BDensity s in
  let half := f_lit IEEE.arith 1 (-1) in
  cell_at s' BDensity 0 0
  = fmul IEEE.arith half (fadd IEEE.arith (cell_at s' BDensity 1 0)
                                          (cell_at s' BDensity 0 1)) /\
  cell_at s' BDensity (size s - 1) 0
  = fmul IEEE.arith half (fadd IEEE.arith (cell_at s' BDensity (size s - 2) 0)
                                          (cell_at s' BDensity (size s - 1) 1)) /\
  cell_at s' BDensity 0 (size s - 1)
  = fmul IEEE.arith half (fadd IEEE.arith (cell_at s' BDensity 0 (size s - 2))
                                          (cell_at s' BDensity 1 (size s - 1))) /\
  cell_at s' BDensity (size s - 1) (size s - 1)
  = fmul IEEE.arith half
         (fadd IEEE.arith (cell_at s' BDensity (size s - 2) (size s - 1))
                          (cell_at s' BDensity (size s - 1) (size s - 2))).
Proof.
  cbv zeta.
  apply (setBounds_averages_corners (A:=IEEE.arith) NONE BDensity
           (store (A:=IEEE.arith) BDensity (1 + 1 * 10) (f_of_int IEEE.arith 7)
                  (fresh IEEE.arith 10))).
  simpl; lia.
Defined.

Lemma setBounds_idempotent_witness :
  let s := store (A:=IEEE.arith) BDensity (1 + 1 * 10) (f_of_int IEEE.arith 7)
                 (fresh IEEE.arith 10) in
  let s1 := setBounds VERTICAL BDensity s in
  cell_at (setBounds VERTICAL BDensity s1) BDensity 0 0 = cell_at s1 BDensity 0 0.
Proof.
  cbv zeta.
  apply (setBounds_idempotent (A:=IEEE.arith) VERTICAL BDensity
           (store (A:=IEEE.arith) BDensity (1 + 1 * 10) (f_of_int IEEE.arith 7)
                  (fresh IEEE.arith 10)) 0 0).
  - simpl; lia.
  - simpl; lia.
  - simpl; lia.
Defined.

Lemma step_odd_double_free_witness :
  let s := fresh IEEE.arith 10 in
  let s' := step specPool (f_of_int IEEE.arith 1) 1 (d_of_int IEEE.arith 0)
                 (d_of_int IEEE.arith 0) (d_of_int IEEE.arith 0) s in
  FluidGrid_delete s'
  = [density s; prevDensity s; velocityX s; prevVelocityX s;
     velocityY s; prevVelocityY s; prevDensity s] /\
  ~ NoDup (FluidGrid_delete s') /\
  (distinct_buffers s -> ~ In (tmp s) (FluidGrid_delete s')).
Proof.
  cbv zeta.
  apply (step_odd_double_free (A:=IEEE.arith) specPool (f_of_int IEEE.arith 1) 1
           (d_of_int IEEE.arith 0) (d_of_int IEEE.arith 0) (d_of_int IEEE.arith 0)
           (fresh IEEE.arith 10)).
  reflexivity.
Defined.

Lemma linearSolve_result_bounded_witness :
  let s := fresh IEEE.arith 10 in
  let n := size s in
  let result := iteration_result specPool HORIZONTAL BVelocityX BPrevVelocityX
                  (f_of_int IEEE.arith 1) (f_of_int IEEE.arith 5) s 1 in
  result (0 + 3 * n) = neg_if IEEE.arith true (result (1 + 3 * n)) /\
  result ((n - 1) + 3 * n) = neg_if IEEE.arith true (result ((n - 2) + 3 * n)) /\
  result (3 + 0 * n) = neg_if IEEE.arith false (result (3 + 1 * n)) /\
  result (3 + (n - 1) * n) = neg_if IEEE.arith false (result (3 + (n - 2) * n)).
Proof.
  cbv zeta.
  apply (linearSolve_result_bounded (A:=IEEE.arith) specPool HORIZONTAL 0
           BVelocityX BPrevVelocityX (f_of_int IEEE.arith 1) (f_of_int IEEE.arith 5)
           (fresh IEEE.arith 10) 3).
  simpl; lia.
Defined.

Lemma diffuse_odd_overwrites_previous_target_witness :
  let s := fresh IEEE.arith 10 in
  let dt := f_of_int IEEE.arith 1 in
  let rate := d_of_int IEEE.arith 1 in
  let s1 := diffuse specPool HORIZONTAL 1 BVelocityX BPrevVelocityX dt rate s in
  let s2 := diffuse specPool VERTICAL 1 BVelocityY BPrevVelocityY dt rate s1 in
  let k := diffuse_neighborDiffusion IEEE.arith (size s1) dt rate in
  tmp s1 = BVelocityX /\ tmp s2 = BVelocityY /\
  forall j, mem s2 BVelocityX j
            = iteration_result specPool VERTICAL BVelocityY BPrevVelocityY
                               k (diffuse_scaling IEEE.arith k) s1 1 j.
Proof.
  cbv zeta.
  apply (diffuse_odd_overwrites_previous_target (A:=IEEE.arith) specPool
           HORIZONTAL VERTICAL 1 BVelocityX BPrevVelocityX BVelocityY BPrevVelocityY
           (f_of_int IEEE.arith 1) (d_of_int IEEE.arith 1) (d_of_int IEEE.arith 1)
           (fresh IEEE.arith 10)).
  reflexivity.
Defined.

Lemma linearSolve_pass_schedule_irrelevant_witness :
  let s := fresh IEEE.arith 10 in
  let k := f_of_int IEEE.arith 1 in
  let work := fun startIndex endIndex =>
                linearSolveLoop startIndex endIndex BDensity BPrevDensity
                                k (set1_ps IEEE.arith k) k (set1_ps IEEE.arith k) in
  mem (computeOnThreads specPool (size s) work s) BTmp 55
  = mem (computeOnThreads (fun n => rev (specPool n)) (size s) work s) BTmp 55.
Proof.
  cbv zeta.
  apply (linearSolve_pass_schedule_irrelevant IEEE.arith specPool
           (fun n => rev (specPool n)) BDensity BPrevDensity
           (f_of_int IEEE.arith 1) (set1_ps IEEE.arith (f_of_int IEEE.arith 1))
           (f_of_int IEEE.arith 1) (set1_ps IEEE.arith (f_of_int IEEE.arith 1))
           (fresh IEEE.arith 10)).
  - discriminate.
  - discriminate.
  - intros c. apply in_rev.
Defined.

Lemma projectMassConservLoop_subtracts_gradient_witness :
  let s := store (A:=IEEE.arith) BPrevVelocityX (4 + 5 * 12) (f_lit IEEE.arith 1 125)
             (store (A:=IEEE.arith) BVelocityX (5 + 5 * 12) (f_of_int IEEE.arith 7)
                (fresh IEEE.arith 12)) in
  let s' := projectMassConservLoop (A:=IEEE.arith) 1 11
              BPrevVelocityX BPrevVelocityY s in
  cell_at s' BVelocityX 5 5
  = ffma IEEE.arith
         (fmul IEEE.arith
            (fsub IEEE.arith (cell_at s BPrevVelocityX 4 5)
                             (cell_at s BPrevVelocityX 6 5))
            (f_of_int IEEE.arith 12))
         (f_lit IEEE.arith (-1) (-1)) (cell_at s BVelocityX 5 5).
Proof.
  cbv zeta.
  exact (proj1 (projectMassConservLoop_subtracts_gradient (A:=IEEE.arith) 1 11
           BPrevVelocityX BPrevVelocityY
           (store (A:=IEEE.arith) BPrevVelocityX (4 + 5 * 12) (f_lit IEEE.arith 1 125)
              (store (A:=IEEE.arith) BVelocityX (5 + 5 * 12) (f_of_int IEEE.arith 7)
                 (fresh IEEE.arith 12)))
           5 5 ltac:(discriminate) ltac:(discriminate) ltac:(discriminate)
           ltac:(lia) ltac:(simpl; lia))).
Defined.

Lemma advect_cells_from_entry_state_witness :
  let s := addVelocity (A:=IEEE.arith) 5 5 (f_of_int IEEE.arith 3) (f_of_int IEEE.arith (-2))
             (f_lit IEEE.arith 1 (-5))
             (store (A:=IEEE.arith) BPrevDensity (4 + 5 * 12) (f_of_int IEEE.arith 7)
                (fresh IEEE.arith 12)) in
  nonempty (specPool 12) = true /\
  cell_at (advect (A:=IEEE.arith) specPool NONE BDensity BPrevDensity
                  BVelocityX BVelocityY (f_lit IEEE.arith 1 (-5)) s) BDensity 5 5
  = advect_vector_cells s BPrevDensity BVelocityX BVelocityY
      (fmul IEEE.arith (f_lit IEEE.arith 1 (-5)) (f_of_int IEEE.arith 12))
      (fsub IEEE.arith (f_of_int IEEE.arith 12) (f_lit IEEE.arith 3 (-1)))
      (vec_base 5) 5 (vec_lane 5).
Proof.
  cbv zeta. split; [reflexivity|].
  exact (advect_cells_from_entry_state (A:=IEEE.arith) specPool NONE
           BDensity BPrevDensity BVelocityX BVelocityY (f_lit IEEE.arith 1 (-5))
           (addVelocity (A:=IEEE.arith) 5 5 (f_of_int IEEE.arith 3) (f_of_int IEEE.arith (-2))
              (f_lit IEEE.arith 1 (-5))
              (store (A:=IEEE.arith) BPrevDensity (4 + 5 * 12) (f_of_int IEEE.arith 7)
                 (fresh IEEE.arith 12)))
           5 5 ltac:(discriminate) ltac:(discriminate) ltac:(discriminate)
           ltac:(reflexivity) ltac:(simpl; lia) ltac:(simpl; lia)).
Defined.

Lemma project_zero_iterations_keeps_interior_witness :
  let s := store (A:=IEEE.arith) BVelocityY (9 + 5 * 12) (f_lit IEEE.arith (-3) (-2))
             (addVelocity (A:=IEEE.arith) 5 5 (f_of_int IEEE.arith 3)
                (f_of_int IEEE.arith (-2)) (f_lit IEEE.arith 1 (-2))
                (fresh IEEE.arith 12)) in
  let s' := project (A:=IEEE.arith) specPool 0 (velocityX s) (velocityY s)
                    BPrevVelocityX BPrevVelocityY s in
  covers_interior (size s) (specPool (size s)) = true /\
  cell_at s' (velocityX s) 5 5 = cell_at s (velocityX s) 5 5 /\
  cell_at s' (velocityY s) 5 5 = cell_at s (velocityY s) 5 5.
Proof.
  cbv zeta. split; [reflexivity|].
  apply (project_zero_iterations_keeps_interior specPool BPrevVelocityX BPrevVelocityY
           (store (A:=IEEE.arith) BVelocityY (9 + 5 * 12) (f_lit IEEE.arith (-3) (-2))
              (addVelocity (A:=IEEE.arith) 5 5 (f_of_int IEEE.arith 3)
                 (f_of_int IEEE.arith (-2)) (f_lit IEEE.arith 1 (-2))
                 (fresh IEEE.arith 12))) 5 5).
  - discriminate.
  - simpl; discriminate.
  - simpl; discriminate.
  - simpl; discriminate.
  - simpl; discriminate.
  - simpl; discriminate.
  - reflexivity.
  - simpl. split; [lia|reflexivity].
  - simpl; lia.
  - simpl; lia.
Defined.
